(** * Levenshtein: distance kernel, edit scripts, medians and assignment

    A shallow embedding of [_levenshtein.c].

    Conventions of the embedding.
    - A C string is a pointer together with a length; here it is a list of
      symbols together with a [nat] length.  Advancing the pointer is [tail],
      indexing is list lookup.  The byte and the wide-character variants of
      a routine differ only in the symbol type, so both are written over an
      arbitrary type with decidable equality.
    - [size_t] values that are lengths, indices or costs are [nat]; every
      subtraction the source performs on them is on operands for which it
      does not wrap, except where noted (there the wrap-around is written
      out over [Z]).
    - [safe_malloc] is not part of the translation unit.  A call is modelled
      by an oracle argument: [None] for a failed allocation, [Some f] for a
      fresh block whose cell [k] initially holds the arbitrary value [f k].
    - A [double] of the median routines [lev_quick_median] and
      [lev_greedy_median], whose results depend on how their sums and
      quotients are rounded, is an IEEE 754 binary64 number: the primitive
      [float] of the prover, every operation rounded to nearest.  In
      [lev_set_median_index], [lev_edit_seq_distance], [lev_set_distance]
      and [munkers_blackman] a [double] is an exact rational ([Q]); what is
      proved of them is stated for exact arithmetic. *)

From stdpp Require Import base list.
From Stdlib Require Import Lia ZArith QArith Qround Qpower Lqa.
From Stdlib Require Strings.Byte.
From Stdlib Require Floats.
Import PrimFloat.PrimFloatNotations.

Local Open Scope nat_scope.

(** ** The distance kernel: [lev_edit_distance] and [lev_u_edit_distance] *)

Section Kernel.
Context {A : Type} `{EqDecision A}.

(* strip common prefix *)
Fixpoint strip_prefix (fuel len1 : nat) (string1 : list A) (len2 : nat) (string2 : list A)
  : nat * list A * nat * list A :=
  match fuel with
  | 0 => (len1, string1, len2, string2)
  | S fuel' =>
      if (0 <? len1) && (0 <? len2) && bool_decide (head string1 = head string2)
      then strip_prefix fuel' (len1 - 1) (tail string1) (len2 - 1) (tail string2)
      else (len1, string1, len2, string2)
  end.

Fixpoint strip_suffix (fuel len1 : nat) (string1 : list A) (len2 : nat) (string2 : list A)
  : nat * nat :=
  match fuel with
  | 0 => (len1, len2)
  | S fuel' =>
      if (0 <? len1) && (0 <? len2)
         && bool_decide (string1 !! (len1 - 1) = string2 !! (len2 - 1))
      then strip_suffix fuel' (len1 - 1) string1 (len2 - 1) string2
      else (len1, len2)
  end.

Definition b2n (b : bool) : nat := if b then 1 else 0.

Definition memchr (string2 : list A) (c : option A) (len2 : nat) : bool :=
  existsb (fun y => bool_decide (Some y = c)) (take len2 string2).

Definition rd (row : list nat) (p : nat) : nat := nth p row 0.

(* inner loop, xcost branch of lev_edit_distance *)
Fixpoint xcost_sweep (k : nat) (char1 : option A) (string2 : list A)
    (p char2p D x : nat) (row : list nat) : list nat :=
  match k with
  | 0 => row
  | S k' =>
      let '(D, x) := if bool_decide (char1 = string2 !! char2p)
                     then (D - 1, D - 1) else (D, x + 1) in
      let D := rd row p in
      let D := D + 1 in
      let x := if D <? x then D else x in
      xcost_sweep k' char1 string2 (p + 1) (char2p + 1) D x (<[p:=x]> row)
  end.

Fixpoint xcost_rows (k i : nat) (string1 string2 : list A) (endp : nat)
    (row : list nat) : list nat :=
  match k with
  | 0 => row
  | S k' =>
      let p := 1 in
      let row := xcost_sweep (endp + 1 - p) (string1 !! (i - 1)) string2 p 0 i i row in
      xcost_rows k' (i + 1) string1 string2 endp row
  end.

(* inner loop, xcost branch of lev_u_edit_distance *)
Fixpoint u_xcost_sweep (k : nat) (char1 : option A) (string2 : list A)
    (p char2p D x : nat) (row : list nat) : list nat :=
  match k with
  | 0 => row
  | S k' =>
      let x := if bool_decide (char1 = string2 !! char2p) then D else x + 1 in
      let D := rd row p in
      let x := if D + 1 <? x then D + 1 else x in
      u_xcost_sweep k' char1 string2 (p + 1) (char2p + 1) D x (<[p:=x]> row)
  end.

Fixpoint u_xcost_rows (k i : nat) (string1 string2 : list A) (endp : nat)
    (row : list nat) : list nat :=
  match k with
  | 0 => row
  | S k' =>
      let p := 1 in
      let row :=
        u_xcost_sweep (endp + 1 - p) (string1 !! (i - 1)) string2 p 0 (i - 1) i row in
      u_xcost_rows k' (i + 1) string1 string2 endp row
  end.

(* main loop of the corner-skipping branch; returns p, char2p, D, x, row *)
Fixpoint main_sweep (k : nat) (char1 : option A) (string2 : list A)
    (p char2p D x : nat) (row : list nat) : nat * nat * nat * nat * list nat :=
  match k with
  | 0 => (p, char2p, D, x, row)
  | S k' =>
      let D := D - 1 in
      let c3 := D + b2n (bool_decide (char1 ≠ string2 !! char2p)) in
      let x := x + 1 in
      let x := if c3 <? x then c3 else x in
      let D := rd row p in
      let D := D + 1 in
      let x := if D <? x then D else x in
      main_sweep k' char1 string2 (p + 1) (char2p + 1) D x (<[p:=x]> row)
  end.

Definition skip_row (i len1 len2 half : nat) (string1 string2 : list A)
    (endp : nat) (row : list nat) : nat * list nat :=
  let char1 := string1 !! (i - 1) in
  let '(p, char2p, D, x, row) :=
    if len1 - half <=? i then
      let offset := i - (len1 - half) in
      let c3 := rd row offset + b2n (bool_decide (char1 ≠ string2 !! offset)) in
      let x := rd row (offset + 1) in
      let x := x + 1 in
      let D := x in
      let x := if c3 <? x then c3 else x in
      (offset + 2, offset + 1, D, x, <[offset + 1 := x]> row)
    else (1, 0, i, i, row) in
  let endp := if i <=? half + 1 then len2 + i - half - 2 else endp in
  let '(p, char2p, D, x, row) :=
    main_sweep (endp + 1 - p) char1 string2 p char2p D x row in
  let row :=
    if i <=? half then
      let D := D - 1 in
      let c3 := D + b2n (bool_decide (char1 ≠ string2 !! char2p)) in
      let x := x + 1 in
      let x := if c3 <? x then c3 else x in
      <[p := x]> row
    else row in
  (endp, row).

Fixpoint skip_rows (k i len1 len2 half : nat) (string1 string2 : list A)
    (endp : nat) (row : list nat) : nat * list nat :=
  match k with
  | 0 => (endp, row)
  | S k' =>
      let '(endp, row) := skip_row i len1 len2 half string1 string2 endp row in
      skip_rows k' (i + 1) len1 len2 half string1 string2 endp row
  end.

Fixpoint init_row (k i : nat) (row : list nat) : list nat :=
  match k with
  | 0 => row
  | S k' => init_row k' (i + 1) (<[i:=i]> row)
  end.

Definition malloc (n : nat) (m : option (nat -> nat)) : option (list nat) :=
  match m with
  | None => None
  | Some junk => Some (map junk (seq 0 n))
  end.

Definition lev_edit_distance (len1 : nat) (string1 : list A)
    (len2 : nat) (string2 : list A) (xcost : bool)
    (heap : option (nat -> nat)) : option nat :=
  let '(len1, string1, len2, string2) :=
    strip_prefix len1 len1 string1 len2 string2 in
  let '(len1, len2) := strip_suffix len1 len1 string1 len2 string2 in
  if len1 =? 0 then Some len2
  else if len2 =? 0 then Some len1
  else
    let '(len1, string1, len2, string2) :=
      if len2 <? len1 then (len2, string2, len1, string1)
      else (len1, string1, len2, string2) in
    if len1 =? 1 then
      if xcost then Some (len2 + 1 - 2 * b2n (memchr string2 (head string1) len2))
      else Some (len2 - b2n (memchr string2 (head string1) len2))
    else
      let len1 := len1 + 1 in
      let len2 := len2 + 1 in
      let half := Nat.div2 len1 in
      match malloc len2 heap with
      | None => None
      | Some row =>
          let endp := len2 - 1 in
          let row := init_row (len2 - (if xcost then 0 else half)) 0 row in
          if xcost then
            let row := xcost_rows (len1 - 1) 1 string1 string2 endp row in
            Some (rd row endp)
          else
            let row := <[0 := len1 - half - 1]> row in
            let '(endp, row) :=
              skip_rows (len1 - 1) 1 len1 len2 half string1 string2 endp row in
            Some (rd row endp)
      end.

Definition u_found (string2 : list A) (z : option A) (len2 : nat) : bool :=
  existsb (fun y => bool_decide (Some y = z)) (take len2 string2).

Definition lev_u_edit_distance (len1 : nat) (string1 : list A)
    (len2 : nat) (string2 : list A) (xcost : bool)
    (heap : option (nat -> nat)) : option nat :=
  let '(len1, string1, len2, string2) :=
    strip_prefix len1 len1 string1 len2 string2 in
  let '(len1, len2) := strip_suffix len1 len1 string1 len2 string2 in
  if len1 =? 0 then Some len2
  else if len2 =? 0 then Some len1
  else
    let '(len1, string1, len2, string2) :=
      if len2 <? len1 then (len2, string2, len1, string1)
      else (len1, string1, len2, string2) in
    if len1 =? 1 then
      if u_found string2 (head string1) len2 then Some (len2 - 1)
      else Some (len2 + b2n xcost)
    else
      let len1 := len1 + 1 in
      let len2 := len2 + 1 in
      let half := Nat.div2 len1 in
      match malloc len2 heap with
      | None => None
      | Some row =>
          let endp := len2 - 1 in
          let row := init_row (len2 - (if xcost then 0 else half)) 0 row in
          if xcost then
            let row := u_xcost_rows (len1 - 1) 1 string1 string2 endp row in
            Some (rd row endp)
          else
            let row := <[0 := len1 - half - 1]> row in
            let '(endp, row) :=
              skip_rows (len1 - 1) 1 len1 len2 half string1 string2 endp row in
            Some (rd row endp)
      end.

End Kernel.


(** ** Doubles *)

(** A [double]: an IEEE 754 binary64 number. *)
Abbreviation double := PrimFloat.float.

(** The conversion [(double)z] of an integer, rounded to nearest. *)
Definition Z2D (z : Z) : double :=
  FloatOps.SF2Prim (SpecFloat.binary_normalize FloatOps.prec FloatOps.emax z 0 false).

(** [(double)x] for a [size_t]. *)
Definition N2D (x : nat) : double := Z2D (Z.of_nat x).

(** The decimal constants of the source: [0.499999] and [LEV_INFINITY],
    which is [1e100]; each is the double next to the number written. *)
Definition D_0_499999 : double := Eval vm_compute in (Z2D 499999 / Z2D 1000000)%float.

Definition D_INFINITY : double := Eval vm_compute in Z2D (10 ^ 100).

(** The integer part of a double towards minus infinity; [None] for an
    infinity and for a NaN. *)
Definition D2Z_floor (x : double) : option Z :=
  match FloatOps.Prim2SF x with
  | SpecFloat.S754_zero _ => Some 0%Z
  | SpecFloat.S754_finite s m e =>
      let v := if s then Z.neg m else Z.pos m in
      Some (if (0 <=? e)%Z then v * 2 ^ e else Z.shiftr v (- e))%Z
  | _ => None
  end.

(** [floor] and [ceil] of [math.h].  A double of magnitude [2^53] or more
    is an integer, and so is a zero, an infinity and a NaN is returned as
    it is. *)
Definition d_floor (x : double) : double :=
  match D2Z_floor x with
  | Some z =>
      if (x =? PrimFloat.zero)%float then x
      else if (Z.abs z <? 2 ^ 53)%Z then Z2D z
      else x
  | None => x
  end.

Definition d_ceil (x : double) : double := (- d_floor (- x))%float.

(** The conversion [(size_t)x], which drops the fraction.  [None] stands
    for undefined behaviour: the integer part is not a [size_t], or there is
    none. *)
Definition D2size (x : double) : option nat :=
  match D2Z_floor (PrimFloat.abs x) with
  | Some z =>
      let z := if (x <? PrimFloat.zero)%float then (- z)%Z else z in
      if (0 <=? z)%Z && (z <? 2 ^ 64)%Z then Some (Z.to_nat z) else None
  | None => None
  end.

(** The number that a finite double stands for; 0 for the others. *)
Definition D2Q (x : double) : Q :=
  match FloatOps.Prim2SF x with
  | SpecFloat.S754_finite s m e =>
      (inject_Z (if s then Z.neg m else Z.pos m) * Qpower 2 e)%Q
  | _ => 0%Q
  end.

(** Read of an array of doubles. *)
Definition rdd (a : list double) (p : nat) : double := nth p a PrimFloat.zero.

(** ** Edit operations: [lev_editops_find], [lev_editops_apply] *)

(** Modelled from the spec: the declarations of [_levenshtein.h], which is
    not part of the translation unit.  The spec (section 3) gives an edit
    type with exactly the four cases below, an elementary operation
    [{type, spos, dpos}] and a block operation
    [{type, sbeg, send, dbeg, dend}]. *)
Inductive LevEditType : Type :=
| LEV_EDIT_KEEP
| LEV_EDIT_REPLACE
| LEV_EDIT_INSERT
| LEV_EDIT_DELETE.

#[global] Instance LevEditType_eq_dec : EqDecision LevEditType.
Proof. solve_decision. Defined.

Record LevEditOp : Type := mkEditOp {
  type : LevEditType;
  spos : nat;
  dpos : nat
}.

#[global] Instance LevEditOp_eq_dec : EqDecision LevEditOp.
Proof. solve_decision. Defined.

(** The field [type] of a block is called [btype] here, the projections of
    two records cannot share a name. *)
Record LevOpCode : Type := mkOpCode {
  btype : LevEditType;
  sbeg : nat;
  send : nat;
  dbeg : nat;
  dend : nat
}.

#[global] Instance LevOpCode_eq_dec : EqDecision LevOpCode.
Proof. solve_decision. Defined.

(** The value [(size_t)(-1)] that the length out-parameters receive on
    failure.  Out-parameters are [Z] so that it can be told from a length. *)
Definition SIZE_MAX : Z := (2 ^ 64 - 1)%Z.

Section EditOps.
Context {A : Type} `{EqDecision A}.

(** [lev_editops_find], the prefix loop: it also counts the stripped symbols
    in [len1o]. *)
Fixpoint strip_prefix_o (fuel len1 : nat) (string1 : list A) (len2 : nat)
    (string2 : list A) (len1o : nat) : nat * list A * nat * list A * nat :=
  match fuel with
  | 0 => (len1, string1, len2, string2, len1o)
  | S fuel' =>
      if (0 <? len1) && (0 <? len2) && bool_decide (head string1 = head string2)
      then strip_prefix_o fuel' (len1 - 1) (tail string1) (len2 - 1) (tail string2)
             (len1o + 1)
      else (len1, string1, len2, string2, len1o)
  end.

(** [for (i = 1; i < len1; i++) matrix[len2*i] = i;] *)
Fixpoint init_col (k i len2 : nat) (matrix : list nat) : list nat :=
  match k with
  | 0 => matrix
  | S k' => init_col k' (i + 1) len2 (<[len2 * i := i]> matrix)
  end.

(** The inner [while (p <= end)] of the matrix fill. *)
Fixpoint fill_row (k : nat) (char1 : option A) (string2 : list A)
    (prev p char2p x : nat) (matrix : list nat) : list nat :=
  match k with
  | 0 => matrix
  | S k' =>
      let c3 := rd matrix prev + b2n (bool_decide (char1 ≠ string2 !! char2p)) in
      let prev := prev + 1 in
      let x := x + 1 in
      let x := if c3 <? x then c3 else x in
      let c3 := rd matrix prev + 1 in
      let x := if c3 <? x then c3 else x in
      fill_row k' char1 string2 prev (p + 1) (char2p + 1) x (<[p:=x]> matrix)
  end.

(** The outer [for (i = 1; i < len1; i++)] of the matrix fill. *)
Fixpoint fill_rows (k i len2 : nat) (string1 string2 : list A)
    (matrix : list nat) : list nat :=
  match k with
  | 0 => matrix
  | S k' =>
      let prev := (i - 1) * len2 in
      let p := i * len2 in
      let endp := p + len2 - 1 in
      let x := i in
      let p := p + 1 in
      let matrix :=
        fill_row (endp + 1 - p) (string1 !! (i - 1)) string2 prev p 0 x matrix in
      fill_rows k' (i + 1) len2 string1 string2 matrix
  end.

(** The back-tracking loop of [editops_from_cost_matrix].  [p] is the index
    of the current cell in [matrix], [dir] is [-1], [0] or [1].  [None]
    stands for the failed assertion ["lost in the cost matrix"] and for a
    write before the start of [ops]; the fuel bounds the number of
    iterations, each of which decrements [i] or [j]. *)
Fixpoint backtrack (fuel : nat) (string1 string2 : list A) (off1 off2 len2 : nat)
    (matrix : list nat) (i j p pos : nat) (dir : Z) (ops : list LevEditOp)
  : option (list LevEditOp) :=
  if (i =? 0) && (j =? 0) then Some ops
  else
    match fuel with
    | 0 => None
    | S fuel' =>
        if (dir <? 0)%Z && negb (j =? 0) && (rd matrix p =? rd matrix (p - 1) + 1)
        then
          match pos with
          | 0 => None
          | S pos =>
              let j := j - 1 in
              backtrack fuel' string1 string2 off1 off2 len2 matrix i j (p - 1) pos
                dir (<[pos := mkEditOp LEV_EDIT_INSERT (i + off1) (j + off2)]> ops)
          end
        else if (0 <? dir)%Z && negb (i =? 0)
                && (rd matrix p =? rd matrix (p - len2) + 1)
        then
          match pos with
          | 0 => None
          | S pos =>
              let i := i - 1 in
              backtrack fuel' string1 string2 off1 off2 len2 matrix i j (p - len2)
                pos dir (<[pos := mkEditOp LEV_EDIT_DELETE (i + off1) (j + off2)]> ops)
          end
        else if negb (i =? 0) && negb (j =? 0)
                && (rd matrix p =? rd matrix (p - len2 - 1))
                && bool_decide (string1 !! (i - 1) = string2 !! (j - 1))
        then
          backtrack fuel' string1 string2 off1 off2 len2 matrix (i - 1) (j - 1)
            (p - (len2 + 1)) pos 0%Z ops
        else if negb (i =? 0) && negb (j =? 0)
                && (rd matrix p =? rd matrix (p - len2 - 1) + 1)
        then
          match pos with
          | 0 => None
          | S pos =>
              let i := i - 1 in
              let j := j - 1 in
              backtrack fuel' string1 string2 off1 off2 len2 matrix i j
                (p - (len2 + 1)) pos 0%Z
                (<[pos := mkEditOp LEV_EDIT_REPLACE (i + off1) (j + off2)]> ops)
          end
        else if (dir =? 0)%Z && negb (j =? 0)
                && (rd matrix p =? rd matrix (p - 1) + 1)
        then
          match pos with
          | 0 => None
          | S pos =>
              let j := j - 1 in
              backtrack fuel' string1 string2 off1 off2 len2 matrix i j (p - 1) pos
                (-1)%Z (<[pos := mkEditOp LEV_EDIT_INSERT (i + off1) (j + off2)]> ops)
          end
        else if (dir =? 0)%Z && negb (i =? 0)
                && (rd matrix p =? rd matrix (p - len2) + 1)
        then
          match pos with
          | 0 => None
          | S pos =>
              let i := i - 1 in
              backtrack fuel' string1 string2 off1 off2 len2 matrix i j (p - len2)
                pos 1%Z (<[pos := mkEditOp LEV_EDIT_DELETE (i + off1) (j + off2)]> ops)
          end
        else None
    end.

(** Result of a routine that returns a pointer and writes a length through
    an out-parameter: the pointer ([None] is [NULL]) and the value written. *)
Definition editops_result : Type := option (list LevEditOp) * Z.

(** [editops_from_cost_matrix].  [heap] is the outcome of the allocation of
    [ops].  The outer [option] is [None] when the assertion fails. *)
Definition editops_from_cost_matrix (len1 : nat) (string1 : list A) (off1 : nat)
    (len2 : nat) (string2 : list A) (off2 : nat) (matrix : list nat)
    (heap : option (nat -> LevEditOp)) : option editops_result :=
  let n := rd matrix (len1 * len2 - 1) in
  let pos := n in
  if n =? 0 then Some (None, 0%Z)
  else
    match heap with
    | None => Some (None, SIZE_MAX)
    | Some junk =>
        let ops := map junk (seq 0 n) in
        let i := len1 - 1 in
        let j := len2 - 1 in
        let p := len1 * len2 - 1 in
        match backtrack (i + j) string1 string2 off1 off2 len2 matrix i j p pos
                0%Z ops with
        | None => None
        | Some ops => Some (Some ops, Z.of_nat n)
        end
    end.

(** [lev_editops_find].  [heap_matrix] and [heap_ops] are the outcomes of
    the two allocations. *)
Definition lev_editops_find (len1 : nat) (string1 : list A)
    (len2 : nat) (string2 : list A)
    (heap_matrix : option (nat -> nat)) (heap_ops : option (nat -> LevEditOp))
  : option editops_result :=
  let '(len1, string1, len2, string2, len1o) :=
    strip_prefix_o len1 len1 string1 len2 string2 0 in
  let len2o := len1o in
  let '(len1, len2) := strip_suffix len1 len1 string1 len2 string2 in
  let len1 := len1 + 1 in
  let len2 := len2 + 1 in
  match malloc (len1 * len2) heap_matrix with
  | None => Some (None, SIZE_MAX)
  | Some matrix =>
      let matrix := init_row len2 0 matrix in
      let matrix := init_col (len1 - 1) 1 len2 matrix in
      let matrix := fill_rows (len1 - 1) 1 len2 string1 string2 matrix in
      editops_from_cost_matrix len1 string1 len1o len2 string2 len2o matrix heap_ops
  end.

(** [memcpy(dpos, spos, j)] from the source string: [None] when it would
    read past the [len1] symbols. *)
Definition copy_source (len1 : nat) (string1 : list A) (src j : nat)
  : option (list A) :=
  if src + j <=? len1 then Some (take j (drop src string1)) else None.

(** The loop of [lev_editops_apply].  [src] is the offset [spos - string1]
    of the source cursor; the destination cursor only moves forward, so the
    destination is the list [dst] of the symbols written so far (at most one
    per operation and one per source symbol, which is what is allocated).
    [None] stands for undefined behaviour: the unsigned [j] wrapping around,
    or a read outside a string. *)
Fixpoint apply_ops (len1 : nat) (string1 string2 : list A) (ops : list LevEditOp)
    (src : nat) (dst : list A) : option (nat * list A) :=
  match ops with
  | [] => Some (src, dst)
  | o :: ops' =>
      let keep := b2n (bool_decide (type o = LEV_EDIT_KEEP)) in
      if spos o + keep <? src then None
      else
        let j := spos o + keep - src in
        match copy_source len1 string1 src j with
        | None => None
        | Some w =>
            let src := src + j in
            let dst := dst ++ w in
            match type o with
            | LEV_EDIT_DELETE => apply_ops len1 string1 string2 ops' (src + 1) dst
            | LEV_EDIT_REPLACE =>
                match string2 !! dpos o with
                | None => None
                | Some c => apply_ops len1 string1 string2 ops' (src + 1) (dst ++ [c])
                end
            | LEV_EDIT_INSERT =>
                match string2 !! dpos o with
                | None => None
                | Some c => apply_ops len1 string1 string2 ops' src (dst ++ [c])
                end
            | LEV_EDIT_KEEP => apply_ops len1 string1 string2 ops' src dst
            end
        end
  end.

(** The final [realloc(dst, *len)] of [lev_editops_apply] and of
    [lev_opcodes_apply], which shrinks the block to the symbols written.
    [shrunk] is its outcome: [true] for a block that holds these symbols,
    [false] for [NULL], which an implementation may return for a length of
    0 and which for another length is a failure (the source notes that this
    is detected with [*len != 0]). *)
Definition realloc_to (shrunk : bool) (dst : list A) : option (list A) :=
  if shrunk then Some dst else None.

(** [lev_editops_apply].  [heap] is the outcome of the allocation of the
    destination, [shrunk] that of the final [realloc].  The result is the
    pointer returned ([None] is [NULL]) and the value written to [*len]. *)
Definition lev_editops_apply (len1 : nat) (string1 : list A)
    (len2 : nat) (string2 : list A) (n : nat) (ops : list LevEditOp)
    (heap : option (nat -> A)) (shrunk : bool) : option (option (list A) * Z) :=
  match heap with
  | None => Some (None, SIZE_MAX)
  | Some _ =>
      match apply_ops len1 string1 string2 (take n ops) 0 [] with
      | None => None
      | Some (src, dst) =>
          let j := len1 - src in
          match copy_source len1 string1 src j with
          | None => None
          | Some w =>
              let dst := dst ++ w in
              Some (realloc_to shrunk dst, Z.of_nat (length dst))
          end
      end
  end.

End EditOps.

(** ** Conversions: [lev_editops_check_errors], [lev_editops_to_opcodes],
       [lev_opcodes_to_editops], [lev_editops_normalize] *)

(** Modelled from the spec: the error codes of [_levenshtein.h] (section 6
    of the spec: [OK = 0] and five non-zero codes). *)
Inductive LevEditError : Type :=
| LEV_EDIT_ERR_OK
| LEV_EDIT_ERR_TYPE
| LEV_EDIT_ERR_OUT
| LEV_EDIT_ERR_ORDER
| LEV_EDIT_ERR_BLOCK
| LEV_EDIT_ERR_SPAN.

#[global] Instance LevEditError_eq_dec : EqDecision LevEditError.
Proof. solve_decision. Defined.

(** Unsigned subtraction of [size_t] values, with its wrap-around. *)
Definition usub (x y : nat) : nat :=
  if y <=? x then x - y else Z.to_nat (2 ^ 64 - Z.of_nat (y - x)).

(** [lev_editops_check_errors], the bounds loop.  The test
    [o->type >= LEV_EDIT_LAST] cannot succeed on a value of the enumeration. *)
Fixpoint check_bounds (len1 len2 : nat) (ops : list LevEditOp) : LevEditError :=
  match ops with
  | [] => LEV_EDIT_ERR_OK
  | o :: ops' =>
      if (len1 <? spos o) || (len2 <? dpos o) then LEV_EDIT_ERR_OUT
      else if (spos o =? len1) && negb (bool_decide (type o = LEV_EDIT_INSERT))
      then LEV_EDIT_ERR_OUT
      else if (dpos o =? len2) && negb (bool_decide (type o = LEV_EDIT_DELETE))
      then LEV_EDIT_ERR_OUT
      else check_bounds len1 len2 ops'
  end.

(** [lev_editops_check_errors], the ordering loop: [o] runs one element
    ahead of [ops]. *)
Fixpoint check_order (ops : list LevEditOp) : LevEditError :=
  match ops with
  | p :: ((o :: _) as ops') =>
      if (spos o <? spos p) || (dpos o <? dpos p) then LEV_EDIT_ERR_ORDER
      else check_order ops'
  | _ => LEV_EDIT_ERR_OK
  end.

Definition lev_editops_check_errors (len1 len2 n : nat) (ops : list LevEditOp)
  : LevEditError :=
  if n =? 0 then LEV_EDIT_ERR_OK
  else
    match check_bounds len1 len2 (take n ops) with
    | LEV_EDIT_ERR_OK => check_order (take n ops)
    | e => e
    end.

(** [while (o->type == LEV_EDIT_KEEP && --i) o++;] followed by
    [if (!i) break;]: the operations that remain, none when only keeps were
    left. *)
Fixpoint skip_keep (ops : list LevEditOp) : list LevEditOp :=
  match ops with
  | o :: ops' =>
      if bool_decide (type o = LEV_EDIT_KEEP) then skip_keep ops' else ops
  | [] => []
  end.

(** One step of a [do ... while] of [lev_editops_to_opcodes]. *)
Definition advance (t : LevEditType) (sd : nat * nat) : nat * nat :=
  match t with
  | LEV_EDIT_REPLACE => (sd.1 + 1, sd.2 + 1)
  | LEV_EDIT_DELETE => (sd.1 + 1, sd.2)
  | LEV_EDIT_INSERT => (sd.1, sd.2 + 1)
  | LEV_EDIT_KEEP => sd
  end.

(** The continuation test and the remaining iterations of the
    [do ... while]: [ops] starts at [o], after the [o++] of the first
    iteration. *)
Fixpoint run_while (t : LevEditType) (spos_ dpos_ : nat) (ops : list LevEditOp)
  : nat * nat * list LevEditOp :=
  match ops with
  | o :: ops' =>
      if bool_decide (type o = t) && (spos_ =? spos o) && (dpos_ =? dpos o)
      then
        let '(s, d) := advance t (spos_, dpos_) in
        run_while t s d ops'
      else (spos_, dpos_, ops)
  | [] => (spos_, dpos_, [])
  end.

(** The first pass of [lev_editops_to_opcodes]: the number of blocks over
    the operations, and the final [spos] and [dpos].  Every iteration of the
    [for] consumes an operation, which the fuel counts. *)
Fixpoint count_blocks (fuel : nat) (ops : list LevEditOp) (nbl spos_ dpos_ : nat)
  : option (nat * nat * nat) :=
  match skip_keep ops with
  | [] => Some (nbl, spos_, dpos_)
  | o :: ops' =>
      match fuel with
      | 0 => None
      | S fuel' =>
          let '(nbl, spos_, dpos_) :=
            if (spos_ <? spos o) || (dpos_ <? dpos o)
            then (nbl + 1, spos o, dpos o) else (nbl, spos_, dpos_) in
          let nbl := nbl + 1 in
          let t := type o in
          match t with
          | LEV_EDIT_KEEP => None
          | _ =>
              let '(s, d) := advance t (spos_, dpos_) in
              let '(s, d, rest) := run_while t s d ops' in
              count_blocks fuel' rest nbl s d
          end
      end
  end.

(** The second pass: the blocks written through [b], in order. *)
Fixpoint convert_blocks (fuel : nat) (ops : list LevEditOp) (spos_ dpos_ : nat)
    (bops : list LevOpCode) : option (list LevOpCode * nat * nat) :=
  match skip_keep ops with
  | [] => Some (bops, spos_, dpos_)
  | o :: ops' =>
      match fuel with
      | 0 => None
      | S fuel' =>
          let sbeg_ := spos_ in
          let dbeg_ := dpos_ in
          let '(bops, spos_, dpos_, sbeg_, dbeg_) :=
            if (spos_ <? spos o) || (dpos_ <? dpos o)
            then (bops ++ [mkOpCode LEV_EDIT_KEEP sbeg_ (spos o) dbeg_ (dpos o)],
                  spos o, dpos o, spos o, dpos o)
            else (bops, spos_, dpos_, sbeg_, dbeg_) in
          let t := type o in
          match t with
          | LEV_EDIT_KEEP => None
          | _ =>
              let '(s, d) := advance t (spos_, dpos_) in
              let '(s, d, rest) := run_while t s d ops' in
              convert_blocks fuel' rest s d (bops ++ [mkOpCode t sbeg_ s dbeg_ d])
          end
      end
  end.

(** [lev_editops_to_opcodes].  [heap] is the outcome of the allocation; the
    result is the pointer returned and the value written to [*nb].  The
    outer [None] is a failed assertion (or a [switch] that never leaves its
    [for], which needs a type outside the enumeration). *)
Definition lev_editops_to_opcodes (n : nat) (ops : list LevEditOp)
    (len1 len2 : nat) (heap : option (nat -> LevOpCode))
  : option (option (list LevOpCode) * Z) :=
  match count_blocks n (take n ops) 0 0 0 with
  | None => None
  | Some (nbl, spos_, dpos_) =>
      let nbl := if (spos_ <? len1) || (dpos_ <? len2) then nbl + 1 else nbl in
      match heap with
      | None => Some (None, SIZE_MAX)
      | Some _ =>
          match convert_blocks n (take n ops) 0 0 [] with
          | None => None
          | Some (bops, spos_, dpos_) =>
              if (spos_ <? len1) || (dpos_ <? len2) then
                if usub len1 spos_ =? usub len2 dpos_ then
                  let bops :=
                    bops ++ [mkOpCode LEV_EDIT_KEEP spos_ len1 dpos_ len2] in
                  if length bops =? nbl then Some (Some bops, Z.of_nat nbl)
                  else None
                else None
              else if length bops =? nbl then Some (Some bops, Z.of_nat nbl)
              else None
          end
      end
  end.

(** [lev_opcodes_to_editops], the counting loops. *)
Fixpoint count_editops (keepkeep : bool) (bops : list LevOpCode) (n : nat) : nat :=
  match bops with
  | [] => n
  | b :: bops' =>
      let sd := usub (send b) (sbeg b) in
      let dd := usub (dend b) (dbeg b) in
      let n :=
        if keepkeep then n + (if dd <? sd then sd else dd)
        else n + (if negb (bool_decide (btype b = LEV_EDIT_KEEP))
                  then (if dd <? sd then sd else dd) else 0) in
      count_editops keepkeep bops' n
  end.

(** The inner [for (j = 0; j < ...; j++, o++)] loops: [k] iterations from
    [j]; [f j] is the operation written. *)
Fixpoint expand (k j : nat) (f : nat -> LevEditOp) : list LevEditOp :=
  match k with
  | 0 => []
  | S k' => f j :: expand k' (j + 1) f
  end.

(** [lev_opcodes_to_editops], the conversion loop. *)
Fixpoint convert_editops (keepkeep : bool) (bops : list LevOpCode)
    (ops : list LevEditOp) : list LevEditOp :=
  match bops with
  | [] => ops
  | b :: bops' =>
      let ops :=
        match btype b with
        | LEV_EDIT_KEEP =>
            if keepkeep then
              ops ++ expand (usub (send b) (sbeg b)) 0
                       (fun j => mkEditOp LEV_EDIT_KEEP (sbeg b + j) (dbeg b + j))
            else ops
        | LEV_EDIT_REPLACE =>
            ops ++ expand (usub (send b) (sbeg b)) 0
                     (fun j => mkEditOp LEV_EDIT_REPLACE (sbeg b + j) (dbeg b + j))
        | LEV_EDIT_DELETE =>
            ops ++ expand (usub (send b) (sbeg b)) 0
                     (fun j => mkEditOp LEV_EDIT_DELETE (sbeg b + j) (dbeg b))
        | LEV_EDIT_INSERT =>
            ops ++ expand (usub (dend b) (dbeg b)) 0
                     (fun j => mkEditOp LEV_EDIT_INSERT (sbeg b) (dbeg b + j))
        end in
      convert_editops keepkeep bops' ops
  end.

(** [lev_opcodes_to_editops].  The outer [None] is the failed assertion
    [(size_t)(o - ops) == *n]. *)
Definition lev_opcodes_to_editops (nb : nat) (bops : list LevOpCode)
    (keepkeep : bool) (heap : option (nat -> LevEditOp)) : option editops_result :=
  if nb =? 0 then Some (None, 0%Z)
  else
    let n := count_editops keepkeep (take nb bops) 0 in
    match heap with
    | None => Some (None, SIZE_MAX)
    | Some _ =>
        let ops := convert_editops keepkeep (take nb bops) [] in
        if length ops =? n then Some (Some ops, Z.of_nat n) else None
    end.

(** [lev_editops_normalize].  [ops] is [None] for a [NULL] pointer.  The
    result of the allocation is used unchecked: the outer [None] is the copy
    through [NULL] after a failed allocation. *)
Definition lev_editops_normalize (n : nat) (ops : option (list LevEditOp))
    (heap : option (nat -> LevEditOp)) : option editops_result :=
  match ops with
  | None => Some (None, 0%Z)
  | Some ops =>
      if n =? 0 then Some (None, 0%Z)
      else
        let nx := length (filter (fun o => type o = LEV_EDIT_KEEP) (take n ops)) in
        let nnorm := n - nx in
        if nnorm =? 0 then Some (None, 0%Z)
        else
          match heap with
          | None => None
          | Some _ =>
              Some (Some (filter (fun o => type o <> LEV_EDIT_KEEP) (take n ops)),
                    Z.of_nat nnorm)
          end
  end.

(** ** Set median: [lev_set_median_index] *)

(** [double] comparison [x < y]. *)
Definition Qltb (x y : Q) : bool :=
  match Qcompare x y with
  | Lt => true
  | _ => false
  end.

(** [(double)x] for a [size_t] or [long int] value. *)
Definition Qnat (x : nat) : Q := inject_Z (Z.of_nat x).

Definition LEV_INFINITY : Q := inject_Z (10 ^ 100).

(** Read of an array of such doubles. *)
Definition rdq (a : list Q) (p : nat) : Q := nth p a 0%Q.

(** [x == 0.0]. *)
Definition Qeqb0 (x : Q) : bool :=
  match Qcompare x 0 with
  | Eq => true
  | _ => false
  end.

(** Reduction of an unsigned 64-bit result. *)
Definition wrap64 (z : Z) : Z := (z mod 2 ^ 64)%Z.

(** [(k - 1)*(k - 2)/2 + l] in [size_t] arithmetic: for [k = 1] the factor
    [k - 2] wraps around. *)
Definition dindex_of (k l : nat) : nat :=
  Z.to_nat
    (wrap64 (wrap64 (wrap64 (Z.of_nat k - 1) * wrap64 (Z.of_nat k - 2)) / 2
             + Z.of_nat l)).

(** Read and write of a [long int] array. *)
Definition rdz (a : list Z) (p : nat) : Z := nth p a 0%Z.

Section SetMedian.
Context {A : Type} `{EqDecision A}.

Variable n : nat.
Variable lengths : list nat.
Variable strings : list (list A).
Variable weights : list Q.

(** Outcome of the row allocation inside the call of [lev_edit_distance]
    for the strings [j] and [i]. *)
Variable heap_row : nat -> nat -> option (nat -> nat).

(** [(long int)lev_edit_distance(lengths[j], strings[j], leni, stri, 0)];
    the failure value [(size_t)(-1)] becomes [-1]. *)
Definition distance_long (j i : nat) : Z :=
  match lev_edit_distance (nth j lengths 0) (nth j strings [])
          (nth i lengths 0) (nth i strings []) false (heap_row j i) with
  | Some d => Z.of_nat d
  | None => (-1)%Z
  end.

(** [while (j < i && dist < mindist)]: [None] is the early
    [return (size_t)-1]. *)
Fixpoint below_diagonal (fuel i j : nat) (dist mindist : Q) (distances : list Z)
  : option (nat * Q) :=
  match fuel with
  | 0 => Some (j, dist)
  | S fuel' =>
      if (j <? i) && Qltb dist mindist then
        let dindex := dindex_of i j in
        if (0 <=? rdz distances dindex)%Z then
          let d := rdz distances dindex in
          below_diagonal fuel' i (j + 1) (dist + nth j weights 0 * inject_Z d)%Q
            mindist distances
        else
          let d := distance_long j i in
          if (d <? 0)%Z then None
          else
            below_diagonal fuel' i (j + 1) (dist + nth j weights 0 * inject_Z d)%Q
              mindist distances
      else Some (j, dist)
  end.

(** [while (j < n && dist < mindist)]. *)
Fixpoint above_diagonal (fuel i j : nat) (dist mindist : Q) (distances : list Z)
  : option (Q * list Z) :=
  match fuel with
  | 0 => Some (dist, distances)
  | S fuel' =>
      if (j <? n) && Qltb dist mindist then
        let dindex := dindex_of j i in
        let distances := <[dindex := distance_long j i]> distances in
        if (rdz distances dindex <? 0)%Z then None
        else
          above_diagonal fuel' i (j + 1)
            (dist + nth j weights 0 * inject_Z (rdz distances dindex))%Q mindist
            distances
      else Some (dist, distances)
  end.

(** The [for (i = 0; i < n; i++)] over the candidates. *)
Fixpoint candidates (fuel i minidx : nat) (mindist : Q) (distances : list Z)
  : option nat :=
  match fuel with
  | 0 => Some minidx
  | S fuel' =>
      match below_diagonal i i 0 0%Q mindist distances with
      | None => None
      | Some (j, dist) =>
          let j := j + 1 in
          match above_diagonal (n - j) i j dist mindist distances with
          | None => None
          | Some (dist, distances) =>
              if Qltb dist mindist
              then candidates fuel' (i + 1) i dist distances
              else candidates fuel' (i + 1) minidx mindist distances
          end
      end
  end.

(** [lev_set_median_index].  [heap] is the outcome of the allocation of
    [distances] (its contents are overwritten by the [memset]); the result
    [None] is [(size_t)-1]. *)
Definition lev_set_median_index (heap : option (nat -> Z)) : option nat :=
  match heap with
  | None => None
  | Some _ =>
      let size :=
        Z.to_nat (wrap64 (Z.of_nat n * wrap64 (Z.of_nat n - 1)) / 2) in
      let distances := repeat (-1)%Z size in
      candidates n 0 0 LEV_INFINITY distances
  end.

End SetMedian.

(** ** Quick (voting) median: [lev_quick_median] *)

(** An 8-bit symbol. *)
Definition lev_byte : Type := Byte.byte.

#[global] Instance lev_byte_eq_dec : EqDecision lev_byte := Byte.byte_eq_dec.

(** A read [stri[k]] at an index below the length of the string, and a read
    of the list of symbols. *)
Definition rdb (s : list lev_byte) (k : nat) : lev_byte := nth k s Byte.x00.

(** A read [stri[k]] at an index computed in doubles: [None] outside the
    string. *)
Definition read_at (s : list lev_byte) (k : nat) : option lev_byte := s !! k.

(** [for (j = 0; j < 0x100; j++) if (symset[j]) symlist[pos++] = (lev_byte)j;] *)
Definition dense_symlist (symset : list double) : list lev_byte :=
  omap (fun j => if (rdd symset j =? PrimFloat.zero)%float then None else Byte.of_nat j)
    (seq 0 256).

(** The marking loops of [make_symlistset] over the symbols of one string
    and over the strings. *)
Fixpoint mark_string (k j : nat) (stri : list lev_byte)
    (symlistlen : nat) (symset : list double) : nat * list double :=
  match k with
  | 0 => (symlistlen, symset)
  | S k' =>
      let c := Byte.to_nat (rdb stri j) in
      if (rdd symset c =? PrimFloat.zero)%float
      then mark_string k' (j + 1) stri (symlistlen + 1) (<[c := PrimFloat.one]> symset)
      else mark_string k' (j + 1) stri symlistlen symset
  end.

Fixpoint mark_strings (k i : nat) (lengths : list nat) (strings : list (list lev_byte))
    (symlistlen : nat) (symset : list double) : nat * list double :=
  match k with
  | 0 => (symlistlen, symset)
  | S k' =>
      let '(symlistlen, symset) :=
        mark_string (nth i lengths 0) 0 (nth i strings []) symlistlen symset in
      mark_strings k' (i + 1) lengths strings symlistlen symset
  end.

(** [make_symlistset]: the pointer returned, the value of [*symlistlen] and
    the contents of [symset].  [symset] is [None] for a [NULL] pointer;
    [heap] is the outcome of the allocation of the list. *)
Definition make_symlistset (n : nat) (lengths : list nat)
    (strings : list (list lev_byte)) (symset : option (list double)) (heap : bool)
  : option (list lev_byte) * Z * option (list double) :=
  match symset with
  | None => (None, SIZE_MAX, None)
  | Some _ =>
      let symset := repeat PrimFloat.zero 256 in
      let '(symlistlen, symset) := mark_strings n 0 lengths strings 0 symset in
      if symlistlen =? 0 then (None, 0%Z, Some symset)
      else if heap then (Some (dense_symlist symset), Z.of_nat symlistlen, Some symset)
      else (None, SIZE_MAX, Some symset)
  end.

(** The sums [ml] and [wl] of the first loop. *)
Fixpoint sum_lengths (k i : nat) (lengths : list nat) (weights : list double)
    (ml wl : double) : double * double :=
  match k with
  | 0 => (ml, wl)
  | S k' =>
      sum_lengths k' (i + 1) lengths weights
        (ml + N2D (nth i lengths 0) * rdd weights i)%float
        (wl + rdd weights i)%float
  end.

(** [for (i = 0; i < symlistlen; i++) symset[symlist[i]] = 0.0;] *)
Fixpoint clear_scores (symlist : list lev_byte) (symset : list double) : list double :=
  match symlist with
  | [] => symset
  | c :: symlist' => clear_scores symlist' (<[Byte.to_nat c := PrimFloat.zero]> symset)
  end.

(** [for (k = istart+1; k < iend; k++) symset[stri[k]] += weighti;]
    [None] stands for a read outside the string. *)
Fixpoint vote_inner (cnt k : nat) (stri : list lev_byte) (weighti : double)
    (symset : list double) : option (list double) :=
  match cnt with
  | 0 => Some symset
  | S cnt' =>
      match read_at stri k with
      | None => None
      | Some b =>
          let c := Byte.to_nat b in
          vote_inner cnt' (k + 1) stri weighti
            (<[c := (rdd symset c + weighti)%float]> symset)
      end
  end.

(** The part of string [i], of [lengthi] symbols, that votes for position
    [j] of a median of [ml] symbols: [start], [end], [istart] and [iend],
    the latter after [if (iend > lengthi) iend = lengthi].  [None] stands
    for a conversion to [size_t] that is undefined. *)
Definition vote_range (lengthi : nat) (ml : double) (j : nat)
  : option (double * double * nat * nat) :=
  let start := (N2D lengthi / ml * N2D j)%float in
  let end_ := (start + N2D lengthi / ml)%float in
  match D2size (d_floor start), D2size (d_ceil end_) with
  | Some istart, Some iend =>
      Some (start, end_, istart, if lengthi <? iend then lengthi else iend)
  | _, _ => None
  end.

(** The vote of string [i] for position [j] of the median.  [None] stands
    for undefined behaviour: a conversion that is undefined, or a read of
    [stri[istart]] or of [stri[iend-1]] outside the string, which is what
    happens for an empty string, where [iend - 1] wraps around. *)
Definition vote (lengths : list nat) (strings : list (list lev_byte))
    (weights : list double) (ml : double) (j i : nat) (symset : list double)
  : option (list double) :=
  let stri := nth i strings [] in
  let weighti := rdd weights i in
  let lengthi := nth i lengths 0 in
  match vote_range lengthi ml j with
  | None => None
  | Some (start, end_, istart, iend) =>
      match vote_inner (iend - (istart + 1)) (istart + 1) stri weighti symset with
      | None => None
      | Some symset =>
          match read_at stri istart with
          | None => None
          | Some b =>
              let c := Byte.to_nat b in
              let symset :=
                <[c := (rdd symset c + weighti * (N2D (1 + istart) - start))%float]>
                  symset in
              if iend =? 0 then None
              else
                match read_at stri (iend - 1) with
                | None => None
                | Some b =>
                    let c := Byte.to_nat b in
                    Some (<[c := (rdd symset c - weighti * (N2D iend - end_))%float]>
                            symset)
                end
          end
      end
  end.

Fixpoint votes (k i : nat) (lengths : list nat) (strings : list (list lev_byte))
    (weights : list double) (ml : double) (j : nat) (symset : list double)
  : option (list double) :=
  match k with
  | 0 => Some symset
  | S k' =>
      match vote lengths strings weights ml j i symset with
      | None => None
      | Some symset => votes k' (i + 1) lengths strings weights ml j symset
      end
  end.

(** [for (i = 1; i < symlistlen; i++) if (symset[symlist[i]] > symset[k]) ...] *)
Fixpoint elect (symlist : list lev_byte) (symset : list double) (k : lev_byte)
  : lev_byte :=
  match symlist with
  | [] => k
  | c :: symlist' =>
      if (rdd symset (Byte.to_nat k) <? rdd symset (Byte.to_nat c))%float
      then elect symlist' symset c
      else elect symlist' symset k
  end.

(** The loop over the positions of the median; the symbols are written one
    after the other. *)
Fixpoint vote_positions (k j n : nat) (lengths : list nat)
    (strings : list (list lev_byte)) (weights : list double) (ml : double)
    (symlist : list lev_byte) (symset : list double) (median : list lev_byte)
  : option (list lev_byte) :=
  match k with
  | 0 => Some median
  | S k' =>
      let symset :=
        if length symlist <? 32 then clear_scores symlist symset
        else repeat PrimFloat.zero 256 in
      match votes n 0 lengths strings weights ml j symset with
      | None => None
      | Some symset =>
          let c := elect (tail symlist) symset (rdb symlist 0) in
          vote_positions k' (j + 1) n lengths strings weights ml symlist symset
            (<[j := c]> median)
      end
  end.

(** The outcomes of the allocations of [lev_quick_median]: the one-byte
    [calloc] of the empty results, the median, the scores and the list of
    symbols. *)
Record quick_heap : Type := mkQuickHeap {
  qh_empty : bool;
  qh_median : option (nat -> lev_byte);
  qh_symset : bool;
  qh_symlist : bool
}.

(** [lev_quick_median].  [medlength] is the value that [*medlength] holds
    on entry; the result is the pointer returned ([None] is [NULL]) and the
    value that [*medlength] holds on return.  The outer [None] stands for
    undefined behaviour: a conversion to [size_t] that is undefined, or a
    read outside a string. *)
Definition lev_quick_median (n : nat) (lengths : list nat)
    (strings : list (list lev_byte)) (weights : list double) (medlength : Z)
    (heap : quick_heap) : option (option (list lev_byte) * Z) :=
  let '(ml, wl) := sum_lengths n 0 lengths weights PrimFloat.zero PrimFloat.zero in
  if (wl =? PrimFloat.zero)%float then
    Some ((if qh_empty heap then Some [Byte.x00] else None), medlength)
  else
    let ml := d_floor (ml / wl + D_0_499999)%float in
    match D2size ml with
    | None => None
    | Some len =>
        let medlength := Z.of_nat len in
        if len =? 0 then
          Some ((if qh_empty heap then Some [Byte.x00] else None), medlength)
        else
          match qh_median heap with
          | None => Some (None, medlength)
          | Some junk =>
              let median := map junk (seq 0 len) in
              if negb (qh_symset heap) then Some (None, medlength)
              else
                match make_symlistset n lengths strings
                        (Some (repeat PrimFloat.zero 256)) (qh_symlist heap) with
                | (None, _, _) => Some (None, medlength)
                | (Some symlist, _, None) => Some (None, medlength)
                | (Some symlist, _, Some symset) =>
                    match vote_positions len 0 n lengths strings weights ml symlist
                            symset median with
                    | None => None
                    | Some median => Some (Some median, medlength)
                    end
                end
          end
    end.

(** ** Greedy median: [lev_greedy_median] *)

(** Read of a [short int] flag. *)
Definition rdn (a : list nat) (p : nat) : nat := nth p a 0.

(** The marking loops of [make_symlist]. *)
Fixpoint mark_symbols (k j : nat) (stri : list lev_byte)
    (symlistlen : nat) (symset : list nat) : nat * list nat :=
  match k with
  | 0 => (symlistlen, symset)
  | S k' =>
      let c := Byte.to_nat (rdb stri j) in
      if rdn symset c =? 0
      then mark_symbols k' (j + 1) stri (symlistlen + 1) (<[c := 1]> symset)
      else mark_symbols k' (j + 1) stri symlistlen symset
  end.

Fixpoint mark_all (k i : nat) (lengths : list nat) (strings : list (list lev_byte))
    (symlistlen : nat) (symset : list nat) : nat * list nat :=
  match k with
  | 0 => (symlistlen, symset)
  | S k' =>
      let '(symlistlen, symset) :=
        mark_symbols (nth i lengths 0) 0 (nth i strings []) symlistlen symset in
      mark_all k' (i + 1) lengths strings symlistlen symset
  end.

(** [make_symlist]: the pointer returned and the value of [*symlistlen].
    [heap_symset] and [heap_symlist] are the outcomes of the allocations. *)
Definition make_symlist (n : nat) (lengths : list nat)
    (strings : list (list lev_byte)) (heap_symset heap_symlist : bool)
  : option (list lev_byte) * Z :=
  if negb heap_symset then (None, SIZE_MAX)
  else
    let '(symlistlen, symset) := mark_all n 0 lengths strings 0 (repeat 0 256) in
    if symlistlen =? 0 then (None, 0%Z)
    else if negb heap_symlist then (None, SIZE_MAX)
    else
      (Some (omap (fun j => if rdn symset j =? 0 then None else Byte.of_nat j)
               (seq 0 256)),
       Z.of_nat symlistlen).

(** The outcomes of the allocations of [lev_greedy_median], in the order of
    the source; [gh_rowi i] is the row of string [i]. *)
Record greedy_heap : Type := mkGreedyHeap {
  gh_symset : bool;
  gh_symlist : bool;
  gh_empty : bool;
  gh_rows : bool;
  gh_rowi : nat -> option (nat -> nat);
  gh_row : option (nat -> nat);
  gh_median : option (nat -> lev_byte);
  gh_mediandist : option (nat -> double);
  gh_result : bool
}.

(** The loop that allocates and initialises the rows and finds [maxlen];
    [None] when an allocation fails. *)
Fixpoint alloc_rows (k i : nat) (lengths : list nat)
    (heap : nat -> option (nat -> nat)) (maxlen : nat) (rows : list (list nat))
  : option (nat * list (list nat)) :=
  match k with
  | 0 => Some (maxlen, rows)
  | S k' =>
      let leni := nth i lengths 0 in
      let maxlen := if maxlen <? leni then leni else maxlen in
      match malloc (leni + 1) (heap i) with
      | None => None
      | Some ri =>
          let ri := init_row (leni + 1) 0 ri in
          alloc_rows k' (i + 1) lengths heap maxlen (rows ++ [ri])
      end
  end.

(** [mediandist[0] += (double)lengths[i]*weights[i]] over the strings. *)
Fixpoint sum_weighted_lengths (k i : nat) (lengths : list nat)
    (weights : list double) (acc : double) : double :=
  match k with
  | 0 => acc
  | S k' =>
      sum_weighted_lengths k' (i + 1) lengths weights
        (acc + N2D (nth i lengths 0) * rdd weights i)%float
  end.

(** How the next row of the matrix of one string would look with [symbol]
    added to the median: its smallest entry and its last entry. *)
Fixpoint simulate (k : nat) (symbol : lev_byte) (stri : list lev_byte)
    (rowi : list nat) (p min x : nat) : nat * nat :=
  match k with
  | 0 => (min, x)
  | S k' =>
      let D := rd rowi p + b2n (bool_decide (symbol <> rdb stri p)) in
      let p := p + 1 in
      let x := x + 1 in
      let x := if D <? x then D else x in
      let x := if rd rowi p + 1 <? x then rd rowi p + 1 else x in
      let min := if x <? min then x else min in
      simulate k' symbol stri rowi p min x
  end.

(** The sums over the strings for one candidate symbol. *)
Fixpoint sum_simulated (k i : nat) (lengths : list nat)
    (strings : list (list lev_byte)) (weights : list double) (rows : list (list nat))
    (len : nat) (symbol : lev_byte) (minsum totaldist : double) : double * double :=
  match k with
  | 0 => (minsum, totaldist)
  | S k' =>
      let '(min, x) :=
        simulate (nth i lengths 0) symbol (nth i strings []) (nth i rows []) 0
          len len in
      sum_simulated k' (i + 1) lengths strings weights rows len symbol
        (minsum + N2D min * rdd weights i)%float
        (totaldist + N2D x * rdd weights i)%float
  end.

(** The loop over the candidate symbols. *)
Fixpoint try_symbols (symlist : list lev_byte) (n : nat) (lengths : list nat)
    (strings : list (list lev_byte)) (weights : list double) (rows : list (list nat))
    (len : nat) (minminsum : double) (mediandist : list double)
    (median : list lev_byte) : double * list double * list lev_byte :=
  match symlist with
  | [] => (minminsum, mediandist, median)
  | symbol :: symlist' =>
      let '(minsum, totaldist) :=
        sum_simulated n 0 lengths strings weights rows len symbol
          PrimFloat.zero PrimFloat.zero in
      if (minsum <? minminsum)%float
      then try_symbols symlist' n lengths strings weights rows len minsum
             (<[len := totaldist]> mediandist) (<[len - 1 := symbol]> median)
      else try_symbols symlist' n lengths strings weights rows len minminsum
             mediandist median
  end.

(** [for (k = 1; k <= leni; k++)]: a row of the matrix in the scratch
    buffer [row]. *)
Fixpoint next_row (cnt k : nat) (symbol : lev_byte) (stri : list lev_byte)
    (oldrow row : list nat) : list nat :=
  match cnt with
  | 0 => row
  | S cnt' =>
      let c1 := rd oldrow k + 1 in
      let c2 := rd row (k - 1) + 1 in
      let c3 := rd oldrow (k - 1) + b2n (bool_decide (symbol <> rdb stri (k - 1))) in
      let v := if c3 <? c2 then c3 else c2 in
      let v := if c1 <? v then c1 else v in
      next_row cnt' (k + 1) symbol stri oldrow (<[k := v]> row)
  end.

(** The rows of all strings are recomputed for the chosen symbol;
    [memcpy(oldrow, row, (leni + 1)*sizeof(size_t))] replaces the row. *)
Fixpoint commit_rows (cnt i : nat) (lengths : list nat)
    (strings : list (list lev_byte)) (symbol : lev_byte)
    (rows : list (list nat)) (row : list nat) : list (list nat) * list nat :=
  match cnt with
  | 0 => (rows, row)
  | S cnt' =>
      let leni := nth i lengths 0 in
      let oldrow := nth i rows [] in
      let row := next_row leni 1 symbol (nth i strings []) oldrow row in
      let oldrow := take (leni + 1) row ++ drop (leni + 1) oldrow in
      commit_rows cnt' (i + 1) lengths strings symbol (<[i := oldrow]> rows) row
  end.

(** [for (len = 1; len <= stoplen; len++)]: the result is the final
    [stoplen], [median] and [mediandist]. *)
Fixpoint build_median (fuel len stoplen maxlen n : nat) (lengths : list nat)
    (strings : list (list lev_byte)) (weights : list double)
    (symlist : list lev_byte) (rows : list (list nat)) (row : list nat)
    (median : list lev_byte) (mediandist : list double)
  : nat * list lev_byte * list double :=
  match fuel with
  | 0 => (stoplen, median, mediandist)
  | S fuel' =>
      if stoplen <? len then (stoplen, median, mediandist)
      else
        let minminsum := D_INFINITY in
        let row := <[0 := len]> row in
        let '(_, mediandist, median) :=
          try_symbols symlist n lengths strings weights rows len minminsum
            mediandist median in
        if (len =? stoplen)
           || ((maxlen <? len)
               && (rdd mediandist (len - 1) <? rdd mediandist len)%float)
        then (len, median, mediandist)
        else
          let symbol := rdb median (len - 1) in
          let '(rows, row) := commit_rows n 0 lengths strings symbol rows row in
          build_median fuel' (len + 1) stoplen maxlen n lengths strings weights
            symlist rows row median mediandist
  end.

(** [for (len = 1; len <= stoplen; len++) if (mediandist[len] <
    mediandist[bestlen]) bestlen = len;] *)
Fixpoint best_length (k len : nat) (mediandist : list double) (bestlen : nat) : nat :=
  match k with
  | 0 => bestlen
  | S k' =>
      if (rdd mediandist len <? rdd mediandist bestlen)%float
      then best_length k' (len + 1) mediandist len
      else best_length k' (len + 1) mediandist bestlen
  end.

(** [lev_greedy_median].  [medlength] is the value that [*medlength] holds
    on entry; the result is the pointer returned and the value that
    [*medlength] holds on return.  The cells of [median] and of
    [mediandist] that the loop does not write keep what the allocation
    left in them, [gh_median heap] and [gh_mediandist heap]. *)
Definition lev_greedy_median (n : nat) (lengths : list nat)
    (strings : list (list lev_byte)) (weights : list double) (medlength : Z)
    (heap : greedy_heap) : option (list lev_byte) * Z :=
  match make_symlist n lengths strings (gh_symset heap) (gh_symlist heap) with
  | (None, symlistlen) =>
      let medlength := 0%Z in
      if negb (symlistlen =? 0)%Z then (None, medlength)
      else ((if gh_empty heap then Some [Byte.x00] else None), medlength)
  | (Some symlist, _) =>
      if negb (gh_rows heap) then (None, medlength)
      else
        match alloc_rows n 0 lengths (gh_rowi heap) 0 [] with
        | None => (None, medlength)
        | Some (maxlen, rows) =>
            let stoplen := 2 * maxlen + 1 in
            match malloc (stoplen + 1) (gh_row heap) with
            | None => (None, medlength)
            | Some row =>
                match gh_median heap with
                | None => (None, medlength)
                | Some junk_median =>
                    let median := map junk_median (seq 0 stoplen) in
                    match gh_mediandist heap with
                    | None => (None, medlength)
                    | Some junk_dist =>
                        let mediandist := map junk_dist (seq 0 (stoplen + 1)) in
                        let mediandist := <[0 := PrimFloat.zero]> mediandist in
                        let mediandist :=
                          <[0 := sum_weighted_lengths n 0 lengths weights
                                   (rdd mediandist 0)]> mediandist in
                        let '(stoplen, median, mediandist) :=
                          build_median stoplen 1 stoplen maxlen n lengths strings
                            weights symlist rows row median mediandist in
                        let bestlen := best_length stoplen 1 mediandist 0 in
                        if negb (gh_result heap) then (None, medlength)
                        else (Some (take bestlen median), Z.of_nat bestlen)
                    end
                end
            end
        end
  end.

(** ** Assignment: [munkers_blackman] *)

(** The entries of the matrix are doubles.  They are modelled by the
    rationals they stand for, and the sums, differences and comparisons of
    the run by the exact ones: the run below is the run of the code when no
    sum or difference of it is rounded, and no entry lies between a decimal
    constant and the double that the compiler puts for it.  What is proved
    of [munkers_blackman] is stated for such matrices. *)

(** [LEV_EPSILON], 1e-14. *)
Definition LEV_EPSILON : Q := 1 # 100000000000000.

(** An entry below [LEV_EPSILON] is replaced by [0.0]. *)
Definition clamp (x : Q) : Q := if Qltb x LEV_EPSILON then 0%Q else x.

(** The outcomes of the five [calloc]s, in the order of the source. *)
Record munkres_heap : Type := mkMunkresHeap {
  mh_covc : bool;
  mh_zstarc : bool;
  mh_covr : bool;
  mh_zstarr : bool;
  mh_zprimer : bool
}.

Section Munkres.
Variables n1 n2 : nat.

(** The entry of row [i] and column [j]: [dists[i*n1 + j]]. *)
Definition cell (dists : list Q) (i j : nat) : Q := rdq dists (i * n1 + j).

(** Step 0: the smallest entry of column [j] and its row. *)
Definition column_min (dists : list Q) (j : nat) : nat * Q :=
  fold_left
    (fun '(minidx, min) i =>
       if Qltb (cell dists i j) min then (i, cell dists i j) else (minidx, min))
    (seq 1 (n2 - 1)) (0, cell dists 0 j).

(** [min] is subtracted down column [j], with the replacement of the small
    entries. *)
Definition subtract_column (min : Q) (j : nat) (dists : list Q) : list Q :=
  fold_left
    (fun dists i => <[i * n1 + j := clamp (cell dists i j - min)]> dists)
    (seq 0 n2) dists.

(** Step 1, the search for some other zero of column [j] to star; it stops
    at the first one. *)
Fixpoint star_other (k i j minidx : nat) (dists : list Q)
    (zstarc zstarr : list nat) : list nat * list nat :=
  match k with
  | 0 => (zstarc, zstarr)
  | S k' =>
      if negb (i =? minidx) && Qeqb0 (cell dists i j)
         && (rdn zstarc j =? 0) && (rdn zstarr i =? 0)
      then (<[j := i + 1]> zstarc, <[i := j + 1]> zstarr)
      else star_other k' (i + 1) j minidx dists zstarc zstarr
  end.

(** Steps 0 and 1 for column [j]. *)
Definition reduce_column (st : list Q * list nat * list nat) (j : nat)
  : list Q * list nat * list nat :=
  let '(dists, zstarc, zstarr) := st in
  let '(minidx, min) := column_min dists j in
  let dists := subtract_column min j dists in
  if (rdn zstarc j =? 0) && (rdn zstarr minidx =? 0)
  then (dists, <[j := minidx + 1]> zstarc, <[minidx := j + 1]> zstarr)
  else
    let '(zstarc, zstarr) := star_other n2 0 j minidx dists zstarc zstarr in
    (dists, zstarc, zstarr).

(** Step 2: the columns that hold a starred zero are covered and counted. *)
Definition cover_columns (zstarc covc : list nat) : list nat * nat :=
  fold_left
    (fun '(covc, nc) j =>
       if rdn zstarc j =? 0 then (covc, nc) else (<[j := 1]> covc, nc + 1))
    (seq 0 n1) (covc, 0).

(** Step 3, the search for an uncovered zero: down column [j], and over
    the columns. *)
Fixpoint zero_in_column (k i j : nat) (dists : list Q) (covr : list nat)
  : option nat :=
  match k with
  | 0 => None
  | S k' =>
      if (rdn covr i =? 0) && Qeqb0 (cell dists i j) then Some i
      else zero_in_column k' (i + 1) j dists covr
  end.

Fixpoint uncovered_zero (k j : nat) (dists : list Q) (covc covr : list nat)
  : option (nat * nat) :=
  match k with
  | 0 => None
  | S k' =>
      if negb (rdn covc j =? 0) then uncovered_zero k' (j + 1) dists covc covr
      else
        match zero_in_column n2 0 j dists covr with
        | Some i => Some (i, j)
        | None => uncovered_zero k' (j + 1) dists covc covr
        end
  end.

(** Step 5: the smallest uncovered entry. *)
Definition uncovered_min (dists : list Q) (covc covr : list nat) : Q :=
  fold_left
    (fun min j =>
       if negb (rdn covc j =? 0) then min
       else
         fold_left
           (fun min i =>
              if (rdn covr i =? 0) && Qltb (cell dists i j) min
              then cell dists i j else min)
           (seq 0 n2) min)
    (seq 0 n1) LEV_INFINITY.

(** Step 5: it is added to the covered rows. *)
Definition add_to_covered_rows (min : Q) (covr : list nat) (dists : list Q)
  : list Q :=
  fold_left
    (fun dists i =>
       if rdn covr i =? 0 then dists
       else
         fold_left
           (fun dists j => <[i * n1 + j := (cell dists i j + min)%Q]> dists)
           (seq 0 n1) dists)
    (seq 0 n2) dists.

(** Step 5: and subtracted from the uncovered columns. *)
Definition subtract_from_uncovered_columns (min : Q) (covc : list nat)
    (dists : list Q) : list Q :=
  fold_left
    (fun dists j =>
       if negb (rdn covc j =? 0) then dists else subtract_column min j dists)
    (seq 0 n1) dists.

Definition new_zero (dists : list Q) (covc covr : list nat) : list Q :=
  let min := uncovered_min dists covc covr in
  subtract_from_uncovered_columns min covc (add_to_covered_rows min covr dists).

(** Step 3: the loop that ends with the [goto step_4]; the result is the
    state and the row [i] of the zero found.  [None] when the fuel is used
    up. *)
Fixpoint find_path (fuel : nat) (dists : list Q) (covc covr zstarr zprimer : list nat)
  : option (list Q * list nat * nat) :=
  match fuel with
  | 0 => None
  | S fuel' =>
      match uncovered_zero n1 0 dists covc covr with
      | Some (i, j) =>
          let zprimer := <[i := j + 1]> zprimer in
          if negb (rdn zstarr i =? 0) then
            let covr := <[i := 1]> covr in
            let covc := <[rdn zstarr i - 1 := 0]> covc in
            find_path fuel' dists covc covr zstarr zprimer
          else Some (dists, zprimer, i)
      | None =>
          find_path fuel' (new_zero dists covc covr) covc covr zstarr zprimer
      end
  end.

(** Step 4, the [do ... while (i)]: [i] is the row plus one.  [None] when
    the fuel is used up, and for an access outside [zprimer] or [zstarc]
    (which a row without a primed zero would cause). *)
Fixpoint augment (fuel i : nat) (zprimer zstarr zstarc : list nat)
  : option (list nat * list nat) :=
  match fuel with
  | 0 => None
  | S fuel' =>
      let x := i in
      let i := i - 1 in
      match zprimer !! i with
      | None => None
      | Some 0 => None
      | Some (S j) =>
          let zstarr := <[i := j + 1]> zstarr in
          match zstarc !! j with
          | None => None
          | Some i =>
              let zstarc := <[j := x]> zstarc in
              if i =? 0 then Some (zstarr, zstarc)
              else augment fuel' i zprimer zstarr zstarc
          end
      end
  end.

(** The main loop; the result is [zstarc] at the [break]. *)
Fixpoint assign (fuel : nat) (dists : list Q) (zstarc zstarr : list nat)
  : option (list nat) :=
  match fuel with
  | 0 => None
  | S fuel' =>
      let '(covc, nc) := cover_columns zstarc (repeat 0 n1) in
      if nc =? n1 then Some zstarc
      else
        match find_path fuel' dists covc (repeat 0 n2) zstarr (repeat 0 n2) with
        | None => None
        | Some (dists, zprimer, i) =>
            match augment fuel' (i + 1) zprimer zstarr zstarc with
            | None => None
            | Some (zstarr, zstarc) => assign fuel' dists zstarc zstarr
            end
        end
  end.

(** [munkers_blackman].  The inner [None] is the [NULL] of a failed
    allocation; the outer [None] stands for a run that needs more than
    [fuel] iterations of one of its loops, or that leaves its arrays. *)
Definition munkers_blackman (fuel : nat) (dists : list Q) (heap : munkres_heap)
  : option (option (list nat)) :=
  if negb (mh_covc heap && mh_zstarc heap && mh_covr heap && mh_zstarr heap
           && mh_zprimer heap)
  then Some None
  else
    let '(dists, zstarc, zstarr) :=
      fold_left reduce_column (seq 0 n1) (dists, repeat 0 n1, repeat 0 n2) in
    match assign fuel dists zstarc zstarr with
    | None => None
    | Some zstarc => Some (Some (map (fun x => usub x 1) zstarc))
    end.

End Munkres.

(** ** More on edit scripts: [lev_editops_invert], [lev_opcodes_invert],
       [lev_opcodes_check_errors], [lev_opcodes_apply],
       [lev_editops_matching_blocks], [lev_opcodes_matching_blocks] *)

(** [if (type & 2) type = type ^ 1;]  Modelled from the spec: the numeric
    values of the edit types are those of [_levenshtein.h]; the spec
    (section 3) requires that bit 1 is set for exactly the insertion and the
    deletion and that the low bit tells them apart, so the statement
    exchanges these two and leaves the others. *)
Definition invert_type (t : LevEditType) : LevEditType :=
  match t with
  | LEV_EDIT_INSERT => LEV_EDIT_DELETE
  | LEV_EDIT_DELETE => LEV_EDIT_INSERT
  | LEV_EDIT_KEEP => LEV_EDIT_KEEP
  | LEV_EDIT_REPLACE => LEV_EDIT_REPLACE
  end.

(** The body of the loop of [lev_editops_invert]. *)
Definition invert_op (o : LevEditOp) : LevEditOp :=
  mkEditOp (invert_type (type o)) (dpos o) (spos o).

(** [lev_editops_invert]: the array after the call, which changes its first
    [n] elements in place. *)
Definition lev_editops_invert (n : nat) (ops : list LevEditOp) : list LevEditOp :=
  map invert_op (take n ops) ++ drop n ops.

(** The body of the loop of [lev_opcodes_invert]. *)
Definition invert_block (b : LevOpCode) : LevOpCode :=
  mkOpCode (invert_type (btype b)) (dbeg b) (dend b) (sbeg b) (send b).

(** [lev_opcodes_invert]: the array after the call. *)
Definition lev_opcodes_invert (nb : nat) (bops : list LevOpCode) : list LevOpCode :=
  map invert_block (take nb bops) ++ drop nb bops.

(** What [lev_opcodes_check_errors] returns: one of the error codes, or the
    literal [1] of its first [return]. *)
Inductive LevCheck : Type :=
| LEV_CHECK (e : LevEditError)
| LEV_CHECK_1.

#[global] Instance LevCheck_eq_dec : EqDecision LevCheck.
Proof. solve_decision. Defined.

(** [lev_opcodes_check_errors], the body of the loop over the blocks; the
    differences are unsigned. *)
Definition check_block (len1 len2 : nat) (b : LevOpCode) : LevEditError :=
  if (len1 <? send b) || (len2 <? dend b) then LEV_EDIT_ERR_OUT
  else
    match btype b with
    | LEV_EDIT_KEEP | LEV_EDIT_REPLACE =>
        if negb (usub (dend b) (dbeg b) =? usub (send b) (sbeg b))
           || (dend b =? dbeg b)
        then LEV_EDIT_ERR_BLOCK else LEV_EDIT_ERR_OK
    | LEV_EDIT_INSERT =>
        if (usub (dend b) (dbeg b) =? 0) || negb (usub (send b) (sbeg b) =? 0)
        then LEV_EDIT_ERR_BLOCK else LEV_EDIT_ERR_OK
    | LEV_EDIT_DELETE =>
        if (usub (send b) (sbeg b) =? 0) || negb (usub (dend b) (dbeg b) =? 0)
        then LEV_EDIT_ERR_BLOCK else LEV_EDIT_ERR_OK
    end.

Fixpoint check_blocks (len1 len2 : nat) (bops : list LevOpCode) : LevEditError :=
  match bops with
  | [] => LEV_EDIT_ERR_OK
  | b :: bops' =>
      match check_block len1 len2 b with
      | LEV_EDIT_ERR_OK => check_blocks len1 len2 bops'
      | e => e
      end
  end.

(** The ordering loop: [b] runs one block ahead of [bops]. *)
Fixpoint check_stitched (bops : list LevOpCode) : LevEditError :=
  match bops with
  | p :: ((b :: _) as bops') =>
      if negb (sbeg b =? send p) || negb (dbeg b =? dend p) then LEV_EDIT_ERR_ORDER
      else check_stitched bops'
  | _ => LEV_EDIT_ERR_OK
  end.

(** [lev_opcodes_check_errors].  [None] when [bops] holds fewer than [nb]
    blocks, so that [bops[nb - 1]] is outside the array. *)
Definition lev_opcodes_check_errors (len1 len2 nb : nat) (bops : list LevOpCode)
  : option LevCheck :=
  if nb =? 0 then Some LEV_CHECK_1
  else
    match bops !! 0, bops !! (nb - 1) with
    | Some first, Some last =>
        if negb (sbeg first =? 0) || negb (dbeg first =? 0)
           || negb (send last =? len1) || negb (dend last =? len2)
        then Some (LEV_CHECK LEV_EDIT_ERR_SPAN)
        else
          match check_blocks len1 len2 (take nb bops) with
          | LEV_EDIT_ERR_OK => Some (LEV_CHECK (check_stitched (take nb bops)))
          | e => Some (LEV_CHECK e)
          end
    | _, _ => None
    end.

Section BlockOps.
Context {A : Type}.

(** [memcpy(dst + pos, w, |w|)]: [None] when it would write past the end of
    [dst]. *)
Definition memcpy_at (dst : list A) (pos : nat) (w : list A) : option (list A) :=
  if pos + length w <=? length dst
  then Some (take pos dst ++ w ++ drop (pos + length w) dst)
  else None.

(** [memcpy] from [string + off] of [k] symbols into [dst + pos]: [None] for
    a read or a write outside the arrays. *)
Definition copy_block (len : nat) (string : list A) (off k : nat)
    (dst : list A) (pos : nat) : option (list A) :=
  if (off + k <=? len) && (off + k <=? length string)
  then memcpy_at dst pos (take k (drop off string))
  else None.

(** The loop of [lev_opcodes_apply].  [dst] is the whole block allocated,
    [pos] the offset [dpos - dst] of the cursor.  [None] stands for
    undefined behaviour: an end below its beginning, which makes the
    unsigned differences wrap around and takes the cursors out of their
    arrays, a [memcpy] outside an array, or a cursor past the end of the
    block. *)
Fixpoint apply_blocks (len1 : nat) (string1 : list A) (len2 : nat)
    (string2 : list A) (bops : list LevOpCode) (pos : nat) (dst : list A)
  : option (nat * list A) :=
  match bops with
  | [] => Some (pos, dst)
  | b :: bops' =>
      if (send b <? sbeg b) || (dend b <? dbeg b) then None
      else
        let written :=
          match btype b with
          | LEV_EDIT_INSERT | LEV_EDIT_REPLACE =>
              copy_block len2 string2 (dbeg b) (dend b - dbeg b) dst pos
          | LEV_EDIT_KEEP =>
              copy_block len1 string1 (sbeg b) (send b - sbeg b) dst pos
          | LEV_EDIT_DELETE => Some dst
          end in
        match written with
        | None => None
        | Some dst =>
            let pos := pos + (dend b - dbeg b) in
            if length dst <? pos then None
            else apply_blocks len1 string1 len2 string2 bops' pos dst
        end
  end.

(** [lev_opcodes_apply] (and [lev_u_opcodes_apply]).  [heap] is the outcome
    of the allocation of [len1 + len2] symbols, [shrunk] that of the final
    [realloc], which shrinks the block to the symbols before the cursor.
    The result is the pointer returned ([None] is [NULL]) and the value
    written to [*len]. *)
Definition lev_opcodes_apply (len1 : nat) (string1 : list A) (len2 : nat)
    (string2 : list A) (nb : nat) (bops : list LevOpCode)
    (heap : option (nat -> A)) (shrunk : bool) : option (option (list A) * Z) :=
  match heap with
  | None => Some (None, SIZE_MAX)
  | Some junk =>
      let dst := map junk (seq 0 (len1 + len2)) in
      match apply_blocks len1 string1 len2 string2 (take nb bops) 0 dst with
      | None => None
      | Some (pos, dst) => Some (realloc_to shrunk (take pos dst), Z.of_nat pos)
      end
  end.

End BlockOps.

(** Modelled from the spec: the matching block of [_levenshtein.h]; the
    spec (section 3) gives it as [{spos, dpos, len}].  The fields carry an
    [m] here, the projections of two records cannot share a name. *)
Record LevMatchingBlock : Type := mkMatchingBlock {
  mspos : nat;
  mdpos : nat;
  mlen : nat
}.

#[global] Instance LevMatchingBlock_eq_dec : EqDecision LevMatchingBlock.
Proof. solve_decision. Defined.

(** The first pass of [lev_editops_matching_blocks]: the number of blocks
    and the final [spos] and [dpos].  The loops are those of
    [lev_editops_to_opcodes]; the fuel counts the operations consumed. *)
Fixpoint count_mblocks (fuel : nat) (ops : list LevEditOp) (nmb spos_ dpos_ : nat)
  : option (nat * nat * nat) :=
  match skip_keep ops with
  | [] => Some (nmb, spos_, dpos_)
  | o :: ops' =>
      match fuel with
      | 0 => None
      | S fuel' =>
          let '(nmb, spos_, dpos_) :=
            if (spos_ <? spos o) || (dpos_ <? dpos o)
            then (nmb + 1, spos o, dpos o) else (nmb, spos_, dpos_) in
          let t := type o in
          match t with
          | LEV_EDIT_KEEP => None
          | _ =>
              let '(s, d) := advance t (spos_, dpos_) in
              let '(s, d, rest) := run_while t s d ops' in
              count_mblocks fuel' rest nmb s d
          end
      end
  end.

(** The second pass: the blocks written through [mb], in order. *)
Fixpoint convert_mblocks (fuel : nat) (ops : list LevEditOp) (spos_ dpos_ : nat)
    (mblocks : list LevMatchingBlock)
  : option (list LevMatchingBlock * nat * nat) :=
  match skip_keep ops with
  | [] => Some (mblocks, spos_, dpos_)
  | o :: ops' =>
      match fuel with
      | 0 => None
      | S fuel' =>
          let '(mblocks, spos_, dpos_) :=
            if (spos_ <? spos o) || (dpos_ <? dpos o)
            then (mblocks ++ [mkMatchingBlock spos_ dpos_ (usub (spos o) spos_)],
                  spos o, dpos o)
            else (mblocks, spos_, dpos_) in
          let t := type o in
          match t with
          | LEV_EDIT_KEEP => None
          | _ =>
              let '(s, d) := advance t (spos_, dpos_) in
              let '(s, d, rest) := run_while t s d ops' in
              convert_mblocks fuel' rest s d mblocks
          end
      end
  end.

(** [lev_editops_matching_blocks].  [heap] is the outcome of the
    allocation; the result is the pointer returned and the value written to
    [*nmblocks].  The outer [None] is a failed assertion, or a write past
    the [nmb] blocks allocated. *)
Definition lev_editops_matching_blocks (len1 len2 n : nat) (ops : list LevEditOp)
    (heap : option (nat -> LevMatchingBlock))
  : option (option (list LevMatchingBlock) * Z) :=
  match count_mblocks n (take n ops) 0 0 0 with
  | None => None
  | Some (nmb, spos_, dpos_) =>
      let nmb := if (spos_ <? len1) || (dpos_ <? len2) then nmb + 1 else nmb in
      match heap with
      | None => Some (None, SIZE_MAX)
      | Some _ =>
          match convert_mblocks n (take n ops) 0 0 [] with
          | None => None
          | Some (mblocks, spos_, dpos_) =>
              if (spos_ <? len1) || (dpos_ <? len2) then
                if usub len1 spos_ =? usub len2 dpos_ then
                  let mblocks :=
                    mblocks ++ [mkMatchingBlock spos_ dpos_ (usub len1 spos_)] in
                  if length mblocks =? nmb then Some (Some mblocks, Z.of_nat nmb)
                  else None
                else None
              else if length mblocks =? nmb then Some (Some mblocks, Z.of_nat nmb)
              else None
          end
      end
  end.

(** [while (i && b->type == LEV_EDIT_KEEP) { i--; b++; }] *)
Fixpoint skip_keep_blocks (bops : list LevOpCode) : list LevOpCode :=
  match bops with
  | b :: bops' =>
      if bool_decide (btype b = LEV_EDIT_KEEP) then skip_keep_blocks bops' else bops
  | [] => []
  end.

(** The first pass of [lev_opcodes_matching_blocks].  After a run of keep
    blocks the [for] steps over the block that ended the run. *)
Fixpoint count_keep_runs (fuel : nat) (bops : list LevOpCode) (nmb : nat) : nat :=
  match fuel with
  | 0 => nmb
  | S fuel' =>
      match bops with
      | [] => nmb
      | b :: bops' =>
          if bool_decide (btype b = LEV_EDIT_KEEP) then
            match skip_keep_blocks bops with
            | [] => nmb + 1
            | _ :: rest => count_keep_runs fuel' rest (nmb + 1)
            end
          else count_keep_runs fuel' bops' nmb
      end
  end.

(** The second pass. *)
Fixpoint convert_keep_runs (fuel : nat) (len1 : nat) (bops : list LevOpCode)
    (mblocks : list LevMatchingBlock) : list LevMatchingBlock :=
  match fuel with
  | 0 => mblocks
  | S fuel' =>
      match bops with
      | [] => mblocks
      | b :: bops' =>
          if bool_decide (btype b = LEV_EDIT_KEEP) then
            match skip_keep_blocks bops with
            | [] =>
                mblocks ++ [mkMatchingBlock (sbeg b) (dbeg b) (usub len1 (sbeg b))]
            | b' :: rest =>
                convert_keep_runs fuel' len1 rest
                  (mblocks
                   ++ [mkMatchingBlock (sbeg b) (dbeg b) (usub (sbeg b') (sbeg b))])
            end
          else convert_keep_runs fuel' len1 bops' mblocks
      end
  end.

(** [lev_opcodes_matching_blocks]; [len2] is not used.  Every iteration of
    a loop consumes a block, so [nb] is fuel enough.  The outer [None] is
    the failed assertion. *)
Definition lev_opcodes_matching_blocks (len1 len2 nb : nat) (bops : list LevOpCode)
    (heap : option (nat -> LevMatchingBlock))
  : option (option (list LevMatchingBlock) * Z) :=
  let nmb := count_keep_runs nb (take nb bops) 0 in
  match heap with
  | None => Some (None, SIZE_MAX)
  | Some _ =>
      let mblocks := convert_keep_runs nb len1 (take nb bops) [] in
      if length mblocks =? nmb then Some (Some mblocks, Z.of_nat nmb) else None
  end.

(** ** [lev_editops_subtract], [lev_set_median], [lev_edit_seq_distance] *)

(** Modelled from the spec: [shifts[type]].  The table [{0, 0, 1, -1}] is
    indexed by the numeric value of the type, which [_levenshtein.h]
    defines; the spec (section 4.3) gives the shift as [+1] for an
    insertion, [-1] for a deletion and [0] for a replacement. *)
Definition shifts (t : LevEditType) : Z :=
  match t with
  | LEV_EDIT_KEEP => 0
  | LEV_EDIT_REPLACE => 0
  | LEV_EDIT_INSERT => 1
  | LEV_EDIT_DELETE => -1
  end%Z.

(** [(int)x] for a [size_t]; the conversion is taken to keep the low 32
    bits, as it does where [int] has 32 bits. *)
Definition int_of_size (x : nat) : Z :=
  ((Z.of_nat x + 2 ^ 31) mod 2 ^ 32 - 2 ^ 31)%Z.

(** [(size_t)((int)spos + shift)]. *)
Definition shift_spos (spos_ : nat) (shift : Z) : nat :=
  Z.to_nat (wrap64 (int_of_size spos_ + shift)).

(** [rem[nn] = ops[j]; rem[nn].spos = ...; nn++;] for an operation that is
    not a keep.  [rem] is the list of the operations written so far, [cap]
    the number of operations allocated ([0] for a [NULL] pointer); [None]
    when the write is outside the block. *)
Definition push_shifted (cap : nat) (o : LevEditOp) (shift : Z)
    (rem : list LevEditOp) : option (list LevEditOp) :=
  if bool_decide (type o = LEV_EDIT_KEEP) then Some rem
  else if length rem <? cap
  then Some (rem ++ [mkEditOp (type o) (shift_spos (spos o) shift) (dpos o)])
  else None.

(** The [while] that looks for [s] from [ops[j]] on.  The result is the
    index at which it stops and [rem].  The condition reads [ops[j]] before
    it tests [j < n]: [None] when that read is outside [ops], and for a
    write outside [rem]. *)
Fixpoint find_sub (fuel n cap : nat) (ops : list LevEditOp) (s : LevEditOp)
    (shift : Z) (j : nat) (rem : list LevEditOp)
  : option (nat * list LevEditOp) :=
  match ops !! j with
  | None => None
  | Some o =>
      if negb (bool_decide (o = s)) && (j <? n) then
        match fuel with
        | 0 => None
        | S fuel' =>
            match push_shifted cap o shift rem with
            | None => None
            | Some rem => find_sub fuel' n cap ops s shift (j + 1) rem
            end
        end
      else Some (j, rem)
  end.

(** The [for] over the operations of [sub]; the inner [None] is the early
    [return NULL]. *)
Fixpoint subtract_loop (n cap : nat) (ops sub : list LevEditOp) (shift : Z)
    (j : nat) (rem : list LevEditOp)
  : option (option (Z * nat * list LevEditOp)) :=
  match sub with
  | [] => Some (Some (shift, j, rem))
  | s :: sub' =>
      match find_sub (n - j) n cap ops s shift j rem with
      | None => None
      | Some (j, rem) =>
          if j =? n then Some None
          else subtract_loop n cap ops sub' (shift + shifts (type s))%Z (j + 1) rem
      end
  end.

(** The final [while (j < n)]. *)
Fixpoint copy_rest (fuel n cap : nat) (ops : list LevEditOp) (shift : Z)
    (j : nat) (rem : list LevEditOp) : option (list LevEditOp) :=
  match fuel with
  | 0 => Some rem
  | S fuel' =>
      if j <? n then
        match ops !! j with
        | None => None
        | Some o =>
            match push_shifted cap o shift rem with
            | None => None
            | Some rem => copy_rest fuel' n cap ops shift (j + 1) rem
            end
        end
      else Some rem
  end.

(** [lev_editops_subtract].  [heap] is the outcome of the allocation, which
    is only made for a remainder that is not empty and whose result is
    used unchecked.  The result is the pointer returned and the value of
    [*nrem]; the outer [None] stands for an access outside an array and for
    the failed assertion. *)
Definition lev_editops_subtract (n : nat) (ops : list LevEditOp)
    (ns : nat) (sub : list LevEditOp) (heap : option (nat -> LevEditOp))
  : option editops_result :=
  let nr := length (filter (fun o => type o <> LEV_EDIT_KEEP) (take n ops)) in
  let nn := length (filter (fun o => type o <> LEV_EDIT_KEEP) (take ns sub)) in
  if nr <? nn then Some (None, SIZE_MAX)
  else
    let nr := nr - nn in
    let cap :=
      if nr =? 0 then 0 else match heap with Some _ => nr | None => 0 end in
    match subtract_loop n cap ops (take ns sub) 0%Z 0 [] with
    | None => None
    | Some None => Some (None, SIZE_MAX)
    | Some (Some (shift, j, rem)) =>
        match copy_rest (n - j) n cap ops shift j rem with
        | None => None
        | Some rem =>
            if length rem =? nr
            then Some ((if cap =? 0 then None else Some rem), Z.of_nat nr)
            else None
        end
    end.

Section SetMedian2.
Context {A : Type} `{EqDecision A}.

(** The symbol whose bits are all zero, which [calloc] yields. *)
Variable zero : A.

(** [lev_set_median] (and [lev_u_set_median]).  [heap_row] and [heap_dist]
    are the allocations of [lev_set_median_index], [heap_empty] and
    [heap_result] those of the two results.  [medlength] is the value that
    [*medlength] holds on entry; the result is the pointer returned and the
    value that [*medlength] holds on return.  The outer [None] is a read
    outside [lengths], [strings] or the string chosen. *)
Definition lev_set_median (n : nat) (lengths : list nat) (strings : list (list A))
    (weights : list Q) (medlength : Z)
    (heap_row : nat -> nat -> option (nat -> nat)) (heap_dist : option (nat -> Z))
    (heap_empty : bool) (heap_result : option (nat -> A))
  : option (option (list A) * Z) :=
  match lev_set_median_index n lengths strings weights heap_row heap_dist with
  | None => Some (None, medlength)
  | Some minidx =>
      match lengths !! minidx with
      | None => None
      | Some len =>
          let medlength := Z.of_nat len in
          if len =? 0
          then Some ((if heap_empty then Some [zero] else None), medlength)
          else
            match heap_result with
            | None => Some (None, medlength)
            | Some _ =>
                match strings !! minidx with
                | None => None
                | Some s =>
                    if len <=? length s then Some (Some (take len s), medlength)
                    else None
                end
            end
      end
  end.

End SetMedian2.

Section SeqDistance.
Context {A : Type} `{EqDecision A}.

(** [memcmp(s1, s2, len*sizeof(lev_byte)) == 0]. *)
Definition memcmp_eq (s1 s2 : list A) (len : nat) : bool :=
  bool_decide (take len s1 = take len s2).

(** The loop that strips the common prefix of the two sequences. *)
Fixpoint seq_strip_prefix (fuel n1 : nat) (lengths1 : list nat)
    (strings1 : list (list A)) (n2 : nat) (lengths2 : list nat)
    (strings2 : list (list A))
  : nat * list nat * list (list A) * nat * list nat * list (list A) :=
  match fuel with
  | 0 => (n1, lengths1, strings1, n2, lengths2, strings2)
  | S fuel' =>
      if (0 <? n1) && (0 <? n2) && (nth 0 lengths1 0 =? nth 0 lengths2 0)
         && memcmp_eq (nth 0 strings1 []) (nth 0 strings2 []) (nth 0 lengths1 0)
      then seq_strip_prefix fuel' (n1 - 1) (tail lengths1) (tail strings1)
             (n2 - 1) (tail lengths2) (tail strings2)
      else (n1, lengths1, strings1, n2, lengths2, strings2)
  end.

(** The loop that strips the common suffix. *)
Fixpoint seq_strip_suffix (fuel n1 : nat) (lengths1 : list nat)
    (strings1 : list (list A)) (n2 : nat) (lengths2 : list nat)
    (strings2 : list (list A)) : nat * nat :=
  match fuel with
  | 0 => (n1, n2)
  | S fuel' =>
      if (0 <? n1) && (0 <? n2)
         && (nth (n1 - 1) lengths1 0 =? nth (n2 - 1) lengths2 0)
         && memcmp_eq (nth (n1 - 1) strings1 []) (nth (n2 - 1) strings2 [])
              (nth (n1 - 1) lengths1 0)
      then seq_strip_suffix fuel' (n1 - 1) lengths1 strings1 (n2 - 1) lengths2 strings2
      else (n1, n2)
  end.

(** [for (i = 0; i < n2; i++) row[i] = (double)i;] *)
Fixpoint seq_init_row (k i : nat) (row : list Q) : list Q :=
  match k with
  | 0 => row
  | S k' => seq_init_row k' (i + 1) (<[i := Qnat i]> row)
  end.

(** The inner [while (p <= end)] for the string [str1].  [p] is the index
    of the cell, [c2] the offset of [len2p] and [str2p]: these two only
    advance inside the call of [lev_edit_distance], not when both strings
    are empty.  [heap] is the outcome of the allocation of the call made
    for cell [p]; [None] is the early [return -1.0]. *)
Fixpoint seq_row (k len1 : nat) (str1 : list A) (lengths2 : list nat)
    (strings2 : list (list A)) (heap : nat -> option (nat -> nat))
    (p c2 : nat) (D x : Q) (row : list Q) : option (list Q) :=
  match k with
  | 0 => Some row
  | S k' =>
      let l := len1 + nth c2 lengths2 0 in
      let q_c2 :=
        if l =? 0 then Some (D, c2)
        else
          match lev_edit_distance len1 str1 (nth c2 lengths2 0) (nth c2 strings2 [])
                  true (heap p) with
          | None => None
          | Some d => Some ((D + 2 / Qnat l * Qnat d)%Q, c2 + 1)
          end in
      match q_c2 with
      | None => None
      | Some (q, c2) =>
          let x := (x + 1)%Q in
          let x := if Qltb q x then q else x in
          let D := rdq row p in
          let x := if Qltb (D + 1)%Q x then (D + 1)%Q else x in
          seq_row k' len1 str1 lengths2 strings2 heap (p + 1) c2 D x (<[p := x]> row)
      end
  end.

(** The outer [for (i = 1; i < n1; i++)]. *)
Fixpoint seq_rows (k i n2 : nat) (lengths1 : list nat) (strings1 : list (list A))
    (lengths2 : list nat) (strings2 : list (list A))
    (heap : nat -> nat -> option (nat -> nat)) (row : list Q) : option (list Q) :=
  match k with
  | 0 => Some row
  | S k' =>
      match seq_row (n2 - 1) (nth (i - 1) lengths1 0) (nth (i - 1) strings1 [])
              lengths2 strings2 (heap i) 1 0 (Qnat i - 1)%Q (Qnat i) row with
      | None => None
      | Some row => seq_rows k' (i + 1) n2 lengths1 strings1 lengths2 strings2 heap row
      end
  end.

(** [lev_edit_seq_distance] (and [lev_u_edit_seq_distance]).  [heap_row] is
    the outcome of the allocation of [row], [heap i p] that of the call of
    [lev_edit_distance] made in row [i] for cell [p].  The result [-1] is
    the failure value [-1.0]. *)
Definition lev_edit_seq_distance (n1 : nat) (lengths1 : list nat)
    (strings1 : list (list A)) (n2 : nat) (lengths2 : list nat)
    (strings2 : list (list A)) (heap_row : option (nat -> Q))
    (heap : nat -> nat -> option (nat -> nat)) : Q :=
  let '(n1, lengths1, strings1, n2, lengths2, strings2) :=
    seq_strip_prefix n1 n1 lengths1 strings1 n2 lengths2 strings2 in
  let '(n1, n2) := seq_strip_suffix n1 n1 lengths1 strings1 n2 lengths2 strings2 in
  if n1 =? 0 then Qnat n2
  else if n2 =? 0 then Qnat n1
  else
    let '(n1, lengths1, strings1, n2, lengths2, strings2) :=
      if n2 <? n1 then (n2, lengths2, strings2, n1, lengths1, strings1)
      else (n1, lengths1, strings1, n2, lengths2, strings2) in
    let n1 := n1 + 1 in
    let n2 := n2 + 1 in
    match heap_row with
    | None => (-1)%Q
    | Some junk =>
        let row := seq_init_row n2 0 (map junk (seq 0 n2)) in
        match seq_rows (n1 - 1) 1 n2 lengths1 strings1 lengths2 strings2 heap row with
        | None => (-1)%Q
        | Some row => rdq row (n2 - 1)
        end
    end.

End SeqDistance.

(** ** The distance of sets of strings: [lev_set_distance] *)

Section SetDistance.
Context {A : Type} `{EqDecision A}.

(** The inner [for (j = 0; j < n1; j++)] that fills one row of the matrix
    for the string [str2].  [r] is the offset [r - dists] of the cursor,
    [c1] that of [len1p] and [str1p], which only advance inside the call of
    [lev_edit_distance], not when both strings are empty.  [heap j] is the
    outcome of the allocation of that call.  The inner [None] is the early
    [return -1.0]; it is preceded by [free(r)], which is only defined while
    the cursor is at the start of the block: the outer [None] stands for
    that call with a cursor that has moved. *)
Fixpoint set_row (k len2 : nat) (str2 : list A) (lengths1 : list nat)
    (strings1 : list (list A)) (heap : nat -> option (nat -> nat))
    (j c1 r : nat) (dists : list Q) : option (option (nat * list Q)) :=
  match k with
  | 0 => Some (Some (r, dists))
  | S k' =>
      let l := len2 + nth c1 lengths1 0 in
      if l =? 0
      then set_row k' len2 str2 lengths1 strings1 heap (j + 1) c1 (r + 1)
             (<[r := 0%Q]> dists)
      else
        match lev_edit_distance len2 str2 (nth c1 lengths1 0) (nth c1 strings1 [])
                true (heap j) with
        | None => if r =? 0 then Some None else None
        | Some d =>
            set_row k' len2 str2 lengths1 strings1 heap (j + 1) (c1 + 1) (r + 1)
              (<[r := (Qnat d / Qnat l)%Q]> dists)
        end
  end.

(** The outer [for (i = 0; i < n2; i++)]. *)
Fixpoint set_rows (k i n1 : nat) (lengths1 : list nat) (strings1 : list (list A))
    (lengths2 : list nat) (strings2 : list (list A))
    (heap : nat -> nat -> option (nat -> nat)) (r : nat) (dists : list Q)
  : option (option (list Q)) :=
  match k with
  | 0 => Some (Some dists)
  | S k' =>
      match set_row n1 (nth i lengths2 0) (nth i strings2 []) lengths1 strings1
              (heap i) 0 0 r dists with
      | None => None
      | Some None => Some None
      | Some (Some (r, dists)) =>
          set_rows k' (i + 1) n1 lengths1 strings1 lengths2 strings2 heap r dists
      end
  end.

(** The loop that sums the distances of the strings that [map] associates;
    [None] is the early [return -1.0]. *)
Fixpoint set_sum (k j : nat) (lengths1 : list nat) (strings1 : list (list A))
    (lengths2 : list nat) (strings2 : list (list A)) (map : list nat)
    (heap : nat -> option (nat -> nat)) (sum : Q) : option Q :=
  match k with
  | 0 => Some sum
  | S k' =>
      let i := nth j map 0 in
      let l := nth j lengths1 0 + nth i lengths2 0 in
      if 0 <? l then
        match lev_edit_distance (nth j lengths1 0) (nth j strings1 [])
                (nth i lengths2 0) (nth i strings2 []) true (heap j) with
        | None => None
        | Some d =>
            set_sum k' (j + 1) lengths1 strings1 lengths2 strings2 map heap
              (sum + 2 * Qnat d / Qnat l)%Q
        end
      else set_sum k' (j + 1) lengths1 strings1 lengths2 strings2 map heap sum
  end.

(** [lev_set_distance].  [heap_dists] is the outcome of the allocation of
    the matrix, [heap i j] that of the call of [lev_edit_distance] for the
    entry of row [i] and column [j], [heap_m] those of [munkers_blackman],
    whose loops get [fuel] iterations, and [heap_sum j] that of the call in
    the final sum.  The result [-1] is the failure value [-1.0]; [None]
    stands for undefined behaviour or for loops that need more fuel. *)
Definition lev_set_distance (n1 : nat) (lengths1 : list nat)
    (strings1 : list (list A)) (n2 : nat) (lengths2 : list nat)
    (strings2 : list (list A)) (heap_dists : option (nat -> Q))
    (heap : nat -> nat -> option (nat -> nat)) (fuel : nat) (heap_m : munkres_heap)
    (heap_sum : nat -> option (nat -> nat)) : option Q :=
  if n1 =? 0 then Some (Qnat n2)
  else if n2 =? 0 then Some (Qnat n1)
  else
    let '(n1, lengths1, strings1, n2, lengths2, strings2) :=
      if n2 <? n1 then (n2, lengths2, strings2, n1, lengths1, strings1)
      else (n1, lengths1, strings1, n2, lengths2, strings2) in
    match heap_dists with
    | None => Some (-1)%Q
    | Some junk =>
        match set_rows n2 0 n1 lengths1 strings1 lengths2 strings2 heap 0
                (map junk (seq 0 (n1 * n2))) with
        | None => None
        | Some None => Some (-1)%Q
        | Some (Some dists) =>
            match munkers_blackman n1 n2 fuel dists heap_m with
            | None => None
            | Some None => Some (-1)%Q
            | Some (Some map) =>
                match set_sum n1 0 lengths1 strings1 lengths2 strings2 map heap_sum
                        (Qnat (n2 - n1)) with
                | None => Some (-1)%Q
                | Some sum => Some sum
                end
            end
        end
    end.

End SetDistance.

(** * Specification and invariants *)

(** The notions the theorems are stated with, and the invariants of the
    loops. *)

Section EditDistanceDefs.
Context {A : Type} `{EqDecision A}.
Variable sc : nat.

Definition min3 (a b c : nat) : nat := Nat.min a (Nat.min b c).

Definition subcost (x y : A) : nat := if bool_decide (x = y) then 0 else sc.

(** The textbook recurrence, on the heads of the two strings. *)
Fixpoint lev (a : list A) : list A -> nat :=
  match a with
  | [] => fun b => length b
  | x :: a' =>
      fix lev_inner (b : list A) : nat :=
        match b with
        | [] => length a
        | y :: b' =>
            min3 (lev a' b' + subcost x y) (lev a' b + 1) (lev_inner b' + 1)
        end
  end.

(** One elementary operation applied anywhere in a string, with its cost. *)
Inductive edit_step : list A -> list A -> nat -> Prop :=
| step_insert l1 l2 y : edit_step (l1 ++ l2) (l1 ++ y :: l2) 1
| step_delete l1 l2 x : edit_step (l1 ++ x :: l2) (l1 ++ l2) 1
| step_substitute l1 l2 x y : edit_step (l1 ++ x :: l2) (l1 ++ y :: l2) sc.

(** A sequence of elementary operations, with the total cost. *)
Inductive edit_seq : list A -> list A -> nat -> Prop :=
| seq_done a : edit_seq a a 0
| seq_step a b c k1 k2 :
    edit_step a b k1 -> edit_seq b c k2 -> edit_seq a c (k1 + k2).

(** [d] is the minimum total cost of an edit sequence from [a] to [b]. *)
Definition min_edit_cost (a b : list A) (d : nat) : Prop :=
  edit_seq a b d /\ forall k, edit_seq a b k -> d <= k.

(** Alignments: edit sequences that work left to right. *)
Inductive align : list A -> list A -> nat -> Prop :=
| al_nil : align [] [] 0
| al_keep x a b k : align a b k -> align (x :: a) (x :: b) k
| al_sub x y a b k : align a b k -> align (x :: a) (y :: b) (k + sc)
| al_del x a b k : align a b k -> align (x :: a) b (k + 1)
| al_ins y a b k : align a b k -> align a (y :: b) (k + 1).

End EditDistanceDefs.

Section MatrixDefs.
Context {A : Type} `{EqDecision A}.
Variable sc : nat.
Variables s1 s2 : list A.

(** The cost matrix: entry [(i, j)] is the distance between the first [i]
    symbols of [s1] and the first [j] symbols of [s2]. *)
Definition M (i j : nat) : nat := lev sc (take i s1) (take j s2).

Definition neq_cost (c1 c2 : option A) : nat :=
  if bool_decide (c1 = c2) then 0 else sc.

End MatrixDefs.

Section CornerSkipDefs.
Context {A : Type} `{EqDecision A}.
Variables s1 s2 : list A.
Variables n m h : nat.
Abbreviation M1 := (M 1 s1 s2).

(** A cell is good when some path of cost at most [m] from the origin to
    the final cell may pass through it. *)
Definition good (i j : nat) : Prop :=
  M1 i j + ((m - n + i) - j) + (j - (m - n + i)) <= m.

(** What the sweep maintains for the entry [v] it stores for cell [(i, j)]. *)
Definition cell_ok (i j v : nat) : Prop :=
  M1 i j <= v /\ (good i j -> v = M1 i j).

(** State of the row and of [end] after row [i] of the matrix is done. *)
Definition skip_inv (i : nat) (endp : nat) (row : list nat) : Prop :=
  length row = m + 1 /\ rd row 0 = n - h /\
  (h + 1 <= i -> endp = m) /\
  forall j, 1 <= j -> i - (n - h) <= j -> j <= m -> j <= m - h + i ->
            cell_ok i j (rd row j).

End CornerSkipDefs.

Section AssemblyDefs.
Context {A : Type} `{EqDecision A}.

Definition xsc (xcost : bool) : nat := if xcost then 2 else 1.

End AssemblyDefs.

Section MatrixFillDefs.
Context {A : Type} `{EqDecision A}.
Variables s1 s2 : list A.
Variables n m : nat.
Abbreviation M1 := (M 1 s1 s2).
Abbreviation L2 := (m + 1).

(** The cells of the matrix listed by [done] hold their final values. *)
Definition filled (done : nat -> nat -> Prop) (matrix : list nat) : Prop :=
  length matrix = (n + 1) * L2 /\
  forall i j, i <= n -> j <= m -> done i j -> rd matrix (i * L2 + j) = M1 i j.

End MatrixFillDefs.

Section ApplyPropsDefs.
Context {A : Type} `{EqDecision A}.
Variables a b : list A.

(** The loop of [lev_editops_apply] followed by the final copy. *)
Definition apply_full (ops : list LevEditOp) (src : nat) (dst : list A)
  : option (list A) :=
  match apply_ops (length a) a b ops src dst with
  | Some (src', dst') =>
      match copy_source (length a) a src' (length a - src') with
      | Some w => Some (dst' ++ w)
      | None => None
      end
  | None => None
  end.

(** The first operation, if any, is not a keep and lies at or after [src]. *)
Definition starts_after (ops : list LevEditOp) (src : nat) : Prop :=
  match ops with
  | [] => True
  | o :: _ => src <= spos o /\ type o <> LEV_EDIT_KEEP
  end.

End ApplyPropsDefs.

Section BacktrackDefs.
Context {A : Type} `{EqDecision A}.
Variables a b pre t1 t2 : list A.
Variables n m : nat.
Variable matrix : list nat.
Abbreviation off := (length pre).
Abbreviation Mc := (M 1 t1 t2).
Abbreviation W := (m + 1).

(** The operations already written transform the rest of the source, from
    the current cell on, into the rest of the destination. *)
Definition suffix_ok (i j : nat) (ops : list LevEditOp) : Prop :=
  starts_after ops (i + off) /\
  forall dst, apply_full a b ops (i + off) dst = Some (dst ++ drop (j + off) b).

End BacktrackDefs.

(** The operations that are not keeps, in order. *)
Definition non_keep (ops : list LevEditOp) : list LevEditOp :=
  filter (fun o => type o <> LEV_EDIT_KEEP) ops.

(** An operation lies at the position [(sp, dp)] reached so far, or beyond
    it in at least one coordinate. *)
Definition at_or_ahead (sp dp : nat) (o : LevEditOp) : bool :=
  (sp <? spos o) || (dp <? dpos o) || ((sp =? spos o) && (dp =? dpos o)).

(** Every operation that is not a keep is at or ahead of the position
    reached by the one before it. *)
Fixpoint aligned (sp dp : nat) (ops : list LevEditOp) : bool :=
  match ops with
  | [] => true
  | o :: ops' =>
      if bool_decide (type o = LEV_EDIT_KEEP) then aligned sp dp ops'
      else
        at_or_ahead sp dp o &&
        aligned (advance (type o) (spos o, dpos o)).1
                (advance (type o) (spos o, dpos o)).2 ops'
  end.

(** The position reached after the last operation that is not a keep. *)
Fixpoint final_pos (sp dp : nat) (ops : list LevEditOp) : nat * nat :=
  match ops with
  | [] => (sp, dp)
  | o :: ops' =>
      if bool_decide (type o = LEV_EDIT_KEEP) then final_pos sp dp ops'
      else final_pos (advance (type o) (spos o, dpos o)).1
                     (advance (type o) (spos o, dpos o)).2 ops'
  end.

(** The position [j] steps of type [t] after [(sb, db)], and the [j]-th
    operation of a block of type [t] that starts at [(sb, db)]. *)
Definition steps (t : LevEditType) (sb db j : nat) : nat * nat :=
  match t with
  | LEV_EDIT_REPLACE => (sb + j, db + j)
  | LEV_EDIT_DELETE => (sb + j, db)
  | LEV_EDIT_INSERT => (sb, db + j)
  | LEV_EDIT_KEEP => (sb, db)
  end.

Definition op_at (t : LevEditType) (sb db j : nat) : LevEditOp :=
  mkEditOp t (steps t sb db j).1 (steps t sb db j).2.

(** The weighted sum of the distances from string [i] to all strings. *)
Definition weighted_distance_sum {A} `{EqDecision A} (strings : list (list A))
    (weights : list Q) (i : nat) : Q :=
  fold_left
    (fun acc j =>
       (acc + nth j weights 0 * Qnat (lev 1 (nth i strings []) (nth j strings [])))%Q)
    (seq 0 (length strings)) 0%Q.

(** Total weight and weighted length, summed as the source does. *)
Definition total_weight (n : nat) (weights : list Q) : Q :=
  fold_left (fun acc i => (acc + nth i weights 0)%Q) (seq 0 n) 0%Q.

Definition weighted_length (n : nat) (lengths : list nat) (weights : list Q) : Q :=
  fold_left (fun acc i => (acc + Qnat (nth i lengths 0%nat) * nth i weights 0)%Q)
    (seq 0 n) 0%Q.

(** Rounding to the nearest integer, halves upwards. *)
Definition round_half_up (q : Q) : Z := Qfloor (q + (1 # 2)).

(** The same sums in double arithmetic, from the left. *)
Definition total_weight_d (n : nat) (weights : list double) : double :=
  fold_left (fun acc i => (acc + rdd weights i)%float) (seq 0 n) PrimFloat.zero.

Definition weighted_length_d (n : nat) (lengths : list nat) (weights : list double)
  : double :=
  fold_left (fun acc i => (acc + N2D (nth i lengths 0) * rdd weights i)%float)
    (seq 0 n) PrimFloat.zero.

(** What the source computes for the length of the quick median:
    [floor(ml/wl + 0.499999)], in double arithmetic. *)
Definition quick_length (n : nat) (lengths : list nat) (weights : list double)
  : double :=
  d_floor (weighted_length_d n lengths weights / total_weight_d n weights
           + D_0_499999)%float.

(** The symbols of a string of [lengthi] symbols that vote for position
    [j] of a median of [ml] symbols lie inside the string: the first one,
    at [istart], and the last one, at [iend - 1]. *)
Definition reads_inside (lengthi : nat) (ml : double) (j : nat) : bool :=
  match vote_range lengthi ml j with
  | Some (_, _, istart, iend) => (istart <? lengthi) && (0 <? iend)
  | None => false
  end.

(** The weighted sums [acc + f(i)*weights[i]] over the indices of [l], in
    exact arithmetic. *)
Definition wsum (f : nat -> nat) (weights : list Q) (l : list nat) (acc : Q) : Q :=
  fold_left (fun acc i => (acc + Qnat (f i) * nth i weights 0)%Q) l acc.

(** The weighted sum of the distances from [m] to the strings. *)
Definition weighted_distance_to (strings : list (list lev_byte)) (weights : list Q)
    (m : list lev_byte) : Q :=
  wsum (fun i => lev 1 m (nth i strings [])) weights (seq 0 (length strings)) 0%Q.

(** The number of zero entries. *)
Fixpoint zeros (l : list nat) : nat :=
  match l with
  | [] => 0
  | x :: l' => (if x =? 0 then 1 else 0) + zeros l'
  end.

(** Sums of integers. *)
Definition zsum (l : list Z) : Z := fold_right Z.add 0%Z l.

Section UnitsDefs.
Variable unit : Q.

(** [x] stands for the integer [z]. *)
Definition scaled (x : Q) (z : Z) : Prop := (x == unit * inject_Z z)%Q.

(** What [clamp] does to the integer that an entry stands for. *)
Definition clampz (t : Z) : Z :=
  if Qltb (unit * inject_Z t) LEV_EPSILON then 0%Z else t.

End UnitsDefs.

(** The matrix [cost'] is the matrix [cost] with some entries lowered: the
    replacement of an entry below [LEV_EPSILON] by zero is the run on a
    matrix in which that entry is as much smaller.  No entry is lowered
    when the unit is at least [LEV_EPSILON]. *)
Definition lowered (n1 n2 : nat) (unit : Q) (cost cost' : nat -> nat -> Z) : Prop :=
  forall i j, i < n2 -> j < n1 ->
    (cost' i j <= cost i j)%Z /\ ((LEV_EPSILON <= unit)%Q -> cost' i j = cost i j).

Section MunkresProofDefs.
Variables n1 n2 : nat.
Variable unit : Q.
Variable cost : nat -> nat -> Z.
Variables lo hi : Z.

Section UncoveredMinDefs.
Variable dists : list Q.
Variable z : nat -> nat -> Z.
Variables covc covr : list nat.

Definition unc (i j : nat) : Prop :=
  i < n2 /\ j < n1 /\ rdn covr i = 0 /\ rdn covc j = 0.

(** [acc] is the minimum over the uncovered cells visited so far. *)
Definition min_inv (V : nat -> nat -> Prop) (acc : Q) : Prop :=
  (acc = LEV_INFINITY /\
   forall i j, V i j -> unc i j -> (LEV_INFINITY <= unit * inject_Z (z i j))%Q) \/
  (exists i1 j1, V i1 j1 /\ unc i1 j1 /\ scaled unit acc (z i1 j1) /\
     forall i j, V i j -> unc i j -> (z i1 j1 <= z i j)%Z).

End UncoveredMinDefs.

(** The matrix after the additions [u] to the rows and the subtractions [v]
    from the columns. *)
Definition reduced (u v : nat -> Z) (i j : nat) : Z := (cost i j + u i - v j)%Z.

Definition repr (dists : list Q) (u v : nat -> Z) : Prop :=
  length dists = n2 * n1 /\
  forall i j, i < n2 -> j < n1 ->
    scaled unit (cell n1 dists i j) (reduced u v i j) /\ (0 <= reduced u v i j)%Z.

(** The starred zeros: [zstarc] and [zstarr] are inverse to each other,
    and point to zeros. *)
Definition stars_ok (u v : nat -> Z) (zstarc zstarr : list nat) : Prop :=
  length zstarc = n1 /\ length zstarr = n2 /\
  (forall j i, j < n1 -> rdn zstarc j = S i ->
     i < n2 /\ rdn zstarr i = S j /\ reduced u v i j = 0%Z) /\
  (forall i j, i < n2 -> rdn zstarr i = S j -> j < n1 /\ rdn zstarc j = S i) /\
  zeros zstarc + n2 = zeros zstarr + n1.

(** Only rows with a starred zero have been added to. *)
Definition potentials_ok (u v : nat -> Z) (zstarr : list nat) : Prop :=
  (forall i, i < n2 -> (0 <= u i)%Z) /\
  (forall i, i < n2 -> u i <> 0%Z -> rdn zstarr i <> 0) /\
  (forall j, j < n1 -> (lo <= v j)%Z).

(** The state after the columns below [j]. *)
Definition reduced_below (j : nat) (st : list Q * list nat * list nat) : Prop :=
  exists v,
    length st.1.1 = n2 * n1 /\
    (forall i j', i < n2 -> j' < n1 ->
       scaled unit (cell n1 st.1.1 i j')
         (if (j' <? j)%nat then cost i j' - v j' else cost i j')%Z) /\
    (forall i j', i < n2 -> j' < j -> j' < n1 -> (0 <= cost i j' - v j')%Z) /\
    (forall j', j' < n1 -> (lo <= v j')%Z) /\
    stars_ok (fun _ => 0%Z) v st.1.2 st.2 /\
    (forall j', j <= j' -> rdn st.1.2 j' = 0).

(** The state of the search for a path: every starred zero is covered
    once, every covered row holds a primed zero in an uncovered column, and
    the starred zero of that column, if any, lies in a row covered
    earlier. *)
Definition path_inv (zstarc zstarr : list nat) (u v : nat -> Z)
    (rank : nat -> nat) (b : nat)
    (dists : list Q) (covc covr zprimer : list nat) : Prop :=
  repr dists u v /\ stars_ok u v zstarc zstarr /\ potentials_ok u v zstarr /\
  length covc = n1 /\ length covr = n2 /\ length zprimer = n2 /\
  (forall j, j < n1 -> rdn covc j <> 0 -> rdn zstarc j <> 0) /\
  (forall i j, i < n2 -> rdn zstarr i = S j ->
     (rdn covr i <> 0 <-> rdn covc j = 0)) /\
  (forall i, i < n2 -> rdn covr i <> 0 ->
     rdn zstarr i <> 0 /\ rank i < b /\
     exists j, rdn zprimer i = S j /\ j < n1 /\ reduced u v i j = 0%Z /\
               rdn covc j = 0 /\
               forall i', rdn zstarc j = S i' ->
                 rdn covr i' <> 0 /\ rank i' < rank i) /\
  (exists j, j < n1 /\ rdn zstarc j = 0) /\
  b + zeros covr = n2.

(** What step 3 hands to step 4: an uncovered zero in row [i], which holds
    no starred zero. *)
Definition path_found (zstarc zstarr : list nat) (dists : list Q)
    (zprimer : list nat) (i : nat) : Prop :=
  exists u v rank b covc covr,
    path_inv zstarc zstarr u v rank b dists covc covr zprimer /\
    i < n2 /\ rdn covr i = 0 /\ rdn zstarr i = 0 /\
    exists j, rdn zprimer i = S j /\ j < n1 /\ reduced u v i j = 0%Z /\
              forall i', rdn zstarc j = S i' -> rdn covr i' <> 0.

Definition path_measure (dists : list Q) (covc covr : list nat) : nat :=
  2 * zeros covr +
  match uncovered_zero n1 n2 n1 0 dists covc covr with
  | Some _ => 0
  | None => 1
  end.

Section AugmentDefs.
Variables zstarc0 zstarr0 : list nat.
Variables u v : nat -> Z.
Variable rank : nat -> nat.
Variable b : nat.
Variable dists : list Q.
Variables covc covr zprimer : list nat.
Variable i0 : nat.

(** The state at the head of the [do ... while]: row [i] is where the
    path has arrived; the stars are consistent but for that row. *)
Definition augmenting (i r : nat) (zr zc : list nat) : Prop :=
  i < n2 /\ length zr = n2 /\ length zc = n1 /\
  (forall j i', j < n1 -> rdn zc j = S i' ->
     i' < n2 /\ rdn zr i' = S j /\ reduced u v i' j = 0%Z) /\
  (forall i' j, i' < n2 -> i' <> i -> rdn zr i' = S j ->
     j < n1 /\ rdn zc j = S i') /\
  (forall j, j < n1 -> rdn zc j <> S i) /\
  (forall i', i' < n2 -> i' <> i -> rdn zstarr0 i' <> 0 \/ i' = i0 ->
     rdn zr i' <> 0) /\
  (exists j, rdn zprimer i = S j /\ j < n1 /\ reduced u v i j = 0%Z /\
             rdn zc j = rdn zstarc0 j /\
             forall i', rdn zstarc0 j = S i' -> rdn covr i' <> 0 /\ rank i' < r) /\
  (forall j, j < n1 -> rdn zc j <> rdn zstarc0 j ->
     exists i', rdn zstarc0 j = S i' /\ r <= rank i') /\
  zeros zc = zeros zstarc0 /\
  zeros (<[i := 1]> zr) + 1 = zeros zstarr0.

(** The state after it: one more starred zero. *)
Definition augmented (zr zc : list nat) : Prop :=
  stars_ok u v zc zr /\
  (forall i', i' < n2 -> rdn zstarr0 i' <> 0 -> rdn zr i' <> 0) /\
  zeros zc + 1 = zeros zstarc0.

End AugmentDefs.

Definition assign_inv (dists : list Q) (zstarc zstarr : list nat) : Prop :=
  exists u v,
    repr dists u v /\ stars_ok u v zstarc zstarr /\ potentials_ok u v zstarr.

(** The cost of the assignment [t] of rows to the columns, in units. *)
Definition cost_of (t : list nat) : Z :=
  zsum (map (fun j => cost (nth j t 0) j) (seq 0 n1)).

End MunkresProofDefs.

(** The cost of the assignment [t] of rows to the columns of [dists]. *)
Definition assignment_cost (n1 : nat) (dists : list Q) (t : list nat) : Q :=
  fold_right Qplus 0%Q
    (map (fun j => cell n1 dists (nth j t 0) j) (seq 0 (length t))).

Section ScriptDefs.
Context {A : Type} `{EqDecision A}.
Variables a b : list A.

(** The [k] symbols of [a] from [i] are the [k] symbols of [b] from [j]. *)
Definition same_run (i j k : nat) : Prop :=
  take k (drop i a) = take k (drop j b).

(** The operations, none of which is a keep, turn the part of [a] from
    [i] on into the part of [b] from [j] on: the symbols between two
    operations are the same in both strings, so is what follows the last
    operation, and every operation addresses symbols that exist. *)
Fixpoint transforms (i j : nat) (ops : list LevEditOp) : Prop :=
  i <= length a /\ j <= length b /\
  match ops with
  | [] => drop i a = drop j b
  | o :: ops' =>
      exists k, spos o = i + k /\ dpos o = j + k /\ same_run i j k /\
      match type o with
      | LEV_EDIT_KEEP => False
      | LEV_EDIT_REPLACE =>
          spos o < length a /\ dpos o < length b /\
          transforms (spos o + 1) (dpos o + 1) ops'
      | LEV_EDIT_INSERT =>
          dpos o < length b /\ transforms (spos o) (dpos o + 1) ops'
      | LEV_EDIT_DELETE =>
          spos o < length a /\ transforms (spos o + 1) (dpos o) ops'
      end
  end.

End ScriptDefs.

(** A block whose ends are not below its beginnings. *)
Definition forward (x : LevOpCode) : Prop :=
  sbeg x <= send x /\ dbeg x <= dend x.

Section BlockDefs.
Variables len1 len2 : nat.

(** The block starts at [(sp, dp)], stays inside the two strings and has
    the extent that its type asks for. *)
Definition block_shape (sp dp : nat) (x : LevOpCode) : Prop :=
  sbeg x = sp /\ dbeg x = dp /\
  sp <= send x /\ send x <= len1 /\ dp <= dend x /\ dend x <= len2 /\
  match btype x with
  | LEV_EDIT_KEEP | LEV_EDIT_REPLACE => send x - sp = dend x - dp /\ dp < dend x
  | LEV_EDIT_INSERT => send x = sp /\ dp < dend x
  | LEV_EDIT_DELETE => dend x = dp /\ sp < send x
  end.

(** The blocks follow one another from [(sp, dp)] to [(fs, fd)]. *)
Fixpoint blocks_shape (sp dp : nat) (B : list LevOpCode) (fs fd : nat) : Prop :=
  match B with
  | [] => sp = fs /\ dp = fd
  | x :: B' => block_shape sp dp x /\ blocks_shape (send x) (dend x) B' fs fd
  end.

End BlockDefs.

(** A keep block covers the same symbols in both strings. *)
Definition block_content {A} (a b : list A) (x : LevOpCode) : Prop :=
  btype x = LEV_EDIT_KEEP -> same_run a b (sbeg x) (dbeg x) (send x - sbeg x).

(** The symbols of a matching block are the same in both strings, and lie
    inside them. *)
Definition mblock_ok {A} (a b : list A) (x : LevMatchingBlock) : Prop :=
  mspos x + mlen x <= length a /\ mdpos x + mlen x <= length b /\
  same_run a b (mspos x) (mdpos x) (mlen x).

Section BlockOutputDefs.
Context {A : Type}.
Variables a b : list A.

(** The symbols that a block contributes to the result: those of its
    destination range for an insertion or a replacement, those of its source
    range for a keep, none for a deletion. *)
Definition block_output (x : LevOpCode) : list A :=
  match btype x with
  | LEV_EDIT_INSERT | LEV_EDIT_REPLACE => take (dend x - dbeg x) (drop (dbeg x) b)
  | LEV_EDIT_KEEP => take (send x - sbeg x) (drop (sbeg x) a)
  | LEV_EDIT_DELETE => []
  end.

Definition blocks_output (B : list LevOpCode) : list A :=
  concat (map block_output B).

End BlockOutputDefs.

(** The matching block that a keep block stands for. *)
Definition mblock_of (x : LevOpCode) : LevMatchingBlock :=
  mkMatchingBlock (sbeg x) (dbeg x) (usub (send x) (sbeg x)).

Definition mblocks_of (B : list LevOpCode) : list LevMatchingBlock :=
  map mblock_of (filter (fun x => btype x = LEV_EDIT_KEEP) B).

(** Blocks in which every keep block is followed by a block of another
    type that starts where it ends. *)
Inductive gapped : list LevOpCode -> Prop :=
| gapped_nil : gapped []
| gapped_block x B :
    btype x <> LEV_EDIT_KEEP -> gapped B -> gapped (x :: B)
| gapped_keep k x B :
    btype k = LEV_EDIT_KEEP -> btype x <> LEV_EDIT_KEEP -> sbeg x = send k ->
    gapped B -> gapped (k :: x :: B).

(** The fields of a block are values of [size_t]. *)
Definition size_t_block (x : LevOpCode) : Prop :=
  (Z.of_nat (sbeg x) <= SIZE_MAX /\ Z.of_nat (send x) <= SIZE_MAX /\
   Z.of_nat (dbeg x) <= SIZE_MAX /\ Z.of_nat (dend x) <= SIZE_MAX)%Z.

Section ScriptOkDefs.
Variables len1 len2 : nat.

(** What [lev_editops_check_errors] asks of one operation. *)
Definition op_in_bounds (o : LevEditOp) : Prop :=
  spos o <= len1 /\ dpos o <= len2 /\
  (spos o = len1 -> type o = LEV_EDIT_INSERT) /\
  (dpos o = len2 -> type o = LEV_EDIT_DELETE).

(** The operations are in bounds and their positions do not decrease, from
    [(sp, dp)] on. *)
Fixpoint script_ok (sp dp : nat) (ops : list LevEditOp) : Prop :=
  match ops with
  | [] => True
  | o :: ops' =>
      sp <= spos o /\ dp <= dpos o /\ op_in_bounds o /\
      script_ok (spos o) (dpos o) ops'
  end.

End ScriptOkDefs.

(** ** Distance of sequences of strings as a specification *)

(** The smaller of two numbers, as the comparisons of the source take it. *)
Definition Qmin2 (x y : Q) : Q := if Qltb y x then y else x.

Section WeightedDistanceDefs.
Context {T : Type}.

(** The cost of replacing one element by another; insertions and deletions
    cost 1. *)
Variable cost : T -> T -> Q.

(** The textbook recurrence with these costs. *)
Fixpoint wlev (a : list T) : list T -> Q :=
  match a with
  | [] => fun b => Qnat (length b)
  | x :: a' =>
      fix wlev_inner (b : list T) : Q :=
        match b with
        | [] => Qnat (length a)
        | y :: b' =>
            Qmin2 (Qmin2 (wlev_inner b' + 1) (wlev a' b' + cost x y)) (wlev a' b + 1)
        end
  end%Q.

(** [walign a b k]: the elements of [a] can be matched with those of [b] from
    left to right, replacing, deleting and inserting elements, at a cost of
    [k] or less. *)
Inductive walign : list T -> list T -> Q -> Prop :=
| wal_nil k : (0 <= k)%Q -> walign [] [] k
| wal_sub x y a b k k' :
    walign a b k -> (k + cost x y <= k')%Q -> walign (x :: a) (y :: b) k'
| wal_del x a b k k' : walign a b k -> (k + 1 <= k')%Q -> walign (x :: a) b k'
| wal_ins y a b k k' : walign a b k -> (k + 1 <= k')%Q -> walign a (y :: b) k'.

End WeightedDistanceDefs.

Section SeqCostDefs.
Context {A : Type} `{EqDecision A}.

(** The cost that [lev_edit_seq_distance] gives to the replacement of a
    string by another: twice their distance with substitutions of cost 2,
    over the sum of their lengths; 0 for two empty strings. *)
Definition seq_cost (x y : list A) : Q :=
  (2 / Qnat (length x + length y) * Qnat (lev 2 x y))%Q.

(** The matrix of the distances of the prefixes. *)
Definition SM (s1 s2 : list (list A)) (i j : nat) : Q :=
  wlev seq_cost (take i s1) (take j s2).

End SeqCostDefs.

(** ** Associations of two sets of strings *)

Section SetCostDefs.
Context {A : Type} `{EqDecision A}.

(** [sigma] gives each of [n1] positions a partner below [n2], and no
    partner twice. *)
Definition injection (n1 n2 : nat) (sigma : list nat) : Prop :=
  length sigma = n1 /\ Forall (fun i => i < n2) sigma /\ NoDup sigma.

(** The cost of associating the [j]-th string of [s1] with the string of
    [s2] at [sigma j]: [seq_cost] for each pair, and 1 for each string of
    [s2] without a partner. *)
Definition set_cost (s1 s2 : list (list A)) (sigma : list nat) : Q :=
  (Qnat (length s2 - length s1) +
   fold_right Qplus 0
     (map (fun j => seq_cost (nth j s1 []) (nth (nth j sigma 0%nat) s2 []))
        (seq 0 (length s1))))%Q.

(** The entry that [lev_set_distance] computes for the row [i] and the
    column [j] of its matrix: the distance of the [i]-th string of [s2] and
    the [j]-th of [s1] over the sum of their lengths. *)
Definition set_entry (s1 s2 : list (list A)) (i j : nat) : Q :=
  (Qnat (lev 2 (nth i s2 []) (nth j s1 []))
   / Qnat (length (nth i s2 []) + length (nth j s1 [])))%Q.

(** [q] is the cost of a cheapest association of [s1] with [s2]. *)
Definition min_association (s1 s2 : list (list A)) (q : Q) : Prop :=
  exists sigma,
    injection (length s1) (length s2) sigma /\
    (q == set_cost s1 s2 sigma)%Q /\
    forall tau, injection (length s1) (length s2) tau ->
      (set_cost s1 s2 sigma <= set_cost s1 s2 tau)%Q.

End SetCostDefs.
(** ** Edit distance as a specification *)

Section EditDistance.
Context {A : Type} `{EqDecision A}.

(** Substitution cost [sc] is 1 for the classical distance and 2 when a
    substitution is a deletion followed by an insertion. *)
Variable sc : nat.

Local Abbreviation subcost := (subcost (A:=A) sc).

Local Abbreviation lev := (lev (A:=A) sc).

Local Abbreviation edit_step := (edit_step (A:=A) sc).
Local Abbreviation step_insert := (step_insert (A:=A) sc).
Local Abbreviation step_delete := (step_delete (A:=A) sc).
Local Abbreviation step_substitute := (step_substitute (A:=A) sc).

Local Abbreviation edit_seq := (edit_seq (A:=A) sc).
Local Abbreviation seq_done := (seq_done (A:=A) sc).
Local Abbreviation seq_step := (seq_step (A:=A) sc).

Local Abbreviation min_edit_cost := (min_edit_cost (A:=A) sc).

Local Abbreviation align := (align (A:=A) sc).
Local Abbreviation al_nil := (al_nil (A:=A) sc).
Local Abbreviation al_keep := (al_keep (A:=A) sc).
Local Abbreviation al_sub := (al_sub (A:=A) sc).
Local Abbreviation al_del := (al_del (A:=A) sc).
Local Abbreviation al_ins := (al_ins (A:=A) sc).

Lemma lev_nil_r a : lev a [] = length a.
Proof. destruct a; reflexivity. Qed.

Lemma lev_cons x a y b :
  lev (x :: a) (y :: b) =
  min3 (lev a b + subcost x y) (lev a (y :: b) + 1) (lev (x :: a) b + 1).
Proof. reflexivity. Qed.

Lemma align_nil_l b : align [] b (length b).
Proof.
  induction b as [|y b IH]; simpl; [constructor|].
  replace (S (length b)) with (length b + 1) by lia. by constructor.
Qed.

Lemma align_nil_r a : align a [] (length a).
Proof.
  induction a as [|x a IH]; simpl; [constructor|].
  replace (S (length a)) with (length a + 1) by lia. by constructor.
Qed.

Lemma align_lev a b : align a b (lev a b).
Proof.
  revert b. induction a as [|x a IHa]; intros b.
  - apply align_nil_l.
  - induction b as [|y b IHb].
    + rewrite lev_nil_r. apply align_nil_r.
    + rewrite lev_cons. unfold min3.
      destruct (Nat.min_spec (lev a b + subcost x y)
                  (Nat.min (lev a (y :: b) + 1) (lev (x :: a) b + 1)))
        as [[_ ->]|[_ ->]].
      * unfold subcost. case_bool_decide as Hxy.
        -- subst y. rewrite Nat.add_0_r. apply al_keep, IHa.
        -- apply al_sub, IHa.
      * destruct (Nat.min_spec (lev a (y :: b) + 1) (lev (x :: a) b + 1))
          as [[_ ->]|[_ ->]].
        -- apply al_del, IHa.
        -- apply al_ins, IHb.
Qed.

Lemma lev_le_align a b k : align a b k -> lev a b <= k.
Proof.
  induction 1 as [|x a b k _ IH|x y a b k _ IH|x a b k _ IH|y a b k _ IH].
  - simpl. lia.
  - rewrite lev_cons. unfold min3, subcost. rewrite bool_decide_eq_true_2 by done. lia.
  - rewrite lev_cons. unfold min3, subcost. case_bool_decide; lia.
  - destruct b as [|y b].
    + rewrite lev_nil_r in *. simpl. lia.
    + rewrite lev_cons. unfold min3. lia.
  - destruct a as [|x a].
    + simpl in *. lia.
    + rewrite lev_cons. unfold min3. lia.
Qed.

Lemma align_refl a : align a a 0.
Proof. induction a; by constructor. Qed.

Lemma align_sym a b k : align a b k -> align b a k.
Proof. induction 1; by constructor. Qed.

Lemma align_app a b k a' b' k' :
  align a b k -> align a' b' k' -> align (a ++ a') (b ++ b') (k' + k).
Proof.
  intros H1 H2. induction H1; simpl; rewrite ?Nat.add_assoc;
    try (by constructor). by rewrite Nat.add_0_r.
Qed.

Lemma align_rev a b k : align a b k -> align (rev a) (rev b) k.
Proof.
  induction 1 as [|x a b k _ IH|x y a b k _ IH|x a b k _ IH|y a b k _ IH]; simpl.
  - constructor.
  - replace k with (0 + k) by lia.
    apply align_app; [done|]. apply (al_keep x [] [] 0). constructor.
  - rewrite (Nat.add_comm k sc). replace sc with (0 + sc) at 1 by lia.
    apply align_app; [done|]. apply (al_sub x y [] [] 0). constructor.
  - rewrite <- (app_nil_r (rev b)). rewrite (Nat.add_comm k 1).
    apply align_app; [done|]. apply (al_del x [] [] 0). constructor.
  - rewrite <- (app_nil_r (rev a)). rewrite (Nat.add_comm k 1).
    apply align_app; [done|]. apply (al_ins y [] [] 0). constructor.
Qed.

Lemma lev_sym a b : lev a b = lev b a.
Proof.
  apply Nat.le_antisymm; apply lev_le_align, align_sym, align_lev.
Qed.

Lemma lev_rev a b : lev (rev a) (rev b) = lev a b.
Proof.
  apply Nat.le_antisymm.
  - apply lev_le_align, align_rev, align_lev.
  - rewrite <- (rev_involutive a), <- (rev_involutive b) at 1.
    apply lev_le_align, align_rev, align_lev.
Qed.

Lemma lev_refl a : lev a a = 0.
Proof. pose proof (lev_le_align _ _ _ (align_refl a)). lia. Qed.

(** Composition of alignments: the triangle inequality. *)
Lemma align_trans a b k :
  align a b k -> forall c k', align b c k' ->
  exists k'', align a c k'' /\ k'' <= k + k'.
Proof.
  induction 1 as [|x a b k _ IH|x y a b k _ IH|x a b k _ IH|y a b k _ IH];
    intros c k' H2.
  - exists k'. split; [done|lia].
  - remember (x :: b) as xb eqn:E. revert E.
    induction H2 as [|z b0 c k' H2 _|z w b0 c k' H2 _|z b0 c k' H2 _|w b0 c k' H2 IH2];
      intros E; try discriminate.
    + injection E as -> ->. destruct (IH _ _ H2) as (k'' & Ha & Hle).
      exists k''. split; [by constructor|lia].
    + injection E as -> ->. destruct (IH _ _ H2) as (k'' & Ha & Hle).
      exists (k'' + sc). split; [by constructor|lia].
    + injection E as -> ->. destruct (IH _ _ H2) as (k'' & Ha & Hle).
      exists (k'' + 1). split; [by constructor|lia].
    + destruct (IH2 E) as (k'' & Ha & Hle).
      exists (k'' + 1). split; [by constructor|lia].
  - remember (y :: b) as yb eqn:E. revert E.
    induction H2 as [|z b0 c k' H2 _|z w b0 c k' H2 _|z b0 c k' H2 _|w b0 c k' H2 IH2];
      intros E; try discriminate.
    + injection E as -> ->. destruct (IH _ _ H2) as (k'' & Ha & Hle).
      exists (k'' + sc). split; [by constructor|lia].
    + injection E as -> ->. destruct (IH _ _ H2) as (k'' & Ha & Hle).
      exists (k'' + sc). split; [by constructor|lia].
    + injection E as -> ->. destruct (IH _ _ H2) as (k'' & Ha & Hle).
      exists (k'' + 1). split; [by constructor|lia].
    + destruct (IH2 E) as (k'' & Ha & Hle).
      exists (k'' + 1). split; [by constructor|lia].
  - destruct (IH _ _ H2) as (k'' & Ha & Hle).
    exists (k'' + 1). split; [by constructor|lia].
  - remember (y :: b) as yb eqn:E. revert E.
    induction H2 as [|z b0 c k' H2 _|z w b0 c k' H2 _|z b0 c k' H2 _|w b0 c k' H2 IH2];
      intros E; try discriminate.
    + injection E as -> ->. destruct (IH _ _ H2) as (k'' & Ha & Hle).
      exists (k'' + 1). split; [by constructor|lia].
    + injection E as -> ->. destruct (IH _ _ H2) as (k'' & Ha & Hle).
      exists (k'' + 1). split; [by constructor|lia].
    + injection E as -> ->. destruct (IH _ _ H2) as (k'' & Ha & Hle).
      exists k''. split; [done|lia].
    + destruct (IH2 E) as (k'' & Ha & Hle).
      exists (k'' + 1). split; [by constructor|lia].
Qed.

Lemma lev_triangle a b c : lev a c <= lev a b + lev b c.
Proof.
  destruct (align_trans _ _ _ (align_lev a b) _ _ (align_lev b c)) as (k & Hk & Hle).
  apply lev_le_align in Hk. lia.
Qed.

(** Edit sequences and alignments have the same minimum cost. *)
Lemma edit_step_align a b k : edit_step a b k -> exists k', align a b k' /\ k' <= k.
Proof.
  destruct 1 as [l1 l2 y|l1 l2 x|l1 l2 x y].
  - exists (0 + 1 + 0). split; [|lia].
    apply align_app; [apply align_refl|]. apply al_ins, align_refl.
  - exists (0 + 1 + 0). split; [|lia].
    apply align_app; [apply align_refl|]. apply al_del, align_refl.
  - exists (0 + sc + 0). split; [|lia].
    apply align_app; [apply align_refl|]. apply al_sub, align_refl.
Qed.

Lemma lev_le_edit_seq a b k : edit_seq a b k -> lev a b <= k.
Proof.
  induction 1 as [a|a b c k1 k2 Hs _ IH].
  - rewrite lev_refl. lia.
  - destruct (edit_step_align _ _ _ Hs) as (k' & Hk' & Hle).
    apply lev_le_align in Hk'. pose proof (lev_triangle a b c). lia.
Qed.

Lemma edit_seq_trans a b c k1 k2 :
  edit_seq a b k1 -> edit_seq b c k2 -> edit_seq a c (k1 + k2).
Proof.
  induction 1 as [a|a b b' j1 j2 Hs _ IH]; intros H2; [done|].
  rewrite <- Nat.add_assoc. econstructor; [done|]. by apply IH.
Qed.

Lemma edit_step_cons x a b k : edit_step a b k -> edit_step (x :: a) (x :: b) k.
Proof.
  destruct 1 as [l1 l2 y|l1 l2 z|l1 l2 z y].
  - apply (step_insert (x :: l1)).
  - apply (step_delete (x :: l1)).
  - apply (step_substitute (x :: l1)).
Qed.

Lemma edit_seq_cons x a b k : edit_seq a b k -> edit_seq (x :: a) (x :: b) k.
Proof.
  induction 1 as [a|a b c k1 k2 Hs _ IH]; [constructor|].
  econstructor; [by apply edit_step_cons|done].
Qed.

Lemma edit_seq_one a b k : edit_step a b k -> edit_seq a b k.
Proof.
  intros Hs. replace k with (k + 0) by lia. econstructor; [done|constructor].
Qed.

Lemma align_edit_seq a b k : align a b k -> edit_seq a b k.
Proof.
  induction 1 as [|x a b k _ IH|x y a b k _ IH|x a b k _ IH|y a b k _ IH].
  - constructor.
  - by apply edit_seq_cons.
  - eapply edit_seq_trans; [by apply (edit_seq_cons x)|].
    apply edit_seq_one, (step_substitute []).
  - eapply edit_seq_trans; [by apply (edit_seq_cons x)|].
    apply edit_seq_one, (step_delete []).
  - eapply edit_seq_trans; [done|].
    apply edit_seq_one, (step_insert []).
Qed.

(** The recurrence computes the minimum cost of an edit sequence. *)
Lemma lev_min_edit_cost a b : min_edit_cost a b (lev a b).
Proof.
  split; [apply align_edit_seq, align_lev|apply lev_le_edit_seq].
Qed.

Lemma min_edit_cost_unique a b d d' :
  min_edit_cost a b d -> min_edit_cost a b d' -> d = d'.
Proof. intros [H1 H2] [H3 H4]. apply Nat.le_antisymm; auto. Qed.

(** One more symbol changes the distance by at most one. *)
Lemma lev_cons_r_le a y b : lev a (y :: b) <= lev a b + 1.
Proof. apply lev_le_align, al_ins, align_lev. Qed.

Lemma lev_cons_r_ge a y b : lev a b <= lev a (y :: b) + 1.
Proof.
  pose proof (lev_triangle a (y :: b) b).
  assert (lev (y :: b) b <= 1); [|lia].
  replace 1 with (0 + 1) by lia. apply lev_le_align, al_del, align_refl.
Qed.

Lemma lev_cons_l_le x a b : lev (x :: a) b <= lev a b + 1.
Proof. rewrite (lev_sym (x :: a)), (lev_sym a). apply lev_cons_r_le. Qed.

Lemma lev_cons_l_ge x a b : lev a b <= lev (x :: a) b + 1.
Proof. rewrite (lev_sym (x :: a)), (lev_sym a). apply lev_cons_r_ge. Qed.

(** Common prefixes and suffixes do not count. *)
Lemma lev_cons_same x a b : lev (x :: a) (x :: b) = lev a b.
Proof.
  rewrite lev_cons. unfold min3, subcost. rewrite bool_decide_eq_true_2 by done.
  pose proof (lev_cons_r_ge a x b). pose proof (lev_cons_l_ge x a b). lia.
Qed.

Lemma lev_snoc_same x a b : lev (a ++ [x]) (b ++ [x]) = lev a b.
Proof.
  rewrite <- lev_rev, !rev_unit, lev_cons_same. apply lev_rev.
Qed.

(** The recurrence on the last symbols, as the row sweep uses it. *)
Lemma lev_snoc x a y b :
  lev (a ++ [x]) (b ++ [y]) =
  min3 (lev a b + subcost x y) (lev a (b ++ [y]) + 1) (lev (a ++ [x]) b + 1).
Proof.
  rewrite <- (lev_rev (a ++ [x]) (b ++ [y])), !rev_unit, lev_cons.
  rewrite lev_rev. rewrite <- (rev_unit b y), lev_rev.
  rewrite <- (rev_unit a x), lev_rev. done.
Qed.

Lemma lev_snoc_r_le a y b : lev a (b ++ [y]) <= lev a b + 1.
Proof.
  rewrite <- (lev_rev a (b ++ [y])), rev_unit, <- (lev_rev a b).
  apply lev_cons_r_le.
Qed.

Lemma lev_snoc_r_ge a y b : lev a b <= lev a (b ++ [y]) + 1.
Proof.
  rewrite <- (lev_rev a (b ++ [y])), rev_unit, <- (lev_rev a b).
  apply lev_cons_r_ge.
Qed.

Lemma lev_snoc_l_le x a b : lev (a ++ [x]) b <= lev a b + 1.
Proof. rewrite (lev_sym (a ++ [x])), (lev_sym a). apply lev_snoc_r_le. Qed.

Lemma lev_snoc_l_ge x a b : lev a b <= lev (a ++ [x]) b + 1.
Proof. rewrite (lev_sym (a ++ [x])), (lev_sym a). apply lev_snoc_r_ge. Qed.

(** Bounds by the lengths. *)
Lemma lev_ge_length_diff a b :
  length a - length b <= lev a b /\ length b - length a <= lev a b.
Proof.
  revert b. induction a as [|x a IH]; intros b.
  - simpl. lia.
  - induction b as [|y b IHb].
    + rewrite lev_nil_r. simpl. lia.
    + rewrite lev_cons. unfold min3. simpl in *.
      pose proof (IH b). pose proof (IH (y :: b)). simpl in *. lia.
Qed.

Lemma lev_le_length_sum a b : lev a b <= length a + length b.
Proof.
  pose proof (lev_triangle a [] b). rewrite lev_nil_r in *. simpl in *. lia.
Qed.

Lemma lev_eq_0 a b : lev a b = 0 -> 0 < sc -> a = b.
Proof.
  revert b. induction a as [|x a IH]; intros b Hz Hsc.
  - destruct b; [done|simpl in Hz; lia].
  - destruct b as [|y b]; [simpl in Hz; lia|].
    rewrite lev_cons in Hz. unfold min3, subcost in Hz.
    case_bool_decide; [|lia]. subst y. f_equal. apply IH; [lia|done].
Qed.

End EditDistance.

(** ** Correctness of the distance kernel *)

Section Matrix.
Context {A : Type} `{EqDecision A}.
Variable sc : nat.
Variables s1 s2 : list A.

Local Abbreviation M := (M (A:=A) sc s1 s2).

Local Abbreviation neq_cost := (neq_cost (A:=A) sc).

Lemma M_0_l j : j <= length s2 -> M 0 j = j.
Proof. intros Hj. unfold M. simpl. rewrite length_take. lia. Qed.

Lemma M_0_r i : i <= length s1 -> M i 0 = i.
Proof.
  intros Hi. unfold M. rewrite take_0, lev_nil_r, length_take. lia.
Qed.

Lemma take_snoc (l : list A) i :
  i < length l -> exists x, l !! i = Some x /\ take (S i) l = take i l ++ [x].
Proof.
  intros Hi. destruct (lookup_lt_is_Some_2 l i Hi) as [x Hx].
  exists x. split; [done|]. by apply take_S_r.
Qed.

Lemma M_rec i j :
  i < length s1 -> j < length s2 ->
  M (S i) (S j) =
  min3 (M i j + neq_cost (s1 !! i) (s2 !! j)) (M i (S j) + 1) (M (S i) j + 1).
Proof.
  intros Hi Hj. unfold M.
  destruct (take_snoc s1 i Hi) as (x & Hx & ->).
  destruct (take_snoc s2 j Hj) as (y & Hy & ->).
  rewrite lev_snoc, Hx, Hy. unfold neq_cost, subcost.
  do 2 f_equal. repeat case_bool_decide; congruence.
Qed.

Lemma M_right i j : j < length s2 -> M i (S j) <= M i j + 1 /\ M i j <= M i (S j) + 1.
Proof.
  intros Hj. unfold M. destruct (take_snoc s2 j Hj) as (y & Hy & ->).
  split; [apply lev_snoc_r_le|apply lev_snoc_r_ge].
Qed.

Lemma M_down i j : i < length s1 -> M (S i) j <= M i j + 1 /\ M i j <= M (S i) j + 1.
Proof.
  intros Hi. unfold M. destruct (take_snoc s1 i Hi) as (x & Hx & ->).
  split; [apply lev_snoc_l_le|apply lev_snoc_l_ge].
Qed.

Lemma M_ge_diff i j :
  i <= length s1 -> j <= length s2 -> i - j <= M i j /\ j - i <= M i j.
Proof.
  intros Hi Hj. unfold M.
  pose proof (lev_ge_length_diff sc (take i s1) (take j s2)) as Hd.
  rewrite !length_take in Hd. lia.
Qed.

End Matrix.

Section UnitCost.
Context {A : Type} `{EqDecision A}.

Lemma lev_le_max sc (a b : list A) :
  sc <= 1 -> lev sc a b <= Nat.max (length a) (length b).
Proof.
  intros Hsc. revert b. induction a as [|x a IH]; intros b; [simpl; lia|].
  destruct b as [|y b]; [rewrite lev_nil_r; lia|].
  rewrite lev_cons. unfold min3, subcost. pose proof (IH b).
  case_bool_decide; simpl; lia.
Qed.

(** Distance from a one-symbol string (the [len1 == 1] short cut). *)
Lemma lev_single sc (x : A) (b : list A) :
  1 <= sc <= 2 -> b <> [] ->
  lev sc [x] b =
  if existsb (fun y => bool_decide (Some y = Some x)) b
  then length b - 1 else length b - 1 + sc.
Proof.
  intros Hsc. induction b as [|y b IH]; intros Hne; [done|].
  rewrite lev_cons.
  change (lev sc [] b) with (length b).
  change (lev sc [] (y :: b)) with (S (length b)).
  unfold min3, subcost. cbn [existsb length].
  destruct b as [|z b].
  - cbn [lev length existsb].
    repeat case_bool_decide; simplify_eq; cbn [orb]; lia.
  - specialize (IH ltac:(done)). rewrite IH. clear IH.
    set (e := existsb _ (z :: b)). cbn [length].
    repeat case_bool_decide; simplify_eq; destruct e; cbn [orb]; lia.
Qed.

End UnitCost.

Lemma rd_insert_eq (row : list nat) p x : p < length row -> rd (<[p:=x]> row) p = x.
Proof.
  intros Hp. unfold rd. rewrite nth_lookup, list_lookup_insert_eq by done. done.
Qed.

Lemma rd_insert_ne (row : list nat) p q x : p <> q -> rd (<[p:=x]> row) q = rd row q.
Proof.
  intros Hp. unfold rd. rewrite !nth_lookup, list_lookup_insert_ne by done. done.
Qed.

Lemma ltb_min a b : (if a <? b then a else b) = Nat.min a b.
Proof. destruct (Nat.ltb_spec a b); lia. Qed.

Section XCost.
Context {A : Type} `{EqDecision A}.
Variables s1 s2 : list A.
Variables n m : nat.
Hypothesis Hn : n <= length s1.
Hypothesis Hm : m <= length s2.

Abbreviation M2 := (M 2 s1 s2).

Lemma xcost_sweep_spec i k : forall p D x row,
  i < n -> p + k = m ->
  length row = m + 1 ->
  D = M2 i p + 1 -> x = M2 (S i) p ->
  (forall q, p < q <= m -> rd row q = M2 i q) ->
  (forall q, 1 <= q <= p -> rd row q = M2 (S i) q) ->
  let row' := xcost_sweep k (s1 !! i) s2 (S p) p D x row in
  length row' = m + 1 /\ forall q, 1 <= q <= m -> rd row' q = M2 (S i) q.
Proof.
  induction k as [|k IH]; intros p D x row Hi Hk Hlen HD Hx Hold Hnew.
  - simpl. split; [done|]. intros q Hq. apply Hnew. lia.
  - cbn [xcost_sweep].
    pose proof (M_rec 2 s1 s2 i p ltac:(lia) ltac:(lia)) as Hrec.
    pose proof (M_right 2 s1 s2 i p ltac:(lia)) as Hr.
    pose proof (M_down 2 s1 s2 i p ltac:(lia)) as Hd.
    pose proof (Hold (S p) ltac:(lia)) as Hup.
    unfold neq_cost, min3 in Hrec.
    set (x1 := (if bool_decide (s1 !! i = s2 !! p) then (D - 1, D - 1) else (D, x + 1))).
    assert (x1.2 = if bool_decide (s1 !! i = s2 !! p) then M2 i p else M2 (S i) p + 1) as Hx1.
    { unfold x1. case_bool_decide; simpl; lia. }
    destruct x1 as [D1 x1]. simpl in Hx1.
    set (x2 := if _ <? _ then _ else _).
    assert (x2 = M2 (S i) (S p)) as Hx2.
    { unfold x2. rewrite ltb_min, Hup, Hx1, Hrec. case_bool_decide; lia. }
    replace (p + 1) with (S p) by lia.
    replace (S p + 1) with (S (S p)) by lia.
    apply IH; [done|lia|by rewrite length_insert|lia|done|..].
    + intros q Hq. rewrite rd_insert_ne by lia. apply Hold. lia.
    + intros q Hq. destruct (decide (q = S p)) as [->|Hne].
      * rewrite rd_insert_eq by lia. done.
      * rewrite rd_insert_ne by lia. apply Hnew. lia.
Qed.

Lemma xcost_rows_spec k : forall i row,
  i + k = n -> length row = m + 1 ->
  (forall q, 1 <= q <= m -> rd row q = M2 i q) ->
  let row' := xcost_rows k (S i) s1 s2 m row in
  length row' = m + 1 /\ forall q, 1 <= q <= m -> rd row' q = M2 n q.
Proof.
  induction k as [|k IH]; intros i row Hk Hlen Hrow.
  - simpl. replace n with i by lia. done.
  - cbn [xcost_rows]. cbv zeta.
    replace (S i - 1) with i by lia. replace (m + 1 - 1) with m by lia.
    replace (S i + 1) with (S (S i)) by lia.
    destruct (xcost_sweep_spec i m 0 (S i) (S i) row) as [Hl Hr];
      [lia|lia|done|rewrite M_0_r; lia|rewrite M_0_r; lia| | |].
    + intros q Hq. apply Hrow. lia.
    + intros q Hq. lia.
    + apply IH; [lia|done|done].
Qed.

Lemma u_xcost_sweep_spec i k : forall p D x row,
  i < n -> p + k = m ->
  length row = m + 1 ->
  D = M2 i p -> x = M2 (S i) p ->
  (forall q, p < q <= m -> rd row q = M2 i q) ->
  (forall q, 1 <= q <= p -> rd row q = M2 (S i) q) ->
  let row' := u_xcost_sweep k (s1 !! i) s2 (S p) p D x row in
  length row' = m + 1 /\ forall q, 1 <= q <= m -> rd row' q = M2 (S i) q.
Proof.
  induction k as [|k IH]; intros p D x row Hi Hk Hlen HD Hx Hold Hnew.
  - simpl. split; [done|]. intros q Hq. apply Hnew. lia.
  - cbn [u_xcost_sweep].
    pose proof (M_rec 2 s1 s2 i p ltac:(lia) ltac:(lia)) as Hrec.
    pose proof (M_right 2 s1 s2 i p ltac:(lia)) as Hr.
    pose proof (M_down 2 s1 s2 i p ltac:(lia)) as Hd.
    pose proof (Hold (S p) ltac:(lia)) as Hup.
    unfold neq_cost, min3 in Hrec.
    set (x2 := if _ <? _ then _ else _).
    assert (x2 = M2 (S i) (S p)) as Hx2.
    { unfold x2. rewrite ltb_min, Hup, Hrec. case_bool_decide; lia. }
    replace (p + 1) with (S p) by lia.
    replace (S p + 1) with (S (S p)) by lia.
    apply IH; [done|lia|by rewrite length_insert|lia|done|..].
    + intros q Hq. rewrite rd_insert_ne by lia. apply Hold. lia.
    + intros q Hq. destruct (decide (q = S p)) as [->|Hne].
      * rewrite rd_insert_eq by lia. done.
      * rewrite rd_insert_ne by lia. apply Hnew. lia.
Qed.

Lemma u_xcost_rows_spec k : forall i row,
  i + k = n -> length row = m + 1 ->
  (forall q, 1 <= q <= m -> rd row q = M2 i q) ->
  let row' := u_xcost_rows k (S i) s1 s2 m row in
  length row' = m + 1 /\ forall q, 1 <= q <= m -> rd row' q = M2 n q.
Proof.
  induction k as [|k IH]; intros i row Hk Hlen Hrow.
  - simpl. replace n with i by lia. done.
  - cbn [u_xcost_rows]. cbv zeta.
    replace (S i - 1) with i by lia. replace (m + 1 - 1) with m by lia.
    replace (S i + 1) with (S (S i)) by lia.
    destruct (u_xcost_sweep_spec i m 0 i (S i) row) as [Hl Hr];
      [lia|lia|done|rewrite M_0_r; lia|rewrite M_0_r; lia| | |].
    + intros q Hq. apply Hrow. lia.
    + intros q Hq. lia.
    + apply IH; [lia|done|done].
Qed.

End XCost.

Lemma b2n_neq {A} `{EqDecision A} (c1 c2 : option A) :
  b2n (bool_decide (c1 <> c2)) = neq_cost 1 c1 c2.
Proof. unfold neq_cost. repeat case_bool_decide; simpl; congruence. Qed.

Lemma init_row_spec k : forall i (row : list nat),
  i + k <= length row ->
  length (init_row k i row) = length row /\
  (forall q, i <= q < i + k -> rd (init_row k i row) q = q) /\
  (forall q, q < i \/ i + k <= q -> rd (init_row k i row) q = rd row q).
Proof.
  induction k as [|k IH]; intros i row Hk; cbn [init_row].
  - split; [done|]. split; [lia|done].
  - destruct (IH (i + 1) (<[i:=i]> row)) as (Hl & Hin & Hout).
    { rewrite length_insert. lia. }
    rewrite length_insert in Hl. split; [done|]. split.
    + intros q Hq. destruct (decide (q = i)) as [->|Hne].
      * rewrite Hout by lia. apply rd_insert_eq. lia.
      * apply Hin. lia.
    + intros q Hq. rewrite Hout by lia. apply rd_insert_ne. lia.
Qed.

Section CornerSkip.
Context {A : Type} `{EqDecision A}.
Variables s1 s2 : list A.
Variables n m h : nat.
Hypothesis Hn : n <= length s1.
Hypothesis Hm : m <= length s2.
Hypothesis Hn2 : 2 <= n.
Hypothesis Hnm : n <= m.
Hypothesis Hh : 2 * h <= n + 1 <= 2 * h + 1.

Abbreviation M1 := (M 1 s1 s2).

Local Abbreviation good := (good (A:=A) s1 s2 n m).

Local Abbreviation cell_ok := (cell_ok (A:=A) s1 s2 n m).

Lemma good_band i j :
  i <= n -> j <= m -> good i j -> j <= m - h + i /\ i <= j + (n - h).
Proof.
  intros Hi Hj Hg. unfold good in Hg.
  pose proof (M_ge_diff 1 s1 s2 i j ltac:(lia) ltac:(lia)). lia.
Qed.

Lemma cell_ok_exact i j : cell_ok i j (M1 i j).
Proof. split; [apply Nat.le_refl|done]. Qed.

Lemma cell_step_full i j vd vu vl :
  i < n -> j < m ->
  cell_ok i j vd -> cell_ok i (S j) vu -> cell_ok (S i) j vl ->
  cell_ok (S i) (S j)
    (Nat.min (vu + 1) (Nat.min (vd + neq_cost 1 (s1 !! i) (s2 !! j)) (vl + 1))).
Proof.
  intros Hi Hj [Hd1 Hd2] [Hu1 Hu2] [Hl1 Hl2].
  pose proof (M_rec 1 s1 s2 i j ltac:(lia) ltac:(lia)) as Hrec.
  unfold min3 in Hrec. unfold cell_ok, good in *.
  set (c := neq_cost 1 (s1 !! i) (s2 !! j)) in *. clearbody c. lia.
Qed.

Lemma cell_step_no_up i j vd vl :
  i < n -> j < m -> m - h + i < S j ->
  cell_ok i j vd -> cell_ok (S i) j vl ->
  cell_ok (S i) (S j) (Nat.min (vd + neq_cost 1 (s1 !! i) (s2 !! j)) (vl + 1)).
Proof.
  intros Hi Hj Hout [Hd1 Hd2] [Hl1 Hl2].
  pose proof (M_rec 1 s1 s2 i j ltac:(lia) ltac:(lia)) as Hrec.
  pose proof (good_band i (S j) ltac:(lia) ltac:(lia)) as Hb.
  unfold min3 in Hrec. unfold cell_ok, good in *.
  set (c := neq_cost 1 (s1 !! i) (s2 !! j)) in *. clearbody c. lia.
Qed.

Lemma cell_step_no_left i j vd vu :
  i < n -> j < m -> j + (n - h) < S i ->
  cell_ok i j vd -> cell_ok i (S j) vu ->
  cell_ok (S i) (S j) (Nat.min (vd + neq_cost 1 (s1 !! i) (s2 !! j)) (vu + 1)).
Proof.
  intros Hi Hj Hout [Hd1 Hd2] [Hu1 Hu2].
  pose proof (M_rec 1 s1 s2 i j ltac:(lia) ltac:(lia)) as Hrec.
  pose proof (good_band (S i) j ltac:(lia) ltac:(lia)) as Hb.
  unfold min3 in Hrec. unfold cell_ok, good in *.
  set (c := neq_cost 1 (s1 !! i) (s2 !! j)) in *. clearbody c. lia.
Qed.

Lemma main_sweep_spec i k : forall p D x row,
  i < n -> p + k <= m ->
  length row = m + 1 -> 1 <= D ->
  cell_ok i p (D - 1) -> cell_ok (S i) p x ->
  (forall q, p < q <= p + k -> cell_ok i q (rd row q)) ->
  exists D' x' row',
    main_sweep k (s1 !! i) s2 (S p) p D x row = (S p + k, p + k, D', x', row') /\
    length row' = m + 1 /\ 1 <= D' /\
    cell_ok i (p + k) (D' - 1) /\ cell_ok (S i) (p + k) x' /\
    (forall q, p < q <= p + k -> cell_ok (S i) q (rd row' q)) /\
    (forall q, q <= p \/ p + k < q -> rd row' q = rd row q).
Proof.
  induction k as [|k IH]; intros p D x row Hi Hk Hlen HD Hd Hl Hrow.
  - exists D, x, row. cbn [main_sweep]. rewrite !Nat.add_0_r.
    split; [done|]. split; [done|]. split; [done|]. split; [done|].
    split; [done|]. split; [|done]. intros q Hq. lia.
  - cbn [main_sweep]. cbv zeta.
    rewrite b2n_neq, !ltb_min.
    set (x2 := Nat.min _ _).
    assert (cell_ok (S i) (S p) x2) as Hx2.
    { unfold x2. apply cell_step_full; [done|lia|done| |done].
      apply Hrow. lia. }
    replace (p + 1) with (S p) by lia.
    replace (S p + 1) with (S (S p)) by lia.
    destruct (IH (S p) (rd row (S p) + 1) x2 (<[S p:=x2]> row))
      as (D' & x' & row' & Heq & Hlen' & HD' & Hd' & Hl' & Hnew & Hsame);
      [done|lia|by rewrite length_insert|lia| |done| |].
    + replace (rd row (S p) + 1 - 1) with (rd row (S p)) by lia. apply Hrow. lia.
    + intros q Hq. rewrite rd_insert_ne by lia. apply Hrow. lia.
    + exists D', x', row'. replace (S p + S k) with (S (S p) + k) by lia.
      replace (p + S k) with (S p + k) by lia.
      split; [done|]. split; [done|]. split; [done|]. split; [done|].
      split; [done|]. split.
      * intros q Hq. destruct (decide (q = S p)) as [->|Hne].
        -- rewrite Hsame by lia. rewrite rd_insert_eq by lia. done.
        -- apply Hnew. lia.
      * intros q Hq. rewrite Hsame by lia. apply rd_insert_ne. lia.
Qed.

Local Abbreviation skip_inv := (skip_inv (A:=A) s1 s2 n m h).

Lemma skip_row_spec i endp row :
  i < n -> skip_inv i endp row ->
  exists endp' row',
    skip_row (S i) (n + 1) (m + 1) h s1 s2 endp row = (endp', row') /\
    skip_inv (S i) endp' row'.
Proof.
  intros Hi (Hlen & H0 & Hend & Hrow). unfold skip_row.
  replace (S i - 1) with i by lia.
  set (endp' := if S i <=? h + 1 then _ else _).
  assert (endp' = Nat.min m (m - h + i)) as Hendp'.
  { unfold endp'. destruct (Nat.leb_spec (S i) (h + 1)); [lia|].
    rewrite Hend by lia. lia. }
  clearbody endp'.
  destruct (Nat.leb_spec (n + 1 - h) (S i)) as [HA|HB].
  - (* the upper triangle is skipped: the first cell has no left neighbour *)
    set (o := S i - (n + 1 - h)).
    assert (o = i - (n - h)) as Ho by lia.
    rewrite b2n_neq, ltb_min.
    set (x1 := Nat.min _ _).
    assert (cell_ok i o (rd row o)) as Hdiag.
    { destruct (decide (o = 0)) as [Ho0|Ho0].
      - rewrite Ho0, H0. replace (n - h) with i by lia.
        rewrite <- (M_0_r 1 s1 s2 i) at 2 by lia. apply cell_ok_exact.
      - apply Hrow; lia. }
    assert (cell_ok i (S o) (rd row (S o))) as Hup.
    { apply Hrow; lia. }
    assert (cell_ok (S i) (S o) x1) as Hx1.
    { unfold x1. replace (o + 1) with (S o) by lia.
      apply cell_step_no_left; [done|lia|lia|done|done]. }
    replace (o + 2) with (S (S o)) by lia.
    replace (o + 1) with (S o) in * by lia.
    destruct (main_sweep_spec i (endp' + 1 - S (S o)) (S o)
                (rd row (S o) + 1) x1 (<[S o:=x1]> row))
      as (D' & x' & row' & Heq & Hlen' & HD' & Hd' & Hl' & Hnew & Hsame);
      [done|lia|by rewrite length_insert|lia| |done| |].
    + replace (rd row (S o) + 1 - 1) with (rd row (S o)) by lia. done.
    + intros q Hq. rewrite rd_insert_ne by lia. apply Hrow; lia.
    + rewrite Heq.
      set (pe := S o + (endp' + 1 - S (S o))) in *.
      assert (pe = Nat.min m (m - h + i)) as Hpe by lia.
      eexists _, _. split; [reflexivity|].
      destruct (Nat.leb_spec (S i) h) as [Hs|Hs].
      * (* lower triangle sentinel *)
        rewrite b2n_neq, ltb_min.
        set (x3 := Nat.min _ _).
        assert (cell_ok (S i) (S pe) x3) as Hx3.
        { unfold x3. apply cell_step_no_up; [done|lia|lia|done|done]. }
        split; [by rewrite length_insert|]. split.
        { rewrite rd_insert_ne by lia. rewrite Hsame by lia.
          rewrite rd_insert_ne by lia. done. }
        split; [lia|].
        intros j Hj1 Hj2 Hj3 Hj4.
        destruct (decide (j = S pe)) as [->|Hne1].
        { rewrite rd_insert_eq by lia. done. }
        rewrite rd_insert_ne by lia.
        destruct (decide (j = S o)) as [->|Hne2].
        { rewrite Hsame by lia. rewrite rd_insert_eq by lia. done. }
        apply Hnew. lia.
      * split; [done|]. split.
        { rewrite Hsame by lia. rewrite rd_insert_ne by lia. done. }
        split; [lia|].
        intros j Hj1 Hj2 Hj3 Hj4.
        destruct (decide (j = S o)) as [->|Hne2].
        { rewrite Hsame by lia. rewrite rd_insert_eq by lia. done. }
        apply Hnew. lia.
  - (* the row starts at column 1 *)
    destruct (main_sweep_spec i (endp' + 1 - 1) 0 (S i) (S i) row)
      as (D' & x' & row' & Heq & Hlen' & HD' & Hd' & Hl' & Hnew & Hsame);
      [done|lia|done|lia| | | |].
    + replace (S i - 1) with i by lia.
      rewrite <- (M_0_r 1 s1 s2 i) at 2 by lia. apply cell_ok_exact.
    + rewrite <- (M_0_r 1 s1 s2 (S i)) at 2 by lia. apply cell_ok_exact.
    + intros q Hq. apply Hrow; lia.
    + rewrite Heq.
      set (pe := 0 + (endp' + 1 - 1)) in *.
      assert (pe = Nat.min m (m - h + i)) as Hpe by lia.
      eexists _, _. split; [reflexivity|].
      destruct (Nat.leb_spec (S i) h) as [Hs|Hs].
      * rewrite b2n_neq, ltb_min.
        set (x3 := Nat.min _ _).
        assert (cell_ok (S i) (S pe) x3) as Hx3.
        { unfold x3. apply cell_step_no_up; [done|lia|lia|done|done]. }
        split; [by rewrite length_insert|]. split.
        { rewrite rd_insert_ne by lia. rewrite Hsame by lia. done. }
        split; [lia|].
        intros j Hj1 Hj2 Hj3 Hj4.
        destruct (decide (j = S pe)) as [->|Hne1].
        { rewrite rd_insert_eq by lia. done. }
        rewrite rd_insert_ne by lia. apply Hnew. lia.
      * split; [done|]. split.
        { rewrite Hsame by lia. done. }
        split; [lia|].
        intros j Hj1 Hj2 Hj3 Hj4. apply Hnew. lia.
Qed.

Lemma skip_rows_spec k : forall i endp row,
  i + k = n -> skip_inv i endp row ->
  exists endp' row',
    skip_rows k (S i) (n + 1) (m + 1) h s1 s2 endp row = (endp', row') /\
    skip_inv n endp' row'.
Proof.
  induction k as [|k IH]; intros i endp row Hk Hinv.
  - exists endp, row. assert (i = n) as -> by lia. done.
  - cbn [skip_rows].
    destruct (skip_row_spec i endp row ltac:(lia) Hinv) as (e1 & r1 & -> & Hinv1).
    replace (S i + 1) with (S (S i)) by lia. apply IH; [lia|done].
Qed.

Lemma skip_inv_final endp row :
  skip_inv n endp row -> rd row endp = M1 n m.
Proof.
  intros (Hlen & H0 & Hend & Hrow). rewrite Hend by lia.
  destruct (Hrow m) as [_ Hg]; [lia..|]. apply Hg. unfold good, M.
  pose proof (lev_le_max 1 (take n s1) (take m s2) ltac:(lia)) as Hmax.
  rewrite !length_take in Hmax. lia.
Qed.

End CornerSkip.

Section Cores.
Context {A : Type} `{EqDecision A}.
Variables s1 s2 : list A.
Variables n m : nat.
Hypothesis Hn : n <= length s1.
Hypothesis Hm : m <= length s2.

Lemma length_block (junk : nat -> nat) k : length (map junk (seq 0 k)) = k.
Proof. by rewrite length_map, length_seq. Qed.

Lemma xcost_core junk :
  1 <= m ->
  rd (xcost_rows (n + 1 - 1) 1 s1 s2 (m + 1 - 1)
        (init_row (m + 1 - 0) 0 (map junk (seq 0 (m + 1))))) (m + 1 - 1)
  = M 2 s1 s2 n m.
Proof.
  intros Hm1.
  replace (n + 1 - 1) with n by lia. replace (m + 1 - 1) with m by lia.
  replace (m + 1 - 0) with (m + 1) by lia.
  destruct (init_row_spec (m + 1) 0 (map junk (seq 0 (m + 1)))) as (Hl & Hin & _).
  { rewrite length_block. lia. }
  rewrite length_block in Hl.
  destruct (xcost_rows_spec s1 s2 n m Hn Hm n 0
              (init_row (m + 1) 0 (map junk (seq 0 (m + 1)))))
    as [_ Hr]; [lia|done| |].
  - intros q Hq. rewrite Hin by lia. rewrite M_0_l; lia.
  - apply Hr; lia.
Qed.

Lemma u_xcost_core junk :
  1 <= m ->
  rd (u_xcost_rows (n + 1 - 1) 1 s1 s2 (m + 1 - 1)
        (init_row (m + 1 - 0) 0 (map junk (seq 0 (m + 1))))) (m + 1 - 1)
  = M 2 s1 s2 n m.
Proof.
  intros Hm1.
  replace (n + 1 - 1) with n by lia. replace (m + 1 - 1) with m by lia.
  replace (m + 1 - 0) with (m + 1) by lia.
  destruct (init_row_spec (m + 1) 0 (map junk (seq 0 (m + 1)))) as (Hl & Hin & _).
  { rewrite length_block. lia. }
  rewrite length_block in Hl.
  destruct (u_xcost_rows_spec s1 s2 n m Hn Hm n 0
              (init_row (m + 1) 0 (map junk (seq 0 (m + 1)))))
    as [_ Hr]; [lia|done| |].
  - intros q Hq. rewrite Hin by lia. rewrite M_0_l; lia.
  - apply Hr; lia.
Qed.

Lemma skip_core junk :
  2 <= n -> n <= m ->
  let half := Nat.div2 (n + 1) in
  let '(endp, row) :=
    skip_rows (n + 1 - 1) 1 (n + 1) (m + 1) half s1 s2 (m + 1 - 1)
      (<[0 := n + 1 - half - 1]>
         (init_row (m + 1 - half) 0 (map junk (seq 0 (m + 1))))) in
  rd row endp = M 1 s1 s2 n m.
Proof.
  intros Hn2 Hnm half.
  assert (2 * half <= n + 1 <= 2 * half + 1) as Hh.
  { unfold half. rewrite Nat.div2_div.
    pose proof (Nat.div_mod_eq (n + 1) 2).
    pose proof (Nat.mod_upper_bound (n + 1) 2). lia. }
  clearbody half.
  replace (n + 1 - 1) with n by lia. replace (m + 1 - 1) with m by lia.
  destruct (init_row_spec (m + 1 - half) 0 (map junk (seq 0 (m + 1))))
    as (Hl & Hin & _).
  { rewrite length_block. lia. }
  rewrite length_block in Hl.
  set (row0 := init_row _ _ _) in *.
  destruct (skip_rows_spec s1 s2 n m half Hn Hm Hn2 Hnm Hh n 0 m
              (<[0 := n + 1 - half - 1]> row0)) as (e & r & -> & Hinv); [lia| |].
  - split; [by rewrite length_insert|]. split.
    { rewrite rd_insert_eq by lia. lia. }
    split; [lia|].
    intros j Hj1 Hj2 Hj3 Hj4. rewrite rd_insert_ne by lia.
    rewrite Hin by lia. rewrite <- (M_0_l 1 s1 s2 j) at 2 by lia.
    apply cell_ok_exact.
  - by apply (skip_inv_final s1 s2 n m half).
Qed.

End Cores.

Section Assembly.
Context {A : Type} `{EqDecision A}.

Lemma strip_prefix_spec sc fuel : forall (s1 s2 : list A),
  exists t1 t2,
    strip_prefix fuel (length s1) s1 (length s2) s2 = (length t1, t1, length t2, t2) /\
    lev sc t1 t2 = lev sc s1 s2.
Proof.
  induction fuel as [|fuel IH]; intros s1 s2; cbn [strip_prefix].
  - by exists s1, s2.
  - destruct s1 as [|x s1]; [by exists [], s2|].
    destruct s2 as [|y s2]; [by exists (x :: s1), []|].
    cbn [length head tail]. rewrite !Nat.sub_succ, !Nat.sub_0_r.
    change (0 <? S _) with true. cbn [andb].
    case_bool_decide as Hxy.
    + injection Hxy as ->. destruct (IH s1 s2) as (t1 & t2 & -> & Hlev).
      exists t1, t2. split; [done|]. by rewrite lev_cons_same.
    + by exists (x :: s1), (y :: s2).
Qed.

Lemma strip_suffix_spec sc (s1 s2 : list A) fuel : forall l1 l2,
  l1 <= length s1 -> l2 <= length s2 ->
  exists l1' l2',
    strip_suffix fuel l1 s1 l2 s2 = (l1', l2') /\ l1' <= l1 /\ l2' <= l2 /\
    lev sc (take l1' s1) (take l2' s2) = lev sc (take l1 s1) (take l2 s2).
Proof.
  induction fuel as [|fuel IH]; intros l1 l2 H1 H2; cbn [strip_suffix].
  - by exists l1, l2.
  - destruct l1 as [|l1]; [by exists 0, l2|].
    destruct l2 as [|l2]; [by exists (S l1), 0|].
    change (0 <? S _) with true. cbn [andb].
    rewrite !Nat.sub_succ, !Nat.sub_0_r.
    case_bool_decide as Hxy; [|by exists (S l1), (S l2)].
    destruct (IH l1 l2 ltac:(lia) ltac:(lia)) as (l1' & l2' & -> & Hl1 & Hl2 & Hlev).
    exists l1', l2'. split; [done|]. split; [lia|]. split; [lia|].
    rewrite Hlev.
    destruct (take_snoc s1 l1 ltac:(lia)) as (x & Hx & ->).
    destruct (take_snoc s2 l2 ltac:(lia)) as (y & Hy & ->).
    assert (x = y) as -> by congruence. by rewrite lev_snoc_same.
Qed.

(** The part of both routines after the strings have been ordered by
    length, in terms of the cost matrix. *)
Lemma take_1_head (s : list A) l : 1 <= l <= length s ->
  exists x, head s = Some x /\ take 1 s = [x].
Proof. destruct s as [|x s]; simpl; [lia|]. intros _. by exists x. Qed.

Lemma memchr_single (xcost : bool) (s1 s2 : list A) l2 :
  1 <= length s1 -> 1 <= l2 <= length s2 ->
  lev (xsc xcost) (take 1 s1) (take l2 s2) =
  if xcost then l2 + 1 - 2 * b2n (memchr s2 (head s1) l2)
  else l2 - b2n (memchr s2 (head s1) l2).
Proof.
  intros H1 H2. destruct (take_1_head s1 1 ltac:(lia)) as (x & -> & ->).
  rewrite lev_single; [|destruct xcost; simpl; lia|].
  - unfold memchr. rewrite length_take.
    destruct xcost, (existsb _ _); simpl; lia.
  - intros E. apply (f_equal length) in E. rewrite length_take in E. simpl in E. lia.
Qed.

Lemma u_found_single (xcost : bool) (s1 s2 : list A) l2 :
  1 <= length s1 -> 1 <= l2 <= length s2 ->
  lev (xsc xcost) (take 1 s1) (take l2 s2) =
  if u_found s2 (head s1) l2 then l2 - 1 else l2 + b2n xcost.
Proof.
  intros H1 H2. destruct (take_1_head s1 1 ltac:(lia)) as (x & -> & ->).
  rewrite lev_single; [|destruct xcost; simpl; lia|].
  - unfold u_found. rewrite length_take.
    destruct xcost, (existsb _ _); simpl; lia.
  - intros E. apply (f_equal length) in E. rewrite length_take in E. simpl in E. lia.
Qed.

Lemma lev_edit_distance_lev (s1 s2 : list A) xcost junk :
  lev_edit_distance (length s1) s1 (length s2) s2 xcost (Some junk)
  = Some (lev (xsc xcost) s1 s2).
Proof.
  unfold lev_edit_distance.
  destruct (strip_prefix_spec (xsc xcost) (length s1) s1 s2) as (t1 & t2 & -> & <-).
  destruct (strip_suffix_spec (xsc xcost) t1 t2 (length t1) (length t1) (length t2))
    as (l1 & l2 & -> & Hl1 & Hl2 & Hlev); [lia..|].
  rewrite !firstn_all in Hlev. rewrite <- Hlev. clear Hlev.
  destruct (Nat.eqb_spec l1 0) as [->|Hl10].
  { simpl. rewrite length_take. f_equal. lia. }
  destruct (Nat.eqb_spec l2 0) as [->|Hl20].
  { rewrite take_0, lev_nil_r, length_take. f_equal. lia. }
  assert (exists n u1 m u2,
    (if l2 <? l1 then (l2, t2, l1, t1) else (l1, t1, l2, t2)) = (n, u1, m, u2) /\
    1 <= n /\ n <= m /\ n <= length u1 /\ m <= length u2 /\
    lev (xsc xcost) (take l1 t1) (take l2 t2) = lev (xsc xcost) (take n u1) (take m u2))
    as (n & u1 & m & u2 & -> & Hn1 & Hnm & Hn & Hm & ->).
  { destruct (Nat.ltb_spec l2 l1).
    - exists l2, t2, l1, t1. rewrite lev_sym. repeat split; try done; lia.
    - exists l1, t1, l2, t2. repeat split; try done; lia. }
  destruct (Nat.eqb_spec n 1) as [->|Hn1'].
  { rewrite memchr_single by lia. by destruct xcost. }
  cbn [malloc]. destruct xcost.
  - rewrite xcost_core by lia. done.
  - pose proof (skip_core u1 u2 n m Hn Hm junk ltac:(lia) Hnm) as Hc.
    cbv zeta in Hc. cbv beta iota zeta.
    destruct (skip_rows _ _ _ _ _ _ _ _ _) as [e r]. by rewrite Hc.
Qed.

Lemma lev_u_edit_distance_lev (s1 s2 : list A) xcost junk :
  lev_u_edit_distance (length s1) s1 (length s2) s2 xcost (Some junk)
  = Some (lev (xsc xcost) s1 s2).
Proof.
  unfold lev_u_edit_distance.
  destruct (strip_prefix_spec (xsc xcost) (length s1) s1 s2) as (t1 & t2 & -> & <-).
  destruct (strip_suffix_spec (xsc xcost) t1 t2 (length t1) (length t1) (length t2))
    as (l1 & l2 & -> & Hl1 & Hl2 & Hlev); [lia..|].
  rewrite !firstn_all in Hlev. rewrite <- Hlev. clear Hlev.
  destruct (Nat.eqb_spec l1 0) as [->|Hl10].
  { simpl. rewrite length_take. f_equal. lia. }
  destruct (Nat.eqb_spec l2 0) as [->|Hl20].
  { rewrite take_0, lev_nil_r, length_take. f_equal. lia. }
  assert (exists n u1 m u2,
    (if l2 <? l1 then (l2, t2, l1, t1) else (l1, t1, l2, t2)) = (n, u1, m, u2) /\
    1 <= n /\ n <= m /\ n <= length u1 /\ m <= length u2 /\
    lev (xsc xcost) (take l1 t1) (take l2 t2) = lev (xsc xcost) (take n u1) (take m u2))
    as (n & u1 & m & u2 & -> & Hn1 & Hnm & Hn & Hm & ->).
  { destruct (Nat.ltb_spec l2 l1).
    - exists l2, t2, l1, t1. rewrite lev_sym. repeat split; try done; lia.
    - exists l1, t1, l2, t2. repeat split; try done; lia. }
  destruct (Nat.eqb_spec n 1) as [->|Hn1'].
  { rewrite u_found_single by lia. by destruct (u_found _ _ _). }
  cbn [malloc]. destruct xcost.
  - rewrite u_xcost_core by lia. done.
  - pose proof (skip_core u1 u2 n m Hn Hm junk ltac:(lia) Hnm) as Hc.
    cbv zeta in Hc. cbv beta iota zeta.
    destruct (skip_rows _ _ _ _ _ _ _ _ _) as [e r]. by rewrite Hc.
Qed.

End Assembly.

Section KernelClaims.
Context {A : Type} `{EqDecision A}.

(** C1.  For every pair of strings, [lev_edit_distance] and
    [lev_u_edit_distance] called with [xcost == 0] return the classical
    Levenshtein distance: the minimum number of insertions, deletions and
    substitutions that turn the first string into the second.  The row was
    allocated, with arbitrary initial contents. *)
Theorem lev_edit_distance_classical (s1 s2 : list A) (junk : nat -> nat) :
  exists d,
    lev_edit_distance (length s1) s1 (length s2) s2 false (Some junk) = Some d /\
    lev_u_edit_distance (length s1) s1 (length s2) s2 false (Some junk) = Some d /\
    min_edit_cost 1 s1 s2 d.
Proof.
  exists (lev 1 s1 s2). split; [apply (lev_edit_distance_lev s1 s2 false)|].
  split; [apply (lev_u_edit_distance_lev s1 s2 false)|].
  apply lev_min_edit_cost.
Qed.

(** C3.  For every pair of strings, [lev_edit_distance] and
    [lev_u_edit_distance] called with [xcost != 0] return the minimum total
    cost of an edit sequence in which an insertion and a deletion cost 1 and
    a substitution costs 2.  The row was allocated, with arbitrary initial
    contents. *)
Theorem lev_edit_distance_xcost (s1 s2 : list A) (junk : nat -> nat) :
  exists d,
    lev_edit_distance (length s1) s1 (length s2) s2 true (Some junk) = Some d /\
    lev_u_edit_distance (length s1) s1 (length s2) s2 true (Some junk) = Some d /\
    min_edit_cost 2 s1 s2 d.
Proof.
  exists (lev 2 s1 s2). split; [apply (lev_edit_distance_lev s1 s2 true)|].
  split; [apply (lev_u_edit_distance_lev s1 s2 true)|].
  apply lev_min_edit_cost.
Qed.

End KernelClaims.

(** ** Correctness of edit-script recovery and application *)

Lemma idx_inj L i j i' j' :
  j < L -> j' < L -> i * L + j = i' * L + j' -> i = i' /\ j = j'.
Proof.
  intros Hj Hj' E.
  assert (i = i') as ->.
  { destruct (Nat.lt_trichotomy i i') as [Hlt|[->|Hlt]]; [|done|]; exfalso; nia. }
  split; [done|lia].
Qed.

Section MatrixFill.
Context {A : Type} `{EqDecision A}.
Variables s1 s2 : list A.
Variables n m : nat.
Hypothesis Hn : n <= length s1.
Hypothesis Hm : m <= length s2.

Abbreviation M1 := (M 1 s1 s2).
Abbreviation L2 := (m + 1).

Local Abbreviation filled := (filled (A:=A) s1 s2 n m).

Lemma filled_insert (done done' : nat -> nat -> Prop) matrix i j :
  i <= n -> j <= m ->
  filled done matrix ->
  (forall i' j', i' <= n -> j' <= m -> done' i' j' -> done i' j' \/ (i' = i /\ j' = j)) ->
  filled done' (<[i * L2 + j := M1 i j]> matrix).
Proof.
  intros Hi Hj [Hlen Hf] Hd. split; [by rewrite length_insert|].
  intros i' j' Hi' Hj' Hdone.
  destruct (decide (i' * L2 + j' = i * L2 + j)) as [E|E].
  - apply idx_inj in E as [-> ->]; [|lia..]. rewrite rd_insert_eq; [done|]. nia.
  - rewrite rd_insert_ne by done. apply Hf; [done..|].
    destruct (Hd i' j' Hi' Hj' Hdone) as [?|[-> ->]]; [done|]. by destruct E.
Qed.

Lemma fill_row_spec i k : forall j x matrix,
  i < n -> j + k = m ->
  x = M1 (S i) j ->
  filled (fun i' j' => i' <= i \/ (i' = S i /\ j' <= j) \/ j' = 0) matrix ->
  filled (fun i' j' => i' <= S i \/ j' = 0)
    (fill_row k (s1 !! i) s2 (i * L2 + j) (S i * L2 + j + 1) j x matrix).
Proof.
  induction k as [|k IH]; intros j x matrix Hi Hk Hx Hf.
  - cbn [fill_row]. destruct Hf as [Hlen Hf]. split; [done|].
    intros i' j' Hi' Hj' Hd. apply Hf; [done..|]. lia.
  - cbn [fill_row]. cbv zeta. rewrite b2n_neq, !ltb_min.
    destruct Hf as [Hlen Hf].
    rewrite (Hf i j) by lia.
    replace (i * L2 + j + 1) with (i * L2 + S j) by lia.
    rewrite (Hf i (S j)) by lia.
    set (x' := Nat.min _ _).
    assert (x' = M1 (S i) (S j)) as ->.
    { unfold x'. rewrite (M_rec 1 s1 s2 i j) by lia. unfold min3. lia. }
    replace (S i * L2 + j + 1) with (S i * L2 + S j) by lia.
    replace (S i * L2 + S j + 1) with (S i * L2 + S j + 1) by lia.
    replace (j + 1) with (S j) by lia.
    apply IH; [done|lia|done|].
    apply (filled_insert (fun i' j' => i' <= i \/ (i' = S i /\ j' <= j) \/ j' = 0));
      [lia|lia|done|]. intros i' j' _ _ Hd. lia.
Qed.

Lemma fill_rows_spec k : forall i matrix,
  i + k = n ->
  filled (fun i' j' => i' <= i \/ j' = 0) matrix ->
  filled (fun _ _ => True) (fill_rows k (S i) L2 s1 s2 matrix).
Proof.
  induction k as [|k IH]; intros i matrix Hk Hf.
  - cbn [fill_rows]. destruct Hf as [Hlen Hf]. split; [done|].
    intros i' j' Hi' Hj' _. apply Hf; [done..|]. lia.
  - cbn [fill_rows]. cbv zeta.
    replace (S i - 1) with i by lia.
    replace (S i * L2 + L2 - 1 + 1 - (S i * L2 + 1)) with m by lia.
    replace (S i + 1) with (S (S i)) by lia.
    apply IH; [lia|].
    replace (i * L2) with (i * L2 + 0) by lia.
    replace (S i * L2 + 1) with (S i * L2 + 0 + 1) by lia.
    apply fill_row_spec; [lia|lia|rewrite M_0_r; lia|].
    destruct Hf as [Hlen Hf]. split; [done|].
    intros i' j' Hi' Hj' Hd. apply Hf; [done..|]. lia.
Qed.

Lemma init_col_spec k : forall i matrix,
  i + k = n + 1 -> 1 <= i ->
  filled (fun i' j' => i' = 0 \/ (j' = 0 /\ i' < i)) matrix ->
  filled (fun i' j' => i' = 0 \/ j' = 0) (init_col k i L2 matrix).
Proof.
  induction k as [|k IH]; intros i matrix Hk Hi Hf.
  - cbn [init_col]. destruct Hf as [Hlen Hf]. split; [done|].
    intros i' j' Hi' Hj' Hd. apply Hf; [done..|]. lia.
  - cbn [init_col]. apply IH; [lia..|].
    replace (L2 * i) with (i * L2 + 0) by lia.
    rewrite <- (M_0_r 1 s1 s2 i) at 2 by lia.
    apply (filled_insert (fun i' j' => i' = 0 \/ (j' = 0 /\ i' < i))); [lia|lia|done|].
    intros i' j' _ _ Hd. lia.
Qed.

Lemma matrix_filled (junk : nat -> nat) :
  filled (fun _ _ => True)
    (fill_rows (n + 1 - 1) 1 L2 s1 s2
       (init_col (n + 1 - 1) 1 L2
          (init_row L2 0 (map junk (seq 0 ((n + 1) * L2)))))).
Proof.
  replace (n + 1 - 1) with n by lia.
  apply fill_rows_spec; [lia|].
  assert (filled (fun i' j' => i' = 0 \/ j' = 0)
            (init_col n 1 L2 (init_row L2 0 (map junk (seq 0 ((n + 1) * L2)))))) as Hf.
  { apply init_col_spec; [lia..|].
    destruct (init_row_spec L2 0 (map junk (seq 0 ((n + 1) * L2)))) as (Hl & Hin & _).
    { rewrite length_block. nia. }
    rewrite length_block in Hl. split; [done|].
    intros i' j' Hi' Hj' Hd. assert (i' = 0) as -> by lia.
    rewrite Nat.mul_0_l, Nat.add_0_l. rewrite Hin by lia. rewrite M_0_l; lia. }
  destruct Hf as [Hlen Hf]. split; [done|].
  intros i' j' Hi' Hj' Hd. apply Hf; [done..|]. lia.
Qed.

End MatrixFill.

Section ApplyProps.
Context {A : Type} `{EqDecision A}.
Variables a b : list A.

Local Abbreviation apply_full := (apply_full (A:=A) a b).

Lemma starts_after_le ops src src' :
  src' <= src -> starts_after ops src -> starts_after ops src'.
Proof. destruct ops; simpl; [done|]. intros ? [? ?]. split; [lia|done]. Qed.

Lemma copy_source_ok src j :
  src + j <= length a -> copy_source (length a) a src j = Some (take j (drop src a)).
Proof.
  intros Hle. unfold copy_source. destruct (Nat.leb_spec (src + j) (length a)); [done|lia].
Qed.

Lemma copy_source_shift src j c :
  a !! src = Some c ->
  copy_source (length a) a src (S j) =
  (fun w => c :: w) <$> copy_source (length a) a (S src) j.
Proof.
  intros Hc. unfold copy_source.
  replace (S src + j) with (src + S j) by lia.
  destruct (src + S j <=? length a); [|done]. simpl. f_equal.
  rewrite (drop_S _ _ _ Hc). done.
Qed.

Lemma apply_full_shift ops src dst c :
  a !! src = Some c -> starts_after ops (S src) ->
  apply_full ops src dst = apply_full ops (S src) (dst ++ [c]).
Proof.
  intros Hc Hs. pose proof (lookup_lt_Some _ _ _ Hc) as Hlt.
  unfold apply_full. destruct ops as [|o ops]; cbn [apply_ops].
  - replace (length a - src) with (S (length a - S src)) by lia.
    rewrite (copy_source_shift _ _ _ Hc).
    destruct (copy_source _ _ _ _); simpl; [|done]. by rewrite <- app_assoc.
  - destruct Hs as [Hle Hk]. rewrite bool_decide_eq_false_2 by done. simpl b2n.
    rewrite !Nat.add_0_r.
    destruct (Nat.ltb_spec (spos o) src); [lia|].
    destruct (Nat.ltb_spec (spos o) (S src)); [lia|].
    replace (spos o - src) with (S (spos o - S src)) by lia.
    rewrite (copy_source_shift _ _ _ Hc).
    destruct (copy_source _ _ _ _) as [w|]; simpl; [|done].
    replace (src + S (spos o - S src)) with (S src + (spos o - S src)) by lia.
    by rewrite <- app_assoc.
Qed.

Lemma apply_full_shift_many k : forall ops src dst,
  src + k <= length a -> starts_after ops (src + k) ->
  apply_full ops src dst = apply_full ops (src + k) (dst ++ take k (drop src a)).
Proof.
  induction k as [|k IH]; intros ops src dst Hle Hs.
  - rewrite Nat.add_0_r, take_0, app_nil_r. done.
  - destruct (lookup_lt_is_Some_2 a src ltac:(lia)) as [c Hc].
    rewrite (apply_full_shift _ _ _ c Hc).
    + rewrite (IH _ (S src)); [|lia|by replace (S src + k) with (src + S k) by lia].
      replace (S src + k) with (src + S k) by lia. f_equal.
      rewrite <- app_assoc. f_equal. rewrite (drop_S _ _ _ Hc). done.
    + eapply starts_after_le; [|done]. lia.
Qed.

Lemma apply_full_nil src dst :
  src <= length a -> apply_full [] src dst = Some (dst ++ drop src a).
Proof.
  intros Hle. unfold apply_full. cbn [apply_ops].
  rewrite copy_source_ok by lia. rewrite take_ge; [done|].
  rewrite length_drop. lia.
Qed.

(** One operation in front of a script. *)
Lemma apply_full_insert ops src dst d c :
  src <= length a -> b !! d = Some c ->
  apply_full (mkEditOp LEV_EDIT_INSERT src d :: ops) src dst =
  apply_full ops src (dst ++ [c]).
Proof.
  intros Hle Hc. unfold apply_full. cbn [apply_ops type spos dpos].
  rewrite bool_decide_eq_false_2 by done. simpl b2n. rewrite Nat.add_0_r.
  rewrite Nat.ltb_irrefl, Nat.sub_diag. rewrite copy_source_ok by lia.
  rewrite take_0, app_nil_r, Nat.add_0_r, Hc. done.
Qed.

Lemma apply_full_delete ops src dst d :
  src < length a ->
  apply_full (mkEditOp LEV_EDIT_DELETE src d :: ops) src dst =
  apply_full ops (src + 1) dst.
Proof.
  intros Hle. unfold apply_full. cbn [apply_ops type spos dpos].
  rewrite bool_decide_eq_false_2 by done. simpl b2n. rewrite Nat.add_0_r.
  rewrite Nat.ltb_irrefl, Nat.sub_diag. rewrite copy_source_ok by lia.
  rewrite take_0, app_nil_r, Nat.add_0_r. done.
Qed.

Lemma apply_full_replace ops src dst d c :
  src < length a -> b !! d = Some c ->
  apply_full (mkEditOp LEV_EDIT_REPLACE src d :: ops) src dst =
  apply_full ops (src + 1) (dst ++ [c]).
Proof.
  intros Hle Hc. unfold apply_full. cbn [apply_ops type spos dpos].
  rewrite bool_decide_eq_false_2 by done. simpl b2n. rewrite Nat.add_0_r.
  rewrite Nat.ltb_irrefl, Nat.sub_diag. rewrite copy_source_ok by lia.
  rewrite take_0, app_nil_r, Nat.add_0_r, Hc. done.
Qed.

End ApplyProps.

Section Backtrack.
Context {A : Type} `{EqDecision A}.
Variables a b pre t1 t2 : list A.
Variables n m : nat.
Variable matrix : list nat.
Hypothesis Ha : a = pre ++ t1.
Hypothesis Hb : b = pre ++ t2.
Hypothesis Hn : n <= length t1.
Hypothesis Hm : m <= length t2.
Hypothesis Hsuf : drop n t1 = drop m t2.
Hypothesis Hmat : filled t1 t2 n m (fun _ _ => True) matrix.

Abbreviation off := (length pre).
Abbreviation Mc := (M 1 t1 t2).
Abbreviation W := (m + 1).

Local Abbreviation suffix_ok := (suffix_ok (A:=A) a b pre).

Lemma lookup_a k : a !! (k + off) = t1 !! k.
Proof. rewrite Ha, lookup_app_r by lia. f_equal. lia. Qed.

Lemma lookup_b k : b !! (k + off) = t2 !! k.
Proof. rewrite Hb, lookup_app_r by lia. f_equal. lia. Qed.

Lemma length_a : length a = off + length t1.
Proof. by rewrite Ha, length_app. Qed.

Lemma length_b : length b = off + length t2.
Proof. by rewrite Hb, length_app. Qed.

Lemma drop_b_cons j c : b !! (j + off) = Some c ->
  drop (j + off) b = c :: drop (S j + off) b.
Proof. intros Hc. by rewrite (drop_S _ _ _ Hc). Qed.

Lemma suffix_ok_start : suffix_ok n m [].
Proof.
  split; [done|]. intros dst. rewrite apply_full_nil by (rewrite length_a; lia).
  do 2 f_equal. rewrite Ha, Hb.
  rewrite !drop_app_ge by lia.
  replace (n + off - off) with n by lia. replace (m + off - off) with m by lia. done.
Qed.

Lemma suffix_ok_insert i j ops :
  i <= n -> j < m -> suffix_ok i (S j) ops ->
  suffix_ok i j (mkEditOp LEV_EDIT_INSERT (i + off) (j + off) :: ops).
Proof.
  intros Hi Hj [Hs Hf]. split; [simpl; split; [lia|done]|]. intros dst.
  destruct (lookup_lt_is_Some_2 t2 j ltac:(lia)) as [c Hc].
  rewrite <- lookup_b in Hc.
  rewrite (apply_full_insert _ _ _ _ _ _ c) by (rewrite ?length_a; done || lia).
  rewrite Hf, <- app_assoc. by rewrite (drop_b_cons j c).
Qed.

Lemma suffix_ok_delete i j ops :
  i < n -> j <= m -> suffix_ok (S i) j ops ->
  suffix_ok i j (mkEditOp LEV_EDIT_DELETE (i + off) (j + off) :: ops).
Proof.
  intros Hi Hj [Hs Hf]. split; [simpl; split; [lia|done]|]. intros dst.
  rewrite apply_full_delete by (rewrite length_a; lia).
  replace (i + off + 1) with (S i + off) by lia. apply Hf.
Qed.

Lemma suffix_ok_replace i j ops :
  i < n -> j < m -> suffix_ok (S i) (S j) ops ->
  suffix_ok i j (mkEditOp LEV_EDIT_REPLACE (i + off) (j + off) :: ops).
Proof.
  intros Hi Hj [Hs Hf]. split; [simpl; split; [lia|done]|]. intros dst.
  destruct (lookup_lt_is_Some_2 t2 j ltac:(lia)) as [c Hc].
  rewrite <- lookup_b in Hc.
  rewrite (apply_full_replace _ _ _ _ _ _ c) by (rewrite ?length_a; done || lia).
  replace (i + off + 1) with (S i + off) by lia.
  rewrite Hf, <- app_assoc. by rewrite (drop_b_cons j c).
Qed.

Lemma suffix_ok_keep i j ops :
  i < n -> j < m -> t1 !! i = t2 !! j -> suffix_ok (S i) (S j) ops ->
  suffix_ok i j ops.
Proof.
  intros Hi Hj Heq [Hs Hf]. split.
  { eapply starts_after_le; [|done]. lia. }
  intros dst.
  destruct (lookup_lt_is_Some_2 t2 j ltac:(lia)) as [c Hc].
  assert (a !! (i + off) = Some c) as Hca by (rewrite lookup_a; congruence).
  rewrite <- lookup_b in Hc.
  rewrite (apply_full_shift _ _ _ _ _ c Hca) by done.
  change (S (i + off)) with (S i + off).
  rewrite Hf, <- app_assoc. by rewrite (drop_b_cons j c).
Qed.

Lemma rd_cell i j : i <= n -> j <= m -> rd matrix (i * W + j) = Mc i j.
Proof. intros Hi Hj. by apply Hmat. Qed.

Lemma Mc_diag i j : i < n -> j < m -> Mc (S i) (S j) <= Mc i j + 1.
Proof.
  intros Hi Hj. rewrite (M_rec 1 t1 t2 i j) by lia. unfold min3, neq_cost.
  case_bool_decide; lia.
Qed.

Lemma Mc_le_max i j : i <= n -> j <= m -> Mc i j <= Nat.max i j.
Proof.
  intros Hi Hj. unfold M.
  pose proof (lev_le_max 1 (take i t1) (take j t2) ltac:(lia)) as Hmax.
  rewrite !length_take in Hmax. lia.
Qed.

Lemma drop_insert_cons (ops : list LevEditOp) pos o :
  pos < length ops -> drop pos (<[pos := o]> ops) = o :: drop (S pos) ops.
Proof.
  intros Hlt. rewrite (drop_S _ o); [|by apply list_lookup_insert_eq].
  f_equal. apply drop_insert_lt. lia.
Qed.

Lemma backtrack_spec N fuel : forall i j pos dir ops,
  i + j <= fuel -> i <= n -> j <= m ->
  pos = Mc i j -> pos <= N -> length ops = N ->
  (dir = -1 \/ dir = 0 \/ dir = 1)%Z ->
  (dir = (-1)%Z -> j < m /\ Mc i (S j) = Mc i j + 1) ->
  (dir = 1%Z -> i < n /\ Mc (S i) j = Mc i j + 1) ->
  suffix_ok i j (drop pos ops) ->
  exists ops',
    backtrack fuel t1 t2 off off W matrix i j (i * W + j) pos dir ops = Some ops' /\
    length ops' = N /\ suffix_ok 0 0 ops'.
Proof.
  induction fuel as [|fuel IH]; intros i j pos dir ops Hfuel Hi Hj Hpos HposN Hlen
    Hdir Hleft Hup Hok.
  { assert (i = 0) as -> by lia. assert (j = 0) as -> by lia.
    exists ops. cbn. rewrite M_0_l in Hpos by lia. subst pos. done. }
  cbn [backtrack].
  destruct i as [|i], j as [|j].
  - exists ops. cbn. rewrite M_0_l in Hpos by lia. subst pos. done.
  - (* first row: only insertions remain *)
    cbn [Nat.eqb andb negb]. rewrite !andb_false_r. cbn [andb].
    rewrite Nat.mul_0_l, Nat.add_0_l.
    pose proof (rd_cell 0 (S j) ltac:(lia) Hj) as R1.
    pose proof (rd_cell 0 j ltac:(lia) ltac:(lia)) as R2.
    rewrite Nat.mul_0_l, Nat.add_0_l in R1, R2.
    replace (S j - 1) with j by lia. rewrite R1, R2.
    rewrite !M_0_l in * by lia.
    rewrite (proj2 (Nat.eqb_eq (S j) (j + 1))) by lia. rewrite !andb_true_r.
    assert (dir <> 1%Z) as Hd1.
    { intros ->. destruct (Hup eq_refl) as [Hlt E].
      pose proof (Mc_le_max 1 (S j) ltac:(lia) Hj). lia. }
    subst pos.
    assert (forall d, (d = -1)%Z ->
      exists ops',
        backtrack fuel t1 t2 off off W matrix 0 j j j d
          (<[j := mkEditOp LEV_EDIT_INSERT (0 + off) (j + off)]> ops) = Some ops' /\
        length ops' = N /\ suffix_ok 0 0 ops') as Hins.
    { intros d ->. replace j with (0 * W + j) at 2 by lia.
      apply IH; [lia|lia|lia|rewrite M_0_l; lia|lia|by rewrite length_insert|lia| |lia|].
      - intros _. split; [lia|]. rewrite !M_0_l by lia. lia.
      - rewrite drop_insert_cons by lia. by apply suffix_ok_insert. }
    destruct (Z.ltb_spec dir 0).
    { apply Hins. lia. }
    destruct (Z.ltb_spec 0 dir); [lia|]. cbn [andb].
    destruct (Z.eqb_spec dir 0); [|lia]. by apply Hins.
  - (* first column: only deletions remain *)
    cbn [Nat.eqb andb negb]. rewrite !andb_false_r. cbn [andb].
    rewrite Nat.add_0_r.
    pose proof (rd_cell (S i) 0 Hi ltac:(lia)) as R1.
    pose proof (rd_cell i 0 ltac:(lia) ltac:(lia)) as R2.
    rewrite Nat.add_0_r in R1, R2.
    replace (S i * W - W) with (i * W) by lia.
    replace (S i - 1) with i by lia. rewrite R1, R2.
    rewrite !M_0_r in * by lia.
    rewrite (proj2 (Nat.eqb_eq (S i) (i + 1))) by lia. rewrite !andb_true_r.
    assert (dir <> (-1)%Z) as Hd1.
    { intros ->. destruct (Hleft eq_refl) as [Hlt E].
      pose proof (Mc_le_max (S i) 1 Hi ltac:(lia)). lia. }
    subst pos.
    assert (forall d, (d = 1)%Z ->
      exists ops',
        backtrack fuel t1 t2 off off W matrix i 0 (i * W) i d
          (<[i := mkEditOp LEV_EDIT_DELETE (i + off) (0 + off)]> ops) = Some ops' /\
        length ops' = N /\ suffix_ok 0 0 ops') as Hdel.
    { intros d ->. replace (i * W) with (i * W + 0) by lia.
      apply IH; [lia|lia|lia|rewrite M_0_r; lia|lia|by rewrite length_insert|lia|lia| |].
      - intros _. split; [lia|]. rewrite !M_0_r by lia. lia.
      - rewrite drop_insert_cons by lia. by apply suffix_ok_delete. }
    destruct (Z.ltb_spec dir 0); [lia|]. cbn [andb].
    destruct (Z.ltb_spec 0 dir).
    { apply Hdel. lia. }
    cbn [andb]. destruct (Z.eqb_spec dir 0); [|lia]. by apply Hdel.
  - (* inside the matrix *)
    cbn [Nat.eqb andb negb]. cbv zeta.
    pose proof (rd_cell (S i) (S j) Hi Hj) as Rv.
    pose proof (rd_cell (S i) j Hi ltac:(lia)) as Rl.
    pose proof (rd_cell i (S j) ltac:(lia) Hj) as Ru.
    pose proof (rd_cell i j ltac:(lia) ltac:(lia)) as Rd.
    replace (S i * W + S j - 1) with (S i * W + j) by lia.
    replace (S i * W + S j - W - 1) with (i * W + j) by lia.
    replace (S i * W + S j - (W + 1)) with (i * W + j) by lia.
    replace (S i * W + S j - W) with (i * W + S j) by lia.
    replace (S i - 1) with i by lia. replace (S j - 1) with j by lia.
    rewrite Rv, Rl, Ru, Rd. clear Rv Rl Ru Rd.
    pose proof (M_rec 1 t1 t2 i j ltac:(lia) ltac:(lia)) as Hrec.
    unfold min3, neq_cost in Hrec.
    pose proof (M_right 1 t1 t2 i j ltac:(lia)) as Hr.
    pose proof (M_down 1 t1 t2 i j ltac:(lia)) as Hd.
    assert (dir = (-1)%Z -> Mc (S i) (S j) + 1 <= Mc i (S j) + 1) as Hleft'.
    { intros E. destruct (Hleft E) as [Hlt Heq].
      pose proof (Mc_diag i (S j) ltac:(lia) Hlt). lia. }
    assert (dir = 1%Z -> Mc (S i) (S j) + 1 <= Mc (S i) j + 1) as Hup'.
    { intros E. destruct (Hup E) as [Hlt Heq].
      pose proof (Mc_diag (S i) j Hlt ltac:(lia)). lia. }
    assert (Mc (S i) (S j) = Mc (S i) j + 1 ->
      exists ops',
        match pos with
        | 0 => None
        | S pos0 =>
            backtrack fuel t1 t2 off off W matrix (S i) j (S i * W + j) pos0 (-1)
              (<[pos0 := mkEditOp LEV_EDIT_INSERT (S i + off) (j + off)]> ops)
        end = Some ops' /\ length ops' = N /\ suffix_ok 0 0 ops') as Hins.
    { intros E. destruct pos as [|pos0]; [lia|].
      apply IH; [lia|lia|lia|lia|lia|by rewrite length_insert|lia| |lia|].
      - intros _. split; [lia|]. lia.
      - rewrite drop_insert_cons by lia. by apply suffix_ok_insert. }
    assert (Mc (S i) (S j) = Mc i (S j) + 1 ->
      exists ops',
        match pos with
        | 0 => None
        | S pos0 =>
            backtrack fuel t1 t2 off off W matrix i (S j) (i * W + S j) pos0 1
              (<[pos0 := mkEditOp LEV_EDIT_DELETE (i + off) (S j + off)]> ops)
        end = Some ops' /\ length ops' = N /\ suffix_ok 0 0 ops') as Hdel.
    { intros E. destruct pos as [|pos0]; [lia|].
      apply IH; [lia|lia|lia|lia|lia|by rewrite length_insert|lia|lia| |].
      - intros _. split; [lia|]. lia.
      - rewrite drop_insert_cons by lia. by apply suffix_ok_delete. }
    assert (Mc (S i) (S j) = Mc i j + 1 ->
      exists ops',
        match pos with
        | 0 => None
        | S pos0 =>
            backtrack fuel t1 t2 off off W matrix i j (i * W + j) pos0 0
              (<[pos0 := mkEditOp LEV_EDIT_REPLACE (i + off) (j + off)]> ops)
        end = Some ops' /\ length ops' = N /\ suffix_ok 0 0 ops') as Hrep.
    { intros E. destruct pos as [|pos0]; [lia|].
      apply IH; [lia|lia|lia|lia|lia|by rewrite length_insert|lia|lia|lia|].
      rewrite drop_insert_cons by lia. by apply suffix_ok_replace. }
    assert (Mc (S i) (S j) = Mc i j -> t1 !! i = t2 !! j ->
      exists ops',
        backtrack fuel t1 t2 off off W matrix i j (i * W + j) pos 0 ops
        = Some ops' /\ length ops' = N /\ suffix_ok 0 0 ops') as Hkeep.
    { intros E Heq.
      apply IH; [lia|lia|lia|lia|lia|done|lia|lia|lia|].
      by apply suffix_ok_keep. }
    destruct (Z.ltb_spec dir 0) as [D1|D1];
      destruct (Nat.eqb_spec (Mc (S i) (S j)) (Mc (S i) j + 1)) as [E1|E1];
      cbn [andb]; try (destruct (Z.eqb_spec dir (-1)) as [->|]; [by apply Hins|lia]).
    all: destruct (Z.ltb_spec 0 dir) as [D2|D2];
      destruct (Nat.eqb_spec (Mc (S i) (S j)) (Mc i (S j) + 1)) as [E2|E2];
      cbn [andb]; try (destruct (Z.eqb_spec dir 1) as [->|]; [by apply Hdel|lia]).
    all: destruct (Nat.eqb_spec (Mc (S i) (S j)) (Mc i j)) as [E3|E3];
      try (destruct (decide (t1 !! i = t2 !! j)) as [E3'|E3'];
           [rewrite (bool_decide_eq_true_2 _ E3') in *
           |rewrite (bool_decide_eq_false_2 _ E3') in *]);
      cbn [andb]; try (by apply Hkeep).
    all: destruct (Nat.eqb_spec (Mc (S i) (S j)) (Mc i j + 1)) as [E4|E4];
      cbn [andb]; try (by apply Hrep).
    all: destruct (Z.eqb_spec dir 0) as [->|D5]; cbn [andb];
      try (by apply Hins); try (by apply Hdel).
    all: exfalso; lia.
Qed.

End Backtrack.

Section FindSpec.
Context {A : Type} `{EqDecision A}.

Lemma lev_app_l sc (p x y : list A) : lev sc (p ++ x) (p ++ y) = lev sc x y.
Proof. induction p as [|c p IH]; [done|]. simpl app. by rewrite lev_cons_same. Qed.

Lemma lev_app_r sc (s x y : list A) : lev sc (x ++ s) (y ++ s) = lev sc x y.
Proof.
  rewrite <- lev_rev, !rev_app_distr, lev_app_l. apply lev_rev.
Qed.

Lemma strip_prefix_o_spec fuel : forall (s1 s2 : list A) o,
  exists pre t1 t2,
    strip_prefix_o fuel (length s1) s1 (length s2) s2 o
    = (length t1, t1, length t2, t2, o + length pre) /\
    s1 = pre ++ t1 /\ s2 = pre ++ t2.
Proof.
  induction fuel as [|fuel IH]; intros s1 s2 o; cbn [strip_prefix_o].
  - exists [], s1, s2. by rewrite Nat.add_0_r.
  - destruct s1 as [|x s1]; [exists [], [], s2; by rewrite Nat.add_0_r|].
    destruct s2 as [|y s2]; [exists [], (x :: s1), []; by rewrite Nat.add_0_r|].
    cbn [length head tail]. rewrite !Nat.sub_succ, !Nat.sub_0_r.
    change (0 <? S _) with true. cbn [andb].
    case_bool_decide as Hxy.
    + injection Hxy as ->.
      destruct (IH s1 s2 (o + 1)) as (pre & t1 & t2 & -> & -> & ->).
      exists (y :: pre), t1, t2. split; [|done]. cbn [length]. f_equal. lia.
    + exists [], (x :: s1), (y :: s2). by rewrite Nat.add_0_r.
Qed.

Lemma strip_suffix_common (t1 t2 : list A) fuel : forall l1 l2,
  l1 <= length t1 -> l2 <= length t2 -> drop l1 t1 = drop l2 t2 ->
  exists l1' l2',
    strip_suffix fuel l1 t1 l2 t2 = (l1', l2') /\ l1' <= l1 /\ l2' <= l2 /\
    drop l1' t1 = drop l2' t2.
Proof.
  induction fuel as [|fuel IH]; intros l1 l2 H1 H2 Hd; cbn [strip_suffix].
  - by exists l1, l2.
  - destruct l1 as [|l1]; [by exists 0, l2|].
    destruct l2 as [|l2]; [by exists (S l1), 0|].
    change (0 <? S _) with true. cbn [andb].
    rewrite !Nat.sub_succ, !Nat.sub_0_r.
    case_bool_decide as Hxy; [|by exists (S l1), (S l2)].
    destruct (IH l1 l2 ltac:(lia) ltac:(lia)) as (l1' & l2' & -> & Hl1 & Hl2 & Hd').
    { destruct (lookup_lt_is_Some_2 t1 l1 ltac:(lia)) as [x Hx].
      destruct (lookup_lt_is_Some_2 t2 l2 ltac:(lia)) as [y Hy].
      rewrite (drop_S _ _ _ Hx), (drop_S _ _ _ Hy), Hd. congruence. }
    exists l1', l2'. split; [done|]. split; [lia|]. split; [lia|done].
Qed.

(** What [lev_editops_find] hands over to [editops_from_cost_matrix]. *)
Lemma lev_editops_find_matrix (a b : list A) jm oo :
  exists pre t1 t2 n m matrix,
    a = pre ++ t1 /\ b = pre ++ t2 /\ n <= length t1 /\ m <= length t2 /\
    drop n t1 = drop m t2 /\
    filled t1 t2 n m (fun _ _ => True) matrix /\
    lev_editops_find (length a) a (length b) b (Some jm) oo =
    editops_from_cost_matrix (n + 1) t1 (length pre) (m + 1) t2 (length pre) matrix oo.
Proof.
  unfold lev_editops_find.
  destruct (strip_prefix_o_spec (length a) a b 0) as (pre & t1 & t2 & -> & Ha & Hb).
  destruct (strip_suffix_common t1 t2 (length t1) (length t1) (length t2))
    as (n & m & -> & Hn & Hm & Hd); [lia|lia|by rewrite !drop_all|].
  exists pre, t1, t2, n, m. eexists. split; [done|]. split; [done|].
  split; [done|]. split; [done|]. split; [done|].
  cbn [malloc]. split; [|reflexivity].
  apply (matrix_filled t1 t2 n m Hn Hm).
Qed.

Lemma lev_core (pre t1 t2 : list A) n m :
  n <= length t1 -> m <= length t2 -> drop n t1 = drop m t2 ->
  lev 1 (pre ++ t1) (pre ++ t2) = M 1 t1 t2 n m.
Proof.
  intros Hn Hm Hd. rewrite lev_app_l. unfold M.
  rewrite <- (take_drop n t1) at 1. rewrite <- (take_drop m t2) at 1.
  rewrite Hd. apply lev_app_r.
Qed.

Lemma editops_from_cost_matrix_spec (a b pre t1 t2 : list A) n m matrix oo :
  a = pre ++ t1 -> b = pre ++ t2 -> n <= length t1 -> m <= length t2 ->
  drop n t1 = drop m t2 ->
  filled t1 t2 n m (fun _ _ => True) matrix ->
  let r := editops_from_cost_matrix (n + 1) t1 (length pre) (m + 1) t2 (length pre)
             matrix oo in
  (lev 1 a b = 0 /\ r = Some (None, 0%Z)) \/
  (lev 1 a b <> 0 /\ oo = None /\ r = Some (None, SIZE_MAX)) \/
  (lev 1 a b <> 0 /\ oo <> None /\
   exists ops, r = Some (Some ops, Z.of_nat (lev 1 a b)) /\
               length ops = lev 1 a b /\
               starts_after ops (length pre) /\
               forall dst, apply_full a b ops (length pre) dst
                           = Some (dst ++ drop (length pre) b)).
Proof.
  intros Ha Hb Hn Hm Hd Hf r. subst r. unfold editops_from_cost_matrix.
  assert (lev 1 a b = M 1 t1 t2 n m) as Hlev by (rewrite Ha, Hb; by apply lev_core).
  replace ((n + 1) * (m + 1) - 1) with (n * (m + 1) + m) by lia.
  rewrite (rd_cell t1 t2 n m matrix Hf n m) by lia.
  rewrite <- Hlev.
  destruct (Nat.eqb_spec (lev 1 a b) 0) as [E|E]; [by left|right].
  destruct oo as [jo|]; [right|by left].
  split; [done|]. split; [done|].
  replace (n + 1 - 1) with n by lia. replace (m + 1 - 1) with m by lia.
  destruct (backtrack_spec a b pre t1 t2 n m matrix Ha Hb Hn Hm Hf
              (lev 1 a b) (n + m) n m (lev 1 a b) 0%Z
              (map jo (seq 0 (lev 1 a b))))
    as (ops & -> & Hlen & Hs & Hok); [lia|lia|lia|done|lia| |lia|lia|lia| |].
  - by rewrite length_map, length_seq.
  - rewrite drop_ge by (rewrite length_map, length_seq; lia).
    by apply (suffix_ok_start a b pre t1 t2).
  - exists ops. done.
Qed.

End FindSpec.

Section EditOpsClaims.
Context {A : Type} `{EqDecision A}.

Lemma lev_editops_apply_full (a b : list A) l2 n ops jd shrunk :
  lev_editops_apply (length a) a l2 b n ops (Some jd) shrunk =
  match apply_full a b (take n ops) 0 [] with
  | Some dst => Some (realloc_to shrunk dst, Z.of_nat (length dst))
  | None => None
  end.
Proof.
  unfold lev_editops_apply, apply_full.
  destruct (apply_ops _ _ _ _ _ _) as [[src dst]|]; [|done].
  by destruct (copy_source _ _ _ _).
Qed.

Lemma lev_editops_find_cases (a b : list A) jm oo :
  let r := lev_editops_find (length a) a (length b) b (Some jm) oo in
  (lev 1 a b = 0 /\ r = Some (None, 0%Z)) \/
  (lev 1 a b <> 0 /\ oo = None /\ r = Some (None, SIZE_MAX)) \/
  (lev 1 a b <> 0 /\ oo <> None /\
   exists ops, r = Some (Some ops, Z.of_nat (lev 1 a b)) /\
               length ops = lev 1 a b /\
               apply_full a b ops 0 [] = Some b).
Proof.
  destruct (lev_editops_find_matrix a b jm oo)
    as (pre & t1 & t2 & n & m & matrix & Ha & Hb & Hn & Hm & Hd & Hf & ->).
  destruct (editops_from_cost_matrix_spec a b pre t1 t2 n m matrix oo
              Ha Hb Hn Hm Hd Hf) as [H1|[H2|(H3 & H4 & ops & Hr & Hl & Hs & Hap)]];
    [by left|by right; left|right; right].
  split; [done|]. split; [done|]. exists ops. split; [done|]. split; [done|].
  rewrite (apply_full_shift_many a b (length pre) ops 0 []); [|rewrite Ha, length_app; lia|done].
  rewrite Nat.add_0_l, Hap. f_equal. rewrite drop_0, app_nil_l.
  rewrite Ha, Hb, take_app_length, drop_app_length. done.
Qed.

(** C2.  For all strings [a] and [b], applying the edit script found by
    [lev_editops_find a b] to [a] with [lev_editops_apply], with [b] as the
    destination string, gives exactly [b]: the length of [b] is written to
    [*len], and the block that the final [realloc] returns holds [b]; a
    [NULL] script of length 0 is the empty script.  When that [realloc]
    returns [NULL], as it may for an empty [b], [NULL] is returned with the
    length of [b].  The other allocations succeed. *)
Theorem lev_editops_apply_find (a b : list A) jm jo jd (shrunk : bool) :
  exists r n,
    lev_editops_find (length a) a (length b) b (Some jm) (Some jo) = Some (r, n) /\
    lev_editops_apply (length a) a (length b) b (Z.to_nat n) (default [] r) (Some jd)
      shrunk
    = Some (if shrunk then Some b else None, Z.of_nat (length b)).
Proof.
  destruct (lev_editops_find_cases a b jm (Some jo))
    as [[Hz ->]|[(_ & Hnone & _)|(Hnz & _ & ops & -> & Hlen & Hap)]]; [|done|].
  - exists None, 0%Z. split; [done|].
    rewrite lev_editops_apply_full. cbn [default take Z.to_nat].
    rewrite apply_full_nil by lia. rewrite drop_0, app_nil_l.
    apply lev_eq_0 in Hz; [|lia]. by subst b.
  - exists (Some ops), (Z.of_nat (lev 1 a b)). split; [done|].
    rewrite lev_editops_apply_full. cbn [default]. rewrite Nat2Z.id.
    rewrite (take_ge ops) by lia. by rewrite Hap.
Qed.

(** C10.  [lev_editops_find] always returns.  When the distance of the
    strings is 0, in particular when they are equal, and the matrix was
    allocated, it returns [NULL] and writes 0.  A [NULL] result with 0
    written means that the strings are equal (the empty script), and a
    [NULL] result with anything else written has [(size_t)-1] written and
    an allocation failed; a failed allocation always gives that. *)
Theorem lev_editops_find_null (a b : list A) om oo :
  exists r n,
    lev_editops_find (length a) a (length b) b om oo = Some (r, n) /\
    (om <> None -> lev 1 a b = 0 -> r = None /\ n = 0%Z) /\
    (om <> None -> a = b -> r = None /\ n = 0%Z) /\
    (r = None -> n = 0%Z -> a = b /\ om <> None) /\
    (r = None -> n <> 0%Z -> n = SIZE_MAX /\ (om = None \/ oo = None)) /\
    (om = None \/ (a <> b /\ oo = None) -> r = None /\ n = SIZE_MAX).
Proof.
  destruct om as [jm|].
  - destruct (lev_editops_find_cases a b jm oo)
      as [[Hz ->]|[(Hnz & -> & ->)|(Hnz & Hoo & ops & -> & Hlen & Hap)]].
    + apply lev_eq_0 in Hz; [|lia]. subst b.
      exists None, 0%Z. split; [done|].
      repeat split; try done; intuition congruence.
    + assert (a <> b) as Hne by (intros ->; by rewrite lev_refl in Hnz).
      exists None, SIZE_MAX. split; [done|].
      repeat split; try done; intuition congruence.
    + assert (a <> b) as Hne by (intros ->; by rewrite lev_refl in Hnz).
      exists (Some ops), (Z.of_nat (lev 1 a b)). split; [done|].
      repeat split; try done; intuition congruence.
  - exists None, SIZE_MAX. split.
    + unfold lev_editops_find.
      destruct (strip_prefix_o _ _ _ _ _ _) as [[[[l1 t1] l2] t2] o].
      by destruct (strip_suffix _ _ _ _ _).
    + repeat split; try done; intuition congruence.
Qed.

End EditOpsClaims.

(** ** Round trip between elementary and block operations *)

Lemma usub_le x y : y <= x -> usub x y = x - y.
Proof. intros Hle. unfold usub. destruct (Nat.leb_spec y x); [done|lia]. Qed.

Lemma skip_keep_non_keep ops : non_keep (skip_keep ops) = non_keep ops.
Proof.
  induction ops as [|o ops IH]; [done|]. cbn [skip_keep].
  case_bool_decide as Hk; [|done].
  unfold non_keep in *. rewrite filter_cons_False by (by intros ?). done.
Qed.

Lemma skip_keep_aligned sp dp ops : aligned sp dp (skip_keep ops) = aligned sp dp ops.
Proof.
  induction ops as [|o ops IH]; [done|]. cbn [skip_keep aligned].
  case_bool_decide as Hk; [done|]. cbn [aligned]. by rewrite bool_decide_eq_false_2.
Qed.

Lemma skip_keep_final_pos sp dp ops :
  final_pos sp dp (skip_keep ops) = final_pos sp dp ops.
Proof.
  induction ops as [|o ops IH]; [done|]. cbn [skip_keep final_pos].
  case_bool_decide as Hk; [done|]. cbn [final_pos]. by rewrite bool_decide_eq_false_2.
Qed.

Lemma skip_keep_length ops : length (skip_keep ops) <= length ops.
Proof.
  induction ops as [|o ops IH]; [done|]. cbn [skip_keep].
  case_bool_decide; simpl; lia.
Qed.

Lemma skip_keep_head ops o ops' : skip_keep ops = o :: ops' -> type o <> LEV_EDIT_KEEP.
Proof.
  induction ops as [|o0 ops IH]; [done|]. cbn [skip_keep].
  case_bool_decide as Hk; [done|]. by intros [= -> ->].
Qed.

Lemma advance_steps t sb db j : advance t (steps t sb db j) = steps t sb db (j + 1).
Proof. destruct t; simpl; f_equal; lia. Qed.

Lemma steps_0 t sb db : steps t sb db 0 = (sb, db).
Proof. destruct t; simpl; f_equal; lia. Qed.

(** The [do ... while] consumes the operations of one block. *)
Lemma run_while_spec t sb db : t <> LEV_EDIT_KEEP -> forall ops j,
  exists k rest,
    run_while t (steps t sb db j).1 (steps t sb db j).2 ops
    = ((steps t sb db (j + k)).1, (steps t sb db (j + k)).2, rest) /\
    ops = expand k j (op_at t sb db) ++ rest /\
    non_keep ops = expand k j (op_at t sb db) ++ non_keep rest /\
    aligned (steps t sb db j).1 (steps t sb db j).2 ops
    = aligned (steps t sb db (j + k)).1 (steps t sb db (j + k)).2 rest /\
    final_pos (steps t sb db j).1 (steps t sb db j).2 ops
    = final_pos (steps t sb db (j + k)).1 (steps t sb db (j + k)).2 rest.
Proof.
  intros Ht ops. induction ops as [|o ops IH]; intros j.
  - exists 0, []. rewrite Nat.add_0_r. done.
  - cbn [run_while].
    destruct (bool_decide (type o = t) && ((steps t sb db j).1 =? spos o)
              && ((steps t sb db j).2 =? dpos o)) eqn:E.
    + apply andb_prop in E as [E E3]. apply andb_prop in E as [E1 E2].
      apply bool_decide_eq_true in E1. apply Nat.eqb_eq in E2, E3.
      assert (o = op_at t sb db j) as Ho.
      { destruct o as [ot os od]. simpl in *. unfold op_at. by subst. }
      pose proof (advance_steps t sb db j) as Hadv.
      destruct (advance t _) as [s d] eqn:Ea.
      assert (advance t ((steps t sb db j).1, (steps t sb db j).2) = (s, d)) as Ea'.
      { by destruct (steps t sb db j). }
      rewrite Ea'. destruct (IH (j + 1)) as (k & rest & Hrun & Hops & Hnk & Hal & Hfp).
      rewrite <- Hadv in Hrun, Hal, Hfp. cbn [fst snd] in Hrun, Hal, Hfp.
      rewrite Hrun. exists (S k), rest.
      replace (j + S k) with (j + 1 + k) by lia.
      split; [done|]. cbn [expand]. split; [by rewrite Hops, Ho|].
      assert (type o <> LEV_EDIT_KEEP) as Hok by (rewrite Ho; done).
      split.
      { unfold non_keep in *. rewrite filter_cons_True by done.
        rewrite Hnk, Ho. done. }
      cbn [aligned final_pos]. rewrite bool_decide_eq_false_2 by done.
      unfold at_or_ahead.
      rewrite E1, <- E2, <- E3. rewrite Ea'. cbn [fst snd].
      split; [|done]. rewrite Hal.
      rewrite !Nat.eqb_refl, orb_true_r. done.
    + exists 0, (o :: ops). rewrite Nat.add_0_r. done.
Qed.

Lemma convert_editops_app k B1 : forall B2 init,
  convert_editops k (B1 ++ B2) init = convert_editops k B2 (convert_editops k B1 init).
Proof. induction B1 as [|b B1 IH]; intros B2 init; [done|]. cbn. apply IH. Qed.

Lemma convert_editops_init k B : forall init,
  convert_editops k B init = init ++ convert_editops k B [].
Proof.
  induction B as [|b B IH]; intros init; [by rewrite app_nil_r|].
  cbn [convert_editops].
  destruct (btype b), k; rewrite IH; symmetry; rewrite IH; symmetry;
    rewrite ?app_nil_l, ?app_assoc; done.
Qed.

Lemma count_editops_app k B1 : forall B2 n0,
  count_editops k (B1 ++ B2) n0 = count_editops k B2 (count_editops k B1 n0).
Proof. induction B1 as [|b B1 IH]; intros B2 n0; [done|]. cbn. apply IH. Qed.

Lemma count_editops_init k B : forall n0,
  count_editops k B n0 = n0 + count_editops k B 0.
Proof.
  induction B as [|b B IH]; intros n0; [cbn; lia|].
  cbn [count_editops].
  destruct k; rewrite IH; symmetry; rewrite IH; lia.
Qed.

Lemma length_expand k : forall j f, length (expand k j f) = k.
Proof. induction k as [|k IH]; intros j f; [done|]. cbn. by rewrite IH. Qed.

Lemma expand_ext k : forall j f g,
  (forall i, f i = g i) -> expand k j f = expand k j g.
Proof.
  induction k as [|k IH]; intros j f g Hfg; [done|]. cbn. rewrite Hfg. f_equal.
  by apply IH.
Qed.

(** Expanding the block of [k] operations of type [t] from [(sb, db)]. *)
Lemma block_expand t sb db k :
  t <> LEV_EDIT_KEEP ->
  convert_editops false
    [mkOpCode t sb (steps t sb db k).1 db (steps t sb db k).2] []
  = expand k 0 (op_at t sb db) /\
  count_editops false
    [mkOpCode t sb (steps t sb db k).1 db (steps t sb db k).2] 0 = k.
Proof.
  intros Ht. cbn [convert_editops count_editops btype sbeg send dbeg dend].
  rewrite bool_decide_eq_false_2 by done. cbn [negb].
  destruct t; [done|..]; cbn [steps fst snd]; rewrite ?app_nil_l.
  - rewrite !usub_le by lia. replace (sb + k - sb) with k by lia.
    replace (db + k - db) with k by lia. split; [|by rewrite Nat.ltb_irrefl].
    by apply expand_ext.
  - rewrite !usub_le by lia. replace (sb - sb) with 0 by lia.
    replace (db + k - db) with k by lia. split; [|by destruct (Nat.ltb_spec k 0); lia].
    apply expand_ext. intros i. unfold op_at. cbn. f_equal.
  - rewrite !usub_le by lia. replace (db - db) with 0 by lia.
    replace (sb + k - sb) with k by lia. split; [|destruct (Nat.ltb_spec 0 k); lia].
    apply expand_ext. intros i. unfold op_at. cbn. f_equal.
Qed.

Lemma keep_block_expand sb se db de :
  convert_editops false [mkOpCode LEV_EDIT_KEEP sb se db de] [] = [] /\
  count_editops false [mkOpCode LEV_EDIT_KEEP sb se db de] 0 = 0.
Proof. done. Qed.

Lemma convert_blocks_spec fuel : forall ops sp dp acc,
  length ops <= fuel -> aligned sp dp ops = true ->
  exists B,
    convert_blocks fuel ops sp dp acc
    = Some (acc ++ B, (final_pos sp dp ops).1, (final_pos sp dp ops).2) /\
    convert_editops false B [] = non_keep ops /\
    count_editops false B 0 = length (non_keep ops).
Proof.
  induction fuel as [|fuel IH]; intros ops sp dp acc Hfuel Hal.
  { destruct ops; [|simpl in Hfuel; lia]. exists []. by rewrite app_nil_r. }
  cbn [convert_blocks].
  rewrite <- skip_keep_aligned in Hal.
  rewrite <- (skip_keep_non_keep ops), <- (skip_keep_final_pos sp dp ops).
  pose proof (skip_keep_length ops) as Hlen.
  destruct (skip_keep ops) as [|o ops'] eqn:Esk.
  { exists []. by rewrite app_nil_r. }
  pose proof (skip_keep_head _ _ _ Esk) as Ht.
  cbn [aligned final_pos] in *. rewrite bool_decide_eq_false_2 in * by done.
  apply andb_prop in Hal as [Hat Hal].
  assert (advance (type o) (spos o, dpos o) = steps (type o) (spos o) (dpos o) 1)
    as Hadv1.
  { rewrite <- (steps_0 (type o) (spos o) (dpos o)) at 1. by rewrite advance_steps. }
  rewrite Hadv1 in *.
  destruct (run_while_spec (type o) (spos o) (dpos o) Ht ops' 1)
    as (k & rest & Hrun & Hops & Hnk & Hal' & Hfp).
  rewrite Hal' in Hal. rewrite Hfp.
  assert (length rest <= fuel) as Hrest.
  { pose proof (f_equal length Hops) as Hl.
    rewrite length_app, length_expand in Hl. simpl in Hlen. lia. }
  destruct (block_expand (type o) (spos o) (dpos o) (1 + k) Ht) as [Hbe Hbc].
  assert (non_keep (o :: ops') = expand (1 + k) 0 (op_at (type o) (spos o) (dpos o))
                                 ++ non_keep rest) as Hnk'.
  { unfold non_keep in *. rewrite filter_cons_True by done. rewrite Hnk.
    cbn [expand Nat.add app]. do 2 f_equal. unfold op_at. rewrite steps_0.
    by destruct o. }
  rewrite Hnk'.
  set (blk := mkOpCode (type o) (spos o)
                (steps (type o) (spos o) (dpos o) (1 + k)).1 (dpos o)
                (steps (type o) (spos o) (dpos o) (1 + k)).2) in *.
  assert (forall acc',
    exists B,
      match type o with
      | LEV_EDIT_KEEP => None
      | _ =>
          let '(s, d) := advance (type o) (spos o, dpos o) in
          let '(s0, d0, rest0) := run_while (type o) s d ops' in
          convert_blocks fuel rest0 s0 d0
            (acc' ++ [mkOpCode (type o) (spos o) s0 (dpos o) d0])
      end = Some (acc' ++ blk :: B,
                  (final_pos (steps (type o) (spos o) (dpos o) (1 + k)).1
                     (steps (type o) (spos o) (dpos o) (1 + k)).2 rest).1,
                  (final_pos (steps (type o) (spos o) (dpos o) (1 + k)).1
                     (steps (type o) (spos o) (dpos o) (1 + k)).2 rest).2) /\
      convert_editops false B [] = non_keep rest /\
      count_editops false B 0 = length (non_keep rest)) as Hgo.
  { intros acc'.
    destruct (IH rest (steps (type o) (spos o) (dpos o) (1 + k)).1
                (steps (type o) (spos o) (dpos o) (1 + k)).2
                (acc' ++ [blk]) Hrest Hal) as (B & HB & Hce & Hcc).
    exists B. split; [|done].
    rewrite Hadv1.
    destruct (steps (type o) (spos o) (dpos o) 1) as [s d] eqn:Es.
    cbn [fst snd] in Hrun. rewrite Hrun.
    rewrite <- app_assoc in HB. cbn [app] in HB.
    destruct (type o); done. }
  assert (forall B, convert_editops false B [] = non_keep rest ->
                    count_editops false B 0 = length (non_keep rest) ->
    convert_editops false (blk :: B) []
    = expand (1 + k) 0 (op_at (type o) (spos o) (dpos o)) ++ non_keep rest /\
    count_editops false (blk :: B) 0
    = length (expand (1 + k) 0 (op_at (type o) (spos o) (dpos o)) ++ non_keep rest))
    as Hblk.
  { intros B HB1 HB2.
    change (blk :: B) with ([blk] ++ B).
    rewrite convert_editops_app, count_editops_app, Hbe, Hbc.
    rewrite convert_editops_init, count_editops_init, HB1, HB2.
    rewrite length_app, length_expand. done. }
  destruct ((sp <? spos o) || (dp <? dpos o)) eqn:Eahead.
  - destruct (Hgo (acc ++ [mkOpCode LEV_EDIT_KEEP sp (spos o) dp (dpos o)]))
      as (B & HB & Hce & Hcc).
    exists (mkOpCode LEV_EDIT_KEEP sp (spos o) dp (dpos o) :: blk :: B).
    split; [by rewrite HB, <- app_assoc|].
    destruct (Hblk B Hce Hcc) as [H1 H2].
    change (?x :: blk :: B) with ([x] ++ (blk :: B)).
    rewrite convert_editops_app, count_editops_app.
    cbn [convert_editops count_editops btype bool_decide decide_rel] .
    split; [exact H1|]. exact H2.
  - unfold at_or_ahead in Hat. rewrite Eahead in Hat. cbn [orb] in Hat.
    apply andb_prop in Hat as [E1 E2]. apply Nat.eqb_eq in E1, E2. subst sp dp.
    destruct (Hgo acc) as (B & HB & Hce & Hcc).
    exists (blk :: B). split; [done|]. by apply Hblk.
Qed.

Lemma count_convert_blocks fuel : forall ops sp dp acc nbl bops s d,
  convert_blocks fuel ops sp dp acc = Some (bops, s, d) ->
  exists B, bops = acc ++ B /\
            count_blocks fuel ops nbl sp dp = Some (nbl + length B, s, d).
Proof.
  induction fuel as [|fuel IH]; intros ops sp dp acc nbl bops s d;
    cbn [convert_blocks count_blocks].
  { destruct (skip_keep ops); [|done]. intros [= <- <- <-].
    exists []. by rewrite app_nil_r, Nat.add_0_r. }
  destruct (skip_keep ops) as [|o ops'].
  { intros [= <- <- <-]. exists []. by rewrite app_nil_r, Nat.add_0_r. }
  destruct ((sp <? spos o) || (dp <? dpos o)).
  - destruct (type o); [done|..];
      (destruct (advance _ _) as [s1 d1]; destruct (run_while _ _ _ _) as [[s2 d2] rest];
       intros Hc; destruct (IH _ _ _ _ (nbl + 1 + 1) _ _ _ Hc) as (B & -> & ->);
       eexists (_ :: _ :: B); split;
       [by rewrite <- !app_assoc|cbn [length]; do 3 f_equal; lia]).
  - destruct (type o); [done|..];
      (destruct (advance _ _) as [s1 d1]; destruct (run_while _ _ _ _) as [[s2 d2] rest];
       intros Hc; destruct (IH _ _ _ _ (nbl + 1) _ _ _ Hc) as (B & -> & ->);
       eexists (_ :: B); split;
       [by rewrite <- !app_assoc|cbn [length]; do 3 f_equal; lia]).
Qed.

Lemma check_bounds_final len1 len2 ops : forall sp dp,
  check_bounds len1 len2 ops = LEV_EDIT_ERR_OK -> sp <= len1 -> dp <= len2 ->
  (final_pos sp dp ops).1 <= len1 /\ (final_pos sp dp ops).2 <= len2.
Proof.
  induction ops as [|o ops IH]; intros sp dp Hc Hs Hd; [done|].
  cbn [check_bounds final_pos] in *.
  destruct (Nat.ltb_spec len1 (spos o)); [done|].
  destruct (Nat.ltb_spec len2 (dpos o)); [done|]. cbn [orb] in Hc.
  destruct o as [t s d]. cbn [type spos dpos] in *.
  destruct (Nat.eqb_spec s len1) as [E1|E1];
    destruct (Nat.eqb_spec d len2) as [E2|E2];
    destruct t; cbn in Hc |- *; try done; apply IH; try done; lia.
Qed.

Lemma non_keep_length ops :
  length ops - length (filter (fun o => type o = LEV_EDIT_KEEP) ops)
  = length (non_keep ops).
Proof.
  unfold non_keep. induction ops as [|o ops IH]; [done|].
  destruct (decide (type o = LEV_EDIT_KEEP)) as [Hk|Hk].
  - rewrite filter_cons_True by done. rewrite filter_cons_False by (by intros ?).
    cbn [length]. lia.
  - rewrite filter_cons_False by done. rewrite filter_cons_True by done.
    cbn [length]. pose proof (length_filter (fun o => type o = LEV_EDIT_KEEP) ops). lia.
Qed.

(** C9, as amended.  For every list of elementary operations that
    [lev_editops_check_errors] accepts for [len1] and [len2], in which every
    operation that is not a keep lies at the position reached by the
    previous one or beyond it in a coordinate, and which leaves equally long
    remainders of the source and of the destination, converting to block
    operations and back with [keepkeep = 0] returns the normalized list:
    the same length and the same operation at every index. *)
Theorem opcodes_roundtrip_aligned (ops : list LevEditOp) (len1 len2 : nat) jb jo jn :
  lev_editops_check_errors len1 len2 (length ops) ops = LEV_EDIT_ERR_OK ->
  aligned 0 0 ops = true ->
  len1 - (final_pos 0 0 ops).1 = len2 - (final_pos 0 0 ops).2 ->
  exists bops nb r n r' n',
    lev_editops_to_opcodes (length ops) ops len1 len2 (Some jb) = Some (Some bops, nb) /\
    lev_opcodes_to_editops (Z.to_nat nb) bops false (Some jo) = Some (r, n) /\
    lev_editops_normalize (length ops) (Some ops) (Some jn) = Some (r', n') /\
    default [] r = default [] r' /\ n = n'.
Proof.
  intros Hvalid Hal Hrem.
  assert ((final_pos 0 0 ops).1 <= len1 /\ (final_pos 0 0 ops).2 <= len2) as [Hb1 Hb2].
  { unfold lev_editops_check_errors in Hvalid. rewrite firstn_all in Hvalid.
    destruct (Nat.eqb_spec (length ops) 0) as [E|E].
    - destruct ops; [simpl; lia|done].
    - apply check_bounds_final; [|lia..].
      by destruct (check_bounds len1 len2 ops). }
  destruct (convert_blocks_spec (length ops) ops 0 0 [] ltac:(lia) Hal)
    as (B & Hconv & Hce & Hcc).
  destruct (count_convert_blocks _ _ _ _ _ 0 _ _ _ Hconv) as (B' & HB' & Hcount).
  cbn [app] in HB'. subst B'. cbn [Nat.add] in Hcount.
  destruct (final_pos 0 0 ops) as [fs fd]. cbn [fst snd] in *.
  (* the normalized list *)
  assert (exists r' n',
    lev_editops_normalize (length ops) (Some ops) (Some jn) = Some (r', n') /\
    default [] r' = non_keep ops /\ n' = Z.of_nat (length (non_keep ops)))
    as (r' & n' & -> & Hr' & ->).
  { unfold lev_editops_normalize. rewrite firstn_all, non_keep_length.
    destruct (Nat.eqb_spec (length ops) 0) as [E|E].
    { destruct ops; [|done]. by exists None, 0%Z. }
    destruct (Nat.eqb_spec (length (non_keep ops)) 0) as [E'|E'].
    { exists None, 0%Z. rewrite E'. split; [done|]. split; [|done].
      by destruct (non_keep ops). }
    eexists _, _. split; [reflexivity|]. done. }
  (* the blocks and their expansion *)
  assert (forall bops, convert_editops false bops [] = non_keep ops ->
                       count_editops false bops 0 = length (non_keep ops) ->
    exists r n,
      lev_opcodes_to_editops (Z.to_nat (Z.of_nat (length bops))) bops false (Some jo)
      = Some (r, n) /\ default [] r = non_keep ops /\
      n = Z.of_nat (length (non_keep ops))) as Hback.
  { intros bops H1 H2. unfold lev_opcodes_to_editops. rewrite Nat2Z.id, firstn_all.
    destruct (Nat.eqb_spec (length bops) 0) as [E|E].
    { destruct bops; [|done]. exists None, 0%Z. cbn in H1, H2. by rewrite <- H1. }
    rewrite H1, H2, Nat.eqb_refl. eexists _, _. split; [reflexivity|]. done. }
  unfold lev_editops_to_opcodes. rewrite firstn_all, Hcount, Hconv.
  destruct ((fs <? len1) || (fd <? len2)) eqn:Etail.
  - rewrite !usub_le by lia. rewrite (proj2 (Nat.eqb_eq _ _) Hrem).
    rewrite length_app. cbn [length]. rewrite Nat.eqb_refl.
    destruct (Hback (B ++ [mkOpCode LEV_EDIT_KEEP fs len1 fd len2])) as (r & n & Hr & Hd & ->).
    { rewrite convert_editops_app, Hce. done. }
    { rewrite count_editops_app, Hcc. cbn. done. }
    rewrite length_app in Hr. cbn [length] in Hr.
    eexists _, _, r, _, r', _. split; [reflexivity|]. split; [exact Hr|].
    split; [reflexivity|]. split; [congruence|done].
  - rewrite Nat.eqb_refl.
    destruct (Hback B Hce Hcc) as (r & n & Hr & Hd & ->).
    eexists _, _, r, _, r', _. split; [reflexivity|]. split; [exact Hr|].
    split; [reflexivity|]. split; [congruence|done].
Qed.

(** C9 fails as stated: an accepted list in which an operation repeats. *)
Lemma opcodes_roundtrip_counterexample :
  let ops := [mkEditOp LEV_EDIT_REPLACE 0 0; mkEditOp LEV_EDIT_REPLACE 0 0] in
  let bops := [mkOpCode LEV_EDIT_REPLACE 0 1 0 1; mkOpCode LEV_EDIT_REPLACE 1 2 1 2] in
  lev_editops_check_errors 2 2 2 ops = LEV_EDIT_ERR_OK /\
  lev_editops_to_opcodes 2 ops 2 2 (Some (fun _ => mkOpCode LEV_EDIT_KEEP 0 0 0 0))
  = Some (Some bops, 2%Z) /\
  lev_opcodes_to_editops 2 bops false (Some (fun _ => mkEditOp LEV_EDIT_KEEP 0 0))
  = Some (Some [mkEditOp LEV_EDIT_REPLACE 0 0; mkEditOp LEV_EDIT_REPLACE 1 1], 2%Z) /\
  lev_editops_normalize 2 (Some ops) (Some (fun _ => mkEditOp LEV_EDIT_KEEP 0 0))
  = Some (Some ops, 2%Z) /\
  [mkEditOp LEV_EDIT_REPLACE 0 0; mkEditOp LEV_EDIT_REPLACE 1 1] <> ops.
Proof. repeat split; try reflexivity. discriminate. Qed.

(** The amended statement applies to the script of "kitten" and "sitting". *)
Lemma opcodes_roundtrip_aligned_witness :
  let ops := [mkEditOp LEV_EDIT_REPLACE 0 0; mkEditOp LEV_EDIT_REPLACE 4 4;
              mkEditOp LEV_EDIT_INSERT 6 6] in
  exists bops nb r n r' n',
    lev_editops_to_opcodes (length ops) ops 6 7
      (Some (fun _ => mkOpCode LEV_EDIT_KEEP 0 0 0 0)) = Some (Some bops, nb) /\
    lev_opcodes_to_editops (Z.to_nat nb) bops false
      (Some (fun _ => mkEditOp LEV_EDIT_KEEP 0 0)) = Some (r, n) /\
    lev_editops_normalize (length ops) (Some ops)
      (Some (fun _ => mkEditOp LEV_EDIT_KEEP 0 0)) = Some (r', n') /\
    default [] r = default [] r' /\ n = n'.
Proof.
  intros ops. apply (opcodes_roundtrip_aligned ops 6 7); reflexivity.
Defined.

(** ** Set median and quick median *)

(** C4 fails on the code: for "a", "ab", "abc" with unit weights the index
    returned is 0, while string 1 has the smaller sum of distances.  The
    triangular index [(j - 1)*(j - 2)/2 + i] sends the pairs [(0, 1)] and
    [(0, 2)] to the same cell, so candidate 1 is summed with the distance
    of the pair [(0, 2)]. *)
Lemma lev_set_median_index_not_minimal :
  let strings := [[Byte.x61]; [Byte.x61; Byte.x62]; [Byte.x61; Byte.x62; Byte.x63]] in
  let weights := [1; 1; 1]%Q in
  lev_set_median_index 3 [1; 2; 3] strings weights
    (fun _ _ => Some (fun _ => 0)) (Some (fun _ => 0%Z)) = Some 0 /\
  (weighted_distance_sum strings weights 1 < weighted_distance_sum strings weights 0)%Q /\
  dindex_of 1 0 = dindex_of 2 0.
Proof. split; [|split]; reflexivity. Qed.

Lemma Qeqb0_false q : ~ (q == 0)%Q -> Qeqb0 q = false.
Proof.
  intros Hq. unfold Qeqb0. destruct (Qcompare q 0) eqn:E; [|done..].
  apply Qeq_alt in E. done.
Qed.

Lemma Qeqb0_true q : (q == 0)%Q -> Qeqb0 q = true.
Proof. intros Hq. unfold Qeqb0. apply Qeq_alt in Hq. by rewrite Hq. Qed.

Lemma sum_lengths_fold k : forall i lengths weights ml wl,
  sum_lengths k i lengths weights ml wl =
  (fold_left (fun acc i => (acc + N2D (nth i lengths 0) * rdd weights i)%float)
     (seq i k) ml,
   fold_left (fun acc i => (acc + rdd weights i)%float) (seq i k) wl).
Proof.
  induction k as [|k IH]; intros i lengths weights ml wl; [done|].
  cbn [sum_lengths seq fold_left]. rewrite IH. by rewrite Nat.add_1_r.
Qed.

(** C6 fails on the code: when the total weight, summed in doubles, is
    zero, [lev_quick_median] returns the one-byte block of [calloc] and
    leaves [*medlength] as it found it. *)
Lemma lev_quick_median_zero_weight n lengths strings weights medlength heap :
  (total_weight_d n weights =? PrimFloat.zero)%float = true ->
  lev_quick_median n lengths strings weights medlength heap
  = Some ((if qh_empty heap then Some [Byte.x00] else None), medlength).
Proof.
  intros Hw. unfold lev_quick_median. rewrite sum_lengths_fold.
  fold (total_weight_d n weights). by rewrite Hw.
Qed.

Lemma lev_quick_median_zero_weight_witness :
  lev_quick_median 1 [1] [[Byte.x61]] [PrimFloat.zero] 7%Z
    (mkQuickHeap true (Some (fun _ => Byte.x00)) true true)
  = Some (Some [Byte.x00], 7%Z).
Proof.
  apply (lev_quick_median_zero_weight 1 [1] [[Byte.x61]] [PrimFloat.zero] 7%Z
           (mkQuickHeap true (Some (fun _ => Byte.x00)) true true)).
  reflexivity.
Defined.

Lemma mark_string_pos k : forall j stri cnt symset,
  (cnt = 0 -> forall c, (rdd symset c =? PrimFloat.zero)%float = true) ->
  cnt <= (mark_string k j stri cnt symset).1 /\
  (0 < k -> 0 < (mark_string k j stri cnt symset).1) /\
  ((mark_string k j stri cnt symset).1 = 0 ->
   forall c, (rdd (mark_string k j stri cnt symset).2 c =? PrimFloat.zero)%float = true).
Proof.
  induction k as [|k IH]; intros j stri cnt symset Hinv; cbn [mark_string].
  { split; [done|]. split; [lia|done]. }
  destruct (rdd symset (Byte.to_nat (rdb stri j)) =? PrimFloat.zero)%float eqn:E.
  - destruct (IH (j + 1) stri (cnt + 1)
                (<[Byte.to_nat (rdb stri j) := PrimFloat.one]> symset))
      as (H1 & H2 & H3); [lia|].
    split; [lia|]. split; [lia|]. intros H0. lia.
  - assert (cnt <> 0) as Hc.
    { intros ->. rewrite Hinv in E; done. }
    destruct (IH (j + 1) stri cnt symset Hinv) as (H1 & H2 & H3).
    split; [done|]. split; [lia|]. intros H0. lia.
Qed.

Lemma mark_strings_pos k : forall i lengths strings cnt symset,
  (cnt = 0 -> forall c, (rdd symset c =? PrimFloat.zero)%float = true) ->
  cnt <= (mark_strings k i lengths strings cnt symset).1 /\
  ((exists i', i <= i' < i + k /\ 0 < nth i' lengths 0) ->
   0 < (mark_strings k i lengths strings cnt symset).1).
Proof.
  induction k as [|k IH]; intros i lengths strings cnt symset Hinv; cbn [mark_strings].
  { split; [done|]. intros (i' & Hi' & _). lia. }
  destruct (mark_string_pos (nth i lengths 0) 0 (nth i strings []) cnt symset Hinv)
    as (H1 & H2 & H3).
  destruct (mark_string _ _ _ _ _) as [cnt1 symset1]. cbn [fst snd] in *.
  destruct (IH (i + 1) lengths strings cnt1 symset1 H3) as [H4 H5].
  split; [lia|]. intros (i' & Hi' & Hpos).
  destruct (decide (i' = i)) as [->|Hne].
  - specialize (H2 Hpos). lia.
  - apply H5. exists i'. split; [lia|done].
Qed.

Lemma vote_inner_inside cnt : forall k stri weighti symset,
  cnt = 0 \/ k + cnt <= length stri ->
  exists symset', vote_inner cnt k stri weighti symset = Some symset'.
Proof.
  induction cnt as [|cnt IH]; intros k stri weighti symset Hk; cbn [vote_inner].
  { by exists symset. }
  destruct Hk as [?|Hk]; [done|].
  destruct (lookup_lt_is_Some_2 stri k ltac:(lia)) as [b Hb].
  unfold read_at. rewrite Hb.
  apply IH. right. lia.
Qed.

Section QuickVotes.
Variable strings : list (list lev_byte).
Variable weights : list double.
Variable ml : double.
Local Abbreviation n := (length strings).
Local Abbreviation lengths := (map length strings).

Lemma nth_lengths_strings i : nth i lengths 0 = length (nth i strings []).
Proof.
  destruct (decide (i < n)) as [Hi|Hi].
  - destruct (lookup_lt_is_Some_2 strings i Hi) as [x Hx].
    rewrite (nth_lookup_Some _ _ _ _ Hx). apply nth_lookup_Some.
    by rewrite list_lookup_fmap, Hx.
  - rewrite !nth_overflow; [done|lia|rewrite length_map; lia].
Qed.

Lemma vote_inside j i symset :
  reads_inside (nth i lengths 0) ml j = true ->
  exists symset', vote lengths strings weights ml j i symset = Some symset'.
Proof.
  unfold reads_inside, vote, vote_range. rewrite nth_lengths_strings.
  set (stri := nth i strings []).
  destruct (D2size (d_floor _)) as [istart|]; [|done].
  destruct (D2size (d_ceil _)) as [iend0|]; [|done].
  set (iend := if length stri <? iend0 then length stri else iend0).
  assert (iend <= length stri) as Hle.
  { unfold iend. destruct (Nat.ltb_spec (length stri) iend0); lia. }
  intros [Hs%Nat.ltb_lt He%Nat.ltb_lt]%andb_true_iff.
  destruct (vote_inner_inside (iend - (istart + 1)) (istart + 1) stri
              (rdd weights i) symset ltac:(lia)) as [s1 ->].
  unfold read_at.
  destruct (lookup_lt_is_Some_2 stri istart Hs) as [b ->].
  destruct (Nat.eqb_spec iend 0) as [?|_]; [lia|].
  destruct (lookup_lt_is_Some_2 stri (iend - 1) ltac:(lia)) as [b' ->].
  by eexists.
Qed.

Lemma votes_inside j k : forall i symset,
  (forall i', i <= i' < i + k -> reads_inside (nth i' lengths 0) ml j = true) ->
  exists symset', votes k i lengths strings weights ml j symset = Some symset'.
Proof.
  induction k as [|k IH]; intros i symset H; cbn [votes]; [by eexists|].
  destruct (vote_inside j i symset (H i ltac:(lia))) as [s1 ->].
  apply IH. intros i' Hi'. apply H. lia.
Qed.

Lemma vote_positions_inside k : forall j symlist symset median,
  (forall i j', i < n -> j <= j' < j + k ->
     reads_inside (nth i lengths 0) ml j' = true) ->
  exists median',
    vote_positions k j n lengths strings weights ml symlist symset median
    = Some median' /\
    length median' = length median.
Proof.
  induction k as [|k IH]; intros j symlist symset median H; cbn [vote_positions].
  { by exists median. }
  set (symset0 := if length symlist <? 32 then _ else _).
  destruct (votes_inside j n 0 symset0) as [s1 ->].
  { intros i Hi. apply H; lia. }
  destruct (IH (j + 1) symlist s1
              (<[j := elect (tail symlist) s1 (rdb symlist 0)]> median))
    as (m & -> & Hm).
  { intros i j' Hi Hj'. apply H; lia. }
  exists m. split; [done|]. by rewrite Hm, length_insert.
Qed.

End QuickVotes.

(** C5, as amended.  When the total weight, summed in doubles, is not
    zero, [lev_quick_median] writes [floor(ml/wl + 0.499999)] to
    [*medlength], where [ml] is the sum of the [len_i * w_i], [wl] the sum
    of the [w_i], and the sums, the quotient and the addition are those of
    double arithmetic, and it returns a string of that many symbols (the
    one-byte block when it is 0): the weighted mean length is rounded to
    the nearest integer, with a fractional part of one half rounded
    downwards.  This holds when that number is a [size_t], when the
    symbols that vote, whose positions the routine computes in doubles, lie
    inside their strings, as they do not for an empty string, and when the
    allocations succeed. *)
Theorem lev_quick_median_length (strings : list (list lev_byte))
    (weights : list double) (medlength : Z) (heap : quick_heap)
    (junk : nat -> lev_byte) (len : nat) :
  let n := length strings in
  let lengths := map length strings in
  let ml := quick_length n lengths weights in
  length weights = n ->
  (total_weight_d n weights =? PrimFloat.zero)%float = false ->
  D2size ml = Some len ->
  (forall i j, i < n -> j < len -> reads_inside (nth i lengths 0) ml j = true) ->
  qh_empty heap = true -> qh_median heap = Some junk ->
  qh_symset heap = true -> qh_symlist heap = true ->
  exists median,
    lev_quick_median n lengths strings weights medlength heap
    = Some (Some median, Z.of_nat len) /\
    (length median = len \/ (len = 0 /\ median = [Byte.x00])).
Proof.
  intros n lengths ml Hlw Hwl Hlen Hin He Hm Hs Hl. subst n lengths.
  unfold lev_quick_median. rewrite sum_lengths_fold.
  fold (total_weight_d (length strings) weights).
  fold (weighted_length_d (length strings) (map length strings) weights).
  rewrite Hwl. fold (quick_length (length strings) (map length strings) weights).
  fold ml. rewrite Hlen.
  destruct (Nat.eqb_spec len 0) as [E0|E0].
  { rewrite He. exists [Byte.x00]. split; [done|]. by right. }
  rewrite Hm, Hs. cbn [negb].
  assert (0 < length strings) as Hn.
  { destruct strings as [|x strings']; [|cbn; lia]. exfalso.
    cbn in Hwl. by vm_compute in Hwl. }
  assert (0 < nth 0 (map length strings) 0) as Hpos.
  { specialize (Hin 0 0 Hn ltac:(lia)). unfold reads_inside in Hin.
    destruct (vote_range _ _ _) as [[[[? ?] istart] iend]|]; [|done].
    apply andb_true_iff in Hin as [Hi%Nat.ltb_lt _]. lia. }
  unfold make_symlistset. rewrite Hl.
  destruct (mark_strings_pos (length strings) 0 (map length strings) strings 0
              (repeat PrimFloat.zero 256)) as [_ Hcnt].
  { intros _ c. unfold rdd.
    destruct (nth_in_or_default c (repeat PrimFloat.zero 256) PrimFloat.zero)
      as [Hc| ->]; [|done].
    apply repeat_spec in Hc. by rewrite Hc. }
  specialize (Hcnt ltac:(exists 0; split; [lia|done])).
  destruct (mark_strings (length strings) 0 (map length strings) strings 0
              (repeat PrimFloat.zero 256)) as [cnt symset].
  cbn [fst] in Hcnt. destruct (Nat.eqb_spec cnt 0); [lia|].
  destruct (vote_positions_inside strings weights ml len 0 (dense_symlist symset)
              symset (map junk (seq 0 len))) as (median & -> & Hmed).
  { intros i j Hi Hj. apply Hin; [done|lia]. }
  exists median. split; [done|]. left.
  by rewrite Hmed, length_map, length_seq.
Qed.

(** C5 fails as stated: for lengths 1 and 2 with equal weights the mean
    is 3/2, which rounds half up to 2, and the median has length 1. *)
Lemma lev_quick_median_length_counterexample :
  let strings := [[Byte.x61]; [Byte.x62; Byte.x63]] in
  let weights := [PrimFloat.one; PrimFloat.one] in
  (weighted_length 2 (map length strings) (map D2Q weights)
   / total_weight 2 (map D2Q weights) == 3 # 2)%Q /\
  round_half_up (3 # 2) = 2%Z /\
  lev_quick_median 2 (map length strings) strings weights 0%Z
    (mkQuickHeap true (Some (fun _ => Byte.x00)) true true)
  = Some (Some [Byte.x61], 1%Z).
Proof. split; [|split]; by vm_compute. Qed.

Lemma lev_quick_median_length_witness :
  exists median,
    lev_quick_median 3 [1; 2; 1] [[Byte.x61]; [Byte.x62; Byte.x63]; [Byte.x64]]
      [Z2D 499999000000000000; Z2D 500001000000000000; PrimFloat.one] 0%Z
      (mkQuickHeap true (Some (fun _ => Byte.x00)) true true)
    = Some (Some median, 2%Z) /\
    (length median = 2 \/ (2 = 0 /\ median = [Byte.x00])).
Proof.
  apply (lev_quick_median_length [[Byte.x61]; [Byte.x62; Byte.x63]; [Byte.x64]]
           [Z2D 499999000000000000; Z2D 500001000000000000; PrimFloat.one] 0%Z
           (mkQuickHeap true (Some (fun _ => Byte.x00)) true true)
           (fun _ => Byte.x00) 2).
  - reflexivity.
  - by vm_compute.
  - by vm_compute.
  - intros i j Hi Hj.
    destruct i as [|[|[|i]]]; [| | |cbn in Hi; lia];
      (destruct j as [|[|j]]; [by vm_compute|by vm_compute|lia]).
  - reflexivity.
  - reflexivity.
  - reflexivity.
  - reflexivity.
Defined.

(** ** Rationals as doubles, and the greedy median *)

Lemma Qnat_le a b : a <= b -> (Qnat a <= Qnat b)%Q.
Proof. intros Hab. unfold Qnat. rewrite <- Zle_Qle. lia. Qed.

Lemma Qnat_nonneg a : (0 <= Qnat a)%Q.
Proof. apply (Qnat_le 0). lia. Qed.

Lemma Qltb_lt x y : Qltb x y = true <-> (x < y)%Q.
Proof.
  unfold Qltb. rewrite Qlt_alt. destruct (x ?= y)%Q; split; congruence.
Qed.

Lemma Qltb_ge x y : Qltb x y = false <-> (y <= x)%Q.
Proof.
  rewrite <- not_true_iff_false, Qltb_lt. split.
  - apply Qnot_lt_le.
  - apply Qle_not_lt.
Qed.

Lemma rdq_insert_eq (a : list Q) p x : p < length a -> rdq (<[p:=x]> a) p = x.
Proof.
  intros Hp. unfold rdq. apply nth_lookup_Some. by apply list_lookup_insert_eq.
Qed.

Lemma rdq_insert_ne (a : list Q) p q x : p <> q -> rdq (<[p:=x]> a) q = rdq a q.
Proof.
  intros Hp. unfold rdq. rewrite !nth_lookup. by rewrite list_lookup_insert_ne.
Qed.

(** C8 fails on the code: for "a" and "b" with weights of 1e100 each, which
    the documentation of [lev_greedy_median] allows, no symbol passes the
    test [minsum < LEV_INFINITY], so the loop never writes [median] nor
    [mediandist] beyond its first cell, and what is returned is what the
    allocations left in them: here "xxx", which is three times as far from
    the two strings as the empty string, and "yyy" when the block held
    that. *)
Lemma lev_greedy_median_unwritten :
  let strings := [[Byte.x61]; [Byte.x62]] in
  let weights := [D_INFINITY; D_INFINITY] in
  let heap junk :=
    mkGreedyHeap true true true true (fun _ => Some (fun _ => 0)) (Some (fun _ => 0))
      (Some (fun _ => junk)) (Some (fun k => (- N2D k)%float)) true in
  lev_greedy_median 2 [1; 1] strings weights 0%Z (heap Byte.x78)
  = (Some [Byte.x78; Byte.x78; Byte.x78], 3%Z) /\
  lev_greedy_median 2 [1; 1] strings weights 0%Z (heap Byte.x79)
  = (Some [Byte.x79; Byte.x79; Byte.x79], 3%Z) /\
  Forall (fun w => (0 < w)%Q) (map D2Q weights) /\
  (weighted_distance_to strings (map D2Q weights) []
   < weighted_distance_to strings (map D2Q weights) [Byte.x78; Byte.x78; Byte.x78])%Q.
Proof.
  split; [|split; [|split]].
  - by vm_compute.
  - by vm_compute.
  - repeat constructor.
  - by vm_compute.
Qed.

(** ** Assignment *)

(** A [for] loop over [a, a + k) keeps what every iteration keeps. *)
Lemma fold_left_seq_ind {T : Type} (P : nat -> T -> Prop) (f : T -> nat -> T) k :
  forall a s,
  P a s ->
  (forall i s, a <= i < a + k -> P i s -> P (i + 1) (f s i)) ->
  P (a + k) (fold_left f (seq a k) s).
Proof.
  induction k as [|k IH]; intros a s H0 Hstep; cbn [seq fold_left].
  { by rewrite Nat.add_0_r. }
  replace (a + S k) with (S a + k) by lia. apply IH.
  - rewrite <- Nat.add_1_r. apply Hstep; [lia|done].
  - intros i s' Hi. apply Hstep. lia.
Qed.

Lemma rdn_insert_eq (a : list nat) p x : p < length a -> rdn (<[p:=x]> a) p = x.
Proof. apply rd_insert_eq. Qed.

Lemma rdn_insert_ne (a : list nat) p q x : p <> q -> rdn (<[p:=x]> a) q = rdn a q.
Proof. apply rd_insert_ne. Qed.

Lemma rdn_repeat k p : rdn (repeat 0 k) p = 0.
Proof.
  unfold rdn. destruct (nth_in_or_default p (repeat 0 k) 0) as [Hin|E]; [|done].
  by apply repeat_spec in Hin.
Qed.

Lemma zeros_insert l : forall i x,
  i < length l ->
  zeros (<[i:=x]> l) + (if rdn l i =? 0 then 1 else 0)
  = zeros l + (if x =? 0 then 1 else 0).
Proof.
  induction l as [|y l IH]; intros i x Hi; simpl in Hi; [lia|].
  destruct i as [|i]; simpl.
  - unfold rdn. simpl. lia.
  - specialize (IH i x ltac:(lia)). unfold rdn in *. simpl. lia.
Qed.

Lemma zeros_repeat k : zeros (repeat 0 k) = k.
Proof. induction k as [|k IH]; simpl; lia. Qed.

Lemma zeros_le l : zeros l <= length l.
Proof. induction l as [|x l IH]; simpl; [lia|]. destruct (x =? 0); lia. Qed.

Lemma zeros_pos l : 0 < zeros l -> exists i, i < length l /\ rdn l i = 0.
Proof.
  induction l as [|x l IH]; simpl; [lia|]. intros Hz.
  destruct (Nat.eqb_spec x 0) as [->|Hx].
  - exists 0. split; [lia|done].
  - destruct (IH ltac:(lia)) as (i & Hi & Hr). exists (S i). split; [lia|done].
Qed.

Lemma zeros_0 l i : zeros l = 0 -> i < length l -> rdn l i <> 0.
Proof.
  revert i. induction l as [|x l IH]; intros i Hz Hi; simpl in *; [lia|].
  destruct (Nat.eqb_spec x 0) as [->|Hx]; [lia|].
  destruct i as [|i]; [done|]. apply IH; lia.
Qed.

Lemma zsum_app l1 l2 : zsum (l1 ++ l2) = (zsum l1 + zsum l2)%Z.
Proof. induction l1 as [|x l1 IH]; simpl; lia. Qed.

Lemma zsum_map_le {A} (f g : A -> Z) l :
  (forall x, In x l -> (f x <= g x)%Z) -> (zsum (map f l) <= zsum (map g l))%Z.
Proof.
  induction l as [|x l IH]; intros H; simpl; [lia|].
  specialize (H x (or_introl eq_refl)) as Hx.
  specialize (IH (fun y Hy => H y (or_intror Hy))). lia.
Qed.

Lemma zsum_map_sub {A} (f g : A -> Z) l :
  zsum (map (fun x => f x - g x)%Z l) = (zsum (map f l) - zsum (map g l))%Z.
Proof. induction l as [|x l IH]; simpl; lia. Qed.

Lemma zsum_subset (f : nat -> Z) l : forall l',
  List.NoDup l ->
  (forall x, In x l -> f x <> 0%Z -> In x l') ->
  (forall x, In x l' -> (0 <= f x)%Z) ->
  (zsum (map f l) <= zsum (map f l'))%Z.
Proof.
  induction l as [|x l IH]; intros l' Hnd Hin Hpos; simpl.
  { induction l' as [|y l' IH']; simpl; [lia|].
    specialize (Hpos y (or_introl eq_refl)) as Hy.
    specialize (IH' (fun _ H => False_ind _ H) (fun z Hz => Hpos z (or_intror Hz))).
    lia. }
  inversion Hnd as [|? ? Hx Hnd']; subst.
  destruct (Z.eq_dec (f x) 0) as [E|E].
  { rewrite E. specialize (IH l' Hnd' (fun y Hy => Hin y (or_intror Hy)) Hpos). lia. }
  destruct (in_split x l' (Hin x (or_introl eq_refl) E)) as (l1 & l2 & ->).
  rewrite map_app, zsum_app. simpl.
  specialize (IH (l1 ++ l2) Hnd'). rewrite map_app, zsum_app in IH.
  enough (zsum (map f l) <= zsum (map f l1) + zsum (map f l2))%Z by lia.
  apply IH.
  - intros y Hy Hne. specialize (Hin y (or_intror Hy) Hne).
    apply in_app_or in Hin. apply in_or_app.
    destruct Hin as [?|[->|?]]; [by left|done|by right].
  - intros y Hy. apply Hpos. apply in_app_or in Hy. apply in_or_app.
    destruct Hy; [by left|right; by right].
Qed.

Lemma map_nth_seq {A} (f : nat -> A) (l : list nat) d :
  map (fun j => f (nth j l d)) (seq 0 (length l)) = map f l.
Proof.
  induction l as [|x l IH]; [done|]. cbn [length seq map nth].
  rewrite <- seq_shift, map_map. by rewrite IH.
Qed.

(** *** Entries that are multiples of a unit *)

Lemma unit_pos unit : (LEV_EPSILON <= unit)%Q -> (0 < unit)%Q.
Proof. intros Hunit. eapply Qlt_le_trans; [|apply Hunit]. reflexivity. Qed.

Section Units.
Variable unit : Q.
Hypothesis Hupos : (0 < unit)%Q.

Local Abbreviation scaled := (scaled unit).

Lemma scaled_lt x y a b : scaled x a -> scaled y b -> Qltb x y = (a <? b)%Z.
Proof.
  unfold scaled. intros Hx Hy.
  destruct (Z.ltb_spec a b) as [Hab|Hab].
  - apply Qltb_lt. rewrite Hx, Hy. apply Qmult_lt_l; [done|].
    by rewrite <- Zlt_Qlt.
  - apply Qltb_ge. rewrite Hx, Hy. apply Qmult_le_l; [done|].
    by rewrite <- Zle_Qle.
Qed.

Lemma scaled_eq0 x a : scaled x a -> Qeqb0 x = (a =? 0)%Z.
Proof.
  unfold scaled. intros Hx.
  destruct (Z.eqb_spec a 0) as [->|Ha].
  - apply Qeqb0_true. rewrite Hx. ring.
  - apply Qeqb0_false. rewrite Hx. intros E.
    apply Qmult_integral in E. destruct E as [E|E].
    + rewrite E in Hupos. by apply Qlt_irrefl in Hupos.
    + apply Ha. by apply (inject_Z_injective a 0).
Qed.

Lemma scaled_add x y a b : scaled x a -> scaled y b -> scaled (x + y) (a + b).
Proof. unfold scaled. intros -> ->. rewrite inject_Z_plus. ring. Qed.

Lemma scaled_clamp_sub x y a b :
  scaled x a -> scaled y b -> scaled (clamp (x - y)) (clampz unit (a - b)).
Proof.
  unfold scaled, clamp, clampz. intros Hx Hy.
  assert (x - y == unit * inject_Z (a - b))%Q as Hxy.
  { rewrite Hx, Hy. unfold Z.sub. rewrite inject_Z_plus, inject_Z_opp. ring. }
  destruct (Qltb (x - y) LEV_EPSILON) eqn:E1;
    destruct (Qltb (unit * inject_Z (a - b)) LEV_EPSILON) eqn:E2.
  - ring.
  - apply Qltb_lt in E1. apply Qltb_ge in E2. rewrite Hxy in E1. lra.
  - apply Qltb_ge in E1. apply Qltb_lt in E2. rewrite Hxy in E1. lra.
  - done.
Qed.

Lemma clampz_0 : clampz unit 0 = 0%Z.
Proof. unfold clampz. by destruct (Qltb _ _). Qed.

Lemma clampz_bounds t : (0 <= t)%Z -> (0 <= clampz unit t <= t)%Z.
Proof. intros Ht. unfold clampz. destruct (Qltb _ _); lia. Qed.

Lemma clampz_exact t : (LEV_EPSILON <= unit)%Q -> (0 <= t)%Z -> clampz unit t = t.
Proof.
  intros Hunit Ht. unfold clampz.
  destruct (Qltb (unit * inject_Z t) LEV_EPSILON) eqn:E; [|done].
  apply Qltb_lt in E. destruct (Z.eq_dec t 0) as [->|Hne]; [done|]. exfalso.
  assert (unit * inject_Z 1 <= unit * inject_Z t)%Q as Hle.
  { apply Qmult_le_l; [done|]. rewrite <- Zle_Qle. lia. }
  assert (unit * inject_Z 1 == unit)%Q as H1 by ring.
  rewrite H1 in Hle. lra.
Qed.

End Units.

(** *** The loops over the matrix, cell by cell *)

Lemma update_cells_spec (idx : nat -> nat) (g : Q -> Q) k (d : list Q) :
  (forall a b, a < k -> b < k -> idx a = idx b -> a = b) ->
  (forall a, a < k -> idx a < length d) ->
  let d' := fold_left (fun d a => <[idx a := g (rdq d (idx a))]> d) (seq 0 k) d in
  length d' = length d /\
  (forall a, a < k -> rdq d' (idx a) = g (rdq d (idx a))) /\
  (forall p, (forall a, a < k -> p <> idx a) -> rdq d' p = rdq d p).
Proof.
  intros Hinj Hlt d'. subst d'.
  apply (fold_left_seq_ind
           (fun i d' =>
              length d' = length d /\
              (forall a, a < i -> rdq d' (idx a) = g (rdq d (idx a))) /\
              (forall p, (forall a, a < i -> p <> idx a) -> rdq d' p = rdq d p))
           _ k 0 d).
  - split; [done|]. split; [intros a Ha; lia|done].
  - intros i d' Hi (Hl & Hin & Hout).
    split; [by rewrite length_insert|]. split.
    + intros a Ha. destruct (decide (a = i)) as [->|Hne].
      * rewrite rdq_insert_eq by (rewrite Hl; apply Hlt; lia).
        f_equal. apply Hout. intros a Ha' E. apply Hinj in E; lia.
      * rewrite rdq_insert_ne; [apply Hin; lia|].
        intros E. apply Hinj in E; lia.
    + intros p Hp. rewrite rdq_insert_ne; [|intros E; apply (Hp i); [lia|done]].
      apply Hout. intros a Ha. apply Hp. lia.
Qed.

Section MunkresCells.
Variables n1 n2 : nat.

Lemma index_lt i j : i < n2 -> j < n1 -> i * n1 + j < n2 * n1.
Proof. intros Hi Hj. nia. Qed.

Lemma subtract_column_spec min j dists :
  j < n1 -> length dists = n2 * n1 ->
  length (subtract_column n1 n2 min j dists) = n2 * n1 /\
  forall i' j', i' < n2 -> j' < n1 ->
    cell n1 (subtract_column n1 n2 min j dists) i' j'
    = if j' =? j then clamp (cell n1 dists i' j' - min) else cell n1 dists i' j'.
Proof.
  intros Hj Hlen.
  destruct (update_cells_spec (fun a => a * n1 + j) (fun x => clamp (x - min)) n2 dists)
    as (Hl & Hin & Hout).
  { intros a b _ _ E. by destruct (idx_inj n1 a j b j Hj Hj E). }
  { intros a Ha. rewrite Hlen. by apply index_lt. }
  split; [by rewrite <- Hlen|]. intros i' j' Hi' Hj'.
  destruct (Nat.eqb_spec j' j) as [->|Hne].
  - by apply Hin.
  - apply Hout. intros a _ E. apply idx_inj in E; lia.
Qed.

Lemma add_to_row_spec min i dists :
  i < n2 -> length dists = n2 * n1 ->
  let d' :=
    fold_left (fun dists j => <[i * n1 + j := (cell n1 dists i j + min)%Q]> dists)
      (seq 0 n1) dists in
  length d' = n2 * n1 /\
  forall i' j', i' < n2 -> j' < n1 ->
    cell n1 d' i' j'
    = if i' =? i then (cell n1 dists i' j' + min)%Q else cell n1 dists i' j'.
Proof.
  intros Hi Hlen.
  destruct (update_cells_spec (fun b => i * n1 + b) (fun x => (x + min)%Q) n1 dists)
    as (Hl & Hin & Hout).
  { intros a b _ _ E. lia. }
  { intros a Ha. rewrite Hlen. by apply index_lt. }
  split; [by rewrite <- Hlen|]. intros i' j' Hi' Hj'.
  destruct (Nat.eqb_spec i' i) as [->|Hne].
  - by apply Hin.
  - apply Hout. intros a Ha E. apply idx_inj in E; lia.
Qed.

Lemma add_to_covered_rows_spec min covr dists :
  length dists = n2 * n1 ->
  length (add_to_covered_rows n1 n2 min covr dists) = n2 * n1 /\
  forall i' j', i' < n2 -> j' < n1 ->
    cell n1 (add_to_covered_rows n1 n2 min covr dists) i' j'
    = if rdn covr i' =? 0 then cell n1 dists i' j'
      else (cell n1 dists i' j' + min)%Q.
Proof.
  intros Hlen. unfold add_to_covered_rows.
  match goal with |- context [fold_left ?f (seq 0 n2) dists] => set (F := f) end.
  enough (length (fold_left F (seq 0 n2) dists) = n2 * n1 /\
          forall i' j', i' < n2 -> j' < n1 ->
            cell n1 (fold_left F (seq 0 n2) dists) i' j'
            = if (i' <? 0 + n2) && negb (rdn covr i' =? 0)
              then (cell n1 dists i' j' + min)%Q else cell n1 dists i' j')
    as [Hl Hc].
  { split; [exact Hl|]. intros i' j' Hi' Hj'. rewrite Hc by done.
    rewrite (proj2 (Nat.ltb_lt i' (0 + n2)) Hi'). simpl.
    by destruct (rdn covr i' =? 0). }
  apply (fold_left_seq_ind
           (fun i d =>
              length d = n2 * n1 /\
              forall i' j', i' < n2 -> j' < n1 ->
                cell n1 d i' j'
                = if (i' <? i) && negb (rdn covr i' =? 0)
                  then (cell n1 dists i' j' + min)%Q else cell n1 dists i' j')).
  - split; [done|]. intros i' j' _ _. done.
  - intros i d Hi [Hl Hc]. subst F. cbv beta.
    destruct (Nat.eqb_spec (rdn covr i) 0) as [E|E].
    + split; [done|]. intros i' j' Hi' Hj'. rewrite Hc by done.
      destruct (decide (i' = i)) as [->|Hne].
      * rewrite E. simpl. by rewrite !andb_false_r.
      * replace (i' <? i + 1) with (i' <? i); [done|].
        destruct (Nat.ltb_spec i' i), (Nat.ltb_spec i' (i + 1)); lia.
    + destruct (add_to_row_spec min i d ltac:(lia) Hl) as [Hl' Hc'].
      split; [done|]. intros i' j' Hi' Hj'. rewrite Hc' by done.
      destruct (Nat.eqb_spec i' i) as [->|Hne].
      * rewrite Hc by done. rewrite Nat.ltb_irrefl. simpl.
        replace (i <? i + 1) with true by (symmetry; apply Nat.ltb_lt; lia).
        destruct (Nat.eqb_spec (rdn covr i) 0); [done|]. done.
      * rewrite Hc by done.
        replace (i' <? i + 1) with (i' <? i); [done|].
        destruct (Nat.ltb_spec i' i), (Nat.ltb_spec i' (i + 1)); lia.
Qed.

Lemma subtract_from_uncovered_columns_spec min covc dists :
  length dists = n2 * n1 ->
  length (subtract_from_uncovered_columns n1 n2 min covc dists) = n2 * n1 /\
  forall i' j', i' < n2 -> j' < n1 ->
    cell n1 (subtract_from_uncovered_columns n1 n2 min covc dists) i' j'
    = if rdn covc j' =? 0 then clamp (cell n1 dists i' j' - min)
      else cell n1 dists i' j'.
Proof.
  intros Hlen. unfold subtract_from_uncovered_columns.
  match goal with |- context [fold_left ?f (seq 0 n1) dists] => set (F := f) end.
  enough (length (fold_left F (seq 0 n1) dists) = n2 * n1 /\
          forall i' j', i' < n2 -> j' < n1 ->
            cell n1 (fold_left F (seq 0 n1) dists) i' j'
            = if (j' <? 0 + n1) && (rdn covc j' =? 0)
              then clamp (cell n1 dists i' j' - min) else cell n1 dists i' j')
    as [Hl Hc].
  { split; [exact Hl|]. intros i' j' Hi' Hj'. rewrite Hc by done.
    by rewrite (proj2 (Nat.ltb_lt j' (0 + n1)) Hj'). }
  apply (fold_left_seq_ind
           (fun j d =>
              length d = n2 * n1 /\
              forall i' j', i' < n2 -> j' < n1 ->
                cell n1 d i' j'
                = if (j' <? j) && (rdn covc j' =? 0)
                  then clamp (cell n1 dists i' j' - min) else cell n1 dists i' j')).
  - split; [done|]. intros i' j' _ _. done.
  - intros j d Hj [Hl Hc]. subst F. cbv beta.
    destruct (Nat.eqb_spec (rdn covc j) 0) as [E|E]; cbn [negb].
    + destruct (subtract_column_spec min j d ltac:(lia) Hl) as [Hl' Hc'].
      split; [done|]. intros i' j' Hi' Hj'. rewrite Hc' by done.
      destruct (Nat.eqb_spec j' j) as [->|Hne].
      * rewrite Hc by done. rewrite Nat.ltb_irrefl. simpl.
        replace (j <? j + 1) with true by (symmetry; apply Nat.ltb_lt; lia).
        by rewrite E.
      * rewrite Hc by done.
        replace (j' <? j + 1) with (j' <? j); [done|].
        destruct (Nat.ltb_spec j' j), (Nat.ltb_spec j' (j + 1)); lia.
    + split; [done|]. intros i' j' Hi' Hj'. rewrite Hc by done.
      destruct (decide (j' = j)) as [->|Hne].
      * destruct (Nat.eqb_spec (rdn covc j) 0); [done|]. by rewrite !andb_false_r.
      * replace (j' <? j + 1) with (j' <? j); [done|].
        destruct (Nat.ltb_spec j' j), (Nat.ltb_spec j' (j + 1)); lia.
Qed.

Lemma zero_in_column_spec dists covr j k : forall i,
  match zero_in_column n1 k i j dists covr with
  | Some i' => i <= i' < i + k /\ rdn covr i' = 0 /\ Qeqb0 (cell n1 dists i' j) = true
  | None =>
      forall i', i <= i' < i + k -> rdn covr i' = 0 ->
        Qeqb0 (cell n1 dists i' j) = false
  end.
Proof.
  induction k as [|k IH]; intros i; cbn [zero_in_column]; [intros; lia|].
  destruct (Nat.eqb_spec (rdn covr i) 0) as [E|E]; cbn [andb].
  - destruct (Qeqb0 (cell n1 dists i j)) eqn:Ez.
    + split; [lia|done].
    + specialize (IH (i + 1)). destruct (zero_in_column _ _ _ _ _ _).
      * destruct IH as (? & ? & ?). split; [lia|done].
      * intros i' Hi' Hc. destruct (decide (i' = i)) as [->|]; [done|].
        apply IH; [lia|done].
  - specialize (IH (i + 1)). destruct (zero_in_column _ _ _ _ _ _).
    + destruct IH as (? & ? & ?). split; [lia|done].
    + intros i' Hi' Hc. destruct (decide (i' = i)) as [->|]; [done|].
      apply IH; [lia|done].
Qed.

Lemma uncovered_zero_spec dists covc covr k : forall j,
  match uncovered_zero n1 n2 k j dists covc covr with
  | Some (i', j') =>
      i' < n2 /\ j <= j' < j + k /\ rdn covc j' = 0 /\ rdn covr i' = 0 /\
      Qeqb0 (cell n1 dists i' j') = true
  | None =>
      forall i' j', i' < n2 -> j <= j' < j + k -> rdn covc j' = 0 ->
        rdn covr i' = 0 -> Qeqb0 (cell n1 dists i' j') = false
  end.
Proof.
  induction k as [|k IH]; intros j; cbn [uncovered_zero]; [intros; lia|].
  destruct (Nat.eqb_spec (rdn covc j) 0) as [E|E]; cbn [negb].
  - pose proof (zero_in_column_spec dists covr j n2 0) as Hz.
    destruct (zero_in_column _ _ _ _ _ _) as [i'|].
    + destruct Hz as (? & ? & ?). repeat split; try done; lia.
    + specialize (IH (j + 1)). destruct (uncovered_zero _ _ _ _ _ _ _) as [[i' j']|].
      * destruct IH as (? & ? & ? & ? & ?). repeat split; try done; lia.
      * intros i' j' Hi' Hj' Hc Hr. destruct (decide (j' = j)) as [->|].
        -- apply Hz; [lia|done].
        -- apply IH; [done|lia|done|done].
  - specialize (IH (j + 1)). destruct (uncovered_zero _ _ _ _ _ _ _) as [[i' j']|].
    + destruct IH as (? & ? & ? & ? & ?). repeat split; try done; lia.
    + intros i' j' Hi' Hj' Hc Hr. destruct (decide (j' = j)) as [->|]; [done|].
      apply IH; [done|lia|done|done].
Qed.

End MunkresCells.

Section MunkresProof.
Variables n1 n2 : nat.
Variable unit : Q.
Variable cost : nat -> nat -> Z.
Variable lo : Z.

Hypothesis Hn : n1 <= n2.
Hypothesis Hupos : (0 < unit)%Q.

Lemma column_min_spec dists (z : nat -> Z) j :
  0 < n2 ->
  (forall i, i < n2 -> scaled unit (cell n1 dists i j) (z i)) ->
  (column_min n1 n2 dists j).1 < n2 /\
  (column_min n1 n2 dists j).2 = cell n1 dists (column_min n1 n2 dists j).1 j /\
  forall i, i < n2 -> (z (column_min n1 n2 dists j).1 <= z i)%Z.
Proof.
  intros Hn2 Hz. unfold column_min.
  match goal with |- context [fold_left ?f _ _] => set (F := f) end.
  set (r := fold_left F _ _).
  enough (r.1 < 1 + (n2 - 1) /\ r.2 = cell n1 dists r.1 j /\
          forall i', i' < 1 + (n2 - 1) -> (z r.1 <= z i')%Z) as (H1 & H2 & H3).
  { split; [lia|]. split; [done|]. intros i Hi. apply H3. lia. }
  subst r.
  apply (fold_left_seq_ind
           (fun i s => s.1 < i /\ s.2 = cell n1 dists s.1 j /\
                       forall i', i' < i -> (z s.1 <= z i')%Z)).
  - cbn [fst snd]. split; [lia|]. split; [done|]. intros i' Hi'.
    replace i' with 0 by lia. lia.
  - intros i [mi m] Hi (H1 & H2 & H3). cbn [fst snd] in *. subst F. cbv beta iota.
    rewrite (scaled_lt unit Hupos _ _ (z i) (z mi)); [|apply Hz; lia|].
    2:{ rewrite H2. apply Hz. lia. }
    destruct (Z.ltb_spec (z i) (z mi)) as [Hlt|Hge]; cbn [fst snd].
    + split; [lia|]. split; [done|]. intros i' Hi'.
      destruct (decide (i' = i)) as [->|]; [lia|].
      specialize (H3 i' ltac:(lia)). lia.
    + split; [lia|]. split; [done|]. intros i' Hi'.
      destruct (decide (i' = i)) as [->|]; [lia|]. apply H3. lia.
Qed.

Section UncoveredMin.
Variable dists : list Q.
Variable z : nat -> nat -> Z.
Variables covc covr : list nat.

Hypothesis Hz : forall i j, i < n2 -> j < n1 -> scaled unit (cell n1 dists i j) (z i j).

Local Abbreviation unc := (unc n1 n2 covc covr).

Local Abbreviation min_inv := (min_inv n1 n2 unit z covc covr).

Lemma min_inv_ext V V' acc :
  (forall i j, unc i j -> (V i j <-> V' i j)) -> min_inv V acc -> min_inv V' acc.
Proof.
  intros HV [[-> H]|(i1 & j1 & H1 & H2 & H3 & H4)].
  - left. split; [done|]. intros i j Hv Hu. apply H; [by apply HV|done].
  - right. exists i1, j1. split; [by apply HV|]. split; [done|]. split; [done|].
    intros i j Hv Hu. apply H4; [by apply HV|done].
Qed.

Lemma min_inv_step V V' acc i j :
  i < n2 -> j < n1 -> rdn covc j = 0 ->
  (forall a b, V' a b <-> V a b \/ (a = i /\ b = j)) ->
  min_inv V acc ->
  min_inv V' (if (rdn covr i =? 0) && Qltb (cell n1 dists i j) acc
              then cell n1 dists i j else acc).
Proof.
  intros Hi Hj Hc HV Hinv. pose proof Hupos as Hu.
  destruct (Nat.eqb_spec (rdn covr i) 0) as [Hr|Hr]; cbn [andb].
  2:{ revert Hinv. apply min_inv_ext. intros a b (_ & _ & Ha & _). rewrite HV.
      split; [by left|]. intros [?|[-> ->]]; [done|]. done. }
  specialize (Hz i j Hi Hj). assert (unc i j) as Hunc by done.
  destruct Hinv as [[-> H]|(i1 & j1 & H1 & H2 & H3 & H4)].
  - destruct (Qltb _ _) eqn:E.
    + right. exists i, j. split; [apply HV; by right|]. split; [done|].
      split; [done|]. intros a b Hv Hab. apply HV in Hv.
      destruct Hv as [Hv|[-> ->]]; [|lia].
      specialize (H a b Hv Hab). apply Qltb_lt in E. red in Hz. rewrite Hz in E.
      destruct (Z_le_gt_dec (z i j) (z a b)) as [|Hgt]; [done|]. exfalso.
      assert (unit * inject_Z (z a b) <= unit * inject_Z (z i j))%Q.
      { apply Qmult_le_l; [done|]. rewrite <- Zle_Qle. lia. }
      lra.
    + left. split; [done|]. intros a b Hv Hab. apply HV in Hv.
      destruct Hv as [Hv|[-> ->]]; [by apply H|].
      apply Qltb_ge in E. red in Hz. by rewrite Hz in E.
  - rewrite (scaled_lt unit Hupos _ _ _ _ Hz H3).
    destruct (Z.ltb_spec (z i j) (z i1 j1)) as [Hlt|Hge].
    + right. exists i, j. split; [apply HV; by right|]. split; [done|].
      split; [done|]. intros a b Hv Hab. apply HV in Hv.
      destruct Hv as [Hv|[-> ->]]; [|lia]. specialize (H4 a b Hv Hab). lia.
    + right. exists i1, j1. split; [apply HV; by left|]. split; [done|].
      split; [done|]. intros a b Hv Hab. apply HV in Hv.
      destruct Hv as [Hv|[-> ->]]; [by apply H4|done].
Qed.

Lemma uncovered_min_spec :
  (exists i0 j0, unc i0 j0 /\ (unit * inject_Z (z i0 j0) < LEV_INFINITY)%Q) ->
  exists i1 j1, unc i1 j1 /\
    scaled unit (uncovered_min n1 n2 dists covc covr) (z i1 j1) /\
    forall i j, unc i j -> (z i1 j1 <= z i j)%Z.
Proof.
  intros (i0 & j0 & Hunc0 & Hlt0).
  assert (min_inv (fun a b => b < 0 + n1) (uncovered_min n1 n2 dists covc covr))
    as Hinv.
  { unfold uncovered_min.
    apply (fold_left_seq_ind (fun j acc => min_inv (fun a b => b < j) acc)).
    { left. split; [done|]. intros i j Hj. lia. }
    intros j acc Hj Hacc.
    destruct (Nat.eqb_spec (rdn covc j) 0) as [Hc|Hc]; cbn [negb].
    2:{ revert Hacc. apply min_inv_ext. intros a b (_ & _ & _ & Hb).
        split; [lia|]. intros Hlt. destruct (decide (b = j)) as [->|]; [done|lia]. }
    apply (min_inv_ext (fun a b => b < j \/ (b = j /\ a < 0 + n2))).
    { intros a b (Ha & _). lia. }
    apply (fold_left_seq_ind
             (fun i acc => min_inv (fun a b => b < j \/ (b = j /\ a < i)) acc)).
    { revert Hacc. apply min_inv_ext. intros a b _. lia. }
    intros i acc' Hi Hacc'.
    apply (min_inv_step (fun a b => b < j \/ (b = j /\ a < i)) _ _ i j
             ltac:(lia) ltac:(lia) Hc); [|done].
    intros a b. lia. }
  destruct Hinv as [[E H]|(i1 & j1 & H1 & H2 & H3 & H4)].
  - exfalso. specialize (H i0 j0 ltac:(destruct Hunc0; lia) Hunc0). lra.
  - exists i1, j1. split; [done|]. split; [done|]. intros i j Hu.
    apply H4; [|done]. destruct Hu. lia.
Qed.

End UncoveredMin.
Local Abbreviation unc := (unc n1 n2).
Local Abbreviation min_inv := (min_inv n1 n2 unit).

(** *** The reduced matrix and the starred zeros *)

Local Abbreviation reduced := (reduced cost).

Local Abbreviation repr := (repr n1 n2 unit cost).

Local Abbreviation stars_ok := (stars_ok n1 n2 cost).

Local Abbreviation potentials_ok := (potentials_ok n1 n2 lo).

Lemma stars_ok_ext u v u' v' zstarc zstarr :
  (forall i j, i < n2 -> j < n1 -> rdn zstarc j = S i ->
     reduced u' v' i j = reduced u v i j) ->
  stars_ok u v zstarc zstarr -> stars_ok u' v' zstarc zstarr.
Proof.
  intros Hext (H1 & H2 & H3 & H4 & H5). split; [done|]. split; [done|].
  split; [|done]. intros j i Hj Hs. destruct (H3 j i Hj Hs) as (Hi & Hr & Hz).
  split; [done|]. split; [done|]. by rewrite Hext.
Qed.

Lemma star_zero_ok u v zstarc zstarr i j :
  stars_ok u v zstarc zstarr ->
  i < n2 -> j < n1 -> rdn zstarc j = 0 -> rdn zstarr i = 0 ->
  reduced u v i j = 0%Z ->
  stars_ok u v (<[j := i + 1]> zstarc) (<[i := j + 1]> zstarr).
Proof.
  intros (H1 & H2 & H3 & H4 & H5) Hi Hj Hc Hr Hz.
  split; [by rewrite length_insert|]. split; [by rewrite length_insert|].
  split; [|split].
  - intros j' i' Hj' Hs. destruct (decide (j' = j)) as [->|Hne].
    + rewrite rdn_insert_eq in Hs by lia. assert (i' = i) as -> by lia.
      split; [done|]. split; [|done]. rewrite rdn_insert_eq by lia. lia.
    + rewrite rdn_insert_ne in Hs by done.
      destruct (H3 j' i' Hj' Hs) as (Hi' & Hr' & Hz'). split; [done|].
      split; [|done]. rewrite rdn_insert_ne; [done|]. intros ->. lia.
  - intros i' j' Hi' Hs. destruct (decide (i' = i)) as [->|Hne].
    + rewrite rdn_insert_eq in Hs by lia. assert (j' = j) as -> by lia.
      split; [done|]. rewrite rdn_insert_eq by lia. lia.
    + rewrite rdn_insert_ne in Hs by done.
      destruct (H4 i' j' Hi' Hs) as (Hj' & Hc'). split; [done|].
      rewrite rdn_insert_ne; [done|]. intros ->. lia.
  - pose proof (zeros_insert zstarc j (i + 1) ltac:(lia)) as Ha.
    pose proof (zeros_insert zstarr i (j + 1) ltac:(lia)) as Hb.
    rewrite Hc in Ha. rewrite Hr in Hb.
    replace (i + 1 =? 0) with false in Ha by (symmetry; apply Nat.eqb_neq; lia).
    replace (j + 1 =? 0) with false in Hb by (symmetry; apply Nat.eqb_neq; lia).
    simpl in Ha, Hb. lia.
Qed.

Lemma star_other_spec u v dists j minidx k : forall i zstarc zstarr,
  (forall i, i < n2 -> scaled unit (cell n1 dists i j) (reduced u v i j)) ->
  stars_ok u v zstarc zstarr -> j < n1 -> i + k <= n2 ->
  stars_ok u v (star_other n1 k i j minidx dists zstarc zstarr).1
               (star_other n1 k i j minidx dists zstarc zstarr).2 /\
  (forall i', rdn zstarr i' <> 0 ->
     rdn (star_other n1 k i j minidx dists zstarc zstarr).2 i' <> 0) /\
  (forall j', j' <> j ->
     rdn (star_other n1 k i j minidx dists zstarc zstarr).1 j' = rdn zstarc j').
Proof.
  induction k as [|k IH]; intros i zstarc zstarr Hrepr Hstars Hj Hik;
    cbn [star_other]; [done|].
  destruct (negb (i =? minidx) && Qeqb0 (cell n1 dists i j) && (rdn zstarc j =? 0)
            && (rdn zstarr i =? 0)) eqn:E; [|apply IH; try done; lia].
  apply andb_prop in E. destruct E as [E E4]. apply andb_prop in E.
  destruct E as [E E3]. apply andb_prop in E. destruct E as [E1 E2].
  apply Nat.eqb_eq in E3, E4. cbn [fst snd].
  rewrite (scaled_eq0 unit Hupos _ _ (Hrepr i ltac:(lia))) in E2. apply Z.eqb_eq in E2.
  split; [by apply star_zero_ok; try done; lia|]. split.
  - intros i' Hi'. destruct (decide (i' = i)) as [->|]; [done|].
    by rewrite rdn_insert_ne.
  - intros j' Hj'. by rewrite rdn_insert_ne.
Qed.

(** *** Step 2 *)

Lemma zeros_pos_intro l : forall i, i < length l -> rdn l i = 0 -> 0 < zeros l.
Proof.
  induction l as [|x l IH]; intros i Hi Hr; simpl in *; [lia|].
  destruct i as [|i].
  - unfold rdn in Hr. simpl in Hr. subst x. simpl. lia.
  - specialize (IH i ltac:(lia) Hr). lia.
Qed.

Lemma cover_columns_spec zstarc :
  length zstarc = n1 ->
  length (cover_columns n1 zstarc (repeat 0 n1)).1 = n1 /\
  (forall j, j < n1 ->
     (rdn (cover_columns n1 zstarc (repeat 0 n1)).1 j = 0 <-> rdn zstarc j = 0)) /\
  ((cover_columns n1 zstarc (repeat 0 n1)).2 = n1 ->
   forall j, j < n1 -> rdn zstarc j <> 0) /\
  ((cover_columns n1 zstarc (repeat 0 n1)).2 <> n1 ->
   exists j, j < n1 /\ rdn zstarc j = 0).
Proof.
  intros Hlen. unfold cover_columns.
  match goal with |- context [fold_left ?f _ _] => set (F := f) end.
  set (r := fold_left F _ _).
  enough (length r.1 = n1 /\
          (forall j, j < n1 ->
             (rdn r.1 j = 0 <-> (j < 0 + n1 -> rdn zstarc j = 0))) /\
          r.2 <= 0 + n1 /\
          (r.2 = 0 + n1 -> forall j, j < 0 + n1 -> rdn zstarc j <> 0) /\
          (r.2 < 0 + n1 -> exists j, j < 0 + n1 /\ rdn zstarc j = 0))
    as (H1 & H2 & H3 & H4 & H5).
  { split; [done|]. split; [|split; [done|]].
    - intros j Hj. rewrite H2 by done. split; [intros H; apply H; lia|done].
    - intros Hne. apply H5. lia. }
  subst r.
  apply (fold_left_seq_ind
           (fun k s =>
              length s.1 = n1 /\
              (forall j, j < n1 -> (rdn s.1 j = 0 <-> (j < k -> rdn zstarc j = 0))) /\
              s.2 <= k /\
              (s.2 = k -> forall j, j < k -> rdn zstarc j <> 0) /\
              (s.2 < k -> exists j, j < k /\ rdn zstarc j = 0))).
  - cbn [fst snd]. split; [by rewrite repeat_length|]. split.
    { intros j Hj. rewrite rdn_repeat. split; [lia|done]. }
    split; [lia|]. split; [intros; lia|lia].
  - intros k [covc nc] Hk (H1 & H2 & H3 & H4 & H5). cbn [fst snd] in *.
    subst F. cbv beta iota.
    destruct (Nat.eqb_spec (rdn zstarc k) 0) as [E|E]; cbn [fst snd].
    + split; [done|]. split.
      { intros j Hj. rewrite H2 by done. split; intros H Hjk.
        - destruct (decide (j = k)) as [->|]; [done|]. apply H. lia.
        - apply H. lia. }
      split; [lia|]. split; [lia|]. intros _. exists k. split; [lia|done].
    + split; [by rewrite length_insert|]. split.
      { intros j Hj. destruct (decide (j = k)) as [->|Hne].
        - rewrite rdn_insert_eq by lia. split; [done|]. intros H. exfalso.
          apply E, H. lia.
        - rewrite rdn_insert_ne by done. rewrite H2 by done.
          split; intros H Hjk; apply H; lia. }
      split; [lia|]. split.
      * intros Hnc j Hj. destruct (decide (j = k)) as [->|]; [done|].
        apply H4; lia.
      * intros Hnc. destruct (H5 ltac:(lia)) as (j & Hj & Hz). exists j.
        split; [lia|done].
Qed.

Local Abbreviation path_inv := (path_inv n1 n2 unit cost lo).

(** *** Step 4 *)

Lemma zeros_insert_nonzero l i x :
  i < length l -> x <> 0 -> rdn l i <> 0 -> zeros (<[i:=x]> l) = zeros l.
Proof.
  intros Hi Hx Hl. pose proof (zeros_insert l i x Hi) as H.
  destruct (Nat.eqb_spec (rdn l i) 0), (Nat.eqb_spec x 0); lia.
Qed.

Lemma zeros_insert_zero l i x :
  i < length l -> x <> 0 -> rdn l i = 0 -> zeros (<[i:=x]> l) + 1 = zeros l.
Proof.
  intros Hi Hx Hl. pose proof (zeros_insert l i x Hi) as H.
  destruct (Nat.eqb_spec (rdn l i) 0), (Nat.eqb_spec x 0); lia.
Qed.

Lemma zeros_insert_same l i x y :
  i < length l -> x <> 0 -> y <> 0 -> zeros (<[i:=x]> l) = zeros (<[i:=y]> l).
Proof.
  intros Hi Hx Hy. pose proof (zeros_insert l i x Hi) as H1.
  pose proof (zeros_insert l i y Hi) as H2.
  destruct (Nat.eqb_spec x 0), (Nat.eqb_spec y 0); lia.
Qed.

Lemma rdn_lookup (l : list nat) i : i < length l -> l !! i = Some (rdn l i).
Proof.
  intros Hi. unfold rdn. destruct (nth_lookup_or_length l i 0); [done|lia].
Qed.

Section Augment.
Variables zstarc0 zstarr0 : list nat.
Variables u v : nat -> Z.
Variable rank : nat -> nat.
Variable b : nat.
Variable dists : list Q.
Variables covc covr zprimer : list nat.
Variable i0 : nat.

Hypothesis Hinv : path_inv zstarc0 zstarr0 u v rank b dists covc covr zprimer.

Local Abbreviation augmenting := (augmenting n1 n2 cost zstarc0 zstarr0 u v rank covr zprimer i0).

Local Abbreviation augmented := (augmented n1 n2 cost zstarc0 zstarr0 u v).

Lemma augment_spec fuel : forall i r zr zc,
  augmenting i r zr zc -> r < fuel ->
  exists zr' zc',
    augment fuel (i + 1) zprimer zr zc = Some (zr', zc') /\ augmented zr' zc'.
Proof.
  destruct Hinv as (_ & Hstars0 & _ & _ & _ & Hlp & _ & _ & P6 & _ & _).
  destruct Hstars0 as (_ & _ & _ & _ & Hcount0).
  induction fuel as [|fuel IH]; intros i r zr zc Haug Hfuel; [lia|].
  destruct Haug as (Hi & Hlr & Hlc & A2 & A3 & A4 & A5
                    & (j & Hpj & Hj & Hred & Hsame & Hstar0) & A7 & A8c & A8r).
  cbn [augment]. replace (i + 1 - 1) with i by lia.
  rewrite (rdn_lookup zprimer i) by lia. rewrite Hpj.
  rewrite (rdn_lookup zc j) by lia.
  assert (zeros (<[i := j + 1]> zr) = zeros (<[i := 1]> zr)) as Hzr
    by (apply zeros_insert_same; lia).
  destruct (rdn zc j) as [|i2] eqn:Ezc; cbn [Nat.eqb].
  - eexists _, _. split; [reflexivity|]. split; [|split].
    + split; [by rewrite length_insert|]. split; [by rewrite length_insert|].
      split; [|split].
      * intros j2 i' Hj2 Hs. destruct (decide (j2 = j)) as [->|Hne].
        -- rewrite rdn_insert_eq in Hs by lia. assert (i' = i) as -> by lia.
           split; [done|]. rewrite rdn_insert_eq by lia. split; [lia|done].
        -- rewrite rdn_insert_ne in Hs by done.
           destruct (A2 j2 i' Hj2 Hs) as (H1 & H2 & H3).
           assert (i' <> i) by (intros ->; by apply (A4 j2 Hj2)).
           rewrite rdn_insert_ne by done. done.
      * intros i' j2 Hi' Hs. destruct (decide (i' = i)) as [->|Hne].
        -- rewrite rdn_insert_eq in Hs by lia. assert (j2 = j) as -> by lia.
           split; [done|]. rewrite rdn_insert_eq by lia. lia.
        -- rewrite rdn_insert_ne in Hs by done.
           destruct (A3 i' j2 Hi' Hne Hs) as [H1 H2]. split; [done|].
           rewrite rdn_insert_ne; [done|]. intros ->. congruence.
      * pose proof (zeros_insert_zero zc j (i + 1) ltac:(lia) ltac:(lia) Ezc). lia.
    + intros i' Hi' Hs. destruct (decide (i' = i)) as [->|Hne].
      * rewrite rdn_insert_eq by lia. lia.
      * rewrite rdn_insert_ne by done. apply A5; [done|done|by left].
    + pose proof (zeros_insert_zero zc j (i + 1) ltac:(lia) ltac:(lia) Ezc). lia.
  - rewrite <- Hsame in Hstar0. destruct (Hstar0 i2 eq_refl) as [Hcov2 Hrk2].
    destruct (A2 j i2 Hj Ezc) as (Hi2 & Hzr2 & Hred2).
    assert (i2 <> i) as Hne2 by (intros ->; by apply (A4 j Hj)).
    destruct (P6 i2 Hi2 Hcov2) as (_ & _ & j' & Hpj' & Hj' & Hred' & _ & Hstar').
    replace (S i2) with (i2 + 1) by lia.
    apply (IH i2 (rank i2)); [|lia].
    split; [done|]. split; [by rewrite length_insert|].
    split; [by rewrite length_insert|].
    split; [|split; [|split; [|split; [|split; [|split; [|split]]]]]].
    + intros j2 i' Hj2 Hs. destruct (decide (j2 = j)) as [->|Hne].
      * rewrite rdn_insert_eq in Hs by lia. assert (i' = i) as -> by lia.
        split; [done|]. rewrite rdn_insert_eq by lia. split; [lia|done].
      * rewrite rdn_insert_ne in Hs by done.
        destruct (A2 j2 i' Hj2 Hs) as (H1 & H2 & H3).
        assert (i' <> i) by (intros ->; by apply (A4 j2 Hj2)).
        rewrite rdn_insert_ne by done. done.
    + intros i' j2 Hi' Hne' Hs. destruct (decide (i' = i)) as [->|Hne].
      * rewrite rdn_insert_eq in Hs by lia. assert (j2 = j) as -> by lia.
        split; [done|]. rewrite rdn_insert_eq by lia. lia.
      * rewrite rdn_insert_ne in Hs by done.
        destruct (A3 i' j2 Hi' Hne Hs) as [H1 H2]. split; [done|].
        rewrite rdn_insert_ne; [done|]. intros ->. congruence.
    + intros j2 Hj2 Hs. destruct (decide (j2 = j)) as [->|Hne].
      * rewrite rdn_insert_eq in Hs by lia. lia.
      * rewrite rdn_insert_ne in Hs by done.
        destruct (A2 j2 i2 Hj2 Hs) as (_ & H2 & _). congruence.
    + intros i' Hi' Hne' Hs. destruct (decide (i' = i)) as [->|Hne].
      * rewrite rdn_insert_eq by lia. lia.
      * rewrite rdn_insert_ne by done. by apply A5.
    + exists j'. split; [done|]. split; [done|]. split; [done|].
      assert (j' <> j) as Hjne.
      { intros ->. destruct (Hstar' i2 (eq_sym Hsame)). lia. }
      split; [|done]. rewrite rdn_insert_ne by done.
      destruct (Nat.eq_dec (rdn zc j') (rdn zstarc0 j')) as [|Hmod]; [done|].
      destruct (A7 j' Hj' Hmod) as (i' & Hs' & Hr'). destruct (Hstar' i' Hs'). lia.
    + intros j2 Hj2 Hmod. destruct (decide (j2 = j)) as [->|Hne].
      * exists i2. split; [congruence|lia].
      * rewrite rdn_insert_ne in Hmod by done.
        destruct (A7 j2 Hj2 Hmod) as (i' & Hs' & Hr'). exists i'. split; [done|lia].
    + rewrite zeros_insert_nonzero; [done|lia|lia|]. rewrite Ezc. done.
    + rewrite zeros_insert_nonzero; [lia|by rewrite length_insert; lia|lia|].
      rewrite rdn_insert_ne by done. rewrite Hzr2. done.
Qed.

End Augment.
Local Abbreviation augmenting := (augmenting n1 n2 cost).
Local Abbreviation augmented := (augmented n1 n2 cost).

Local Abbreviation assign_inv := (assign_inv n1 n2 unit cost lo).

(** *** The assignment found is a cheapest one *)

Lemma nth_map_usub (zc : list nat) j :
  j < length zc -> nth j (map (fun x => usub x 1) zc) 0 = usub (rdn zc j) 1.
Proof.
  intros Hj. apply nth_lookup_Some. rewrite list_lookup_fmap.
  by rewrite (rdn_lookup zc j Hj).
Qed.

Local Abbreviation cost_of := (cost_of n1 cost).

Lemma stars_optimal dists zc zr :
  assign_inv dists zc zr ->
  (forall j, j < n1 -> rdn zc j <> 0) ->
  let sigma := map (fun x => usub x 1) zc in
  length sigma = n1 /\ Forall (fun i => i < n2) sigma /\ NoDup sigma /\
  forall tau, length tau = n1 -> Forall (fun i => i < n2) tau -> NoDup tau ->
    (cost_of sigma <= cost_of tau)%Z.
Proof.
  intros (u & v & [Hlen Hcells] & (Hs1 & Hs2 & Hs3 & Hs4 & Hs5) & (Hu0 & Hu1 & Hv))
         Hall sigma.
  assert (forall j, j < n1 ->
            rdn zc j = S (nth j sigma 0) /\ nth j sigma 0 < n2 /\
            rdn zr (nth j sigma 0) = S j /\
            reduced u v (nth j sigma 0) j = 0%Z) as Hsig.
  { intros j Hj. unfold sigma. rewrite nth_map_usub by lia.
    destruct (rdn zc j) as [|i] eqn:E; [by destruct (Hall j Hj)|].
    unfold usub. cbn [Nat.leb]. replace (S i - 1) with i by lia.
    destruct (Hs3 j i Hj E) as (H1 & H2 & H3). done. }
  assert (length sigma = n1) as Hlsig by (unfold sigma; by rewrite length_map).
  split; [done|]. split; [|split].
  - apply Forall_forall. intros i Hin. apply list_elem_of_In in Hin.
    destruct (In_nth _ _ 0 Hin) as (j & Hj & <-). apply Hsig. lia.
  - apply NoDup_ListNoDup, (NoDup_nth sigma 0). intros j j' Hj Hj' E.
    destruct (Hsig j ltac:(lia)) as (_ & _ & H1 & _).
    destruct (Hsig j' ltac:(lia)) as (_ & _ & H2 & _). rewrite E in H1. congruence.
  - intros tau Hltau Htau Hnd. unfold cost_of.
    assert (forall i, In i tau -> i < n2) as Htau'.
    { intros i Hin. rewrite Forall_forall in Htau. by apply Htau, list_elem_of_In. }
    assert (zsum (map (fun j => cost (nth j sigma 0%nat) j) (seq 0 n1))
            = zsum (map v (seq 0 n1)) - zsum (map u sigma))%Z as ->.
    { rewrite <- (map_nth_seq u sigma 0), Hlsig, <- zsum_map_sub. f_equal.
      apply map_ext_in. intros j Hj. apply in_seq in Hj.
      destruct (Hsig j ltac:(lia)) as (_ & _ & _ & Hred). unfold reduced in Hred. lia. }
    assert (zsum (map v (seq 0 n1)) - zsum (map u tau)
            <= zsum (map (fun j => cost (nth j tau 0%nat) j) (seq 0 n1)))%Z as Hge.
    { rewrite <- (map_nth_seq u tau 0), Hltau, <- zsum_map_sub.
      apply zsum_map_le. intros j Hj. apply in_seq in Hj.
      assert (nth j tau 0 < n2) as Hi by (apply Htau', nth_In; lia).
      destruct (Hcells (nth j tau 0) j Hi ltac:(lia)) as [_ Hnn].
      unfold reduced in Hnn. lia. }
    assert (zsum (map u tau) <= zsum (map u sigma))%Z as Hsub; [|lia].
    apply zsum_subset.
    + by apply NoDup_ListNoDup.
    + intros i Hin Hne. pose proof (Htau' i Hin) as Hi.
      pose proof (Hu1 i Hi Hne) as Hst.
      destruct (rdn zr i) as [|j] eqn:E; [done|].
      destruct (Hs4 i j Hi E) as [Hj Hc].
      destruct (Hsig j Hj) as (Hc' & _). assert (nth j sigma 0 = i) as <- by congruence.
      apply nth_In. lia.
    + intros i Hin. destruct (In_nth _ _ 0 Hin) as (j & Hj & <-).
      apply Hu0, Hsig. lia.
Qed.

End MunkresProof.

(** *** The run, with the entries that the replacement by zero lowers *)

Lemma lowered_refl n1 n2 unit cost : lowered n1 n2 unit cost cost.
Proof. intros i j Hi Hj. split; [lia|done]. Qed.

Lemma lowered_trans n1 n2 unit c1 c2 c3 :
  lowered n1 n2 unit c1 c2 -> lowered n1 n2 unit c2 c3 -> lowered n1 n2 unit c1 c3.
Proof.
  intros H12 H23 i j Hi Hj.
  destruct (H12 i j Hi Hj) as [A B], (H23 i j Hi Hj) as [C D].
  split; [lia|]. intros He. by rewrite D, B.
Qed.

Lemma stars_ok_change n1 n2 cost cost' u v u' v' zstarc zstarr :
  (forall i j, i < n2 -> j < n1 -> rdn zstarc j = S i ->
     reduced cost' u' v' i j = reduced cost u v i j) ->
  stars_ok n1 n2 cost u v zstarc zstarr -> stars_ok n1 n2 cost' u' v' zstarc zstarr.
Proof.
  intros Hext (H1 & H2 & H3 & H4 & H5). split; [done|]. split; [done|].
  split; [|done]. intros j i Hj Hs. destruct (H3 j i Hj Hs) as (Hi & Hr & Hz).
  split; [done|]. split; [done|]. by rewrite Hext.
Qed.

Section MunkresRun.
Variables n1 n2 : nat.
Variable unit : Q.
Variables lo hi : Z.

Hypothesis Hn : n1 <= n2.
Hypothesis Hupos : (0 < unit)%Q.
Hypothesis Hspread : (unit * inject_Z (hi - lo) < LEV_INFINITY)%Q.

(** *** Steps 0 and 1 *)

Lemma reduce_column_spec cost j st :
  j < n1 ->
  (forall i, i < n2 -> (lo <= cost i j)%Z) ->
  reduced_below n1 n2 unit cost lo j st ->
  exists cost',
    lowered n1 n2 unit cost cost' /\
    (forall i j', j' <> j -> cost' i j' = cost i j') /\
    reduced_below n1 n2 unit cost' lo (j + 1) (reduce_column n1 n2 st j).
Proof.
  intros Hj Hlo (v & Hlen & Hcells & Hpos & Hv & Hstars & Hzero).
  destruct st as [[dists zstarc] zstarr]. cbn [fst snd] in *.
  unfold reduce_column.
  destruct (column_min_spec n1 n2 unit Hn Hupos dists (fun i => cost i j) j ltac:(lia))
    as (Hmi & Hm & Hmin).
  { intros i Hi. specialize (Hcells i j Hi Hj). by rewrite Nat.ltb_irrefl in Hcells. }
  destruct (column_min n1 n2 dists j) as [mi m]. cbn [fst snd] in *.
  destruct (subtract_column_spec n1 n2 m j dists Hj Hlen) as [Hlen' Hcells'].
  set (dists' := subtract_column n1 n2 m j dists) in *.
  set (cost' := fun i j' =>
                  if j' =? j then (cost mi j + clampz unit (cost i j - cost mi j))%Z
                  else cost i j').
  set (v' := fun j' => if j' =? j then cost mi j else v j').
  assert (forall i, i < n2 ->
            (0 <= clampz unit (cost i j - cost mi j) <= cost i j - cost mi j)%Z) as Hcl.
  { intros i Hi. apply clampz_bounds. specialize (Hmin i Hi). lia. }
  assert (forall i j', i < n2 -> j' < n1 ->
            scaled unit (cell n1 dists' i j')
              (if (j' <? j + 1)%nat then cost' i j' - v' j' else cost' i j')%Z) as Hsc.
  { intros i j' Hi Hj'. rewrite Hcells' by done. unfold cost', v'.
    destruct (Nat.eqb_spec j' j) as [->|Hne].
    - replace (j <? j + 1) with true by (symmetry; apply Nat.ltb_lt; lia).
      pose proof (Hcells i j Hi Hj) as H1. pose proof (Hcells mi j Hmi Hj) as H2.
      rewrite Nat.ltb_irrefl in H1, H2. rewrite Hm.
      replace (cost mi j + clampz unit (cost i j - cost mi j) - cost mi j)%Z
        with (clampz unit (cost i j - cost mi j)) by lia.
      by apply scaled_clamp_sub.
    - replace (j' <? j + 1) with (j' <? j); [by apply Hcells|].
      destruct (Nat.ltb_spec j' j), (Nat.ltb_spec j' (j + 1)); lia. }
  assert (stars_ok n1 n2 cost' (fun _ => 0%Z) v' zstarc zstarr) as Hstars'.
  { revert Hstars. apply stars_ok_change. intros i j' Hi Hj' Hs. unfold reduced, cost', v'.
    destruct (Nat.eqb_spec j' j) as [->|]; [|done].
    rewrite Hzero in Hs by lia. done. }
  assert (reduced cost' (fun _ => 0%Z) v' mi j = 0%Z) as Hred.
  { unfold reduced, cost', v'. rewrite Nat.eqb_refl, Z.sub_diag, clampz_0. lia. }
  assert (forall zc zr,
            stars_ok n1 n2 cost' (fun _ => 0%Z) v' zc zr ->
            (forall j', j' <> j -> rdn zc j' = rdn zstarc j') ->
            reduced_below n1 n2 unit cost' lo (j + 1) (dists', zc, zr)) as Hfinish.
  { intros zc zr Hok Hsame. exists v'. cbn [fst snd].
    split; [done|]. split; [done|]. split; [|split; [|split; [done|]]].
    - intros i j' Hi Hj1 Hj'. unfold cost', v'.
      destruct (Nat.eqb_spec j' j) as [->|Hne]; [specialize (Hcl i Hi); lia|].
      apply Hpos; [done|lia|done].
    - intros j' Hj'. unfold v'. destruct (Nat.eqb_spec j' j) as [->|Hne].
      + by apply Hlo.
      + by apply Hv.
    - intros j' Hj'. rewrite Hsame by lia. apply Hzero. lia. }
  exists cost'. split; [|split].
  { intros i j' Hi Hj'. unfold cost'. destruct (Nat.eqb_spec j' j) as [->|Hne]; [|done].
    split; [specialize (Hcl i Hi); lia|]. intros He.
    rewrite (clampz_exact unit Hupos _ He); [lia|]. specialize (Hmin i Hi). lia. }
  { intros i j' Hne. unfold cost'. by destruct (Nat.eqb_spec j' j). }
  rewrite (Hzero j) by lia. cbn [Nat.eqb andb].
  destruct (Nat.eqb_spec (rdn zstarr mi) 0) as [Hr|Hr].
  - apply Hfinish.
    + apply star_zero_ok; try done. apply Hzero. lia.
    + intros j' Hj'. by rewrite rdn_insert_ne.
  - destruct (star_other_spec n1 n2 unit cost' Hn Hupos (fun _ => 0%Z) v' dists' j mi n2 0
                zstarc zstarr) as (Hok & _ & Hsame); [|done|done|lia|].
    { intros i Hi. specialize (Hsc i j Hi Hj).
      replace (j <? j + 1) with true in Hsc by (symmetry; apply Nat.ltb_lt; lia).
      unfold reduced. replace (cost' i j + 0 - v' j)%Z with (cost' i j - v' j)%Z by lia.
      done. }
    destruct (star_other _ _ _ _ _ _ _ _) as [zc zr]. by apply Hfinish.
Qed.

Lemma reduce_columns_spec cost dists :
  length dists = n2 * n1 ->
  (forall i j, i < n2 -> j < n1 ->
     scaled unit (cell n1 dists i j) (cost i j) /\ (lo <= cost i j)%Z) ->
  exists cost' v,
    let st := fold_left (reduce_column n1 n2) (seq 0 n1)
                (dists, repeat 0 n1, repeat 0 n2) in
    lowered n1 n2 unit cost cost' /\
    repr n1 n2 unit cost' st.1.1 (fun _ => 0%Z) v /\
    stars_ok n1 n2 cost' (fun _ => 0%Z) v st.1.2 st.2 /\
    potentials_ok n1 n2 lo (fun _ => 0%Z) v st.2.
Proof.
  intros Hlen Hcells.
  assert ((fun j st => exists cost',
             lowered n1 n2 unit cost cost' /\
             (forall i j', i < n2 -> j <= j' < n1 -> cost' i j' = cost i j') /\
             reduced_below n1 n2 unit cost' lo j st) (0 + n1)
            (fold_left (reduce_column n1 n2) (seq 0 n1)
               (dists, repeat 0 n1, repeat 0 n2)))
    as (cost' & Hlow & _ & v & H1 & H2 & H3 & H4 & H5 & H6).
  { apply fold_left_seq_ind.
    - exists cost. split; [apply lowered_refl|]. split; [done|].
      exists (fun _ => lo). cbn [fst snd]. split; [done|]. split.
      { intros i j Hi Hj. by apply Hcells. }
      split; [intros; lia|]. split; [intros; lia|]. split.
      + split; [by rewrite repeat_length|]. split; [by rewrite repeat_length|].
        split; [intros j i _ Hs; by rewrite rdn_repeat in Hs|].
        split; [intros j i _ Hs; by rewrite rdn_repeat in Hs|].
        rewrite !zeros_repeat. lia.
      + intros j _. apply rdn_repeat.
    - intros j st Hj (cost1 & Hlow1 & Hsame1 & Hst).
      destruct (reduce_column_spec cost1 j st) as (cost2 & Hlow2 & Hsame2 & Hst2);
        [lia| |done|].
      { intros i Hi. rewrite Hsame1 by lia. apply Hcells; [done|lia]. }
      exists cost2. split; [by apply (lowered_trans _ _ _ _ cost1)|]. split; [|done].
      intros i j' Hi Hj'. rewrite Hsame2 by lia. apply Hsame1; [done|lia]. }
  exists cost', v. cbn zeta. split; [done|]. split; [|split; [done|]].
  - split; [done|]. intros i j Hi Hj. specialize (H2 i j Hi Hj).
    rewrite (proj2 (Nat.ltb_lt j (0 + n1)) Hj) in H2. unfold reduced.
    replace (cost' i j + 0 - v j)%Z with (cost' i j - v j)%Z by lia.
    split; [done|]. apply H3; [done|lia|done].
  - split; [done|]. split; [done|]. done.
Qed.

(** *** Step 3 *)

Lemma new_zero_spec cost zstarc zstarr u v rank b dists covc covr zprimer :
  (forall i j, i < n2 -> j < n1 -> (cost i j <= hi)%Z) ->
  path_inv n1 n2 unit cost lo zstarc zstarr u v rank b dists covc covr zprimer ->
  uncovered_zero n1 n2 n1 0 dists covc covr = None ->
  exists cost' u' v',
    lowered n1 n2 unit cost cost' /\
    path_inv n1 n2 unit cost' lo zstarc zstarr u' v' rank b
      (new_zero n1 n2 dists covc covr) covc covr zprimer /\
    uncovered_zero n1 n2 n1 0 (new_zero n1 n2 dists covc covr) covc covr <> None.
Proof.
  intros Hhi ([Hlen Hcells] & Hstars & (Hu0 & Hu1 & Hv) & Hlc & Hlr & Hlp & P4 & P5 & P6
              & (j0 & Hj0 & Hzj0) & P8) Hnone.
  pose proof Hstars as (Hs1 & Hs2 & Hs3 & Hs4 & Hs5).
  assert (0 < zeros zstarc) as Hzc.
  { apply (zeros_pos_intro n1 n2 Hn zstarc j0); [lia|done]. }
  destruct (zeros_pos zstarr ltac:(lia)) as (i0 & Hi0 & Hzi0). rewrite Hs2 in Hi0.
  assert (rdn covr i0 = 0) as Hcr0.
  { destruct (Nat.eq_dec (rdn covr i0) 0) as [|Hne]; [done|].
    by destruct (P6 i0 Hi0 Hne). }
  assert (u i0 = 0%Z) as Hui0.
  { destruct (Z.eq_dec (u i0) 0) as [|Hne]; [done|]. by destruct (Hu1 i0 Hi0 Hne). }
  assert (rdn covc j0 = 0) as Hcc0.
  { destruct (Nat.eq_dec (rdn covc j0) 0) as [|Hne]; [done|].
    by destruct (P4 j0 Hj0 Hne). }
  destruct (uncovered_min_spec n1 n2 unit Hn Hupos dists (reduced cost u v) covc covr)
    as (i1 & j1 & (Hi1 & Hj1 & Hr1 & Hc1) & Hm & Hmin).
  { intros i j Hi Hj. by apply Hcells. }
  { exists i0, j0. split; [done|]. eapply Qle_lt_trans; [|apply Hspread].
    apply Qmult_le_l; [done|]. rewrite <- Zle_Qle. unfold reduced. rewrite Hui0.
    specialize (Hhi i0 j0 Hi0 Hj0). specialize (Hv j0 Hj0). lia. }
  set (mz := reduced cost u v i1 j1) in *.
  assert (0 <= mz)%Z as Hmz by apply (Hcells i1 j1 Hi1 Hj1).
  unfold new_zero. set (m := uncovered_min n1 n2 dists covc covr) in *.
  destruct (add_to_covered_rows_spec n1 n2 m covr dists Hlen) as [Hl1 Hd1].
  set (d1 := add_to_covered_rows n1 n2 m covr dists) in *.
  destruct (subtract_from_uncovered_columns_spec n1 n2 m covc d1 Hl1) as [Hl2 Hd2].
  set (d2 := subtract_from_uncovered_columns n1 n2 m covc d1) in *.
  set (u' := fun i => if rdn covr i =? 0 then u i else (u i + mz)%Z).
  set (v' := fun j => if rdn covc j =? 0 then (v j + mz)%Z else v j).
  set (cost' := fun i j =>
                  if rdn covc j =? 0
                  then (cost i j - (reduced cost u' v' i j
                                    - clampz unit (reduced cost u' v' i j)))%Z
                  else cost i j).
  assert (forall i j, i < n2 -> j < n1 -> (0 <= reduced cost u' v' i j)%Z) as Hnn'.
  { intros i j Hi Hj. destruct (Hcells i j Hi Hj) as [_ Hnn]. unfold reduced, u', v' in *.
    destruct (Nat.eqb_spec (rdn covc j) 0) as [Hc|Hc];
      destruct (Nat.eqb_spec (rdn covr i) 0) as [Hr|Hr]; try lia.
    specialize (Hmin i j ltac:(done)). unfold mz, reduced in *. lia. }
  assert (forall i j, i < n2 -> j < n1 ->
            reduced cost' u' v' i j
            = if rdn covc j =? 0 then clampz unit (reduced cost u' v' i j)
              else reduced cost u' v' i j) as Hred'.
  { intros i j Hi Hj. unfold reduced at 1. unfold cost'.
    destruct (rdn covc j =? 0); unfold reduced; lia. }
  assert (forall i j, i < n2 -> j < n1 -> reduced cost u' v' i j = 0%Z ->
            reduced cost' u' v' i j = 0%Z) as Hzero'.
  { intros i j Hi Hj Hz. rewrite Hred', Hz by done. rewrite clampz_0.
    by destruct (rdn covc j =? 0). }
  assert (forall i j, i < n2 -> j < n1 ->
            scaled unit (cell n1 d2 i j) (reduced cost' u' v' i j) /\
            (0 <= reduced cost' u' v' i j)%Z) as Hcells'.
  { intros i j Hi Hj. rewrite Hred' by done. pose proof (Hnn' i j Hi Hj) as Hnn1.
    rewrite Hd2, Hd1 by done. destruct (Hcells i j Hi Hj) as [Hsc Hnn].
    unfold reduced, u', v' in *.
    destruct (Nat.eqb_spec (rdn covc j) 0) as [Hc|Hc];
      destruct (Nat.eqb_spec (rdn covr i) 0) as [Hr|Hr].
    - split; [|by apply clampz_bounds].
      replace (cost i j + u i - (v j + mz))%Z with (cost i j + u i - v j - mz)%Z
        by lia.
      by apply scaled_clamp_sub.
    - split; [|by apply clampz_bounds].
      replace (cost i j + (u i + mz) - (v j + mz))%Z
        with (cost i j + u i - v j + mz - mz)%Z by lia.
      apply scaled_clamp_sub; [|done]. by apply scaled_add.
    - done.
    - split; [|lia].
      replace (cost i j + (u i + mz) - v j)%Z with (cost i j + u i - v j + mz)%Z
        by lia.
      by apply scaled_add. }
  exists cost', u', v'. split; [|split].
  - intros i j Hi Hj. unfold cost'. destruct (rdn covc j =? 0); [|done].
    pose proof (clampz_bounds unit _ (Hnn' i j Hi Hj)) as Hb.
    split; [lia|]. intros He. rewrite (clampz_exact unit Hupos _ He); [lia|].
    by apply Hnn'.
  - split; [done|]. split.
    { revert Hstars. apply stars_ok_change. intros i j Hi Hj Hs.
      destruct (Hs3 j i Hj Hs) as (_ & Hr & Hz). specialize (P5 i j Hi Hr).
      rewrite Hz. apply Hzero'; [done|done|]. unfold reduced, u', v' in *.
      destruct (Nat.eqb_spec (rdn covc j) 0), (Nat.eqb_spec (rdn covr i) 0);
        try lia; exfalso; tauto. }
    split.
    { split; [|split].
      - intros i Hi. unfold u'. specialize (Hu0 i Hi).
        destruct (rdn covr i =? 0); lia.
      - intros i Hi. unfold u'. destruct (Nat.eqb_spec (rdn covr i) 0) as [|Hne].
        + by apply Hu1.
        + intros _. by destruct (P6 i Hi Hne).
      - intros j Hj. unfold v'. specialize (Hv j Hj). destruct (rdn covc j =? 0); lia. }
    split; [done|]. split; [done|]. split; [done|]. split; [done|].
    split; [done|]. split; [|split; [by exists j0|done]].
    intros i Hi Hne. destruct (P6 i Hi Hne) as (H1 & H2 & j & H3 & H4 & H5 & H6 & H7).
    split; [done|]. split; [done|]. exists j. split; [done|]. split; [done|].
    split; [|done]. apply Hzero'; [done|done|]. unfold reduced, u', v' in *. rewrite H6.
    simpl. destruct (Nat.eqb_spec (rdn covr i) 0); [done|lia].
  - pose proof (uncovered_zero_spec n1 n2 d2 covc covr n1 0) as Hsp.
    destruct (uncovered_zero n1 n2 n1 0 d2 covc covr); [done|]. exfalso.
    specialize (Hsp i1 j1 Hi1 ltac:(lia) Hc1 Hr1).
    destruct (Hcells' i1 j1 Hi1 Hj1) as [Hsc _].
    rewrite (scaled_eq0 unit Hupos _ _ Hsc) in Hsp. apply Z.eqb_neq in Hsp.
    apply Hsp, Hzero'; [done|done|]. unfold reduced, u', v'. rewrite Hc1, Hr1. simpl.
    unfold mz, reduced. lia.
Qed.

Lemma find_path_spec zstarc zstarr fuel :
  forall cost u v rank b dists covc covr zprimer,
  (forall i j, i < n2 -> j < n1 -> (cost i j <= hi)%Z) ->
  path_inv n1 n2 unit cost lo zstarc zstarr u v rank b dists covc covr zprimer ->
  path_measure n1 n2 dists covc covr < fuel ->
  exists cost' dists' zprimer' i,
    lowered n1 n2 unit cost cost' /\
    find_path n1 n2 fuel dists covc covr zstarr zprimer = Some (dists', zprimer', i) /\
    path_found n1 n2 unit cost' lo zstarc zstarr dists' zprimer' i.
Proof.
  induction fuel as [|fuel IH];
    intros cost u v rank b dists covc covr zprimer Hhi Hinv Hfuel; [lia|].
  cbn [find_path]. unfold path_measure in Hfuel.
  pose proof (uncovered_zero_spec n1 n2 dists covc covr n1 0) as Hsp.
  destruct (uncovered_zero n1 n2 n1 0 dists covc covr) as [[i j]|] eqn:Ez.
  2:{ destruct (new_zero_spec _ _ _ _ _ _ _ _ _ _ _ Hhi Hinv Ez)
        as (cost1 & u' & v' & Hlow1 & Hinv' & Hnz).
      destruct (IH cost1 u' v' rank b (new_zero n1 n2 dists covc covr) covc covr zprimer)
        as (cost2 & dists' & zprimer' & i & Hlow2 & Hrun & Hfound); [|done| |].
      { intros i j Hi Hj. destruct (Hlow1 i j Hi Hj) as [Hle _].
        specialize (Hhi i j Hi Hj). lia. }
      { unfold path_measure.
        destruct (uncovered_zero n1 n2 n1 0 (new_zero n1 n2 dists covc covr) covc covr);
          [lia|done]. }
      exists cost2, dists', zprimer', i. split; [|done].
      by apply (lowered_trans _ _ _ _ cost1). }
  destruct Hsp as (Hi & Hj & Hcj & Hri & Hq).
  pose proof Hinv as ([Hlen Hcells] & Hstars & Hpot & Hlc & Hlr & Hlp & P4 & P5 & P6
                      & P7 & P8).
  pose proof Hstars as (Hs1 & Hs2 & Hs3 & Hs4 & Hs5).
  assert (reduced cost u v i j = 0%Z) as Hred.
  { destruct (Hcells i j Hi ltac:(lia)) as [Hsc _].
    rewrite (scaled_eq0 unit Hupos _ _ Hsc) in Hq. by apply Z.eqb_eq in Hq. }
  assert (forall i', rdn zstarc j = S i' -> i' < n2 /\ i' <> i /\ rdn covr i' <> 0)
    as Hcolstar.
  { intros i' Hs. destruct (Hs3 j i' ltac:(lia) Hs) as (Hi' & Hr' & _).
    assert (rdn covr i' <> 0) as Hne by (by apply (P5 i' j Hi' Hr')).
    split; [done|]. split; [|done]. intros ->. done. }
  destruct (rdn zstarr i) as [|js] eqn:Ezs; cbn [Nat.eqb negb].
  - exists cost. eexists _, _, _. split; [apply lowered_refl|]. split; [reflexivity|].
    exists u, v, rank, b, covc, covr.
    split; [|split; [done|split; [done|split; [done|]]]].
    + split; [done|]. split; [done|]. split; [done|]. split; [done|].
      split; [done|]. split; [by rewrite length_insert|]. split; [done|].
      split; [done|]. split; [|done].
      intros i' Hi' Hne. destruct (P6 i' Hi' Hne) as (H1 & H2 & H3).
      split; [done|]. split; [done|]. rewrite rdn_insert_ne; [done|].
      intros ->. done.
    + exists j. rewrite rdn_insert_eq by lia. split; [lia|]. split; [lia|].
      split; [done|]. intros i' Hs. by apply Hcolstar.
  - replace (S js - 1) with js by lia.
    destruct (Hs4 i js Hi Ezs) as [Hjs Hcs].
    pose proof (zeros_insert covr i 1 ltac:(lia)) as Hz. rewrite Hri in Hz.
    cbn [Nat.eqb] in Hz.
    apply (IH cost u v (fun x => if x =? i then b else rank x) (S b)); [done| |].
    2:{ unfold path_measure.
        destruct (uncovered_zero n1 n2 n1 0 dists (<[js:=0]> covc) (<[i:=1]> covr));
          lia. }
    split; [done|]. split; [done|]. split; [done|].
    split; [by rewrite length_insert|]. split; [by rewrite length_insert|].
    split; [by rewrite length_insert|]. split; [|split; [|split; [|split; [done|lia]]]].
    + intros j2 Hj2 Hne. destruct (decide (j2 = js)) as [->|Hjne].
      * rewrite rdn_insert_eq in Hne by lia. done.
      * rewrite rdn_insert_ne in Hne by done. by apply P4.
    + intros i2 j2 Hi2 Hs. destruct (decide (i2 = i)) as [->|Hine].
      * assert (j2 = js) as -> by congruence.
        rewrite !rdn_insert_eq by lia. done.
      * assert (j2 <> js) as Hjne.
        { intros ->. destruct (Hs4 i2 js Hi2 Hs) as [_ Hc2]. congruence. }
        rewrite !rdn_insert_ne by done. by apply P5.
    + assert (forall j2, rdn covc j2 = 0 -> rdn (<[js := 0]> covc) j2 = 0) as Hcov.
      { intros j2 Hc2. destruct (decide (j2 = js)) as [->|Hjne].
        - rewrite rdn_insert_eq; [done|lia].
        - by rewrite rdn_insert_ne. }
      intros i2 Hi2 Hne. destruct (decide (i2 = i)) as [->|Hine].
      * rewrite Ezs. split; [done|]. rewrite Nat.eqb_refl. split; [lia|].
        exists j. rewrite rdn_insert_eq by lia. split; [lia|]. split; [lia|].
        split; [done|]. split; [by apply Hcov|].
        intros i' Hs. destruct (Hcolstar i' Hs) as (Hi' & Hine & Hcne).
        rewrite rdn_insert_ne by done. split; [done|].
        destruct (Nat.eqb_spec i' i); [done|]. by destruct (P6 i' Hi' Hcne) as (_ & ? & _).
      * rewrite rdn_insert_ne in Hne by done.
        destruct (P6 i2 Hi2 Hne) as (H1 & H2 & j2 & H3 & H4 & H5 & H6 & H7).
        split; [done|]. destruct (Nat.eqb_spec i2 i); [done|]. split; [lia|].
        exists j2. rewrite rdn_insert_ne by done. split; [done|]. split; [done|].
        split; [done|]. split; [by apply Hcov|].
        intros i' Hs. destruct (H7 i' Hs) as [Hcne Hrk].
        assert (i' <> i) as Hine' by (intros ->; done).
        rewrite rdn_insert_ne by done. split; [done|].
        destruct (Nat.eqb_spec i' i); [done|]. done.
Qed.

(** *** The main loop *)

Lemma assign_spec fuel : forall cost dists zstarc zstarr,
  (forall i j, i < n2 -> j < n1 -> (cost i j <= hi)%Z) ->
  assign_inv n1 n2 unit cost lo dists zstarc zstarr ->
  zeros zstarc + 2 * n2 + 3 <= fuel ->
  exists cost' zc dists' zr,
    lowered n1 n2 unit cost cost' /\
    assign n1 n2 fuel dists zstarc zstarr = Some zc /\
    assign_inv n1 n2 unit cost' lo dists' zc zr /\
    forall j, j < n1 -> rdn zc j <> 0.
Proof.
  induction fuel as [|fuel IH]; intros cost dists zstarc zstarr Hhi Hinv Hfuel; [lia|].
  destruct Hinv as (u & v & Hrepr & Hstars & Hpot).
  pose proof Hstars as (Hs1 & Hs2 & Hs3 & Hs4 & Hs5).
  cbn [assign].
  destruct (cover_columns_spec n1 n2 Hn zstarc Hs1) as (Hc1 & Hc2 & Hc3 & Hc4).
  destruct (cover_columns n1 zstarc (repeat 0 n1)) as [covc nc]. cbn [fst snd] in *.
  destruct (Nat.eqb_spec nc n1) as [Hnc|Hnc].
  { exists cost, zstarc, dists, zstarr. split; [apply lowered_refl|]. split; [done|].
    split; [by exists u, v|]. by apply Hc3. }
  destruct (Hc4 Hnc) as (j0 & Hj0 & Hz0).
  pose proof (zeros_pos_intro n1 n2 Hn zstarc j0 ltac:(lia) Hz0) as Hzpos.
  assert (path_inv n1 n2 unit cost lo zstarc zstarr u v (fun _ => 0) 0 dists covc
            (repeat 0 n2) (repeat 0 n2)) as Hpath.
  { split; [done|]. split; [done|]. split; [done|]. split; [done|].
    split; [by rewrite repeat_length|]. split; [by rewrite repeat_length|].
    split; [|split; [|split; [|split]]].
    - intros j Hj Hne Hz. apply Hne. by apply Hc2.
    - intros i j Hi Hs. rewrite rdn_repeat. destruct (Hs4 i j Hi Hs) as [Hj Hc].
      split; [done|]. intros Hcov. apply Hc2 in Hcov; [|done]. congruence.
    - intros i Hi Hne. by rewrite rdn_repeat in Hne.
    - by exists j0.
    - rewrite zeros_repeat. lia. }
  destruct (find_path_spec zstarc zstarr fuel _ _ _ _ _ _ _ _ _ Hhi Hpath)
    as (cost1 & dists' & zprimer' & i & Hlow1 & -> & Hfound).
  { unfold path_measure. rewrite zeros_repeat.
    destruct (uncovered_zero _ _ _ _ _ _ _); lia. }
  destruct Hfound as (u' & v' & rank & b & covc' & covr' & Hinv' & Hi & Hcov & Hzr
                      & j & Hpj & Hj & Hred & Hcol).
  pose proof Hinv' as (Hrepr' & Hstars' & Hpot' & _ & _ & _ & _ & _ & P6 & _ & P8).
  pose proof Hstars' as (Hs1' & Hs2' & Hs3' & Hs4' & Hs5').
  destruct (augment_spec n1 n2 unit cost1 lo Hn zstarc zstarr u' v' rank b dists' covc'
              covr' zprimer' i Hinv' fuel i b zstarr zstarc)
    as (zr & zc & -> & Hst & Hkeep & Hcnt).
  { split; [done|]. split; [done|]. split; [done|]. split; [done|].
    split; [intros i' j' Hi' _ Hs; by apply Hs4'|].
    split; [|split; [|split; [|split; [|split]]]].
    - intros j' Hj' Hs. destruct (Hs3' j' i Hj' Hs) as (_ & Hr & _). congruence.
    - intros i' Hi' Hne [Hs| ->]; done.
    - exists j. split; [done|]. split; [done|]. split; [done|]. split; [done|].
      intros i' Hs. pose proof (Hcol i' Hs) as Hne. split; [done|].
      destruct (Hs3' j i' Hj Hs) as (Hi' & _). by destruct (P6 i' Hi' Hne) as (_ & ? & _).
    - intros j' Hj' Hne. done.
    - done.
    - pose proof (zeros_insert_zero n1 n2 Hn zstarr i 1 ltac:(lia) ltac:(lia) Hzr). lia. }
  { lia. }
  destruct (IH cost1 dists' zc zr) as (cost2 & zc2 & dists2 & zr2 & Hlow2 & Hrun & Hinv2 & Hall).
  { intros i' j' Hi' Hj'. destruct (Hlow1 i' j' Hi' Hj') as [Hle _].
    specialize (Hhi i' j' Hi' Hj'). lia. }
  { exists u', v'. split; [done|]. split; [done|].
    destruct Hpot' as (Hp1 & Hp2 & Hp3). split; [done|]. split; [|done].
    intros i' Hi' Hne. apply Hkeep; [done|]. by apply Hp2. }
  { lia. }
  exists cost2, zc2, dists2, zr2. split; [|done]. by apply (lowered_trans _ _ _ _ cost1).
Qed.

End MunkresRun.

(** *** The result *)

Lemma scaled_sum unit (f : nat -> Q) (g : nat -> Z) l :
  (forall j, In j l -> scaled unit (f j) (g j)) ->
  scaled unit (fold_right Qplus 0%Q (map f l)) (zsum (map g l)).
Proof.
  induction l as [|j l IH]; intros H; simpl.
  { unfold scaled. ring. }
  apply scaled_add; [apply H; by left|]. apply IH. intros j' Hj'. apply H. by right.
Qed.

Lemma assignment_cost_scaled n1 n2 unit cost dists t :
  (forall i j, i < n2 -> j < n1 -> scaled unit (cell n1 dists i j) (cost i j)) ->
  length t = n1 -> Forall (fun i => i < n2) t ->
  scaled unit (assignment_cost n1 dists t) (cost_of n1 cost t).
Proof.
  intros Hcells Hlen Ht. unfold assignment_cost, cost_of. rewrite Hlen.
  apply scaled_sum. intros j Hj. apply in_seq in Hj. apply Hcells; [|lia].
  rewrite Forall_forall in Ht. apply Ht, list_elem_of_In, nth_In. lia.
Qed.

Lemma cost_of_lowered n1 n2 unit cost cost' t :
  lowered n1 n2 unit cost cost' -> (LEV_EPSILON <= unit)%Q ->
  length t = n1 -> Forall (fun i => i < n2) t ->
  cost_of n1 cost' t = cost_of n1 cost t.
Proof.
  intros Hlow He Hlen Ht. unfold cost_of. f_equal. apply map_ext_in. intros j Hj.
  apply in_seq in Hj. apply Hlow; [|lia|done].
  rewrite Forall_forall in Ht. apply Ht, list_elem_of_In, nth_In. lia.
Qed.

(** The run on a matrix of whole multiples of a unit: it ends, with an
    assignment of distinct rows; the assignment is a cheapest one when no
    entry can be taken for a zero. *)
Lemma munkers_blackman_spec (n1 n2 : nat) (dists : list Q) (unit : Q)
    (cost : nat -> nat -> Z) (lo hi : Z) (fuel : nat) :
  n1 <= n2 ->
  length dists = n2 * n1 ->
  (0 < unit)%Q ->
  (forall i j, i < n2 -> j < n1 ->
     scaled unit (cell n1 dists i j) (cost i j) /\ (lo <= cost i j <= hi)%Z) ->
  (unit * inject_Z (hi - lo) < LEV_INFINITY)%Q ->
  n1 + 2 * n2 + 3 <= fuel ->
  exists sigma,
    munkers_blackman n1 n2 fuel dists (mkMunkresHeap true true true true true)
    = Some (Some sigma) /\
    length sigma = n1 /\ Forall (fun i => i < n2) sigma /\ NoDup sigma /\
    ((LEV_EPSILON <= unit)%Q ->
     forall tau, length tau = n1 -> Forall (fun i => i < n2) tau -> NoDup tau ->
       (assignment_cost n1 dists sigma <= assignment_cost n1 dists tau)%Q).
Proof.
  intros Hn Hlen Hupos Hcells Hspread Hfuel.
  assert (forall i j, i < n2 -> j < n1 -> scaled unit (cell n1 dists i j) (cost i j))
    as Hsc by (intros i j Hi Hj; by apply Hcells).
  unfold munkers_blackman. cbn [mh_covc mh_zstarc mh_covr mh_zstarr mh_zprimer andb negb].
  destruct (reduce_columns_spec n1 n2 unit lo Hn Hupos cost dists Hlen)
    as (cost1 & v & Hlow1 & Hrepr & Hstars & Hpot).
  { intros i j Hi Hj. destruct (Hcells i j Hi Hj) as [A B]. split; [done|lia]. }
  destruct (fold_left _ _ _) as [[dists1 zstarc] zstarr]. cbn [fst snd] in *.
  destruct (assign_spec n1 n2 unit lo hi Hn Hupos Hspread fuel cost1 dists1
              zstarc zstarr) as (cost2 & zc & dists2 & zr & Hlow2 & -> & Hinv & Hall).
  { intros i j Hi Hj. destruct (Hlow1 i j Hi Hj) as [Hle _].
    destruct (Hcells i j Hi Hj) as [_ B]. lia. }
  { by exists (fun _ => 0%Z), v. }
  { destruct Hstars as (Hs1 & _). pose proof (zeros_le zstarc). lia. }
  destruct (stars_optimal n1 n2 unit cost2 lo Hn dists2 zc zr Hinv Hall)
    as (H1 & H2 & H3 & H4).
  eexists. split; [reflexivity|]. split; [done|]. split; [done|]. split; [done|].
  intros He tau Hltau Htau Hnd. specialize (H4 tau Hltau Htau Hnd).
  pose proof (lowered_trans _ _ _ _ _ _ Hlow1 Hlow2) as Hlow.
  rewrite !(cost_of_lowered n1 n2 unit cost cost2) in H4 by done.
  pose proof (assignment_cost_scaled n1 n2 unit cost dists _ Hsc H1 H2) as Ha.
  pose proof (assignment_cost_scaled n1 n2 unit cost dists _ Hsc Hltau Htau) as Hb.
  unfold scaled in Ha, Hb. rewrite Ha, Hb.
  apply Qmult_le_l; [done|]. by rewrite <- Zle_Qle.
Qed.






(** * Further properties of the distance kernel *)

Section KernelMetric.
Context {A : Type} `{EqDecision A}.

Lemma lev_unit_xcost (a : list A) : forall b,
  lev 1 a b <= lev 2 a b /\ lev 2 a b <= 2 * lev 1 a b /\
  Nat.even (lev 2 a b + length a + length b) = true.
Proof.
  induction a as [|x a IH]; intros b.
  { cbn [lev length]. split; [lia|]. split; [lia|].
    replace (length b + 0 + length b) with (2 * length b) by lia.
    apply Nat.even_spec. by exists (length b). }
  induction b as [|y b IHb].
  { rewrite !lev_nil_r. cbn [length]. split; [lia|]. split; [lia|].
    replace (S (length a) + S (length a) + 0) with (2 * S (length a)) by lia.
    apply Nat.even_spec. by exists (S (length a)). }
  rewrite !lev_cons. unfold min3, subcost.
  destruct (IH b) as (I1 & I2 & I3). destruct (IH (y :: b)) as (J1 & J2 & J3).
  destruct IHb as (K1 & K2 & K3).
  apply Nat.even_spec in I3 as [i I3]. apply Nat.even_spec in J3 as [j J3].
  apply Nat.even_spec in K3 as [k K3]. cbn [length] in *.
  split; [case_bool_decide; lia|]. split; [case_bool_decide; lia|].
  apply Nat.even_spec.
  case_bool_decide.
  - destruct (Nat.min_spec (lev 2 a b + 0)
                (Nat.min (lev 2 a (y :: b) + 1) (lev 2 (x :: a) b + 1))) as [[_ ->]|[_ ->]];
      [exists (i + 1); lia|].
    destruct (Nat.min_spec (lev 2 a (y :: b) + 1) (lev 2 (x :: a) b + 1)) as [[_ ->]|[_ ->]];
      [exists (j + 1); lia|exists (k + 1); lia].
  - destruct (Nat.min_spec (lev 2 a b + 2)
                (Nat.min (lev 2 a (y :: b) + 1) (lev 2 (x :: a) b + 1))) as [[_ ->]|[_ ->]];
      [exists (i + 2); lia|].
    destruct (Nat.min_spec (lev 2 a (y :: b) + 1) (lev 2 (x :: a) b + 1)) as [[_ ->]|[_ ->]];
      [exists (j + 1); lia|exists (k + 1); lia].
Qed.

(** X1.  [lev_edit_distance] and [lev_u_edit_distance] are symmetric: for all
    strings [a] and [b] and either cost model, the distance from [a] to [b] is
    the distance from [b] to [a].  The result does not depend on what the
    allocated row held. *)
Theorem lev_edit_distance_symmetric (a b : list A) (xcost : bool) (j1 j2 : nat -> nat) :
  lev_edit_distance (length a) a (length b) b xcost (Some j1)
  = lev_edit_distance (length b) b (length a) a xcost (Some j2) /\
  lev_u_edit_distance (length a) a (length b) b xcost (Some j1)
  = lev_u_edit_distance (length b) b (length a) a xcost (Some j2).
Proof.
  rewrite !lev_edit_distance_lev, !lev_u_edit_distance_lev.
  by rewrite (lev_sym _ a b).
Qed.

Lemma strip_prefix_same fuel : forall (s : list A), length s <= fuel ->
  strip_prefix fuel (length s) s (length s) s
  = (0, drop (length s) s, 0, drop (length s) s).
Proof.
  induction fuel as [|fuel IH]; intros s Hs.
  - destruct s; [done|cbn in Hs; lia].
  - destruct s as [|x s]; [done|]. cbn [strip_prefix length head tail].
    rewrite !Nat.sub_succ, !Nat.sub_0_r. change (0 <? S _) with true. cbn [andb].
    rewrite bool_decide_eq_true_2 by done. rewrite IH by (cbn in Hs; lia). done.
Qed.

Lemma lev_edit_distance_same (a : list A) xcost heap :
  lev_edit_distance (length a) a (length a) a xcost heap = Some 0 /\
  lev_u_edit_distance (length a) a (length a) a xcost heap = Some 0.
Proof.
  unfold lev_edit_distance, lev_u_edit_distance.
  rewrite strip_prefix_same by lia. by destruct a.
Qed.

(** X2.  [lev_edit_distance] and [lev_u_edit_distance] return 0 for two equal
    strings, whether the allocation succeeds or not, and when the row was
    allocated they return 0 only for equal strings. *)
Theorem lev_edit_distance_zero (a b : list A) (xcost : bool) (junk : nat -> nat) :
  (forall heap,
     lev_edit_distance (length a) a (length a) a xcost heap = Some 0 /\
     lev_u_edit_distance (length a) a (length a) a xcost heap = Some 0) /\
  (lev_edit_distance (length a) a (length b) b xcost (Some junk) = Some 0 <-> a = b) /\
  (lev_u_edit_distance (length a) a (length b) b xcost (Some junk) = Some 0 <-> a = b).
Proof.
  split; [intros heap; apply lev_edit_distance_same|].
  assert (lev (xsc xcost) a b = 0 -> a = b) as Hz.
  { intros Hz. apply lev_eq_0 in Hz; [done|]. destruct xcost; simpl; lia. }
  split; split.
  - rewrite lev_edit_distance_lev. intros [= E]. by apply Hz.
  - intros <-. apply lev_edit_distance_same.
  - rewrite lev_u_edit_distance_lev. intros [= E]. by apply Hz.
  - intros <-. apply lev_edit_distance_same.
Qed.

(** X3.  The distances that [lev_edit_distance] and [lev_u_edit_distance]
    return obey the triangle inequality, under either cost model: the distance
    from [a] to [c] is at most the distance from [a] to [b] plus that from [b]
    to [c]. *)
Theorem lev_edit_distance_triangle (a b c : list A) (xcost : bool) (j1 j2 j3 : nat -> nat) :
  exists dab dbc dac,
    lev_edit_distance (length a) a (length b) b xcost (Some j1) = Some dab /\
    lev_edit_distance (length b) b (length c) c xcost (Some j2) = Some dbc /\
    lev_edit_distance (length a) a (length c) c xcost (Some j3) = Some dac /\
    lev_u_edit_distance (length a) a (length b) b xcost (Some j1) = Some dab /\
    lev_u_edit_distance (length b) b (length c) c xcost (Some j2) = Some dbc /\
    lev_u_edit_distance (length a) a (length c) c xcost (Some j3) = Some dac /\
    dac <= dab + dbc.
Proof.
  eexists _, _, _. rewrite !lev_edit_distance_lev, !lev_u_edit_distance_lev.
  do 6 (split; [done|]). apply lev_triangle.
Qed.

(** X4.  The distance that [lev_edit_distance] and [lev_u_edit_distance]
    return is at least the difference of the two lengths; it is at most the
    longer length when [xcost] is 0 and at most the sum of the lengths when it
    is not. *)
Theorem lev_edit_distance_bounds (a b : list A) (xcost : bool) (junk : nat -> nat) :
  exists d,
    lev_edit_distance (length a) a (length b) b xcost (Some junk) = Some d /\
    lev_u_edit_distance (length a) a (length b) b xcost (Some junk) = Some d /\
    length a - length b <= d /\ length b - length a <= d /\
    d <= (if xcost then length a + length b else Nat.max (length a) (length b)).
Proof.
  eexists. rewrite lev_edit_distance_lev, lev_u_edit_distance_lev.
  split; [done|]. split; [done|].
  pose proof (lev_ge_length_diff (xsc xcost) a b) as [? ?].
  split; [done|]. split; [done|].
  destruct xcost; [apply lev_le_length_sum|apply lev_le_max; simpl; lia].
Qed.

(** X5.  For both kernels the distance with [xcost != 0] lies between the
    distance with [xcost == 0] and twice that distance, and it has the parity
    of the sum of the two lengths. *)
Theorem lev_edit_distance_xcost_unit (a b : list A) (j1 j2 : nat -> nat) :
  exists d1 d2,
    lev_edit_distance (length a) a (length b) b false (Some j1) = Some d1 /\
    lev_edit_distance (length a) a (length b) b true (Some j2) = Some d2 /\
    lev_u_edit_distance (length a) a (length b) b false (Some j1) = Some d1 /\
    lev_u_edit_distance (length a) a (length b) b true (Some j2) = Some d2 /\
    d1 <= d2 /\ d2 <= 2 * d1 /\
    Nat.even (d2 + length a + length b) = true.
Proof.
  eexists _, _. rewrite !lev_edit_distance_lev, !lev_u_edit_distance_lev.
  do 4 (split; [done|]). apply lev_unit_xcost.
Qed.

Lemma strip_prefix_app (p u v : list A) : forall fuel,
  strip_prefix (length p + fuel) (length (p ++ u)) (p ++ u) (length (p ++ v)) (p ++ v)
  = strip_prefix fuel (length u) u (length v) v.
Proof.
  induction p as [|x p IH]; intros fuel; [done|].
  cbn [app length Nat.add strip_prefix head tail].
  rewrite !Nat.sub_succ, !Nat.sub_0_r. change (0 <? S _) with true. cbn [andb].
  rewrite bool_decide_eq_true_2 by done. apply IH.
Qed.

(** What is left by the prefix loop are two suffixes from the same
    position. *)
Lemma strip_prefix_drop fuel : forall (u v : list A),
  exists k, k <= length u /\ k <= length v /\
    strip_prefix fuel (length u) u (length v) v
    = (length u - k, drop k u, length v - k, drop k v).
Proof.
  induction fuel as [|fuel IH]; intros u v; cbn [strip_prefix].
  { exists 0. rewrite !Nat.sub_0_r, !drop_0. split; [lia|]. split; [lia|done]. }
  destruct u as [|x u], v as [|y v]; cbn [length head tail];
    try (exists 0; cbn; split; [lia|]; split; [lia|done]).
  rewrite !Nat.sub_succ, !Nat.sub_0_r. change (0 <? S _) with true. cbn [andb].
  case_bool_decide.
  - destruct (IH u v) as (k & K1 & K2 & ->). exists (S k). cbn [drop].
    split; [lia|]. split; [lia|]. done.
  - exists 0. cbn. split; [lia|]. split; [lia|done].
Qed.

(** The suffix loop on a string and the same string with symbols in
    front. *)
Lemma strip_suffix_whole (z t : list A) : forall fuel l,
  l <= fuel -> l <= length t ->
  strip_suffix fuel l t (length z + l) (z ++ t) = (0, length z).
Proof.
  induction fuel as [|fuel IH]; intros l Hf Hl; cbn [strip_suffix].
  { assert (l = 0) as -> by lia. by rewrite Nat.add_0_r. }
  destruct l as [|l]; [by rewrite Nat.add_0_r|].
  change (0 <? S l) with true.
  destruct (Nat.ltb_spec 0 (length z + S l)); [|lia]. cbn [andb].
  replace (S l - 1) with l by lia.
  replace (length z + S l - 1) with (length z + l) by lia.
  rewrite lookup_app_r by lia. replace (length z + l - length z) with l by lia.
  rewrite bool_decide_eq_true_2 by done. apply IH; lia.
Qed.

Lemma strip_suffix_whole_l (z t : list A) : forall fuel l,
  l <= fuel -> l <= length t ->
  strip_suffix fuel (length z + l) (z ++ t) l t = (length z, 0).
Proof.
  induction fuel as [|fuel IH]; intros l Hf Hl; cbn [strip_suffix].
  { assert (l = 0) as -> by lia. by rewrite Nat.add_0_r. }
  destruct l as [|l]; [by rewrite Nat.add_0_r, andb_false_r|].
  change (0 <? S l) with true.
  destruct (Nat.ltb_spec 0 (length z + S l)); [|lia]. cbn [andb].
  replace (S l - 1) with l by lia.
  replace (length z + S l - 1) with (length z + l) by lia.
  rewrite lookup_app_r by lia. replace (length z + l - length z) with l by lia.
  rewrite bool_decide_eq_true_2 by done. apply IH; lia.
Qed.

Lemma strip_insertion (p x s : list A) :
  (exists t1 t2,
     strip_prefix (length (p ++ s)) (length (p ++ s)) (p ++ s)
       (length (p ++ x ++ s)) (p ++ x ++ s) = (length t1, t1, length t2, t2) /\
     strip_suffix (length t1) (length t1) t1 (length t2) t2 = (0, length x)) /\
  (exists t1 t2,
     strip_prefix (length (p ++ x ++ s)) (length (p ++ x ++ s)) (p ++ x ++ s)
       (length (p ++ s)) (p ++ s) = (length t1, t1, length t2, t2) /\
     strip_suffix (length t1) (length t1) t1 (length t2) t2 = (length x, 0)).
Proof.
  assert (forall k, k <= length s ->
            drop k (x ++ s) = drop k (x ++ take k s) ++ drop k s) as Hz.
  { intros k Hk. rewrite <- (take_drop k s) at 1. rewrite app_assoc.
    rewrite drop_app_le; [done|]. rewrite length_app, length_take. lia. }
  assert (forall k, k <= length s -> length (drop k (x ++ take k s)) = length x) as Hzl.
  { intros k Hk. rewrite length_drop, length_app, length_take. lia. }
  split.
  - pose proof (strip_prefix_app p s (x ++ s) (length s)) as Hp.
    rewrite <- length_app in Hp.
    destruct (strip_prefix_drop (length s) s (x ++ s)) as (k & K1 & K2 & Hd).
    rewrite Hd in Hp.
    exists (drop k s), (drop k (x ++ s)). rewrite !length_drop. split; [done|].
    rewrite (Hz k K1).
    replace (length (x ++ s) - k) with (length (drop k (x ++ take k s)) + (length s - k))
      by (rewrite Hzl, length_app; lia).
    rewrite strip_suffix_whole by (rewrite ?length_drop; lia).
    by rewrite Hzl.
  - pose proof (strip_prefix_app p (x ++ s) s (length (x ++ s))) as Hp.
    rewrite <- length_app in Hp.
    destruct (strip_prefix_drop (length (x ++ s)) (x ++ s) s) as (k & K1 & K2 & Hd).
    rewrite Hd in Hp.
    exists (drop k (x ++ s)), (drop k s). rewrite !length_drop. split; [done|].
    rewrite (Hz k K2).
    replace (length (x ++ s) - k) with (length (drop k (x ++ take k s)) + (length s - k))
      by (rewrite Hzl, length_app; lia).
    rewrite strip_suffix_whole_l by (rewrite ?length_drop; lia).
    by rewrite Hzl.
Qed.

(** X6.  When one string is the other with a block [x] of symbols inserted at
    one place, [lev_edit_distance] and [lev_u_edit_distance] return the length
    of [x], in both directions and under either cost model, and they do so
    without the row: the result is the same when the allocation fails. *)
Theorem lev_edit_distance_insertion (p x s : list A) (xcost : bool)
    (heap : option (nat -> nat)) :
  lev_edit_distance (length (p ++ s)) (p ++ s) (length (p ++ x ++ s)) (p ++ x ++ s)
    xcost heap = Some (length x) /\
  lev_edit_distance (length (p ++ x ++ s)) (p ++ x ++ s) (length (p ++ s)) (p ++ s)
    xcost heap = Some (length x) /\
  lev_u_edit_distance (length (p ++ s)) (p ++ s) (length (p ++ x ++ s)) (p ++ x ++ s)
    xcost heap = Some (length x) /\
  lev_u_edit_distance (length (p ++ x ++ s)) (p ++ x ++ s) (length (p ++ s)) (p ++ s)
    xcost heap = Some (length x).
Proof.
  destruct (strip_insertion p x s) as [(t1 & t2 & E1 & E2) (u1 & u2 & F1 & F2)].
  unfold lev_edit_distance, lev_u_edit_distance.
  rewrite E1, E2, F1, F2. cbn [Nat.eqb].
  by destruct (length x).
Qed.

End KernelMetric.

(** * Further properties of edit scripts *)

Section TransformsProps.
Context {A : Type} `{EqDecision A}.
Variables a b : list A.


Lemma transforms_bounds i j ops : transforms a b i j ops -> i <= length a /\ j <= length b.
Proof. destruct ops; cbn; tauto. Qed.

Lemma same_run_0 i j : same_run a b i j 0.
Proof. unfold same_run. by rewrite !take_0. Qed.

Lemma same_run_S i j k x :
  a !! i = Some x -> b !! j = Some x -> same_run a b (S i) (S j) k -> same_run a b i j (S k).
Proof.
  unfold same_run. intros Ha Hb Hk.
  rewrite (drop_S _ _ _ Ha), (drop_S _ _ _ Hb). cbn. by rewrite Hk.
Qed.

(** A symbol common to both strings in front of the script. *)
Lemma transforms_shift i j ops x :
  a !! i = Some x -> b !! j = Some x ->
  transforms a b (S i) (S j) ops -> transforms a b i j ops.
Proof.
  intros Ha Hb Ht.
  pose proof (lookup_lt_Some _ _ _ Ha). pose proof (lookup_lt_Some _ _ _ Hb).
  destruct ops as [|o ops]; cbn [transforms] in *.
  - destruct Ht as (_ & _ & Hd). split; [lia|]. split; [lia|].
    by rewrite (drop_S _ _ _ Ha), (drop_S _ _ _ Hb), Hd.
  - destruct Ht as (_ & _ & k & Hs & Hd & Hr & Ho).
    split; [lia|]. split; [lia|]. exists (S k).
    split; [lia|]. split; [lia|]. split; [by apply (same_run_S _ _ _ x)|done].
Qed.

End TransformsProps.

Section TransformsPrefix.
Context {A : Type} `{EqDecision A}.

Lemma transforms_prefix (pre t1 t2 : list A) ops :
  transforms (pre ++ t1) (pre ++ t2) (length pre) (length pre) ops ->
  transforms (pre ++ t1) (pre ++ t2) 0 0 ops.
Proof.
  intros Ht.
  assert (forall k, k <= length pre ->
    transforms (pre ++ t1) (pre ++ t2) (length pre - k) (length pre - k) ops) as Hk.
  { induction k as [|k IH]; intros Hle.
    - by rewrite Nat.sub_0_r.
    - destruct (lookup_lt_is_Some_2 pre (length pre - S k) ltac:(lia)) as [x Hx].
      apply (transforms_shift _ _ _ _ _ x).
      + by rewrite lookup_app_l by lia.
      + by rewrite lookup_app_l by lia.
      + replace (S (length pre - S k)) with (length pre - k) by lia. apply IH. lia. }
  specialize (Hk (length pre) ltac:(lia)). by rewrite Nat.sub_diag in Hk.
Qed.

End TransformsPrefix.

Lemma drop_insert_head {T} (l : list T) pos o :
  pos < length l -> drop pos (<[pos := o]> l) = o :: drop (S pos) l.
Proof.
  intros Hlt. rewrite (drop_S _ o); [|by apply list_lookup_insert_eq].
  f_equal. apply drop_insert_lt. lia.
Qed.

Section BacktrackT.
Context {A : Type} `{EqDecision A}.
Variables a b pre t1 t2 : list A.
Variables n m : nat.
Variable matrix : list nat.
Hypothesis Ha : a = pre ++ t1.
Hypothesis Hb : b = pre ++ t2.
Hypothesis Hn : n <= length t1.
Hypothesis Hm : m <= length t2.
Hypothesis Hsuf : drop n t1 = drop m t2.
Hypothesis Hmat : filled t1 t2 n m (fun _ _ => True) matrix.

Local Abbreviation off := (length pre).
Local Abbreviation Mc := (M 1 t1 t2).
Local Abbreviation W := (m + 1).
Local Abbreviation transforms := (transforms (A:=A) a b).

Lemma transforms_start : transforms (n + off) (m + off) [].
Proof.
  cbn. rewrite Ha, Hb, !length_app. split; [lia|]. split; [lia|].
  rewrite !drop_app_ge by lia.
  replace (n + off - off) with n by lia. replace (m + off - off) with m by lia. done.
Qed.

Lemma transforms_insert i j ops :
  i <= n -> j < m -> transforms (i + off) (S j + off) ops ->
  transforms (i + off) (j + off) (mkEditOp LEV_EDIT_INSERT (i + off) (j + off) :: ops).
Proof.
  intros Hi Hj Ht. pose proof (transforms_bounds _ _ _ _ _ Ht) as [B1 B2].
  cbn. split; [lia|]. split; [lia|]. exists 0.
  split; [lia|]. split; [lia|]. split; [apply same_run_0|].
  split; [lia|]. by replace (j + off + 1) with (S j + off) by lia.
Qed.

Lemma transforms_delete i j ops :
  i < n -> j <= m -> transforms (S i + off) (j + off) ops ->
  transforms (i + off) (j + off) (mkEditOp LEV_EDIT_DELETE (i + off) (j + off) :: ops).
Proof.
  intros Hi Hj Ht. pose proof (transforms_bounds _ _ _ _ _ Ht) as [B1 B2].
  cbn. split; [lia|]. split; [lia|]. exists 0.
  split; [lia|]. split; [lia|]. split; [apply same_run_0|].
  split; [lia|]. by replace (i + off + 1) with (S i + off) by lia.
Qed.

Lemma transforms_replace i j ops :
  i < n -> j < m -> transforms (S i + off) (S j + off) ops ->
  transforms (i + off) (j + off) (mkEditOp LEV_EDIT_REPLACE (i + off) (j + off) :: ops).
Proof.
  intros Hi Hj Ht. pose proof (transforms_bounds _ _ _ _ _ Ht) as [B1 B2].
  cbn. split; [lia|]. split; [lia|]. exists 0.
  split; [lia|]. split; [lia|]. split; [apply same_run_0|].
  split; [lia|]. split; [lia|].
  replace (i + off + 1) with (S i + off) by lia.
  by replace (j + off + 1) with (S j + off) by lia.
Qed.

Lemma transforms_keep i j ops :
  i < n -> j < m -> t1 !! i = t2 !! j -> transforms (S i + off) (S j + off) ops ->
  transforms (i + off) (j + off) ops.
Proof.
  intros Hi Hj Heq Ht.
  destruct (lookup_lt_is_Some_2 t2 j ltac:(lia)) as [c Hc].
  apply (transforms_shift _ _ _ _ _ c); [| |done].
  - rewrite Ha, lookup_app_r by lia. replace (i + off - off) with i by lia. congruence.
  - rewrite Hb, lookup_app_r by lia. by replace (j + off - off) with j by lia.
Qed.

Lemma backtrack_transforms fuel : forall i j pos dir ops ops',
  i <= n -> j <= m -> pos = Mc i j -> pos <= length ops ->
  transforms (i + off) (j + off) (drop pos ops) ->
  backtrack fuel t1 t2 off off W matrix i j (i * W + j) pos dir ops = Some ops' ->
  transforms 0 0 ops'.
Proof.
  assert (forall i j ops, i = 0 -> j = 0 -> Mc i j <= length ops ->
            transforms (i + off) (j + off) (drop (Mc i j) ops) -> transforms 0 0 ops)
    as Hend.
  { intros i j ops -> -> _. rewrite M_0_l by lia. rewrite drop_0. cbn [Nat.add].
    rewrite Ha, Hb. apply transforms_prefix. }
  induction fuel as [|fuel IH]; intros i j pos dir ops ops' Hi Hj -> Hlen Hok;
    cbn [backtrack].
  { destruct (Nat.eqb_spec i 0) as [Ei|]; [|done].
    destruct (Nat.eqb_spec j 0) as [Ej|]; [|done].
    cbn [andb]. intros [= <-]. by apply (Hend i j). }
  destruct ((i =? 0) && (j =? 0)) eqn:E0.
  { apply andb_prop in E0 as [Ei%Nat.eqb_eq Ej%Nat.eqb_eq].
    intros [= <-]. by apply (Hend i j). }
  clear Hend. cbv zeta.
  pose proof (rd_cell t1 t2 n m matrix Hmat i j Hi Hj) as Rv.
  assert (forall d, negb (j =? 0) = true ->
            (rd matrix (i * W + j) =? rd matrix (i * W + j - 1) + 1) = true ->
            match Mc i j with
            | 0 => None
            | S pos =>
                backtrack fuel t1 t2 off off W matrix i (j - 1) (i * W + j - 1) pos d
                  (<[pos := mkEditOp LEV_EDIT_INSERT (i + off) (j - 1 + off)]> ops)
            end = Some ops' -> transforms 0 0 ops') as Hins.
  { intros d Hj0%negb_true_iff%Nat.eqb_neq Hrd%Nat.eqb_eq.
    pose proof (rd_cell t1 t2 n m matrix Hmat i (j - 1) Hi ltac:(lia)) as Rl.
    replace (i * W + j - 1) with (i * W + (j - 1)) in * by lia.
    rewrite Rv, Rl in Hrd.
    destruct (Mc i j) as [|pos] eqn:Epos; [done|].
    apply IH; [lia|lia|lia|rewrite length_insert; lia|].
    rewrite drop_insert_head by lia. apply transforms_insert; [lia|lia|].
    by replace (S (j - 1)) with j by lia. }
  assert (forall d, negb (i =? 0) = true ->
            (rd matrix (i * W + j) =? rd matrix (i * W + j - W) + 1) = true ->
            match Mc i j with
            | 0 => None
            | S pos =>
                backtrack fuel t1 t2 off off W matrix (i - 1) j (i * W + j - W) pos d
                  (<[pos := mkEditOp LEV_EDIT_DELETE (i - 1 + off) (j + off)]> ops)
            end = Some ops' -> transforms 0 0 ops') as Hdel.
  { intros d Hi0%negb_true_iff%Nat.eqb_neq Hrd%Nat.eqb_eq.
    pose proof (rd_cell t1 t2 n m matrix Hmat (i - 1) j ltac:(lia) Hj) as Ru.
    replace (i * W + j - W) with ((i - 1) * W + j) in * by nia.
    rewrite Rv, Ru in Hrd.
    destruct (Mc i j) as [|pos] eqn:Epos; [done|].
    apply IH; [lia|lia|lia|rewrite length_insert; lia|].
    rewrite drop_insert_head by lia. apply transforms_delete; [lia|lia|].
    by replace (S (i - 1)) with i by lia. }
  destruct ((dir <? 0)%Z && negb (j =? 0)
            && (rd matrix (i * W + j) =? rd matrix (i * W + j - 1) + 1)) eqn:E1.
  { apply andb_prop in E1 as [[_ E1]%andb_prop E1']. by apply Hins. }
  destruct ((0 <? dir)%Z && negb (i =? 0)
            && (rd matrix (i * W + j) =? rd matrix (i * W + j - W) + 1)) eqn:E2.
  { apply andb_prop in E2 as [[_ E2]%andb_prop E2']. by apply Hdel. }
  destruct (negb (i =? 0) && negb (j =? 0)
            && (rd matrix (i * W + j) =? rd matrix (i * W + j - W - 1))
            && bool_decide (t1 !! (i - 1) = t2 !! (j - 1))) eqn:E3.
  { apply andb_prop in E3 as [[[Hi0%negb_true_iff%Nat.eqb_neq
      Hj0%negb_true_iff%Nat.eqb_neq]%andb_prop Hrd%Nat.eqb_eq]%andb_prop
      Heq%bool_decide_eq_true].
    pose proof (rd_cell t1 t2 n m matrix Hmat (i - 1) (j - 1) ltac:(lia) ltac:(lia)) as Rd.
    replace (i * W + j - W - 1) with ((i - 1) * W + (j - 1)) in * by nia.
    replace (i * W + j - (W + 1)) with ((i - 1) * W + (j - 1)) in * by nia.
    rewrite Rv, Rd in Hrd.
    apply IH; [lia|lia|lia|lia|].
    apply transforms_keep; [lia|lia|done|].
    replace (S (i - 1)) with i by lia. by replace (S (j - 1)) with j by lia. }
  destruct (negb (i =? 0) && negb (j =? 0)
            && (rd matrix (i * W + j) =? rd matrix (i * W + j - W - 1) + 1)) eqn:E4.
  { apply andb_prop in E4 as [[Hi0%negb_true_iff%Nat.eqb_neq
      Hj0%negb_true_iff%Nat.eqb_neq]%andb_prop Hrd%Nat.eqb_eq].
    pose proof (rd_cell t1 t2 n m matrix Hmat (i - 1) (j - 1) ltac:(lia) ltac:(lia)) as Rd.
    replace (i * W + j - W - 1) with ((i - 1) * W + (j - 1)) in * by nia.
    replace (i * W + j - (W + 1)) with ((i - 1) * W + (j - 1)) in * by nia.
    rewrite Rv, Rd in Hrd.
    destruct (Mc i j) as [|pos] eqn:Epos; [done|].
    apply IH; [lia|lia|lia|rewrite length_insert; lia|].
    rewrite drop_insert_head by lia. apply transforms_replace; [lia|lia|].
    replace (S (i - 1)) with i by lia. by replace (S (j - 1)) with j by lia. }
  destruct ((dir =? 0)%Z && negb (j =? 0)
            && (rd matrix (i * W + j) =? rd matrix (i * W + j - 1) + 1)) eqn:E5.
  { apply andb_prop in E5 as [[_ E5]%andb_prop E5']. by apply Hins. }
  destruct ((dir =? 0)%Z && negb (i =? 0)
            && (rd matrix (i * W + j) =? rd matrix (i * W + j - W) + 1)) eqn:E6.
  { apply andb_prop in E6 as [[_ E6]%andb_prop E6']. by apply Hdel. }
  done.
Qed.

End BacktrackT.

Section FindTransforms.
Context {A : Type} `{EqDecision A}.

(** The script that [lev_editops_find] returns, the empty one for [NULL]. *)
Lemma lev_editops_find_transforms (a b : list A) jm jo :
  exists r,
    lev_editops_find (length a) a (length b) b (Some jm) (Some jo)
    = Some (r, Z.of_nat (lev 1 a b)) /\
    length (default [] r) = lev 1 a b /\
    (r = None <-> lev 1 a b = 0) /\
    transforms a b 0 0 (default [] r).
Proof.
  destruct (lev_editops_find_matrix a b jm (Some jo))
    as (pre & t1 & t2 & n & m & matrix & Ha & Hb & Hn & Hm & Hd & Hf & ->).
  unfold editops_from_cost_matrix.
  assert (lev 1 a b = M 1 t1 t2 n m) as Hlev by (rewrite Ha, Hb; by apply lev_core).
  replace ((n + 1) * (m + 1) - 1) with (n * (m + 1) + m) by lia.
  rewrite (rd_cell t1 t2 n m matrix Hf n m) by lia.
  rewrite <- Hlev.
  destruct (Nat.eqb_spec (lev 1 a b) 0) as [E|E].
  { exists None. rewrite E. split; [done|]. split; [done|]. split; [done|].
    apply lev_eq_0 in E; [|lia]. subst b. cbn. split; [lia|]. split; [lia|done]. }
  replace (n + 1 - 1) with n by lia. replace (m + 1 - 1) with m by lia.
  destruct (backtrack_spec a b pre t1 t2 n m matrix Ha Hb Hn Hm Hf
              (lev 1 a b) (n + m) n m (lev 1 a b) 0%Z
              (map jo (seq 0 (lev 1 a b))))
    as (ops & Hbt & Hlen & Hs & Hok); [lia|lia|lia|done|lia| |lia|lia|lia| |].
  - by rewrite length_map, length_seq.
  - rewrite drop_ge by (rewrite length_map, length_seq; lia).
    by apply (suffix_ok_start a b pre t1 t2).
  - rewrite Hbt. exists (Some ops). split; [done|]. split; [done|]. split; [done|].
    cbn [default].
    apply (backtrack_transforms a b pre t1 t2 n m matrix Ha Hb Hn Hm Hf
             (n + m) n m (lev 1 a b) 0%Z (map jo (seq 0 (lev 1 a b))) ops);
      [lia|lia|done|by rewrite length_map, length_seq| |done].
    rewrite drop_ge by (rewrite length_map, length_seq; lia).
    by apply (transforms_start a b pre t1 t2 n m).
Qed.

End FindTransforms.

Section TransformsUse.
Context {A : Type} `{EqDecision A}.

Lemma transforms_head (a b : list A) i j o ops :
  transforms a b i j (o :: ops) ->
  i <= spos o /\ j <= dpos o /\ spos o <= length a /\ dpos o <= length b /\
  spos o - i = dpos o - j /\
  type o <> LEV_EDIT_KEEP /\
  (spos o = length a -> type o = LEV_EDIT_INSERT) /\
  (dpos o = length b -> type o = LEV_EDIT_DELETE) /\
  transforms a b (advance (type o) (spos o, dpos o)).1
    (advance (type o) (spos o, dpos o)).2 ops.
Proof.
  cbn [transforms]. intros (Hi & Hj & k & Hs & Hd & Hr & Ho).
  destruct (type o); [done|..]; cbn [advance fst snd].
  - destruct Ho as (? & ? & Ht). repeat split; try done; lia.
  - destruct Ho as (? & Ht). pose proof (transforms_bounds _ _ _ _ _ Ht) as [? ?].
    repeat split; try done; lia.
  - destruct Ho as (? & Ht). pose proof (transforms_bounds _ _ _ _ _ Ht) as [? ?].
    repeat split; try done; lia.
Qed.

Lemma transforms_gap (a b : list A) i j o ops :
  transforms a b i j (o :: ops) -> same_run a b i j (spos o - i).
Proof.
  cbn [transforms]. intros (Hi & Hj & k & Hs & Hd & Hr & Ho).
  by replace (spos o - i) with k by lia.
Qed.

Lemma advance_ge t s d :
  s <= (advance t (s, d)).1 /\ d <= (advance t (s, d)).2.
Proof. destruct t; cbn; lia. Qed.

Lemma transforms_check_bounds (a b : list A) ops : forall i j,
  transforms a b i j ops -> check_bounds (length a) (length b) ops = LEV_EDIT_ERR_OK.
Proof.
  induction ops as [|o ops IH]; intros i j Ht; [done|].
  destruct (transforms_head _ _ _ _ _ _ Ht)
    as (H1 & H2 & H3 & H4 & H5 & H6 & H7 & H8 & H9).
  cbn [check_bounds].
  destruct (Nat.ltb_spec (length a) (spos o)); [lia|].
  destruct (Nat.ltb_spec (length b) (dpos o)); [lia|]. cbn [orb].
  destruct (Nat.eqb_spec (spos o) (length a)) as [E|E].
  { rewrite (H7 E). rewrite bool_decide_eq_true_2 by done. cbn [negb andb].
    rewrite bool_decide_eq_false_2 by done. cbn [negb].
    destruct (Nat.eqb_spec (dpos o) (length b)) as [E'|E'].
    - specialize (H8 E'). specialize (H7 E). congruence.
    - cbn [andb]. by eapply IH. }
  cbn [andb].
  destruct (Nat.eqb_spec (dpos o) (length b)) as [E'|E'].
  { rewrite (H8 E'). rewrite bool_decide_eq_true_2 by done. cbn [negb andb].
    by eapply IH. }
  cbn [andb]. by eapply IH.
Qed.

Lemma transforms_check_order (a b : list A) ops : forall i j,
  transforms a b i j ops -> check_order ops = LEV_EDIT_ERR_OK.
Proof.
  induction ops as [|p ops IH]; intros i j Ht; [done|].
  destruct (transforms_head _ _ _ _ _ _ Ht)
    as (H1 & H2 & H3 & H4 & H5 & H6 & H7 & H8 & H9).
  destruct ops as [|o ops]; [done|].
  destruct (transforms_head _ _ _ _ _ _ H9) as (G1 & G2 & _).
  pose proof (advance_ge (type p) (spos p) (dpos p)) as [? ?].
  cbn [check_order].
  destruct (Nat.ltb_spec (spos o) (spos p)); [lia|].
  destruct (Nat.ltb_spec (dpos o) (dpos p)); [lia|]. cbn [orb].
  by eapply IH.
Qed.

Lemma transforms_no_keep (a b : list A) ops : forall i j,
  transforms a b i j ops -> Forall (fun o => type o <> LEV_EDIT_KEEP) ops.
Proof.
  induction ops as [|o ops IH]; intros i j Ht; [done|].
  destruct (transforms_head _ _ _ _ _ _ Ht)
    as (H1 & H2 & H3 & H4 & H5 & H6 & H7 & H8 & H9).
  constructor; [done|]. by eapply IH.
Qed.

Lemma transforms_invert (a b : list A) ops : forall i j,
  transforms a b i j ops -> transforms b a j i (map invert_op ops).
Proof.
  induction ops as [|o ops IH]; intros i j; cbn [transforms map].
  - intros (? & ? & ?). done.
  - intros (Hi & Hj & k & Hs & Hd & Hr & Ho).
    split; [done|]. split; [done|]. exists k. cbn [invert_op spos dpos type].
    split; [done|]. split; [done|]. split; [by unfold same_run in *|].
    destruct (type o); [done|..]; cbn [invert_type].
    + destruct Ho as (? & ? & Ht). split; [done|]. split; [done|]. by apply IH.
    + destruct Ho as (? & Ht). split; [done|]. by apply IH.
    + destruct Ho as (? & Ht). split; [done|]. by apply IH.
Qed.

Lemma transforms_apply (a b : list A) ops : forall i j dst,
  transforms a b i j ops -> apply_full a b ops i dst = Some (dst ++ drop j b).
Proof.
  induction ops as [|o ops IH]; intros i j dst Ht.
  { destruct Ht as (Hi & Hj & Hd). rewrite apply_full_nil by done. by rewrite Hd. }
  pose proof Ht as (Hi & Hj & k & Hs & Hd & Hr & Ho). fold (@transforms A) in Ho.
  destruct (transforms_head _ _ _ _ _ _ Ht)
    as (H1 & H2 & H3 & H4 & H5 & H6 & H7 & H8 & H9).
  rewrite (apply_full_shift_many a b k); [|lia|cbn; split; [lia|done]].
  assert (drop j b = take k (drop i a) ++ drop (j + k) b) as Hsplit.
  { rewrite Hr. rewrite <- (take_drop k (drop j b)) at 1. by rewrite drop_drop. }
  rewrite Hsplit, app_assoc.
  generalize (dst ++ take k (drop i a)). intros dst'.
  destruct o as [t s d]. cbn [type spos dpos] in *. subst s d.
  destruct t; [done|..]; cbn [advance fst snd] in H9.
  - destruct (lookup_lt_is_Some_2 b (j + k) ltac:(lia)) as [c Hc].
    rewrite (apply_full_replace _ _ _ _ _ _ c) by (done || lia).
    rewrite (IH _ _ _ H9), <- app_assoc. do 2 f_equal.
    rewrite (drop_S _ _ _ Hc). cbn. do 2 f_equal. lia.
  - destruct (lookup_lt_is_Some_2 b (j + k) ltac:(lia)) as [c Hc].
    rewrite (apply_full_insert _ _ _ _ _ _ c) by (done || lia).
    rewrite (IH _ _ _ H9), <- app_assoc. do 2 f_equal.
    rewrite (drop_S _ _ _ Hc). cbn. do 2 f_equal. lia.
  - rewrite apply_full_delete by lia.
    by rewrite (IH _ _ _ H9).
Qed.

Lemma transforms_aligned (a b : list A) ops : forall i j,
  transforms a b i j ops ->
  aligned i j ops = true /\
  (final_pos i j ops).1 <= length a /\ (final_pos i j ops).2 <= length b /\
  drop (final_pos i j ops).1 a = drop (final_pos i j ops).2 b.
Proof.
  induction ops as [|o ops IH]; intros i j Ht.
  { destruct Ht as (? & ? & ?). done. }
  destruct (transforms_head _ _ _ _ _ _ Ht)
    as (H1 & H2 & H3 & H4 & H5 & H6 & H7 & H8 & H9).
  cbn [aligned final_pos]. rewrite bool_decide_eq_false_2 by done.
  destruct (IH _ _ H9) as (-> & G2 & G3 & G4). rewrite andb_true_r.
  split; [|done]. unfold at_or_ahead.
  destruct (Nat.ltb_spec i (spos o)); [done|].
  destruct (Nat.ltb_spec j (dpos o)); [done|]. cbn [orb].
  apply andb_true_intro. split; apply Nat.eqb_eq; lia.
Qed.

End TransformsUse.

Section ScriptTheorems.
Context {A : Type} `{EqDecision A}.

Lemma take_invert n ops :
  take n (lev_editops_invert n ops) = map invert_op (take n ops).
Proof.
  unfold lev_editops_invert.
  destruct (Nat.le_gt_cases n (length ops)).
  - rewrite take_app_length'; [done|]. rewrite length_map, length_take. lia.
  - rewrite (drop_ge ops) by lia. rewrite app_nil_r.
    rewrite (take_ge ops) by lia. apply take_ge. rewrite length_map. lia.
Qed.

Lemma invert_op_involutive o : invert_op (invert_op o) = o.
Proof. by destruct o as [[] ? ?]. Qed.

Lemma check_bounds_invert len1 len2 ops :
  check_bounds len2 len1 (map invert_op ops) = check_bounds len1 len2 ops.
Proof.
  induction ops as [|o ops IH]; [done|].
  cbn [map check_bounds invert_op spos dpos type]. rewrite IH.
  rewrite (orb_comm (len2 <? dpos o)).
  destruct ((len1 <? spos o) || (len2 <? dpos o)); [done|].
  destruct (spos o =? len1), (dpos o =? len2), (type o); done.
Qed.

Lemma check_order_invert ops :
  check_order (map invert_op ops) = check_order ops.
Proof.
  induction ops as [|p ops IH]; [done|].
  destruct ops as [|o ops]; [done|].
  cbn [map check_order invert_op spos dpos] in *. rewrite IH.
  by rewrite (orb_comm (dpos o <? dpos p)).
Qed.

(** X7.  [lev_editops_invert] applied twice gives the script back, and
    [lev_editops_check_errors] gives an inverted script, with the two lengths
    exchanged, the verdict it gives the script. *)
Theorem lev_editops_invert_check (len1 len2 n : nat) (ops : list LevEditOp) :
  lev_editops_invert n (lev_editops_invert n ops) = ops /\
  lev_editops_check_errors len2 len1 n (lev_editops_invert n ops)
  = lev_editops_check_errors len1 len2 n ops.
Proof.
  split.
  - unfold lev_editops_invert at 1. rewrite take_invert.
    rewrite map_map. rewrite (map_ext _ id) by apply invert_op_involutive.
    rewrite map_id. unfold lev_editops_invert.
    destruct (Nat.le_gt_cases n (length ops)).
    + rewrite drop_app_length'; [apply take_drop|].
      rewrite length_map, length_take. lia.
    + rewrite (drop_ge ops) by lia. rewrite app_nil_r.
      rewrite drop_ge by (rewrite length_map, length_take; lia).
      rewrite app_nil_r. apply take_ge. lia.
  - unfold lev_editops_check_errors. rewrite take_invert.
    by rewrite check_bounds_invert, check_order_invert.
Qed.

(** X8.  The script that [lev_editops_find] returns for [a] and [b] is accepted
    by [lev_editops_check_errors] for the lengths of [a] and [b].  The
    allocations succeed. *)
Theorem lev_editops_find_valid (a b : list A) jm jo :
  exists r n,
    lev_editops_find (length a) a (length b) b (Some jm) (Some jo) = Some (r, n) /\
    lev_editops_check_errors (length a) (length b) (Z.to_nat n) (default [] r)
    = LEV_EDIT_ERR_OK.
Proof.
  destruct (lev_editops_find_transforms a b jm jo) as (r & Hf & Hl & Hr & Ht).
  exists r, (Z.of_nat (lev 1 a b)). split; [done|].
  unfold lev_editops_check_errors. rewrite Nat2Z.id, <- Hl, firstn_all.
  rewrite (transforms_check_bounds _ _ _ _ _ Ht), (transforms_check_order _ _ _ _ _ Ht).
  by destruct (length (default [] r) =? 0).
Qed.

(** X9.  The number of operations that [lev_editops_find] returns, which is
    also the value written to [*n], is the distance that [lev_edit_distance]
    returns with [xcost == 0]; the script is [NULL] exactly when the strings
    are equal.  The allocations succeed. *)
Theorem lev_editops_find_distance (a b : list A) jm jo jr :
  exists r n d,
    lev_editops_find (length a) a (length b) b (Some jm) (Some jo) = Some (r, n) /\
    lev_edit_distance (length a) a (length b) b false (Some jr) = Some d /\
    n = Z.of_nat d /\ length (default [] r) = d /\ (r = None <-> a = b).
Proof.
  destruct (lev_editops_find_transforms a b jm jo) as (r & Hf & Hl & Hr & Ht).
  exists r, (Z.of_nat (lev 1 a b)), (lev 1 a b). split; [done|].
  split; [apply (lev_edit_distance_lev a b false)|]. split; [done|]. split; [done|].
  rewrite Hr. split.
  - intros E. apply lev_eq_0 in E; [done|lia].
  - intros ->. apply lev_refl.
Qed.

(** X10.  The script that [lev_editops_find] returns holds no keep operation,
    and [lev_editops_normalize] returns it unchanged, with the same length.
    The allocations succeed. *)
Theorem lev_editops_find_normalized (a b : list A) jm jo jn :
  exists r n,
    lev_editops_find (length a) a (length b) b (Some jm) (Some jo) = Some (r, n) /\
    Forall (fun o => type o <> LEV_EDIT_KEEP) (default [] r) /\
    lev_editops_normalize (Z.to_nat n) r (Some jn) = Some (r, n).
Proof.
  destruct (lev_editops_find_transforms a b jm jo) as (r & Hf & Hl & Hr & Ht).
  exists r, (Z.of_nat (lev 1 a b)). split; [done|].
  pose proof (transforms_no_keep _ _ _ _ _ Ht) as Hnk. split; [done|].
  unfold lev_editops_normalize. rewrite Nat2Z.id.
  destruct r as [ops|].
  - change (default [] (Some ops)) with ops in *. rewrite <- Hl, firstn_all.
    assert (lev 1 a b <> 0) as Hnz by (intros E; by apply Hr in E).
    destruct (Nat.eqb_spec (length ops) 0) as [E|E]; [lia|].
    assert (filter (fun o => type o = LEV_EDIT_KEEP) ops = []) as ->.
    { clear -Hnk. induction Hnk as [|o ops Ho _ IH]; [done|].
      by rewrite filter_cons_False by (by intros ?). }
    assert (filter (fun o => type o <> LEV_EDIT_KEEP) ops = ops) as ->.
    { clear -Hnk. induction Hnk as [|o ops Ho _ IH]; [done|].
      rewrite filter_cons_True by done. by rewrite IH. }
    cbn [length]. rewrite Nat.sub_0_r.
    destruct (Nat.eqb_spec (length ops) 0) as [E'|E']; [lia|]. done.
  - assert (lev 1 a b = 0) as -> by (by apply Hr). done.
Qed.

(** X11.  Inverting the script that [lev_editops_find] returns for [a] and
    [b] with [lev_editops_invert] and applying it to [b] with
    [lev_editops_apply], with [a] as the other string, gives [a]: the length
    of [a] is written to [*len], and the block that the final [realloc]
    returns holds [a].  When that [realloc] returns [NULL], as it may for an
    empty [a], [NULL] is returned with the length of [a].  The other
    allocations succeed. *)
Theorem lev_editops_invert_apply (a b : list A) jm jo jd (shrunk : bool) :
  exists r n,
    lev_editops_find (length a) a (length b) b (Some jm) (Some jo) = Some (r, n) /\
    lev_editops_apply (length b) b (length a) a (Z.to_nat n)
      (lev_editops_invert (Z.to_nat n) (default [] r)) (Some jd) shrunk
    = Some (if shrunk then Some a else None, Z.of_nat (length a)).
Proof.
  destruct (lev_editops_find_transforms a b jm jo) as (r & Hf & Hl & Hr & Ht).
  exists r, (Z.of_nat (lev 1 a b)). split; [done|].
  rewrite lev_editops_apply_full, Nat2Z.id, take_invert.
  rewrite <- Hl, firstn_all.
  rewrite (transforms_apply _ _ _ _ _ _ (transforms_invert _ _ _ _ _ Ht)).
  by rewrite drop_0.
Qed.

End ScriptTheorems.

(** * Further properties of block operations *)

Lemma last_cons_default {T} (B : list T) : forall x y,
  List.last (y :: B) x = List.last B y.
Proof.
  induction B as [|z B IH]; intros x y; [done|].
  change (List.last (y :: z :: B) x) with (List.last (z :: B) x).
  by rewrite !IH.
Qed.

Section BlockShape.
Variables len1 len2 : nat.

Lemma check_block_shape x :
  forward x -> check_block len1 len2 x = LEV_EDIT_ERR_OK ->
  block_shape len1 len2 (sbeg x) (dbeg x) x.
Proof.
  intros [F1 F2]. unfold check_block, block_shape.
  destruct (Nat.ltb_spec len1 (send x)); [done|].
  destruct (Nat.ltb_spec len2 (dend x)); [done|]. cbn [orb].
  rewrite !usub_le by done.
  intros Hc. do 6 (split; [done || lia|]).
  destruct (btype x).
  - destruct (Nat.eqb_spec (dend x - dbeg x) (send x - sbeg x)); [|done].
    destruct (Nat.eqb_spec (dend x) (dbeg x)); [done|]. lia.
  - destruct (Nat.eqb_spec (dend x - dbeg x) (send x - sbeg x)); [|done].
    destruct (Nat.eqb_spec (dend x) (dbeg x)); [done|]. lia.
  - destruct (Nat.eqb_spec (dend x - dbeg x) 0); [done|].
    destruct (Nat.eqb_spec (send x - sbeg x) 0); [|done]. lia.
  - destruct (Nat.eqb_spec (send x - sbeg x) 0); [done|].
    destruct (Nat.eqb_spec (dend x - dbeg x) 0); [|done]. lia.
Qed.

Lemma block_shape_check sp dp x :
  block_shape len1 len2 sp dp x ->
  check_block len1 len2 x = LEV_EDIT_ERR_OK /\ forward x.
Proof.
  unfold check_block, block_shape, forward.
  intros (Hsp & Hdp & H1 & H2 & H3 & H4 & Ht). subst sp dp.
  destruct (Nat.ltb_spec len1 (send x)); [exfalso; lia|].
  destruct (Nat.ltb_spec len2 (dend x)); [exfalso; lia|]. cbn [orb].
  rewrite !usub_le by done. split; [|done].
  revert Ht. destruct (btype x); intros [Ht1 Ht2].
  - destruct (Nat.eqb_spec (dend x - dbeg x) (send x - sbeg x)); [|exfalso; lia].
    destruct (Nat.eqb_spec (dend x) (dbeg x)); [exfalso; lia|]. done.
  - destruct (Nat.eqb_spec (dend x - dbeg x) (send x - sbeg x)); [|exfalso; lia].
    destruct (Nat.eqb_spec (dend x) (dbeg x)); [exfalso; lia|]. done.
  - destruct (Nat.eqb_spec (dend x - dbeg x) 0); [exfalso; lia|].
    destruct (Nat.eqb_spec (send x - sbeg x) 0); [|exfalso; lia]. done.
  - destruct (Nat.eqb_spec (send x - sbeg x) 0); [exfalso; lia|].
    destruct (Nat.eqb_spec (dend x - dbeg x) 0); [|exfalso; lia]. done.
Qed.

Lemma checked_blocks_shape B : forall x,
  Forall forward (x :: B) ->
  check_blocks len1 len2 (x :: B) = LEV_EDIT_ERR_OK ->
  check_stitched (x :: B) = LEV_EDIT_ERR_OK ->
  blocks_shape len1 len2 (sbeg x) (dbeg x) (x :: B)
    (send (List.last B x)) (dend (List.last B x)).
Proof.
  induction B as [|y B IH]; intros x Hf Hc Hs.
  - cbn [check_blocks] in Hc. apply Forall_cons in Hf as [Hx _].
    destruct (check_block len1 len2 x) eqn:E; try done.
    cbn. split; [by apply check_block_shape|done].
  - apply Forall_cons in Hf as [Hx Hf].
    cbn [check_blocks] in Hc.
    destruct (check_block len1 len2 x) eqn:E; try done.
    cbn [check_stitched] in Hs.
    destruct (Nat.eqb_spec (sbeg y) (send x)) as [E1|]; [|done].
    destruct (Nat.eqb_spec (dbeg y) (dend x)) as [E2|]; [|done]. cbn [negb orb] in Hs.
    cbn [blocks_shape]. split; [by apply check_block_shape|].
    rewrite <- E1, <- E2.
    rewrite last_cons_default.
    by apply IH.
Qed.

Lemma blocks_shape_checked B : forall sp dp fs fd,
  blocks_shape len1 len2 sp dp B fs fd ->
  Forall forward B /\
  check_blocks len1 len2 B = LEV_EDIT_ERR_OK /\
  check_stitched B = LEV_EDIT_ERR_OK /\
  match B with
  | [] => True
  | x :: B' => sbeg x = sp /\ dbeg x = dp /\
               send (List.last B' x) = fs /\ dend (List.last B' x) = fd
  end.
Proof.
  induction B as [|x B IH]; intros sp dp fs fd; cbn [blocks_shape]; [done|].
  intros [Hx HB]. destruct (block_shape_check _ _ _ Hx) as [Hc Hfw].
  destruct (IH _ _ _ _ HB) as (Hf & Hcs & Hst & Hl).
  split; [by constructor|]. cbn [check_blocks]. rewrite Hc. split; [done|].
  destruct Hx as (Hs & Hd & _).
  destruct B as [|y B].
  - cbn in HB. cbn. destruct HB. done.
  - destruct Hl as (L1 & L2 & L3 & L4).
    cbn [check_stitched]. rewrite L1, L2, !Nat.eqb_refl. cbn [negb orb].
    split; [done|]. split; [done|]. split; [done|].
    rewrite last_cons_default. done.
Qed.

End BlockShape.

Lemma lookup_last {T} (l : list T) : forall x,
  (x :: l) !! (length (x :: l) - 1) = Some (List.last l x).
Proof.
  induction l as [|y l IH]; intros x; [done|].
  rewrite last_cons_default. rewrite <- IH. cbn [length].
  by replace (S (S (length l)) - 1) with (S (S (length l) - 1)) by lia.
Qed.

Section ApplyBlocks.
Context {A : Type} `{EqDecision A}.
Variables a b : list A.

Lemma length_block_output sp dp x :
  block_shape (length a) (length b) sp dp x ->
  length (block_output a b x) = dend x - dp.
Proof.
  unfold block_shape, block_output.
  intros (Hsp & Hdp & H1 & H2 & H3 & H4 & Ht). subst sp dp.
  destruct (btype x); rewrite ?length_take, ?length_drop; cbn [length]; lia.
Qed.

Lemma apply_blocks_shape B : forall sp dp fs fd dst,
  blocks_shape (length a) (length b) sp dp B fs fd ->
  length b <= length dst ->
  exists dst',
    apply_blocks (length a) a (length b) b B dp dst = Some (fd, dst') /\
    length dst' = length dst /\
    take fd dst' = take dp dst ++ blocks_output a b B.
Proof.
  induction B as [|x B IH]; intros sp dp fs fd dst; cbn [blocks_shape apply_blocks].
  { intros [_ <-] _. exists dst. unfold blocks_output. cbn. by rewrite app_nil_r. }
  intros [Hx HB] Hlen.
  pose proof (length_block_output _ _ _ Hx) as Hlo.
  pose proof Hx as (Hsp & Hdp & H1 & H2 & H3 & H4 & Ht).
  destruct (Nat.ltb_spec (send x) (sbeg x)); [lia|].
  destruct (Nat.ltb_spec (dend x) (dbeg x)); [lia|]. cbn [orb].
  assert (exists dst1,
    match btype x with
    | LEV_EDIT_KEEP =>
        copy_block (length a) a (sbeg x) (send x - sbeg x) dst dp
    | LEV_EDIT_DELETE => Some dst
    | _ => copy_block (length b) b (dbeg x) (dend x - dbeg x) dst dp
    end = Some dst1 /\ length dst1 = length dst /\
    take (dend x) dst1 = take dp dst ++ block_output a b x) as (dst1 & -> & Hl1 & Ht1).
  { assert (forall w, length w = dend x - dp ->
              exists dst1, memcpy_at dst dp w = Some dst1 /\ length dst1 = length dst /\
                           take (dend x) dst1 = take dp dst ++ w) as Hcopy.
    { intros w Hw. unfold memcpy_at.
      destruct (Nat.leb_spec (dp + length w) (length dst)); [|lia].
      eexists. split; [done|]. split.
      - rewrite !length_app, length_take, length_drop. lia.
      - rewrite take_app_ge by (rewrite length_take; lia).
        rewrite length_take. replace (dend x - dp `min` length dst) with (length w) by lia.
        f_equal. rewrite take_app_length. done. }
    unfold block_output in *. unfold copy_block. subst sp dp.
    destruct (btype x).
    - destruct (Nat.leb_spec (sbeg x + (send x - sbeg x)) (length a)); [|lia]. cbn [andb].
      by apply Hcopy.
    - destruct (Nat.leb_spec (dbeg x + (dend x - dbeg x)) (length b)); [|lia]. cbn [andb].
      by apply Hcopy.
    - destruct (Nat.leb_spec (dbeg x + (dend x - dbeg x)) (length b)); [|lia]. cbn [andb].
      by apply Hcopy.
    - exists dst. split; [done|]. split; [done|]. rewrite app_nil_r. f_equal. lia. }
  subst sp dp.
  replace (dbeg x + (dend x - dbeg x)) with (dend x) by lia.
  destruct (Nat.ltb_spec (length dst1) (dend x)); [lia|].
  destruct (IH _ _ _ _ dst1 HB ltac:(lia)) as (dst' & -> & Hl' & Ht').
  exists dst'. split; [done|]. split; [lia|].
  rewrite Ht', Ht1. unfold blocks_output. cbn [map concat]. by rewrite app_assoc.
Qed.

Lemma blocks_shape_le B : forall sp dp fs fd,
  blocks_shape (length a) (length b) sp dp B fs fd -> sp <= fs /\ dp <= fd.
Proof.
  induction B as [|x B IH]; intros sp dp fs fd; cbn [blocks_shape]; [lia|].
  intros [(Hsp & Hdp & H1 & H2 & H3 & H4 & Ht) HB]. apply IH in HB. lia.
Qed.

Lemma blocks_output_content B : forall sp dp fs fd,
  blocks_shape (length a) (length b) sp dp B fs fd ->
  Forall (block_content a b) B ->
  blocks_output a b B = take (fd - dp) (drop dp b).
Proof.
  induction B as [|x B IH]; intros sp dp fs fd; cbn [blocks_shape].
  { intros [_ <-] _. by rewrite Nat.sub_diag, take_0. }
  intros [Hx HB] [Hc HcB]%Forall_cons.
  pose proof (blocks_shape_le _ _ _ _ _ HB) as [L1 L2].
  pose proof Hx as (Hsp & Hdp & H1 & H2 & H3 & H4 & Ht).
  unfold blocks_output. cbn [map concat]. fold (blocks_output a b B).
  rewrite (IH _ _ _ _ HB HcB).
  assert (block_output a b x = take (dend x - dp) (drop dp b)) as ->.
  { unfold block_output, block_content in *. subst sp dp.
    destruct (btype x).
    - rewrite (Hc eq_refl). f_equal. lia.
    - done.
    - done.
    - replace (dend x - dbeg x) with 0 by lia. by rewrite take_0. }
  replace (fd - dp) with ((dend x - dp) + (fd - dend x)) by lia.
  rewrite <- take_take_drop.
  f_equal. rewrite drop_drop. do 2 f_equal. lia.
Qed.

End ApplyBlocks.

Section OpcodesChecked.
Context {A : Type} `{EqDecision A}.

Lemma check_errors_shape len1 len2 nb bops :
  lev_opcodes_check_errors len1 len2 nb bops = Some (LEV_CHECK LEV_EDIT_ERR_OK) ->
  Forall forward (take nb bops) ->
  nb <> 0 /\ nb <= length bops /\ blocks_shape len1 len2 0 0 (take nb bops) len1 len2.
Proof.
  unfold lev_opcodes_check_errors.
  destruct (Nat.eqb_spec nb 0) as [|Hnb]; [done|].
  destruct (bops !! 0) as [first|] eqn:E0; [|done].
  destruct (bops !! (nb - 1)) as [last|] eqn:E1; [|done].
  pose proof (lookup_lt_Some _ _ _ E1) as Hlt.
  destruct (Nat.eqb_spec (sbeg first) 0) as [S1|]; [|done].
  destruct (Nat.eqb_spec (dbeg first) 0) as [S2|]; [|done].
  destruct (Nat.eqb_spec (send last) len1) as [S3|]; [|done].
  destruct (Nat.eqb_spec (dend last) len2) as [S4|]; [|done].
  cbn [negb orb]. intros Hc Hf.
  split; [done|]. split; [lia|].
  destruct bops as [|x bops]; [done|]. injection E0 as ->.
  destruct nb as [|nb]; [done|]. cbn [take] in *.
  assert (List.last (take nb bops) first = last) as Hlast.
  { pose proof (lookup_last (take nb bops) first) as Hl.
    cbn [length] in Hl. rewrite length_take in Hl.
    replace (S (nb `min` length bops) - 1) with (S nb - 1) in Hl by (cbn [length] in Hlt; lia).
    change (first :: take nb bops) with (take (S nb) (first :: bops)) in Hl.
    rewrite lookup_take_lt in Hl by lia. congruence. }
  destruct (check_blocks len1 len2 (first :: take nb bops)) eqn:Ecb; try done.
  injection Hc as Hst.
  pose proof (checked_blocks_shape len1 len2 _ _ Hf Ecb Hst) as Hsh.
  by rewrite Hlast, S1, S2, S3, S4 in Hsh.
Qed.

Lemma shape_check_errors len1 len2 B :
  B <> [] -> blocks_shape len1 len2 0 0 B len1 len2 ->
  lev_opcodes_check_errors len1 len2 (length B) B = Some (LEV_CHECK LEV_EDIT_ERR_OK).
Proof.
  intros Hne Hsh. destruct (blocks_shape_checked _ _ _ _ _ _ _ Hsh) as (Hf & Hc & Hst & Hl).
  unfold lev_opcodes_check_errors.
  destruct B as [|x B]; [done|]. destruct Hl as (L1 & L2 & L3 & L4).
  rewrite lookup_last, firstn_all. cbn [lookup list_lookup length Nat.eqb].
  rewrite L1, L2, L3, L4, !Nat.eqb_refl. cbn [negb orb].
  rewrite Hc, Hst. done.
Qed.

(** X12.  For block operations that [lev_opcodes_check_errors] accepts for the
    lengths of [a] and [b], and in which no block ends before it begins,
    [lev_opcodes_apply] stays inside its arrays, writes [length b] to [*len]
    and produces exactly [length b] symbols: for every block in turn the
    symbols of its destination range in [b] (insert, replace) or of its
    source range in [a] (keep), and nothing for a delete.  These symbols are
    returned in the block of the final [realloc]; when that [realloc] returns
    [NULL], as it may when [b] is empty, [NULL] is returned.  The first
    allocation succeeds. *)
Theorem lev_opcodes_apply_checked (a b : list A) (nb : nat) (bops : list LevOpCode)
    (junk : nat -> A) (shrunk : bool) :
  lev_opcodes_check_errors (length a) (length b) nb bops
  = Some (LEV_CHECK LEV_EDIT_ERR_OK) ->
  Forall forward (take nb bops) ->
  exists r,
    lev_opcodes_apply (length a) a (length b) b nb bops (Some junk) shrunk
    = Some (if shrunk then Some r else None, Z.of_nat (length b)) /\
    length r = length b /\
    r = blocks_output a b (take nb bops).
Proof.
  intros Hc Hf. destruct (check_errors_shape _ _ _ _ Hc Hf) as (Hnb & Hle & Hsh).
  unfold lev_opcodes_apply.
  destruct (apply_blocks_shape a b _ _ _ _ _ (map junk (seq 0 (length a + length b))) Hsh)
    as (dst' & -> & Hl & Ht).
  { rewrite length_map, length_seq. lia. }
  rewrite take_0, app_nil_l in Ht.
  exists (take (length b) dst'). split; [done|]. split; [|done].
  rewrite length_take, Hl, length_map, length_seq. lia.
Qed.

End OpcodesChecked.

Lemma lev_opcodes_apply_checked_witness :
  let bops := [mkOpCode LEV_EDIT_KEEP 0 1 0 1; mkOpCode LEV_EDIT_REPLACE 1 2 1 2;
               mkOpCode LEV_EDIT_INSERT 2 2 2 3] in
  exists r,
    lev_opcodes_apply 2 [1; 2] 3 [1; 3; 4] 3 bops (Some (fun _ => 0)) true
    = Some (Some r, 3%Z) /\
    length r = 3 /\
    r = blocks_output [1; 2] [1; 3; 4] (take 3 bops).
Proof.
  intros bops.
  apply (lev_opcodes_apply_checked [1; 2] [1; 3; 4] 3 bops (fun _ => 0) true).
  - reflexivity.
  - repeat constructor; simpl; lia.
Defined.


Section ConvertTransforms.
Context {A : Type} `{EqDecision A}.
Variables a b : list A.

Lemma transforms_skip_keep i j ops : transforms a b i j ops -> skip_keep ops = ops.
Proof.
  destruct ops as [|o ops]; [done|]. intros Ht.
  destruct (transforms_head _ _ _ _ _ _ Ht) as (_ & _ & _ & _ & _ & Hk & _).
  cbn [skip_keep]. by rewrite bool_decide_eq_false_2.
Qed.

Lemma transforms_run t s d k : t <> LEV_EDIT_KEEP -> forall j rest,
  transforms a b (steps t s d j).1 (steps t s d j).2 (expand k j (op_at t s d) ++ rest) ->
  transforms a b (steps t s d (j + k)).1 (steps t s d (j + k)).2 rest.
Proof.
  intros Ht. induction k as [|k IH]; intros j rest Hr.
  { by rewrite Nat.add_0_r. }
  cbn [expand app] in Hr.
  destruct (transforms_head _ _ _ _ _ _ Hr) as (_ & _ & _ & _ & _ & _ & _ & _ & Hn).
  unfold op_at in Hn. cbn [type spos dpos] in Hn.
  rewrite <- surjective_pairing, advance_steps in Hn.
  replace (j + S k) with (j + 1 + k) by lia. by apply IH.
Qed.

Lemma convert_blocks_transforms fuel : forall ops sp dp acc,
  length ops <= fuel -> transforms a b sp dp ops ->
  exists B fs fd,
    convert_blocks fuel ops sp dp acc = Some (acc ++ B, fs, fd) /\
    blocks_shape (length a) (length b) sp dp B fs fd /\
    Forall (block_content a b) B /\
    fs <= length a /\ fd <= length b /\ drop fs a = drop fd b.
Proof.
  induction fuel as [|fuel IH]; intros ops sp dp acc Hfuel Ht.
  { destruct ops; [|simpl in Hfuel; lia]. destruct Ht as (? & ? & ?).
    exists [], sp, dp. rewrite app_nil_r. done. }
  cbn [convert_blocks]. rewrite (transforms_skip_keep _ _ _ Ht).
  destruct ops as [|o ops'].
  { destruct Ht as (? & ? & ?). exists [], sp, dp. rewrite app_nil_r. done. }
  destruct (transforms_head _ _ _ _ _ _ Ht)
    as (H1 & H2 & H3 & H4 & H5 & Hk & H7 & H8 & H9).
  pose proof (transforms_gap _ _ _ _ _ _ Ht) as Hgap.
  assert (advance (type o) (spos o, dpos o) = steps (type o) (spos o) (dpos o) 1)
    as Hadv1.
  { rewrite <- (steps_0 (type o) (spos o) (dpos o)) at 1. by rewrite advance_steps. }
  rewrite Hadv1 in H9.
  destruct (run_while_spec (type o) (spos o) (dpos o) Hk ops' 1)
    as (k & rest & Hrun & Hops & _).
  rewrite Hops in H9. apply transforms_run in H9; [|done].
  assert (length rest <= fuel) as Hrest.
  { pose proof (f_equal length Hops) as Hl.
    rewrite length_app, length_expand in Hl. simpl in Hfuel. lia. }
  pose proof (transforms_bounds _ _ _ _ _ H9) as [B1 B2].
  set (blk := mkOpCode (type o) (spos o)
                (steps (type o) (spos o) (dpos o) (1 + k)).1 (dpos o)
                (steps (type o) (spos o) (dpos o) (1 + k)).2) in *.
  assert (block_shape (length a) (length b) (spos o) (dpos o) blk) as Hblk.
  { unfold block_shape, blk. cbn [sbeg send dbeg dend btype].
    destruct (type o); [done|..]; cbn [steps fst snd] in *; repeat split; lia. }
  assert (block_content a b blk) as Hcont.
  { unfold block_content, blk. cbn [btype]. done. }
  assert (forall acc',
    exists B fs fd,
      match type o with
      | LEV_EDIT_KEEP => None
      | _ =>
          let '(s, d) := advance (type o) (spos o, dpos o) in
          let '(s0, d0, rest0) := run_while (type o) s d ops' in
          convert_blocks fuel rest0 s0 d0
            (acc' ++ [mkOpCode (type o) (spos o) s0 (dpos o) d0])
      end = Some (acc' ++ blk :: B, fs, fd) /\
      blocks_shape (length a) (length b) (spos o) (dpos o) (blk :: B) fs fd /\
      Forall (block_content a b) (blk :: B) /\
      fs <= length a /\ fd <= length b /\ drop fs a = drop fd b) as Hgo.
  { intros acc'.
    destruct (IH rest _ _ (acc' ++ [blk]) Hrest H9)
      as (B & fs & fd & HB & Hsh & Hc & G1 & G2 & G3).
    exists B, fs, fd. split.
    - rewrite Hadv1.
      destruct (steps (type o) (spos o) (dpos o) 1) as [s d] eqn:Es.
      cbn [fst snd] in Hrun. rewrite Hrun.
      rewrite <- app_assoc in HB. cbn [app] in HB.
      destruct (type o); done.
    - split; [by split|]. split; [by constructor|]. done. }
  destruct ((sp <? spos o) || (dp <? dpos o)) eqn:Eahead.
  - destruct (Hgo (acc ++ [mkOpCode LEV_EDIT_KEEP sp (spos o) dp (dpos o)]))
      as (B & fs & fd & HB & Hsh & Hc & G1 & G2 & G3).
    exists (mkOpCode LEV_EDIT_KEEP sp (spos o) dp (dpos o) :: blk :: B), fs, fd.
    split; [by rewrite HB, <- app_assoc|].
    split; [|split; [|done]].
    + split; [|done]. unfold block_shape. cbn [sbeg send dbeg dend btype].
      apply orb_prop in Eahead.
      assert (sp < spos o \/ dp < dpos o) as Hlt.
      { destruct Eahead as [E%Nat.ltb_lt|E%Nat.ltb_lt]; lia. }
      repeat split; lia.
    + constructor; [|done]. unfold block_content. cbn [sbeg send dbeg dend btype].
      done.
  - apply orb_false_elim in Eahead as [E1%Nat.ltb_ge E2%Nat.ltb_ge].
    assert (sp = spos o) as -> by lia. assert (dp = dpos o) as -> by lia.
    destruct (Hgo acc) as (B & fs & fd & HB & Hsh & Hc & G1 & G2 & G3).
    exists (blk :: B), fs, fd. done.
Qed.

End ConvertTransforms.

Section OpcodesOfFind.
Context {A : Type} `{EqDecision A}.

Lemma blocks_shape_app len1 len2 B : forall sp dp fs fd B' fs' fd',
  blocks_shape len1 len2 sp dp B fs fd -> blocks_shape len1 len2 fs fd B' fs' fd' ->
  blocks_shape len1 len2 sp dp (B ++ B') fs' fd'.
Proof.
  induction B as [|x B IH]; intros sp dp fs fd B' fs' fd'; cbn [blocks_shape app].
  - by intros [-> ->].
  - intros [Hx HB] HB'. split; [done|]. by eapply IH.
Qed.

(** The blocks that [lev_editops_to_opcodes] makes of a script that
    transforms [a] into [b]. *)
Lemma lev_editops_to_opcodes_transforms (a b : list A) ops jb :
  transforms a b 0 0 ops ->
  exists B,
    lev_editops_to_opcodes (length ops) ops (length a) (length b) (Some jb)
    = Some (Some B, Z.of_nat (length B)) /\
    blocks_shape (length a) (length b) 0 0 B (length a) (length b) /\
    Forall (block_content a b) B.
Proof.
  intros Ht.
  destruct (convert_blocks_transforms a b (length ops) ops 0 0 [] ltac:(lia) Ht)
    as (B & fs & fd & Hconv & Hsh & Hc & G1 & G2 & G3).
  destruct (count_convert_blocks _ _ _ _ _ 0 _ _ _ Hconv) as (B' & HB' & Hcount).
  cbn [app] in HB', Hconv. subst B'. cbn [Nat.add] in Hcount.
  unfold lev_editops_to_opcodes. rewrite firstn_all, Hcount, Hconv.
  pose proof (f_equal length G3) as Hl. rewrite !length_drop in Hl.
  destruct ((fs <? length a) || (fd <? length b)) eqn:Etail.
  - rewrite !usub_le by lia. rewrite (proj2 (Nat.eqb_eq _ _) Hl).
    rewrite length_app. cbn [length]. rewrite Nat.eqb_refl.
    exists (B ++ [mkOpCode LEV_EDIT_KEEP fs (length a) fd (length b)]).
    split; [by rewrite length_app|].
    assert (fs < length a \/ fd < length b) as Hlt.
    { apply orb_prop in Etail. destruct Etail as [E%Nat.ltb_lt|E%Nat.ltb_lt]; lia. }
    split.
    + eapply blocks_shape_app; [done|]. cbn [blocks_shape]. split; [|done].
      unfold block_shape. cbn [sbeg send dbeg dend btype]. repeat split; lia.
    + apply Forall_app. split; [done|]. constructor; [|done].
      unfold block_content, same_run. cbn [sbeg send dbeg dend btype]. intros _.
      by rewrite G3.
  - apply orb_false_elim in Etail as [E1%Nat.ltb_ge E2%Nat.ltb_ge].
    rewrite Nat.eqb_refl. exists B. split; [done|].
    assert (fs = length a) as Efs by lia. assert (fd = length b) as Efd by lia.
    rewrite Efs, Efd in Hsh. done.
Qed.

(** X13.  Converting the script that [lev_editops_find] returns for [a] and
    [b] with [lev_editops_to_opcodes] gives block operations which
    [lev_opcodes_check_errors] accepts, and which [lev_opcodes_apply] turns
    into [b]: the length of [b] is written to [*len], and the block that the
    final [realloc] returns holds [b]; when that [realloc] returns [NULL], as
    it may for an empty [b], [NULL] is returned.  When both strings are empty
    there are no blocks, and [lev_opcodes_check_errors] returns 1 for them.
    The other allocations succeed. *)
Theorem lev_opcodes_apply_find (a b : list A) jm jo jb jd (shrunk : bool) :
  exists r n bops nb,
    lev_editops_find (length a) a (length b) b (Some jm) (Some jo) = Some (r, n) /\
    lev_editops_to_opcodes (Z.to_nat n) (default [] r) (length a) (length b) (Some jb)
    = Some (Some bops, nb) /\
    lev_opcodes_check_errors (length a) (length b) (Z.to_nat nb) bops
    = Some (if bool_decide (a = [] /\ b = []) then LEV_CHECK_1
            else LEV_CHECK LEV_EDIT_ERR_OK) /\
    lev_opcodes_apply (length a) a (length b) b (Z.to_nat nb) bops (Some jd) shrunk
    = Some (if shrunk then Some b else None, Z.of_nat (length b)).
Proof.
  destruct (lev_editops_find_transforms a b jm jo) as (r & Hf & Hl & Hr & Ht).
  destruct (lev_editops_to_opcodes_transforms a b _ jb Ht) as (B & Hto & Hsh & Hc).
  exists r, (Z.of_nat (lev 1 a b)), B, (Z.of_nat (length B)).
  split; [done|]. rewrite !Nat2Z.id, <- Hl. split; [done|]. split.
  - case_bool_decide as Hab.
    + destruct Hab as [Ha Hb]. subst a b. destruct B as [|x B]; [reflexivity|].
      destruct Hsh as [(_ & _ & ? & ? & ? & ? & Hx) _]. cbn [length] in *.
      destruct (btype x); lia.
    + apply shape_check_errors; [|done]. intros ->. cbn in Hsh. apply Hab.
      destruct Hsh as [Ha Hb]. by destruct a, b.
  - unfold lev_opcodes_apply. rewrite firstn_all.
    destruct (apply_blocks_shape a b _ _ _ _ _
                (map jd (seq 0 (length a + length b))) Hsh) as (dst' & -> & Hl' & Ht').
    { rewrite length_map, length_seq. lia. }
    rewrite Ht', take_0, app_nil_l.
    rewrite (blocks_output_content a b _ _ _ _ _ Hsh Hc).
    by rewrite Nat.sub_0_r, drop_0, firstn_all.
Qed.

End OpcodesOfFind.

(** * Matching blocks *)

Lemma mblocks_of_app B1 B2 : mblocks_of (B1 ++ B2) = mblocks_of B1 ++ mblocks_of B2.
Proof. unfold mblocks_of. by rewrite filter_app, map_app. Qed.

Lemma gapped_app B1 B2 : gapped B1 -> gapped B2 -> gapped (B1 ++ B2).
Proof.
  intros H1 H2. induction H1; cbn [app]; [done|by constructor|by constructor].
Qed.

(** The two passes of [lev_editops_matching_blocks] follow the second pass
    of [lev_editops_to_opcodes]. *)
Lemma convert_mblocks_blocks fuel : forall ops sp dp acc macc nmb bops fs fd,
  convert_blocks fuel ops sp dp acc = Some (bops, fs, fd) ->
  exists B,
    bops = acc ++ B /\ gapped B /\
    convert_mblocks fuel ops sp dp macc = Some (macc ++ mblocks_of B, fs, fd) /\
    count_mblocks fuel ops nmb sp dp = Some (nmb + length (mblocks_of B), fs, fd).
Proof.
  induction fuel as [|fuel IH]; intros ops sp dp acc macc nmb bops fs fd;
    cbn [convert_blocks convert_mblocks count_mblocks].
  { destruct (skip_keep ops); [|done]. intros [= <- <- <-].
    exists []. rewrite !app_nil_r, Nat.add_0_r. split; [done|]. split; [constructor|done]. }
  destruct (skip_keep ops) as [|o ops'].
  { intros [= <- <- <-]. exists []. rewrite !app_nil_r, Nat.add_0_r.
    split; [done|]. split; [constructor|done]. }
  destruct ((sp <? spos o) || (dp <? dpos o)).
  - destruct (type o) eqn:Et; [done|..];
      (destruct (advance _ _) as [s1 d1]; destruct (run_while _ _ _ _) as [[s2 d2] rest];
       intros Hc;
       destruct (IH _ _ _ _ (macc ++ [mkMatchingBlock sp dp (usub (spos o) sp)])
                   (nmb + 1) _ _ _ Hc) as (B & -> & Hg & -> & ->);
       eexists (_ :: _ :: B); split; [by rewrite <- !app_assoc|];
       split; [by apply gapped_keep|];
       unfold mblocks_of; rewrite filter_cons_True by done;
       rewrite filter_cons_False by (by cbn);
       cbn [map length mblock_of sbeg dbeg send];
       split; [by rewrite <- app_assoc|do 3 f_equal; lia]).
  - destruct (type o) eqn:Et; [done|..];
      (destruct (advance _ _) as [s1 d1]; destruct (run_while _ _ _ _) as [[s2 d2] rest];
       intros Hc;
       destruct (IH _ _ _ _ macc nmb _ _ _ Hc) as (B & -> & Hg & -> & ->);
       eexists (_ :: B); split; [by rewrite <- !app_assoc|];
       split; [by apply gapped_block|];
       unfold mblocks_of; rewrite filter_cons_False by (by cbn); done).
Qed.

Lemma skip_keep_blocks_head x B :
  btype x <> LEV_EDIT_KEEP -> skip_keep_blocks (x :: B) = x :: B.
Proof. intros Hx. cbn. by rewrite bool_decide_eq_false_2. Qed.

Lemma convert_keep_runs_gapped len1 B : gapped B -> forall fuel macc nmb,
  length B <= fuel ->
  convert_keep_runs fuel len1 B macc = macc ++ mblocks_of B /\
  count_keep_runs fuel B nmb = nmb + length (mblocks_of B).
Proof.
  induction 1 as [|x B Hx Hg IH|k x B Hk Hx Hs Hg IH]; intros fuel macc nmb Hfuel.
  - destruct fuel; cbn; rewrite app_nil_r; split; (done || lia).
  - destruct fuel as [|fuel]; [cbn in Hfuel; lia|].
    cbn [convert_keep_runs count_keep_runs]. rewrite bool_decide_eq_false_2 by done.
    unfold mblocks_of. rewrite filter_cons_False by done.
    apply IH. cbn in Hfuel. lia.
  - destruct fuel as [|fuel]; [cbn in Hfuel; lia|].
    cbn [convert_keep_runs count_keep_runs skip_keep_blocks].
    rewrite !(bool_decide_eq_true_2 (btype k = LEV_EDIT_KEEP)) by done.
    rewrite !(bool_decide_eq_false_2 (btype x = LEV_EDIT_KEEP)) by done.
    unfold mblocks_of. rewrite filter_cons_True by done.
    rewrite filter_cons_False by done. cbn [map length].
    destruct (IH fuel (macc ++ [mkMatchingBlock (sbeg k) (dbeg k) (usub (sbeg x) (sbeg k))])
                (nmb + 1) ltac:(cbn in Hfuel; lia)) as [-> ->].
    unfold mblocks_of, mblock_of. rewrite Hs, <- app_assoc. split; [done|lia].
Qed.

Lemma convert_keep_runs_last len1 B k : gapped B ->
  btype k = LEV_EDIT_KEEP -> send k = len1 -> forall fuel macc nmb,
  length B < fuel ->
  convert_keep_runs fuel len1 (B ++ [k]) macc = macc ++ mblocks_of (B ++ [k]) /\
  count_keep_runs fuel (B ++ [k]) nmb = nmb + length (mblocks_of (B ++ [k])).
Proof.
  intros Hg Hk <-.
  induction Hg as [|x B Hx Hg IH|k' x B Hk' Hx Hs' Hg IH]; intros fuel macc nmb Hfuel.
  - destruct fuel as [|fuel]; [lia|].
    cbn [app convert_keep_runs count_keep_runs skip_keep_blocks].
    rewrite !bool_decide_eq_true_2 by done.
    unfold mblocks_of. rewrite filter_cons_True by done. done.
  - destruct fuel as [|fuel]; [cbn in Hfuel; lia|].
    cbn [app convert_keep_runs count_keep_runs]. rewrite bool_decide_eq_false_2 by done.
    unfold mblocks_of. cbn [app]. rewrite filter_cons_False by done.
    apply IH. cbn in Hfuel. lia.
  - destruct fuel as [|fuel]; [cbn in Hfuel; lia|].
    cbn [app convert_keep_runs count_keep_runs skip_keep_blocks].
    rewrite !(bool_decide_eq_true_2 (btype k' = LEV_EDIT_KEEP)) by done.
    rewrite !(bool_decide_eq_false_2 (btype x = LEV_EDIT_KEEP)) by done.
    unfold mblocks_of. cbn [app]. rewrite filter_cons_True by done.
    rewrite filter_cons_False by done. cbn [map length].
    destruct (IH fuel (macc ++ [mkMatchingBlock (sbeg k') (dbeg k') (usub (sbeg x) (sbeg k'))])
                (nmb + 1) ltac:(cbn in Hfuel; lia)) as [-> ->].
    unfold mblocks_of, mblock_of. rewrite Hs', <- app_assoc. split; [done|lia].
Qed.

Section MatchingBlocks.
Context {A : Type} `{EqDecision A}.

Lemma mblocks_of_last B fs len1 fd len2 :
  mblocks_of (B ++ [mkOpCode LEV_EDIT_KEEP fs len1 fd len2])
  = mblocks_of B ++ [mkMatchingBlock fs fd (usub len1 fs)].
Proof. rewrite mblocks_of_app. f_equal. Qed.

(** The matching blocks of a script are the keep blocks of its block
    form. *)
Lemma matching_blocks_of_opcodes (n : nat) (ops : list LevEditOp) (len1 len2 : nat)
    (jb : nat -> LevOpCode) (jm jm' : nat -> LevMatchingBlock)
    (bops : list LevOpCode) (nb : Z) :
  lev_editops_to_opcodes n ops len1 len2 (Some jb) = Some (Some bops, nb) ->
  lev_editops_matching_blocks len1 len2 n ops (Some jm)
  = Some (Some (mblocks_of bops), Z.of_nat (length (mblocks_of bops))) /\
  lev_opcodes_matching_blocks len1 len2 (Z.to_nat nb) bops (Some jm')
  = Some (Some (mblocks_of bops), Z.of_nat (length (mblocks_of bops))).
Proof.
  unfold lev_editops_to_opcodes, lev_editops_matching_blocks, lev_opcodes_matching_blocks.
  destruct (count_blocks n (take n ops) 0 0 0) as [[[nbl cs] cd]|]; [|done].
  destruct (convert_blocks n (take n ops) 0 0 []) as [[[B fs] fd]|] eqn:Hconv; [|done].
  destruct (convert_mblocks_blocks _ _ _ _ _ [] 0 _ _ _ Hconv) as (B' & HB & Hg & -> & ->).
  cbn [app] in HB. subst B'. cbn [app Nat.add].
  destruct ((fs <? len1) || (fd <? len2)) eqn:Etail.
  - destruct (usub len1 fs =? usub len2 fd); [|done].
    destruct (Nat.eqb_spec (length (B ++ [mkOpCode LEV_EDIT_KEEP fs len1 fd len2]))
                (if (cs <? len1) || (cd <? len2) then nbl + 1 else nbl)) as [E|]; [|done].
    intros [= <- <-]. rewrite Nat2Z.id, <- E, firstn_all.
    destruct (convert_keep_runs_last len1 B (mkOpCode LEV_EDIT_KEEP fs len1 fd len2)
                Hg eq_refl eq_refl (length (B ++ [mkOpCode LEV_EDIT_KEEP fs len1 fd len2]))
                [] 0) as [-> ->].
    { rewrite length_app. cbn. lia. }
    cbn [app Nat.add]. rewrite Nat.eqb_refl.
    rewrite !mblocks_of_last, !length_app. cbn [length]. rewrite Nat.eqb_refl. done.
  - destruct (Nat.eqb_spec (length B)
                (if (cs <? len1) || (cd <? len2) then nbl + 1 else nbl)) as [E|]; [|done].
    intros [= <- <-]. rewrite Nat2Z.id, <- E, firstn_all.
    destruct (convert_keep_runs_gapped len1 B Hg (length B) [] 0 ltac:(lia)) as [-> ->].
    cbn [app Nat.add]. rewrite !Nat.eqb_refl. done.
Qed.

(** X14.  When [lev_editops_to_opcodes] converts a script into block
    operations, [lev_editops_matching_blocks] on the script and
    [lev_opcodes_matching_blocks] on the block operations return the same
    matching blocks: one for every keep block, with its two beginnings and
    its length, and their number is written to [*nmblocks].  The allocations
    succeed. *)
Theorem lev_matching_blocks_agree (n : nat) (ops : list LevEditOp) (len1 len2 : nat)
    (jb : nat -> LevOpCode) (jm jm' : nat -> LevMatchingBlock)
    (bops : list LevOpCode) (nb : Z) :
  lev_editops_to_opcodes n ops len1 len2 (Some jb) = Some (Some bops, nb) ->
  exists mbs nmb,
    lev_editops_matching_blocks len1 len2 n ops (Some jm) = Some (Some mbs, nmb) /\
    lev_opcodes_matching_blocks len1 len2 (Z.to_nat nb) bops (Some jm')
    = Some (Some mbs, nmb) /\
    nmb = Z.of_nat (length mbs) /\
    mbs = mblocks_of bops.
Proof.
  intros Hto. destruct (matching_blocks_of_opcodes _ _ _ _ _ jm jm' _ _ Hto) as [-> ->].
  by eexists _, _.
Qed.

Lemma mblocks_of_ok (a b : list A) B : forall sp dp fs fd,
  blocks_shape (length a) (length b) sp dp B fs fd ->
  Forall (block_content a b) B ->
  Forall (mblock_ok a b) (mblocks_of B).
Proof.
  induction B as [|x B IH]; intros sp dp fs fd; cbn [blocks_shape]; [constructor|].
  intros [Hx HB] [Hc HcB]%Forall_cons.
  specialize (IH _ _ _ _ HB HcB). unfold mblocks_of.
  destruct (decide (btype x = LEV_EDIT_KEEP)) as [Hk|Hk].
  - rewrite filter_cons_True by done. cbn [map]. constructor; [|done].
    destruct Hx as (Hsp & Hdp & H1 & H2 & H3 & H4 & Ht). rewrite Hk in Ht.
    unfold mblock_ok, mblock_of. cbn [mspos mdpos mlen]. subst sp dp.
    rewrite usub_le by done. split; [lia|]. split; [lia|]. by apply Hc.
  - by rewrite filter_cons_False by done.
Qed.

(** X15.  Every matching block that [lev_editops_matching_blocks] returns for
    the script found by [lev_editops_find] for [a] and [b] lies inside both
    strings and covers the same symbols in [a] from [spos] as in [b] from
    [dpos].  The allocations succeed. *)
Theorem lev_editops_matching_blocks_find (a b : list A) jm jo jb :
  exists r n mbs,
    lev_editops_find (length a) a (length b) b (Some jm) (Some jo) = Some (r, n) /\
    lev_editops_matching_blocks (length a) (length b) (Z.to_nat n) (default [] r)
      (Some jb) = Some (Some mbs, Z.of_nat (length mbs)) /\
    Forall (mblock_ok a b) mbs.
Proof.
  destruct (lev_editops_find_transforms a b jm jo) as (r & Hf & Hl & Hr & Ht).
  destruct (lev_editops_to_opcodes_transforms a b _ (fun _ => mkOpCode LEV_EDIT_KEEP 0 0 0 0) Ht)
    as (B & Hto & Hsh & Hc).
  exists r, (Z.of_nat (lev 1 a b)), (mblocks_of B). split; [done|].
  rewrite Nat2Z.id, <- Hl. split.
  - by destruct (matching_blocks_of_opcodes _ _ _ _ _ jb jb _ _ Hto) as [-> _].
  - by eapply mblocks_of_ok.
Qed.

End MatchingBlocks.

Lemma lev_matching_blocks_agree_witness :
  let ops := [mkEditOp LEV_EDIT_REPLACE 1 1; mkEditOp LEV_EDIT_INSERT 4 4] in
  let bops := [mkOpCode LEV_EDIT_KEEP 0 1 0 1; mkOpCode LEV_EDIT_REPLACE 1 2 1 2;
               mkOpCode LEV_EDIT_KEEP 2 4 2 4; mkOpCode LEV_EDIT_INSERT 4 4 4 5;
               mkOpCode LEV_EDIT_KEEP 4 5 5 6] in
  exists mbs nmb,
    lev_editops_matching_blocks 5 6 2 ops (Some (fun _ => mkMatchingBlock 0 0 0))
    = Some (Some mbs, nmb) /\
    lev_opcodes_matching_blocks 5 6 (Z.to_nat 5) bops
      (Some (fun _ => mkMatchingBlock 0 0 0)) = Some (Some mbs, nmb) /\
    nmb = Z.of_nat (length mbs) /\
    mbs = mblocks_of bops.
Proof.
  intros ops bops.
  apply (lev_matching_blocks_agree 2 ops 5 6 (fun _ => mkOpCode LEV_EDIT_KEEP 0 0 0 0)).
  reflexivity.
Defined.

(** * Inverted block operations and the set median *)

Lemma usub_eq_0 x y :
  (Z.of_nat x <= SIZE_MAX)%Z -> (Z.of_nat y <= SIZE_MAX)%Z ->
  usub x y = 0 <-> x = y.
Proof.
  unfold usub, SIZE_MAX. intros Hx Hy.
  destruct (Nat.leb_spec y x); [lia|].
  split; [|lia]. intros Hz.
  assert (2 ^ 64 - Z.of_nat (y - x) <= 0)%Z by lia. lia.
Qed.

Lemma invert_block_involutive x : invert_block (invert_block x) = x.
Proof. by destruct x as [[] ? ? ? ?]. Qed.

Lemma take_opcodes_invert nb bops :
  take nb (lev_opcodes_invert nb bops) = map invert_block (take nb bops).
Proof.
  unfold lev_opcodes_invert.
  destruct (Nat.le_gt_cases nb (length bops)).
  - rewrite take_app_length'; [done|]. rewrite length_map, length_take. lia.
  - rewrite (drop_ge bops) by lia. rewrite app_nil_r.
    rewrite (take_ge bops) by lia. apply take_ge. rewrite length_map. lia.
Qed.

Lemma lookup_opcodes_invert nb bops i :
  i < nb -> lev_opcodes_invert nb bops !! i = invert_block <$> bops !! i.
Proof.
  intros Hi. rewrite <- (lookup_take_lt _ nb i Hi), take_opcodes_invert.
  rewrite list_lookup_fmap. by rewrite lookup_take_lt.
Qed.

Lemma check_block_invert len1 len2 x :
  size_t_block x ->
  check_block len2 len1 (invert_block x) = check_block len1 len2 x.
Proof.
  intros (H1 & H2 & H3 & H4). unfold check_block.
  cbn [invert_block sbeg send dbeg dend btype].
  rewrite (orb_comm (len2 <? dend x)).
  destruct ((len1 <? send x) || (len2 <? dend x)); [done|].
  pose proof (usub_eq_0 (send x) (sbeg x) H2 H1) as Es.
  pose proof (usub_eq_0 (dend x) (dbeg x) H4 H3) as Ed.
  destruct (btype x); cbn [invert_type].
  - destruct (Nat.eqb_spec (usub (dend x) (dbeg x)) (usub (send x) (sbeg x))) as [E|E];
      destruct (Nat.eqb_spec (usub (send x) (sbeg x)) (usub (dend x) (dbeg x)));
      try congruence; cbn [negb orb]; [|done].
    destruct (Nat.eqb_spec (dend x) (dbeg x)), (Nat.eqb_spec (send x) (sbeg x));
      try done; exfalso; lia.
  - destruct (Nat.eqb_spec (usub (dend x) (dbeg x)) (usub (send x) (sbeg x))) as [E|E];
      destruct (Nat.eqb_spec (usub (send x) (sbeg x)) (usub (dend x) (dbeg x)));
      try congruence; cbn [negb orb]; [|done].
    destruct (Nat.eqb_spec (dend x) (dbeg x)), (Nat.eqb_spec (send x) (sbeg x));
      try done; exfalso; lia.
  - done.
  - done.
Qed.

Lemma check_blocks_invert len1 len2 B :
  Forall size_t_block B ->
  check_blocks len2 len1 (map invert_block B) = check_blocks len1 len2 B.
Proof.
  induction 1 as [|x B Hx _ IH]; [done|].
  cbn [map check_blocks]. by rewrite check_block_invert, IH.
Qed.

Lemma check_stitched_invert B :
  check_stitched (map invert_block B) = check_stitched B.
Proof.
  induction B as [|p B IH]; [done|]. destruct B as [|x B]; [done|].
  cbn [map check_stitched invert_block sbeg send dbeg dend] in *. rewrite IH.
  by rewrite (orb_comm (negb (dbeg x =? dend p))).
Qed.

(** X16.  For blocks whose fields are values of [size_t], [lev_opcodes_invert]
    applied twice gives the blocks back, and [lev_opcodes_check_errors] gives
    the inverted blocks, with the two lengths exchanged, the verdict it gives
    the blocks. *)
Theorem lev_opcodes_invert_check (len1 len2 nb : nat) (bops : list LevOpCode) :
  Forall size_t_block (take nb bops) ->
  lev_opcodes_invert nb (lev_opcodes_invert nb bops) = bops /\
  lev_opcodes_check_errors len2 len1 nb (lev_opcodes_invert nb bops)
  = lev_opcodes_check_errors len1 len2 nb bops.
Proof.
  intros Hsz. split.
  - unfold lev_opcodes_invert at 1. rewrite take_opcodes_invert.
    rewrite map_map. rewrite (map_ext _ id) by apply invert_block_involutive.
    rewrite map_id. unfold lev_opcodes_invert.
    destruct (Nat.le_gt_cases nb (length bops)).
    + rewrite drop_app_length'; [apply take_drop|].
      rewrite length_map, length_take. lia.
    + rewrite (drop_ge bops) by lia. rewrite app_nil_r.
      rewrite drop_ge by (rewrite length_map, length_take; lia).
      rewrite app_nil_r. apply take_ge. lia.
  - unfold lev_opcodes_check_errors.
    destruct (Nat.eqb_spec nb 0) as [|Hnb]; [done|].
    rewrite !lookup_opcodes_invert by lia.
    destruct (bops !! 0) as [first|]; [|done].
    destruct (bops !! (nb - 1)) as [last|]; [|done].
    cbn [fmap option_fmap option_map invert_block sbeg send dbeg dend].
    rewrite take_opcodes_invert, (check_blocks_invert _ _ _ Hsz), check_stitched_invert.
    destruct (sbeg first =? 0), (dbeg first =? 0), (send last =? len1),
      (dend last =? len2); done.
Qed.

Lemma lev_opcodes_invert_check_witness :
  let bops := [mkOpCode LEV_EDIT_KEEP 0 1 0 1; mkOpCode LEV_EDIT_INSERT 1 1 1 3] in
  lev_opcodes_invert 2 (lev_opcodes_invert 2 bops) = bops /\
  lev_opcodes_check_errors 3 1 2 (lev_opcodes_invert 2 bops)
  = lev_opcodes_check_errors 1 3 2 bops.
Proof.
  intros bops. apply (lev_opcodes_invert_check 1 3 2 bops).
  repeat constructor; vm_compute; congruence.
Defined.

Section SetMedianMember.
Context {A : Type} `{EqDecision A}.
Variable strings : list (list A).
Variable weights : list Q.
Variable jrow : nat -> nat.

Local Abbreviation n := (length strings).
Local Abbreviation lengths := (map length strings).
Local Abbreviation heap_row := (fun _ _ : nat => Some jrow).

Lemma distance_long_nonneg j i :
  (0 <= distance_long lengths strings heap_row j i)%Z.
Proof.
  unfold distance_long.
  change 0 with (length (@nil A)). rewrite !map_nth.
  rewrite lev_edit_distance_lev. lia.
Qed.

Lemma below_diagonal_some fuel : forall i j dist mindist distances,
  exists r, below_diagonal lengths strings weights heap_row fuel i j dist mindist distances
            = Some r.
Proof.
  induction fuel as [|fuel IH]; intros i j dist mindist distances; cbn [below_diagonal].
  { by eexists. }
  destruct ((j <? i) && Qltb dist mindist); [|by eexists].
  destruct (0 <=? rdz distances (dindex_of i j))%Z; [apply IH|].
  pose proof (distance_long_nonneg j i).
  destruct (Z.ltb_spec (distance_long lengths strings heap_row j i) 0); [lia|]. apply IH.
Qed.

Lemma above_diagonal_some fuel : forall i j dist mindist distances,
  exists r, above_diagonal n lengths strings weights heap_row fuel i j dist mindist distances
            = Some r.
Proof.
  induction fuel as [|fuel IH]; intros i j dist mindist distances; cbn [above_diagonal].
  { by eexists. }
  destruct ((j <? n) && Qltb dist mindist); [|by eexists].
  set (d := distance_long lengths strings heap_row j i).
  pose proof (distance_long_nonneg j i) as Hd. fold d in Hd.
  assert (0 <= rdz (<[dindex_of j i := d]> distances) (dindex_of j i))%Z as Hr.
  { unfold rdz. destruct (Nat.lt_ge_cases (dindex_of j i) (length distances)).
    - rewrite (nth_lookup_Some _ _ _ d); [done|]. by apply list_lookup_insert_eq.
    - rewrite nth_overflow by (rewrite length_insert; lia). lia. }
  destruct (Z.ltb_spec (rdz (<[dindex_of j i := d]> distances) (dindex_of j i)) 0); [lia|].
  apply IH.
Qed.

Lemma candidates_lt fuel : forall i minidx mindist distances,
  i + fuel <= n -> minidx < n ->
  exists r, candidates n lengths strings weights heap_row fuel i minidx mindist distances
            = Some r /\ r < n.
Proof.
  induction fuel as [|fuel IH]; intros i minidx mindist distances Hi Hm; cbn [candidates].
  { by exists minidx. }
  destruct (below_diagonal_some i i 0 0%Q mindist distances) as ([j dist] & ->).
  destruct (above_diagonal_some (n - (j + 1)) i (j + 1) dist mindist distances)
    as ([dist' distances'] & ->).
  destruct (Qltb dist' mindist); apply IH; lia.
Qed.

End SetMedianMember.

Section SetMedianTheorem.
Context {A : Type} `{EqDecision A}.

(** X17.  For a set of at least one string, [lev_set_median] returns a copy
    of one of the strings of the set and writes its length to [*medlength];
    for an empty string the copy is the one zeroed symbol of [calloc].  The
    allocations succeed. *)
Theorem lev_set_median_member (zero : A) (strings : list (list A)) (weights : list Q)
    (medlength : Z) (jrow : nat -> nat) (jdist : nat -> Z) (jres : nat -> A) :
  strings <> [] ->
  exists i s,
    strings !! i = Some s /\
    lev_set_median zero (length strings) (map length strings) strings weights medlength
      (fun _ _ => Some jrow) (Some jdist) true (Some jres)
    = Some (Some (if length s =? 0 then [zero] else s), Z.of_nat (length s)).
Proof.
  intros Hne. unfold lev_set_median, lev_set_median_index.
  destruct (candidates_lt strings weights jrow (length strings) 0 0 LEV_INFINITY
              (repeat (-1)%Z
                 (Z.to_nat (wrap64 (Z.of_nat (length strings)
                                    * wrap64 (Z.of_nat (length strings) - 1)) / 2))))
    as (i & -> & Hi); [lia|destruct strings; [done|cbn; lia]|].
  destruct (lookup_lt_is_Some_2 strings i Hi) as [s Hs].
  exists i, s. split; [done|].
  rewrite list_lookup_fmap, Hs. cbn [fmap option_fmap option_map].
  destruct (Nat.eqb_spec (length s) 0); [done|].
  rewrite Nat.leb_refl, firstn_all. done.
Qed.

End SetMedianTheorem.

Lemma lev_set_median_member_witness :
  exists i s,
    [[1; 2]; [1; 3]; [1; 2]] !! i = Some s /\
    lev_set_median 0 3 (map length [[1; 2]; [1; 3]; [1; 2]]) [[1; 2]; [1; 3]; [1; 2]]
      [1%Q; 1%Q; 1%Q] 7%Z (fun _ _ => Some (fun _ => 0)) (Some (fun _ => 0%Z)) true
      (Some (fun _ => 0))
    = Some (Some (if length s =? 0 then [0] else s), Z.of_nat (length s)).
Proof.
  apply (lev_set_median_member 0 [[1; 2]; [1; 3]; [1; 2]] [1%Q; 1%Q; 1%Q] 7%Z
           (fun _ => 0) (fun _ => 0%Z) (fun _ => 0)).
  discriminate.
Defined.

(** * Subtraction of edit scripts *)

Lemma subtract_loop_self n ops : n <= length ops -> forall sub j shift,
  j <= n -> drop j (take n ops) = sub ->
  exists shift',
    subtract_loop n 0 ops sub shift j [] = Some (Some (shift', n, [])).
Proof.
  intros Hn. induction sub as [|s sub IH]; intros j shift Hj Hd.
  - cbn [subtract_loop]. exists shift.
    pose proof (f_equal length Hd) as Hl. rewrite length_drop, length_take in Hl.
    change (length (@nil LevEditOp)) with 0 in Hl.
    assert (j = n) as -> by lia. done.
  - assert (take n ops !! j = Some s) as Hs.
    { rewrite <- (Nat.add_0_r j), <- lookup_drop, Hd. done. }
    pose proof (lookup_lt_Some _ _ _ Hs) as Hlt. rewrite length_take in Hlt.
    rewrite lookup_take_lt in Hs by lia.
    cbn [subtract_loop].
    assert (find_sub (n - j) n 0 ops s shift j [] = Some (j, [])) as ->.
    { destruct (n - j) as [|fuel] eqn:E; [lia|]. cbn [find_sub]. rewrite Hs.
      by rewrite bool_decide_eq_true_2. }
    destruct (Nat.eqb_spec j n); [lia|].
    apply IH; [lia|].
    rewrite <- drop_drop, Hd. done.
Qed.

(** X18.  Subtracting a script from itself with [lev_editops_subtract] leaves
    nothing: the result is [NULL] with 0 written to [*nrem], and no
    allocation is made. *)
Theorem lev_editops_subtract_self (n : nat) (ops : list LevEditOp)
    (heap : option (nat -> LevEditOp)) :
  n <= length ops ->
  lev_editops_subtract n ops n ops heap = Some (None, 0%Z).
Proof.
  intros Hn. unfold lev_editops_subtract.
  rewrite Nat.ltb_irrefl, Nat.sub_diag. cbn [Nat.eqb].
  destruct (subtract_loop_self n ops Hn (take n ops) 0 0%Z ltac:(lia) (drop_0 _))
    as (shift & ->).
  rewrite Nat.sub_diag. cbn [copy_rest length Nat.eqb]. done.
Qed.

Lemma lev_editops_subtract_self_witness :
  lev_editops_subtract 2 [mkEditOp LEV_EDIT_REPLACE 0 0; mkEditOp LEV_EDIT_INSERT 2 2] 2
    [mkEditOp LEV_EDIT_REPLACE 0 0; mkEditOp LEV_EDIT_INSERT 2 2] None
  = Some (None, 0%Z).
Proof.
  apply (lev_editops_subtract_self 2
           [mkEditOp LEV_EDIT_REPLACE 0 0; mkEditOp LEV_EDIT_INSERT 2 2] None).
  simpl. lia.
Defined.

Lemma shift_spos_0 s : (Z.of_nat s < 2 ^ 31)%Z -> shift_spos s 0 = s.
Proof.
  intros Hs. unfold shift_spos, int_of_size, wrap64.
  rewrite Z.add_0_r.
  rewrite (Z.mod_small (Z.of_nat s + 2 ^ 31)) by lia.
  rewrite Z.mod_small by lia. lia.
Qed.

Lemma copy_rest_normalize cap ops : forall fuel j rem n,
  n <= length ops -> j + fuel = n ->
  Forall (fun o => (Z.of_nat (spos o) < 2 ^ 31)%Z) (drop j (take n ops)) ->
  length rem + length (non_keep (drop j (take n ops))) <= cap ->
  copy_rest fuel n cap ops 0 j rem = Some (rem ++ non_keep (drop j (take n ops))).
Proof.
  induction fuel as [|fuel IH]; intros j rem n Hn Hj Hsm Hcap.
  { cbn [copy_rest]. rewrite drop_ge by (rewrite length_take; lia).
    by rewrite app_nil_r. }
  cbn [copy_rest]. destruct (Nat.ltb_spec j n); [|lia].
  destruct (lookup_lt_is_Some_2 ops j ltac:(lia)) as [o Ho]. rewrite Ho.
  assert (drop j (take n ops) = o :: drop (j + 1) (take n ops)) as Hd.
  { rewrite Nat.add_1_r. apply drop_S. by rewrite lookup_take_lt. }
  rewrite Hd in Hsm, Hcap |- *. apply Forall_cons in Hsm as [Ho31 Hsm].
  unfold push_shifted, non_keep in *.
  destruct (decide (type o = LEV_EDIT_KEEP)) as [Hk|Hk].
  - rewrite bool_decide_eq_true_2 by done.
    rewrite filter_cons_False in * by (by intros ?).
    by apply IH; [lia|lia|done|].
  - rewrite bool_decide_eq_false_2 by done.
    rewrite filter_cons_True in * by done. cbn [length] in Hcap.
    destruct (Nat.ltb_spec (length rem) cap); [|lia].
    rewrite shift_spos_0 by done.
    rewrite IH; [|lia|lia|done|rewrite length_app; cbn [length]; lia].
    rewrite <- app_assoc. cbn [app]. by destruct o.
Qed.

(** X19.  Subtracting no operation ([ns == 0]) from a script whose source
    positions are below 2^31 gives what [lev_editops_normalize] gives: the
    operations that are not keeps, unchanged and in order, and their number.
    The allocation succeeds. *)
Theorem lev_editops_subtract_nothing (n : nat) (ops sub : list LevEditOp)
    (junk : nat -> LevEditOp) :
  n <= length ops ->
  Forall (fun o => (Z.of_nat (spos o) < 2 ^ 31)%Z) (take n ops) ->
  lev_editops_subtract n ops 0 sub (Some junk)
  = lev_editops_normalize n (Some ops) (Some junk).
Proof.
  intros Hn Hsm. unfold lev_editops_subtract, lev_editops_normalize.
  rewrite take_0. cbn [filter length subtract_loop]. rewrite !Nat.sub_0_r.
  cbn [Nat.ltb Nat.leb].
  pose proof (non_keep_length (take n ops)) as Hnk. unfold non_keep in *.
  rewrite length_take in Hnk. replace (n `min` length ops) with n in Hnk by lia.
  rewrite Hnk.
  set (nr := length (filter (fun o => type o <> LEV_EDIT_KEEP) (take n ops))) in *.
  destruct (Nat.eqb_spec nr 0) as [E|E].
  - rewrite (copy_rest_normalize 0 ops n 0 [] n Hn ltac:(lia));
      [|by rewrite drop_0|rewrite drop_0; unfold non_keep; cbn [length]; lia].
    rewrite drop_0. unfold non_keep. fold nr. rewrite app_nil_l.
    fold nr. rewrite E. cbn [Nat.eqb]. by destruct (n =? 0).
  - rewrite (copy_rest_normalize nr ops n 0 [] n Hn ltac:(lia));
      [|by rewrite drop_0|rewrite drop_0; unfold non_keep; cbn [length]; lia].
    rewrite drop_0. unfold non_keep. rewrite app_nil_l. fold nr.
    rewrite Nat.eqb_refl. destruct (Nat.eqb_spec nr 0); [lia|].
    destruct (Nat.eqb_spec n 0) as [Hn0|]; [|done].
    exfalso. apply E. unfold nr. by rewrite Hn0.
Qed.

Lemma lev_editops_subtract_nothing_witness :
  let ops := [mkEditOp LEV_EDIT_REPLACE 0 0; mkEditOp LEV_EDIT_KEEP 1 1;
              mkEditOp LEV_EDIT_INSERT 2 2] in
  lev_editops_subtract 3 ops 0 [] (Some (fun _ => mkEditOp LEV_EDIT_KEEP 0 0))
  = lev_editops_normalize 3 (Some ops) (Some (fun _ => mkEditOp LEV_EDIT_KEEP 0 0)).
Proof.
  intros ops.
  apply (lev_editops_subtract_nothing 3 ops [] (fun _ => mkEditOp LEV_EDIT_KEEP 0 0)).
  - simpl. lia.
  - repeat constructor.
Defined.

Lemma push_shifted_no_keep cap o shift rem rem' :
  push_shifted cap o shift rem = Some rem' ->
  Forall (fun o => type o <> LEV_EDIT_KEEP) rem ->
  Forall (fun o => type o <> LEV_EDIT_KEEP) rem'.
Proof.
  unfold push_shifted. case_bool_decide as Hk; [by intros [= <-]|].
  destruct (length rem <? cap); [|done]. intros [= <-] Hrem.
  apply Forall_app. split; [done|]. by constructor.
Qed.

Lemma find_sub_no_keep n cap ops s shift fuel : forall j rem j' rem',
  find_sub fuel n cap ops s shift j rem = Some (j', rem') ->
  Forall (fun o => type o <> LEV_EDIT_KEEP) rem ->
  Forall (fun o => type o <> LEV_EDIT_KEEP) rem'.
Proof.
  induction fuel as [|fuel IH]; intros j rem j' rem'; cbn [find_sub];
    destruct (ops !! j) as [o|]; try done;
    destruct (negb (bool_decide (o = s)) && (j <? n)); try done;
    try (by intros [= <- <-]).
  destruct (push_shifted cap o shift rem) as [rem1|] eqn:Ep; [|done].
  intros Hf Hrem. eapply IH; [done|]. by eapply push_shifted_no_keep.
Qed.

Lemma subtract_loop_no_keep n cap ops sub : forall shift j rem shift' j' rem',
  subtract_loop n cap ops sub shift j rem = Some (Some (shift', j', rem')) ->
  Forall (fun o => type o <> LEV_EDIT_KEEP) rem ->
  Forall (fun o => type o <> LEV_EDIT_KEEP) rem'.
Proof.
  induction sub as [|s sub IH]; intros shift j rem shift' j' rem'; cbn [subtract_loop].
  { by intros [= <- <- <-]. }
  destruct (find_sub (n - j) n cap ops s shift j rem) as [[j1 rem1]|] eqn:Ef; [|done].
  destruct (j1 =? n); [done|]. intros Hl Hrem.
  eapply IH; [done|]. by eapply find_sub_no_keep.
Qed.

Lemma copy_rest_no_keep n cap ops shift fuel : forall j rem rem',
  copy_rest fuel n cap ops shift j rem = Some rem' ->
  Forall (fun o => type o <> LEV_EDIT_KEEP) rem ->
  Forall (fun o => type o <> LEV_EDIT_KEEP) rem'.
Proof.
  induction fuel as [|fuel IH]; intros j rem rem'; cbn [copy_rest].
  { by intros [= <-]. }
  destruct (j <? n); [|by intros [= <-]].
  destruct (ops !! j) as [o|]; [|done].
  destruct (push_shifted cap o shift rem) as [rem1|] eqn:Ep; [|done].
  intros Hc Hrem. eapply IH; [done|]. by eapply push_shifted_no_keep.
Qed.

(** X20.  Whenever [lev_editops_subtract] returns a remainder, the remainder
    holds no keep operation, [*nrem] is its length, and this length is the
    number of operations of [ops] that are not keeps minus the number of
    those of [sub]. *)
Theorem lev_editops_subtract_normalized (n : nat) (ops : list LevEditOp) (ns : nat)
    (sub : list LevEditOp) (heap : option (nat -> LevEditOp))
    (rem : list LevEditOp) (nrem : Z) :
  lev_editops_subtract n ops ns sub heap = Some (Some rem, nrem) ->
  nrem = Z.of_nat (length rem) /\
  Forall (fun o => type o <> LEV_EDIT_KEEP) rem /\
  length rem + length (non_keep (take ns sub)) = length (non_keep (take n ops)).
Proof.
  unfold lev_editops_subtract, non_keep.
  set (nr := length (filter _ (take n ops))). set (nn := length (filter _ (take ns sub))).
  destruct (Nat.ltb_spec nr nn); [done|].
  set (cap := if nr - nn =? 0 then 0 else _).
  destruct (subtract_loop n cap ops (take ns sub) 0 0 []) as [[[[shift j] rem1]|]|] eqn:El;
    [|done|done].
  destruct (copy_rest (n - j) n cap ops shift j rem1) as [rem2|] eqn:Ec; [|done].
  destruct (Nat.eqb_spec (length rem2) (nr - nn)) as [E|]; [|done].
  destruct (cap =? 0); [done|]. intros [= <- <-].
  split; [by rewrite E|]. split; [|lia].
  eapply copy_rest_no_keep; [done|].
  eapply subtract_loop_no_keep; [done|constructor].
Qed.

Lemma lev_editops_subtract_normalized_witness :
  let ops := [mkEditOp LEV_EDIT_REPLACE 0 0; mkEditOp LEV_EDIT_KEEP 1 1;
              mkEditOp LEV_EDIT_INSERT 2 2; mkEditOp LEV_EDIT_DELETE 3 4] in
  let sub := [mkEditOp LEV_EDIT_INSERT 2 2] in
  let rem := [mkEditOp LEV_EDIT_REPLACE 0 0; mkEditOp LEV_EDIT_DELETE 4 4] in
  2%Z = Z.of_nat (length rem) /\
  Forall (fun o => type o <> LEV_EDIT_KEEP) rem /\
  length rem + length (non_keep (take 1 sub)) = length (non_keep (take 4 ops)).
Proof.
  intros ops sub rem.
  apply (lev_editops_subtract_normalized 4 ops 1 sub
           (Some (fun _ => mkEditOp LEV_EDIT_KEEP 0 0)) rem 2%Z).
  reflexivity.
Defined.

(** * Block operations as edit scripts *)

Section ScriptOk.
Variables len1 len2 : nat.

Lemma script_ok_check_bounds ops : forall sp dp,
  script_ok len1 len2 sp dp ops -> check_bounds len1 len2 ops = LEV_EDIT_ERR_OK.
Proof.
  induction ops as [|o ops IH]; intros sp dp; cbn [script_ok check_bounds]; [done|].
  intros (H1 & H2 & (B1 & B2 & B3 & B4) & Hr).
  destruct (Nat.ltb_spec len1 (spos o)); [lia|].
  destruct (Nat.ltb_spec len2 (dpos o)); [lia|]. cbn [orb].
  destruct (Nat.eqb_spec (spos o) len1) as [E|E].
  { rewrite (B3 E). rewrite bool_decide_eq_true_2 by done. cbn [negb andb].
    rewrite bool_decide_eq_false_2 by done. cbn [negb].
    destruct (Nat.eqb_spec (dpos o) len2) as [E'|E'].
    - specialize (B4 E'). specialize (B3 E). congruence.
    - cbn [andb]. by eapply IH. }
  cbn [andb].
  destruct (Nat.eqb_spec (dpos o) len2) as [E'|E'].
  { rewrite (B4 E'). rewrite bool_decide_eq_true_2 by done. cbn [negb andb].
    by eapply IH. }
  cbn [andb]. by eapply IH.
Qed.

Lemma script_ok_check_order ops : forall sp dp,
  script_ok len1 len2 sp dp ops -> check_order ops = LEV_EDIT_ERR_OK.
Proof.
  induction ops as [|p ops IH]; intros sp dp; [done|].
  destruct ops as [|o ops]; [done|].
  intros (H1 & H2 & Hb & Hr). pose proof Hr as (G1 & G2 & _).
  cbn [check_order].
  destruct (Nat.ltb_spec (spos o) (spos p)); [lia|].
  destruct (Nat.ltb_spec (dpos o) (dpos p)); [lia|]. cbn [orb].
  by eapply IH.
Qed.

Lemma script_ok_weaken ops sp dp sp' dp' :
  sp' <= sp -> dp' <= dp -> script_ok len1 len2 sp dp ops ->
  script_ok len1 len2 sp' dp' ops.
Proof.
  destruct ops as [|o ops]; [done|]. cbn [script_ok].
  intros ? ? (? & ? & ? & ?). split; [lia|]. split; [lia|]. done.
Qed.

(** A run of operations in front of a script that starts where the run
    ends. *)
Lemma script_ok_run (f : nat -> LevEditOp) se de rest k : forall j sp dp,
  (forall i, j <= i < j + k -> op_in_bounds len1 len2 (f i) /\
                               spos (f i) <= se /\ dpos (f i) <= de /\
                               spos (f i) <= spos (f (i + 1)) /\
                               dpos (f i) <= dpos (f (i + 1))) ->
  (0 < k -> sp <= spos (f j) /\ dp <= dpos (f j)) ->
  (k = 0 -> sp <= se /\ dp <= de) ->
  script_ok len1 len2 se de rest ->
  script_ok len1 len2 sp dp (expand k j f ++ rest).
Proof.
  induction k as [|k IH]; intros j sp dp Hf Hs H0 Hrest.
  { cbn [expand app]. destruct (H0 eq_refl). by eapply script_ok_weaken. }
  cbn [expand app script_ok].
  destruct (Hf j ltac:(lia)) as (Hb & L1 & L2 & M1 & M2).
  destruct (Hs ltac:(lia)) as [S1 S2].
  split; [done|]. split; [done|]. split; [done|].
  apply IH; [intros i Hi; apply Hf; lia| |intros ->; lia|done].
  intros _. done.
Qed.

End ScriptOk.

Lemma convert_editops_cons kk x B :
  convert_editops kk (x :: B) [] = convert_editops kk [x] [] ++ convert_editops kk B [].
Proof.
  change (x :: B) with ([x] ++ B). rewrite convert_editops_app.
  apply convert_editops_init.
Qed.

Lemma count_editops_cons kk x B :
  count_editops kk (x :: B) 0 = count_editops kk [x] 0 + count_editops kk B 0.
Proof.
  change (x :: B) with ([x] ++ B). rewrite count_editops_app.
  apply count_editops_init.
Qed.

(** The operations that [lev_opcodes_to_editops] makes of one block. *)
Lemma block_ops_form len1 len2 kk sp dp x :
  block_shape len1 len2 sp dp x ->
  convert_editops kk [x] [] =
  match btype x with
  | LEV_EDIT_KEEP =>
      if kk then expand (send x - sp) 0
                   (fun j => mkEditOp LEV_EDIT_KEEP (sp + j) (dp + j))
      else []
  | LEV_EDIT_REPLACE =>
      expand (send x - sp) 0 (fun j => mkEditOp LEV_EDIT_REPLACE (sp + j) (dp + j))
  | LEV_EDIT_INSERT =>
      expand (dend x - dp) 0 (fun j => mkEditOp LEV_EDIT_INSERT sp (dp + j))
  | LEV_EDIT_DELETE =>
      expand (send x - sp) 0 (fun j => mkEditOp LEV_EDIT_DELETE (sp + j) dp)
  end /\
  count_editops kk [x] 0 = length (convert_editops kk [x] []).
Proof.
  intros (Hsp & Hdp & H1 & H2 & H3 & H4 & Ht). subst sp dp.
  cbn [convert_editops count_editops]. rewrite !usub_le by done.
  destruct (btype x) eqn:Et; cbn [app].
  - rewrite bool_decide_eq_true_2 by done. cbn [negb].
    destruct kk; (split; [done|]); rewrite ?length_expand; cbn [length];
      destruct (Nat.ltb_spec (dend x - dbeg x) (send x - sbeg x)); lia.
  - split; [done|]. rewrite bool_decide_eq_false_2 by done. cbn [negb].
    rewrite length_expand.
    destruct kk; destruct (Nat.ltb_spec (dend x - dbeg x) (send x - sbeg x)); lia.
  - split; [done|]. rewrite bool_decide_eq_false_2 by done. cbn [negb].
    rewrite length_expand.
    destruct kk; destruct (Nat.ltb_spec (dend x - dbeg x) (send x - sbeg x)); lia.
  - split; [done|]. rewrite bool_decide_eq_false_2 by done. cbn [negb].
    rewrite length_expand.
    destruct kk; destruct (Nat.ltb_spec (dend x - dbeg x) (send x - sbeg x)); lia.
Qed.

Lemma count_editops_blocks len1 len2 kk B : forall sp dp fs fd,
  blocks_shape len1 len2 sp dp B fs fd ->
  count_editops kk B 0 = length (convert_editops kk B []).
Proof.
  induction B as [|x B IH]; intros sp dp fs fd; cbn [blocks_shape]; [done|].
  intros [Hx HB]. rewrite count_editops_cons, convert_editops_cons, length_app.
  destruct (block_ops_form _ _ kk _ _ _ Hx) as [_ ->]. by rewrite (IH _ _ _ _ HB).
Qed.

Lemma script_ok_blocks len1 len2 kk B : forall sp dp fs fd,
  blocks_shape len1 len2 sp dp B fs fd ->
  script_ok len1 len2 sp dp (convert_editops kk B []).
Proof.
  induction B as [|x B IH]; intros sp dp fs fd; cbn [blocks_shape]; [done|].
  intros [Hx HB]. rewrite convert_editops_cons.
  destruct (block_ops_form _ _ kk _ _ _ Hx) as [-> _].
  specialize (IH _ _ _ _ HB).
  destruct Hx as (Hsp & Hdp & H1 & H2 & H3 & H4 & Ht).
  destruct (btype x); [destruct kk|..]; cbn [app];
    try (eapply script_ok_weaken; [| |exact IH]; lia);
    (apply (script_ok_run _ _ _ (send x) (dend x)); [|cbn; lia|lia|done]);
    intros i Hi; unfold op_in_bounds; cbn [spos dpos type];
    repeat split; try lia; try done.
Qed.

Section ApplyScript.
Context {A : Type} `{EqDecision A}.
Variables a b : list A.

Lemma apply_full_keep ops src dst s d :
  src <= s + 1 -> s + 1 <= length a ->
  apply_full a b (mkEditOp LEV_EDIT_KEEP s d :: ops) src dst =
  apply_full a b ops (s + 1) (dst ++ take (s + 1 - src) (drop src a)).
Proof.
  intros H1 H2. unfold apply_full. cbn [apply_ops type spos dpos].
  rewrite bool_decide_eq_true_2 by done. cbn [b2n].
  destruct (Nat.ltb_spec (s + 1) src); [lia|].
  rewrite copy_source_ok by lia.
  replace (src + (s + 1 - src)) with (s + 1) by lia. done.
Qed.

Lemma take_S_drop (l : list A) i c k :
  l !! i = Some c -> take (S k) (drop i l) = c :: take k (drop (i + 1) l).
Proof. intros Hc. rewrite (drop_S _ _ _ Hc). by rewrite Nat.add_1_r. Qed.

Lemma apply_run_replace sp dp rest k : forall j dst,
  sp + j + k <= length a -> dp + j + k <= length b ->
  apply_full a b
    (expand k j (fun j => mkEditOp LEV_EDIT_REPLACE (sp + j) (dp + j)) ++ rest)
    (sp + j) dst
  = apply_full a b rest (sp + j + k) (dst ++ take k (drop (dp + j) b)).
Proof.
  induction k as [|k IH]; intros j dst Ha Hb.
  { cbn [expand app]. by rewrite take_0, app_nil_r, Nat.add_0_r. }
  cbn [expand app].
  destruct (lookup_lt_is_Some_2 b (dp + j) ltac:(lia)) as [c Hc].
  rewrite (apply_full_replace a b _ _ _ _ c) by (done || lia).
  replace (sp + j + 1) with (sp + (j + 1)) by lia.
  rewrite IH by lia. rewrite (take_S_drop _ _ c) by done.
  rewrite <- app_assoc. f_equal; [lia|]. f_equal. cbn. do 3 f_equal. lia.
Qed.

Lemma apply_run_insert sp dp rest k : forall j dst,
  sp <= length a -> dp + j + k <= length b ->
  apply_full a b
    (expand k j (fun j => mkEditOp LEV_EDIT_INSERT sp (dp + j)) ++ rest) sp dst
  = apply_full a b rest sp (dst ++ take k (drop (dp + j) b)).
Proof.
  induction k as [|k IH]; intros j dst Ha Hb.
  { cbn [expand app]. by rewrite take_0, app_nil_r. }
  cbn [expand app].
  destruct (lookup_lt_is_Some_2 b (dp + j) ltac:(lia)) as [c Hc].
  rewrite (apply_full_insert a b _ _ _ _ c) by (done || lia).
  rewrite IH by lia. rewrite (take_S_drop _ _ c) by done.
  rewrite <- app_assoc. do 2 f_equal. cbn. do 3 f_equal. lia.
Qed.

Lemma apply_run_delete sp dp rest k : forall j dst,
  sp + j + k <= length a ->
  apply_full a b
    (expand k j (fun j => mkEditOp LEV_EDIT_DELETE (sp + j) dp) ++ rest) (sp + j) dst
  = apply_full a b rest (sp + j + k) dst.
Proof.
  induction k as [|k IH]; intros j dst Ha.
  { cbn [expand app]. by rewrite Nat.add_0_r. }
  cbn [expand app]. rewrite apply_full_delete by lia.
  replace (sp + j + 1) with (sp + (j + 1)) by lia.
  rewrite IH by lia. f_equal. lia.
Qed.

Lemma apply_run_keep sp dp rest k : forall j src dst,
  src <= sp + j -> sp + j + k <= length a ->
  apply_full a b
    (expand k j (fun j => mkEditOp LEV_EDIT_KEEP (sp + j) (dp + j)) ++ rest) src dst
  = apply_full a b rest (if k =? 0 then src else sp + j + k)
      (dst ++ (if k =? 0 then [] else take (sp + j + k - src) (drop src a))).
Proof.
  induction k as [|k IH]; intros j src dst Hs Ha.
  { cbn [expand app Nat.eqb]. by rewrite app_nil_r. }
  cbn [expand app Nat.eqb]. rewrite apply_full_keep by lia.
  rewrite IH by lia. destruct k as [|k]; cbn [Nat.eqb].
  - rewrite app_nil_r. replace (sp + (j + 1) + 0) with (sp + j + 1) by lia. done.
  - rewrite <- app_assoc. replace (sp + (j + 1) + S k) with (sp + j + S (S k)) by lia.
    do 2 f_equal.
    replace (sp + j + S (S k) - src) with ((sp + j + 1 - src) + (S k)) by lia.
    rewrite <- take_take_drop. f_equal. rewrite drop_drop.
    replace (src + (sp + j + 1 - src)) with (sp + j + 1) by lia.
    f_equal. lia.
Qed.

(** The script made of the blocks gives what the blocks give. *)
Lemma apply_full_blocks kk B : forall sp dp fs fd src dst,
  blocks_shape (length a) (length b) sp dp B fs fd ->
  src <= sp -> sp <= length a ->
  apply_full a b (convert_editops kk B []) src dst
  = Some (dst ++ take (sp - src) (drop src a) ++ blocks_output a b B ++ drop fs a).
Proof.
  induction B as [|x B IH]; intros sp dp fs fd src dst; cbn [blocks_shape].
  { intros [<- <-] Hs Ha. cbn [convert_editops]. rewrite apply_full_nil by lia.
    unfold blocks_output. cbn [map concat app]. do 2 f_equal.
    rewrite <- (take_drop (sp - src) (drop src a)) at 1. f_equal.
    rewrite drop_drop. f_equal. lia. }
  intros [Hx HB] Hs Ha. rewrite convert_editops_cons.
  destruct (block_ops_form _ _ kk _ _ _ Hx) as [-> _].
  pose proof Hx as (Hsp & Hdp & H1 & H2 & H3 & H4 & Ht).
  unfold blocks_output. cbn [map concat]. fold (blocks_output a b B).
  unfold block_output. rewrite Hsp, Hdp.
  assert (forall out,
    apply_full a b (convert_editops kk B []) (send x) (dst ++ take (sp - src) (drop src a) ++ out)
    = Some (dst ++ take (sp - src) (drop src a) ++ (out ++ blocks_output a b B) ++ drop fs a))
    as Hnext.
  { intros out. rewrite (IH _ _ _ _ (send x) _ HB) by lia.
    rewrite Nat.sub_diag, take_0. cbn [app]. by rewrite <- !app_assoc. }
  assert (forall ops, starts_after ops sp ->
    apply_full a b ops src dst = apply_full a b ops sp (dst ++ take (sp - src) (drop src a)))
    as Hgap.
  { intros ops Hst. rewrite (apply_full_shift_many a b (sp - src)).
    - by replace (src + (sp - src)) with sp by lia.
    - lia.
    - by replace (src + (sp - src)) with sp by lia. }
  destruct (btype x).
  - destruct kk.
    + rewrite (apply_run_keep sp dp _ (send x - sp) 0) by lia.
      rewrite Nat.add_0_r.
      destruct (Nat.eqb_spec (send x - sp) 0) as [E|E]; [lia|].
      replace (sp + (send x - sp)) with (send x) by lia.
      rewrite (IH _ _ _ _ (send x) _ HB) by lia.
      rewrite Nat.sub_diag, take_0. cbn [app]. rewrite <- !app_assoc.
      do 2 f_equal. rewrite !app_assoc. do 2 f_equal.
      replace (send x - src) with ((sp - src) + (send x - sp)) by lia.
      rewrite <- take_take_drop. f_equal. rewrite drop_drop.
      do 2 f_equal. lia.
    + cbn [app]. rewrite (IH _ _ _ _ src _ HB) by lia.
      do 2 f_equal. rewrite !app_assoc. do 2 f_equal.
      replace (send x - src) with ((sp - src) + (send x - sp)) by lia.
      rewrite <- take_take_drop. f_equal. rewrite drop_drop.
      do 2 f_equal. lia.
  - rewrite Hgap.
    2:{ destruct (send x - sp) as [|k] eqn:E; [lia|]. cbn. split; [lia|done]. }
    rewrite <- (Nat.add_0_r sp) at 2.
    rewrite (apply_run_replace sp dp _ (send x - sp) 0) by lia.
    rewrite !Nat.add_0_r. replace (sp + (send x - sp)) with (send x) by lia.
    rewrite <- app_assoc. rewrite Hnext.
    replace (dend x - dp) with (send x - sp) by lia. done.
  - rewrite Hgap.
    2:{ destruct (dend x - dp) as [|k] eqn:E; [lia|]. cbn. split; [lia|done]. }
    rewrite (apply_run_insert sp dp _ (dend x - dp) 0) by lia.
    rewrite !Nat.add_0_r. destruct Ht as [Es _]. rewrite Es in Hnext.
    rewrite <- app_assoc. rewrite Hnext. done.
  - rewrite Hgap.
    2:{ destruct (send x - sp) as [|k] eqn:E; [lia|]. cbn. split; [lia|done]. }
    rewrite <- (Nat.add_0_r sp) at 2.
    rewrite (apply_run_delete sp dp _ (send x - sp) 0) by lia.
    rewrite !Nat.add_0_r. replace (sp + (send x - sp)) with (send x) by lia.
    specialize (Hnext []). rewrite app_nil_r in Hnext. rewrite Hnext. done.
Qed.

End ApplyScript.

Section ToEditops.
Context {A : Type} `{EqDecision A}.

(** X21.  For block operations that [lev_opcodes_check_errors] accepts for
    the lengths of [a] and [b], and in which no block ends before it begins,
    the script that [lev_opcodes_to_editops] returns, with or without keep
    operations, is accepted by [lev_editops_check_errors], and
    [lev_editops_apply] with it returns what [lev_opcodes_apply] returns with
    the blocks, whether the final [realloc] of the two returns a block or
    [NULL].  The other allocations succeed. *)
Theorem lev_opcodes_to_editops_apply (a b : list A) (nb : nat) (bops : list LevOpCode)
    (keepkeep : bool) (jo : nat -> LevEditOp) (jd jd' : nat -> A) (shrunk : bool) :
  lev_opcodes_check_errors (length a) (length b) nb bops
  = Some (LEV_CHECK LEV_EDIT_ERR_OK) ->
  Forall forward (take nb bops) ->
  exists ops,
    lev_opcodes_to_editops nb bops keepkeep (Some jo)
    = Some (Some ops, Z.of_nat (length ops)) /\
    lev_editops_check_errors (length a) (length b) (length ops) ops = LEV_EDIT_ERR_OK /\
    lev_editops_apply (length a) a (length b) b (length ops) ops (Some jd) shrunk
    = lev_opcodes_apply (length a) a (length b) b nb bops (Some jd') shrunk.
Proof.
  intros Hc Hf. destruct (check_errors_shape _ _ _ _ Hc Hf) as (Hnb & Hle & Hsh).
  exists (convert_editops keepkeep (take nb bops) []).
  unfold lev_opcodes_to_editops.
  destruct (Nat.eqb_spec nb 0); [done|].
  rewrite (count_editops_blocks _ _ keepkeep _ _ _ _ _ Hsh), Nat.eqb_refl.
  split; [done|]. split.
  - unfold lev_editops_check_errors. rewrite firstn_all.
    pose proof (script_ok_blocks _ _ keepkeep _ _ _ _ _ Hsh) as Hok.
    rewrite (script_ok_check_bounds _ _ _ _ _ Hok), (script_ok_check_order _ _ _ _ _ Hok).
    by destruct (_ =? 0).
  - rewrite lev_editops_apply_full, firstn_all.
    rewrite (apply_full_blocks a b keepkeep _ _ _ _ _ 0 [] Hsh) by lia.
    rewrite Nat.sub_diag, take_0, drop_all, app_nil_r. cbn [app].
    unfold lev_opcodes_apply.
    destruct (apply_blocks_shape a b _ _ _ _ _
                (map jd' (seq 0 (length a + length b))) Hsh) as (dst' & -> & Hl & Ht).
    { rewrite length_map, length_seq. lia. }
    rewrite take_0, app_nil_l in Ht. rewrite Ht. do 3 f_equal.
    rewrite <- Ht, length_take, Hl, length_map, length_seq. lia.
Qed.

End ToEditops.

Lemma lev_opcodes_to_editops_apply_witness :
  let bops := [mkOpCode LEV_EDIT_KEEP 0 1 0 1; mkOpCode LEV_EDIT_REPLACE 1 2 1 2;
               mkOpCode LEV_EDIT_INSERT 2 2 2 3] in
  exists ops,
    lev_opcodes_to_editops 3 bops true (Some (fun _ => mkEditOp LEV_EDIT_KEEP 0 0))
    = Some (Some ops, Z.of_nat (length ops)) /\
    lev_editops_check_errors 2 3 (length ops) ops = LEV_EDIT_ERR_OK /\
    lev_editops_apply 2 [1; 2] 3 [1; 3; 4] (length ops) ops (Some (fun _ => 0)) true
    = lev_opcodes_apply 2 [1; 2] 3 [1; 3; 4] 3 bops (Some (fun _ => 0)) true.
Proof.
  intros bops.
  apply (lev_opcodes_to_editops_apply [1; 2] [1; 3; 4] 3 bops true
           (fun _ => mkEditOp LEV_EDIT_KEEP 0 0) (fun _ => 0) (fun _ => 0) true).
  - reflexivity.
  - repeat constructor; simpl; lia.
Defined.

(** * The distance of sequences of strings *)

Lemma Qmin2_cases x y :
  ((y < x)%Q /\ Qmin2 x y = y) \/ ((x <= y)%Q /\ Qmin2 x y = x).
Proof.
  unfold Qmin2. destruct (Qltb y x) eqn:E.
  - left. by apply Qltb_lt in E.
  - right. by apply Qltb_ge in E.
Qed.

Lemma Qmin2_le_l x y : (Qmin2 x y <= x)%Q.
Proof. destruct (Qmin2_cases x y) as [[? ->]|[? ->]]; lra. Qed.

Lemma Qmin2_le_r x y : (Qmin2 x y <= y)%Q.
Proof. destruct (Qmin2_cases x y) as [[? ->]|[? ->]]; lra. Qed.

Lemma Qmin2_glb x y z : (z <= x)%Q -> (z <= y)%Q -> (z <= Qmin2 x y)%Q.
Proof. intros. destruct (Qmin2_cases x y) as [[? ->]|[? ->]]; lra. Qed.

Lemma Qnat_S n : (Qnat (S n) == Qnat n + 1)%Q.
Proof. unfold Qnat. rewrite Nat2Z.inj_succ, <- Z.add_1_r, inject_Z_plus. reflexivity. Qed.

Lemma Qnat_0 : (Qnat 0 == 0)%Q.
Proof. done. Qed.

Section WeightedDistance.
Context {T : Type}.
Variable cost : T -> T -> Q.
Hypothesis cost_nonneg : forall x y, (0 <= cost x y)%Q.
Hypothesis cost_refl : forall x, (cost x x == 0)%Q.
Hypothesis cost_sym : forall x y, (cost x y == cost y x)%Q.


Lemma wlev_nil_r a : wlev cost a [] = Qnat (length a).
Proof. by destruct a. Qed.

Lemma wlev_cons x a y b :
  wlev cost (x :: a) (y :: b) =
  Qmin2 (Qmin2 (wlev cost (x :: a) b + 1) (wlev cost a b + cost x y)) (wlev cost a (y :: b) + 1).
Proof. reflexivity. Qed.

Lemma wlev_nonneg a : forall b, (0 <= wlev cost a b)%Q.
Proof.
  induction a as [|x a IH]; intros b.
  { cbn [wlev]. apply Qnat_nonneg. }
  induction b as [|y b IHb].
  { rewrite wlev_nil_r. apply Qnat_nonneg. }
  rewrite wlev_cons. pose proof (cost_nonneg x y). pose proof (IH b). pose proof (IH (y :: b)).
  repeat apply Qmin2_glb; lra.
Qed.

(** Alignments and the recurrence. *)
Lemma walign_weaken a b k k' : walign cost a b k -> (k <= k')%Q -> walign cost a b k'.
Proof.
  intros H Hk. destruct H.
  - apply wal_nil. lra.
  - eapply wal_sub; [done|lra].
  - eapply wal_del; [done|lra].
  - eapply wal_ins; [done|lra].
Qed.

Lemma walign_nil_l b : walign cost [] b (Qnat (length b)).
Proof.
  induction b as [|y b IH]; [apply wal_nil; apply Qnat_nonneg|].
  eapply wal_ins; [done|]. cbn [length]. rewrite Qnat_S. lra.
Qed.

Lemma walign_nil_r a : walign cost a [] (Qnat (length a)).
Proof.
  induction a as [|x a IH]; [apply wal_nil; apply Qnat_nonneg|].
  eapply wal_del; [done|]. cbn [length]. rewrite Qnat_S. lra.
Qed.

Lemma walign_wlev a : forall b, walign cost a b (wlev cost a b).
Proof.
  induction a as [|x a IH]; intros b.
  { apply walign_nil_l. }
  induction b as [|y b IHb].
  { rewrite wlev_nil_r. apply walign_nil_r. }
  rewrite wlev_cons.
  destruct (Qmin2_cases (Qmin2 (wlev cost (x :: a) b + 1) (wlev cost a b + cost x y))
              (wlev cost a (y :: b) + 1)) as [[_ ->]|[_ ->]].
  - eapply wal_del; [apply IH|apply Qle_refl].
  - destruct (Qmin2_cases (wlev cost (x :: a) b + 1) (wlev cost a b + cost x y)) as [[_ ->]|[_ ->]].
    + eapply wal_sub; [apply IH|apply Qle_refl].
    + eapply wal_ins; [apply IHb|apply Qle_refl].
Qed.

Lemma wlev_le_align a b k : walign cost a b k -> (wlev cost a b <= k)%Q.
Proof.
  induction 1 as [k Hk|x y a b k k' _ IH Hk|x a b k k' _ IH Hk|y a b k k' _ IH Hk].
  - exact Hk.
  - rewrite wlev_cons.
    pose proof (Qmin2_le_l (Qmin2 (wlev cost (x :: a) b + 1) (wlev cost a b + cost x y))
                  (wlev cost a (y :: b) + 1)).
    pose proof (Qmin2_le_r (wlev cost (x :: a) b + 1) (wlev cost a b + cost x y)). lra.
  - destruct b as [|y b].
    + rewrite wlev_nil_r in *. cbn [length]. rewrite Qnat_S. lra.
    + rewrite wlev_cons.
      pose proof (Qmin2_le_r (Qmin2 (wlev cost (x :: a) b + 1) (wlev cost a b + cost x y))
                    (wlev cost a (y :: b) + 1)). lra.
  - destruct a as [|x a].
    + cbn [wlev] in *. cbn [length]. rewrite Qnat_S. lra.
    + rewrite wlev_cons.
      pose proof (Qmin2_le_l (Qmin2 (wlev cost (x :: a) b + 1) (wlev cost a b + cost x y))
                    (wlev cost a (y :: b) + 1)).
      pose proof (Qmin2_le_l (wlev cost (x :: a) b + 1) (wlev cost a b + cost x y)). lra.
Qed.

Lemma walign_sym a b k : walign cost a b k -> walign cost b a k.
Proof.
  induction 1 as [k Hk|x y a b k k' _ IH Hk|x a b k k' _ IH Hk|y a b k k' _ IH Hk].
  - by apply wal_nil.
  - eapply wal_sub; [done|]. rewrite <- cost_sym. lra.
  - eapply wal_ins; [done|lra].
  - eapply wal_del; [done|lra].
Qed.

Lemma walign_app a b k : walign cost a b k -> forall a' b' k',
  walign cost a' b' k' -> walign cost (a ++ a') (b ++ b') (k + k').
Proof.
  induction 1 as [k Hk|x y a b k k1 _ IH Hk|x a b k k1 _ IH Hk|y a b k k1 _ IH Hk];
    intros a' b' k' H'; cbn [app].
  - eapply walign_weaken; [done|lra].
  - eapply wal_sub; [by apply IH|lra].
  - eapply wal_del; [by apply IH|lra].
  - eapply wal_ins; [by apply IH|lra].
Qed.

Lemma walign_rev a b k : walign cost a b k -> walign cost (rev a) (rev b) k.
Proof.
  induction 1 as [k Hk|x y a b k k1 _ IH Hk|x a b k k1 _ IH Hk|y a b k k1 _ IH Hk];
    cbn [rev].
  - by apply wal_nil.
  - eapply walign_weaken; [apply (walign_app _ _ _ IH [x] [y] (cost x y))|lra].
    eapply wal_sub; [apply (wal_nil cost 0); lra|lra].
  - rewrite <- (app_nil_r (rev b)).
    eapply walign_weaken; [apply (walign_app _ _ _ IH [x] [] 1)|lra].
    eapply wal_del; [apply (wal_nil cost 0); lra|lra].
  - rewrite <- (app_nil_r (rev a)).
    eapply walign_weaken; [apply (walign_app _ _ _ IH [] [y] 1)|lra].
    eapply wal_ins; [apply (wal_nil cost 0); lra|lra].
Qed.

Lemma wlev_sym a b : (wlev cost a b == wlev cost b a)%Q.
Proof.
  apply Qle_antisym; apply wlev_le_align, walign_sym, walign_wlev.
Qed.

Lemma wlev_rev a b : (wlev cost (rev a) (rev b) == wlev cost a b)%Q.
Proof.
  apply Qle_antisym.
  - apply wlev_le_align, walign_rev, walign_wlev.
  - rewrite <- (rev_involutive a), <- (rev_involutive b) at 1.
    apply wlev_le_align, walign_rev, walign_wlev.
Qed.

Lemma walign_refl a : walign cost a a 0.
Proof.
  induction a as [|x a IH]; [apply wal_nil; lra|].
  eapply wal_sub; [done|]. rewrite cost_refl. lra.
Qed.

Lemma wlev_refl a : (wlev cost a a == 0)%Q.
Proof.
  apply Qle_antisym; [apply wlev_le_align, walign_refl|apply wlev_nonneg].
Qed.

Lemma wlev_cons_l_le x a b : (wlev cost (x :: a) b <= wlev cost a b + 1)%Q.
Proof. apply wlev_le_align. eapply wal_del; [apply walign_wlev|apply Qle_refl]. Qed.

Lemma wlev_cons_r_ge a : forall y b, (wlev cost a b <= wlev cost a (y :: b) + 1)%Q.
Proof.
  induction a as [|x a IH]; intros y b.
  { cbn [wlev length]. rewrite Qnat_S. lra. }
  rewrite wlev_cons.
  pose proof (wlev_cons_l_le x a b). pose proof (IH y b). pose proof (cost_nonneg x y).
  destruct (Qmin2_cases (Qmin2 (wlev cost (x :: a) b + 1) (wlev cost a b + cost x y))
              (wlev cost a (y :: b) + 1)) as [[_ ->]|[_ ->]]; [lra|].
  destruct (Qmin2_cases (wlev cost (x :: a) b + 1) (wlev cost a b + cost x y)) as [[_ ->]|[_ ->]];
    lra.
Qed.

Lemma wlev_cons_l_ge x a b : (wlev cost a b <= wlev cost (x :: a) b + 1)%Q.
Proof. rewrite (wlev_sym a b), (wlev_sym (x :: a) b). apply wlev_cons_r_ge. Qed.

(** Common prefixes and suffixes do not count. *)
Lemma wlev_cons_same x a b : (wlev cost (x :: a) (x :: b) == wlev cost a b)%Q.
Proof.
  apply Qle_antisym.
  - apply wlev_le_align. eapply wal_sub; [apply walign_wlev|]. rewrite cost_refl. lra.
  - rewrite wlev_cons.
    pose proof (wlev_cons_l_ge x a b). pose proof (wlev_cons_r_ge a x b).
    pose proof (cost_refl x).
    repeat apply Qmin2_glb; lra.
Qed.

Lemma wlev_app_same_l p a b : (wlev cost (p ++ a) (p ++ b) == wlev cost a b)%Q.
Proof.
  induction p as [|x p IH]; [reflexivity|]. cbn [app]. by rewrite wlev_cons_same.
Qed.

Lemma wlev_app_same_r s a b : (wlev cost (a ++ s) (b ++ s) == wlev cost a b)%Q.
Proof.
  rewrite <- wlev_rev, !rev_app_distr, wlev_app_same_l. apply wlev_rev.
Qed.

Lemma wlev_ge_length_diff a : forall b,
  (Qnat (length a) - Qnat (length b) <= wlev cost a b)%Q /\
  (Qnat (length b) - Qnat (length a) <= wlev cost a b)%Q.
Proof.
  induction a as [|x a IH]; intros b.
  { cbn [wlev length]. pose proof (Qnat_nonneg (length b)).
    change (Qnat 0) with 0%Q. lra. }
  induction b as [|y b IHb].
  { rewrite wlev_nil_r. pose proof (Qnat_nonneg (length (x :: a))).
    change (Qnat (length (@nil T))) with 0%Q. lra. }
  rewrite wlev_cons. cbn [length] in *. rewrite !Qnat_S in *.
  pose proof (IH b) as [? ?]. pose proof (IH (y :: b)) as [I1 I2].
  cbn [length] in I1, I2. rewrite Qnat_S in I1, I2.
  destruct IHb as [? ?]. pose proof (cost_nonneg x y).
  split; repeat apply Qmin2_glb; lra.
Qed.

Lemma wlev_le_length_sum a b : (wlev cost a b <= Qnat (length a) + Qnat (length b))%Q.
Proof.
  apply wlev_le_align.
  replace b with ([] ++ b) by done. rewrite <- (app_nil_r a) at 1.
  apply walign_app; [apply walign_nil_r|apply walign_nil_l].
Qed.

Lemma wlev_eq_0 a : forall b,
  (forall x y, (cost x y == 0)%Q -> x = y) -> (wlev cost a b == 0)%Q -> a = b.
Proof.
  intros b Hc. revert b. induction a as [|x a IH]; intros b Hz.
  { destruct b as [|y b]; [done|]. cbn [wlev length] in Hz. rewrite Qnat_S in Hz.
    pose proof (Qnat_nonneg (length b)). lra. }
  destruct b as [|y b].
  { rewrite wlev_nil_r in Hz. cbn [length] in Hz. rewrite Qnat_S in Hz.
    pose proof (Qnat_nonneg (length a)). lra. }
  rewrite wlev_cons in Hz.
  pose proof (wlev_nonneg (x :: a) b). pose proof (wlev_nonneg a b).
  pose proof (wlev_nonneg a (y :: b)). pose proof (cost_nonneg x y).
  destruct (Qmin2_cases (Qmin2 (wlev cost (x :: a) b + 1) (wlev cost a b + cost x y))
              (wlev cost a (y :: b) + 1)) as [[_ E1]|[_ E1]]; rewrite E1 in Hz; [lra|].
  destruct (Qmin2_cases (wlev cost (x :: a) b + 1) (wlev cost a b + cost x y)) as [[_ E2]|[_ E2]];
    rewrite E2 in Hz; [|lra].
  assert (cost x y == 0)%Q as Hxy by lra. assert (wlev cost a b == 0)%Q as Hab by lra.
  f_equal; [by apply Hc|by apply IH].
Qed.

(** The recurrence on the last elements, which the rows follow. *)
Lemma wlev_snoc_cases a x b y :
  (wlev cost (a ++ [x]) (b ++ [y]) <= wlev cost (a ++ [x]) b + 1)%Q /\
  (wlev cost (a ++ [x]) (b ++ [y]) <= wlev cost a b + cost x y)%Q /\
  (wlev cost (a ++ [x]) (b ++ [y]) <= wlev cost a (b ++ [y]) + 1)%Q /\
  ((wlev cost (a ++ [x]) (b ++ [y]) == wlev cost (a ++ [x]) b + 1)%Q \/
   (wlev cost (a ++ [x]) (b ++ [y]) == wlev cost a b + cost x y)%Q \/
   (wlev cost (a ++ [x]) (b ++ [y]) == wlev cost a (b ++ [y]) + 1)%Q).
Proof.
  pose proof (wlev_rev (a ++ [x]) (b ++ [y])) as Hv.
  pose proof (wlev_rev (a ++ [x]) b) as H1.
  pose proof (wlev_rev a b) as H2.
  pose proof (wlev_rev a (b ++ [y])) as H3.
  rewrite !rev_unit in *. rewrite wlev_cons in Hv.
  destruct (Qmin2_cases (Qmin2 (wlev cost (x :: rev a) (rev b) + 1)
                           (wlev cost (rev a) (rev b) + cost x y))
              (wlev cost (rev a) (y :: rev b) + 1)) as [[L1 E1]|[L1 E1]];
    destruct (Qmin2_cases (wlev cost (x :: rev a) (rev b) + 1)
                (wlev cost (rev a) (rev b) + cost x y)) as [[L2 E2]|[L2 E2]];
    rewrite E1, ?E2 in Hv; rewrite ?E2 in L1;
    (split; [lra|]); (split; [lra|]); (split; [lra|]); lra.
Qed.

End WeightedDistance.

Section SeqCost.
Context {A : Type} `{EqDecision A}.

Lemma seq_cost_nonneg (x y : list A) : (0 <= seq_cost x y)%Q.
Proof.
  unfold seq_cost. apply Qmult_le_0_compat; [|apply Qnat_nonneg].
  unfold Qdiv. apply Qmult_le_0_compat; [lra|].
  apply Qinv_le_0_compat, Qnat_nonneg.
Qed.

Lemma seq_cost_refl (x : list A) : (seq_cost x x == 0)%Q.
Proof. unfold seq_cost. rewrite lev_refl. change (Qnat 0) with 0%Q. apply Qmult_0_r. Qed.

Lemma seq_cost_sym (x y : list A) : (seq_cost x y == seq_cost y x)%Q.
Proof. unfold seq_cost. by rewrite lev_sym, Nat.add_comm. Qed.

Lemma seq_cost_eq_0 (x y : list A) : (seq_cost x y == 0)%Q -> x = y.
Proof.
  unfold seq_cost. intros Hz.
  destruct (decide (length x + length y = 0)) as [E|E].
  { destruct x, y; cbn in E; (done || lia). }
  apply (lev_eq_0 2); [|lia].
  assert (0 < Qnat (length x + length y))%Q as Hl.
  { unfold Qnat. change 0%Q with (inject_Z 0). rewrite <- Zlt_Qlt. lia. }
  assert (Qnat (lev 2 x y) == 0)%Q as Hd.
  { apply Qmult_integral in Hz as [Hz|Hz]; [|done].
    unfold Qdiv in Hz. apply Qmult_integral in Hz as [Hz|Hz]; [lra|].
    pose proof (Qinv_lt_0_compat _ Hl) as Hi. rewrite Hz in Hi.
    by apply Qlt_irrefl in Hi. }
  unfold Qnat, Qeq in Hd. cbn in Hd. lia.
Qed.

End SeqCost.

Section SeqLoops.
Context {A : Type} `{EqDecision A}.
Variables s1 s2 : list (list A).
Variables n1 n2 : nat.
Variable heap : nat -> nat -> option (nat -> nat).
Hypothesis Hn1 : n1 <= length s1.
Hypothesis Hn2 : n2 <= length s2.
Hypothesis Hne : Forall (fun s => s <> []) s1 \/ Forall (fun s => s <> []) s2.
Hypothesis Hheap : forall i p, heap i p <> None.


Lemma SM_0_l j : j <= n2 -> (SM s1 s2 0 j == Qnat j)%Q.
Proof. intros Hj. unfold SM. rewrite take_0. cbn [wlev]. rewrite length_take. by replace (j `min` length s2) with j by lia. Qed.

Lemma SM_0_r i : i <= n1 -> (SM s1 s2 i 0 == Qnat i)%Q.
Proof. intros Hi. unfold SM. rewrite take_0, wlev_nil_r, length_take. by replace (i `min` length s1) with i by lia. Qed.

Lemma SM_cases i j x y :
  s1 !! i = Some x -> s2 !! j = Some y ->
  (SM s1 s2 (S i) (S j) <= SM s1 s2 (S i) j + 1)%Q /\
  (SM s1 s2 (S i) (S j) <= SM s1 s2 i j + seq_cost x y)%Q /\
  (SM s1 s2 (S i) (S j) <= SM s1 s2 i (S j) + 1)%Q /\
  ((SM s1 s2 (S i) (S j) == SM s1 s2 (S i) j + 1)%Q \/
   (SM s1 s2 (S i) (S j) == SM s1 s2 i j + seq_cost x y)%Q \/
   (SM s1 s2 (S i) (S j) == SM s1 s2 i (S j) + 1)%Q).
Proof.
  intros Hx Hy. unfold SM.
  rewrite (take_S_r s1 i x Hx), (take_S_r s2 j y Hy).
  apply wlev_snoc_cases;
    first [apply seq_cost_nonneg|apply seq_cost_refl|apply seq_cost_sym].
Qed.

Lemma seq_row_spec i x1 k : forall p D x row,
  s1 !! i = Some x1 -> i < n1 -> p + k = n2 -> length row = n2 + 1 ->
  (D == SM s1 s2 i p)%Q -> (x == SM s1 s2 (S i) p)%Q ->
  (forall q, p < q <= n2 -> (rdq row q == SM s1 s2 i q)%Q) ->
  (forall q, 1 <= q <= p -> (rdq row q == SM s1 s2 (S i) q)%Q) ->
  exists row',
    seq_row k (length x1) x1 (map length s2) s2 (heap (S i)) (S p) p D x row = Some row' /\
    length row' = n2 + 1 /\
    forall q, 1 <= q <= n2 -> (rdq row' q == SM s1 s2 (S i) q)%Q.
Proof.
  induction k as [|k IH]; intros p D x row Hx1 Hi Hk Hlen HD Hx Hold Hnew.
  { exists row. split; [done|]. split; [done|]. intros q Hq. apply Hnew. lia. }
  cbn [seq_row].
  destruct (lookup_lt_is_Some_2 s2 p ltac:(lia)) as [y Hy].
  assert (nth p (map length s2) 0 = length y) as Hny.
  { apply nth_lookup_Some. by rewrite list_lookup_fmap, Hy. }
  cbv zeta. rewrite !Hny, (nth_lookup_Some _ _ _ _ Hy).
  assert (length x1 + length y <> 0) as Hl.
  { destruct Hne as [H1|H2].
    - pose proof (proj1 (Forall_lookup _ _) H1 _ _ Hx1). destruct x1; [done|]. cbn. lia.
    - pose proof (proj1 (Forall_lookup _ _) H2 _ _ Hy). destruct y; [done|]. cbn. lia. }
  destruct (Nat.eqb_spec (length x1 + length y) 0); [lia|].
  destruct (heap (S i) (S p)) as [junk|] eqn:Eh; [|by apply Hheap in Eh].
  rewrite lev_edit_distance_lev. cbn [xsc].
  fold (seq_cost x1 y).
  destruct (SM_cases i p x1 y Hx1 Hy) as (C1 & C2 & C3 & C4).
  pose proof (Hold (S p) ltac:(lia)) as Hup.
  set (xa := (x + 1)%Q).
  set (xb := if Qltb (D + seq_cost x1 y) xa then (D + seq_cost x1 y)%Q else xa).
  set (xc := if Qltb (rdq row (S p) + 1) xb then (rdq row (S p) + 1)%Q else xb).
  assert (xc == SM s1 s2 (S i) (S p))%Q as Hxc.
  { assert (xb = Qmin2 xa (D + seq_cost x1 y)) as Hb by done.
    assert (xc = Qmin2 xb (rdq row (S p) + 1)) as Hc by done.
    rewrite Hc.
    destruct (Qmin2_cases xb (rdq row (S p) + 1)) as [[L1 ->]|[L1 ->]];
      rewrite Hb in *;
      destruct (Qmin2_cases xa (D + seq_cost x1 y)) as [[L2 E2]|[L2 E2]];
      rewrite ?E2 in *; unfold xa in *; lra. }
  replace (p + 1) with (S p) by lia. replace (S p + 1) with (S (S p)) by lia.
  apply IH; [done|done|lia|by rewrite length_insert| | |..].
  - exact Hup.
  - exact Hxc.
  - intros q Hq. rewrite rdq_insert_ne by lia. apply Hold. lia.
  - intros q Hq. destruct (decide (q = S p)) as [->|Hneq].
    + rewrite rdq_insert_eq by lia. done.
    + rewrite rdq_insert_ne by lia. apply Hnew. lia.
Qed.

Lemma seq_rows_spec k : forall i row,
  i + k = n1 -> length row = n2 + 1 ->
  (forall q, 1 <= q <= n2 -> (rdq row q == SM s1 s2 i q)%Q) ->
  exists row',
    seq_rows k (S i) (n2 + 1) (map length s1) s1 (map length s2) s2 heap row = Some row' /\
    length row' = n2 + 1 /\
    forall q, 1 <= q <= n2 -> (rdq row' q == SM s1 s2 n1 q)%Q.
Proof.
  induction k as [|k IH]; intros i row Hk Hlen Hrow.
  { exists row. replace n1 with i by lia. done. }
  cbn [seq_rows].
  destruct (lookup_lt_is_Some_2 s1 i ltac:(lia)) as [x1 Hx1].
  replace (S i - 1) with i by lia. replace (n2 + 1 - 1) with n2 by lia.
  assert (nth i (map length s1) 0 = length x1) as ->.
  { apply nth_lookup_Some. by rewrite list_lookup_fmap, Hx1. }
  rewrite (nth_lookup_Some _ _ _ _ Hx1).
  destruct (seq_row_spec i x1 n2 0 (Qnat (S i) - 1) (Qnat (S i)) row)
    as (row1 & -> & Hl1 & Hr1); [done|lia|lia|done| | | | |].
  - rewrite Qnat_S, SM_0_r by lia. lra.
  - rewrite SM_0_r by lia. reflexivity.
  - intros q Hq. apply Hrow. lia.
  - intros q Hq. lia.
  - replace (S i + 1) with (S (S i)) by lia. apply IH; [lia|done|done].
Qed.

Lemma seq_init_row_spec k : forall i (row : list Q),
  i + k <= length row ->
  length (seq_init_row k i row) = length row /\
  (forall q, i <= q < i + k -> rdq (seq_init_row k i row) q = Qnat q) /\
  (forall q, q < i \/ i + k <= q -> rdq (seq_init_row k i row) q = rdq row q).
Proof.
  induction k as [|k IH]; intros i row Hk; cbn [seq_init_row].
  - split; [done|]. split; [lia|done].
  - destruct (IH (i + 1) (<[i:=Qnat i]> row)) as (Hl & Hin & Hout).
    { rewrite length_insert. lia. }
    rewrite length_insert in Hl. split; [done|]. split.
    + intros q Hq. destruct (decide (q = i)) as [->|Hneq].
      * rewrite Hout by lia. apply rdq_insert_eq. lia.
      * apply Hin. lia.
    + intros q Hq. rewrite Hout by lia. apply rdq_insert_ne. lia.
Qed.

(** The part of the routine after the sequences have been ordered by
    length. *)
Lemma seq_core (junk : nat -> Q) :
  1 <= n2 ->
  match seq_rows (n1 + 1 - 1) 1 (n2 + 1) (map length s1) s1 (map length s2) s2 heap
          (seq_init_row (n2 + 1) 0 (map junk (seq 0 (n2 + 1)))) with
  | Some row => (rdq row (n2 + 1 - 1) == SM s1 s2 n1 n2)%Q
  | None => False
  end.
Proof.
  intros H2.
  destruct (seq_init_row_spec (n2 + 1) 0 (map junk (seq 0 (n2 + 1))))
    as (Hl & Hin & _).
  { rewrite length_map, length_seq. lia. }
  rewrite length_map, length_seq in Hl.
  replace (n1 + 1 - 1) with n1 by lia. replace (n2 + 1 - 1) with n2 by lia.
  destruct (seq_rows_spec n1 0 (seq_init_row (n2 + 1) 0 (map junk (seq 0 (n2 + 1)))))
    as (row & -> & Hlr & Hr); [lia|done| |].
  - intros q Hq. rewrite Hin by lia. rewrite SM_0_l by lia. reflexivity.
  - apply Hr. lia.
Qed.

End SeqLoops.

Section SeqAssembly.
Context {A : Type} `{EqDecision A}.

Lemma memcmp_eq_same (x y : list A) :
  length x = length y -> memcmp_eq x y (length x) = bool_decide (x = y).
Proof.
  intros Hl. unfold memcmp_eq. rewrite firstn_all, Hl, firstn_all. done.
Qed.

Lemma seq_strip_prefix_spec fuel : forall (u v : list (list A)),
  exists pre u' v',
    u = pre ++ u' /\ v = pre ++ v' /\
    seq_strip_prefix fuel (length u) (map length u) u (length v) (map length v) v
    = (length u', map length u', u', length v', map length v', v').
Proof.
  induction fuel as [|fuel IH]; intros u v; cbn [seq_strip_prefix].
  { by exists [], u, v. }
  destruct u as [|x u]; [by exists [], [], v|].
  destruct v as [|y v]; [by exists [], (x :: u), []|].
  cbn [length map nth tail]. change (0 <? S _) with true. cbn [andb].
  destruct (Nat.eqb_spec (length x) (length y)) as [El|El]; cbn [andb].
  - rewrite memcmp_eq_same by done. case_bool_decide as Exy.
    + subst y. rewrite !Nat.sub_succ, !Nat.sub_0_r.
      destruct (IH u v) as (pre & u' & v' & -> & -> & ->).
      by exists (x :: pre), u', v'.
    + by exists [], (x :: u), (y :: v).
  - by exists [], (x :: u), (y :: v).
Qed.

Lemma seq_strip_suffix_spec (u v : list (list A)) fuel : forall l1 l2,
  l1 <= length u -> l2 <= length v ->
  exists l1' l2' suf,
    seq_strip_suffix fuel l1 (map length u) u l2 (map length v) v = (l1', l2') /\
    l1' <= l1 /\ l2' <= l2 /\
    take l1 u = take l1' u ++ suf /\ take l2 v = take l2' v ++ suf.
Proof.
  induction fuel as [|fuel IH]; intros l1 l2 H1 H2; cbn [seq_strip_suffix].
  { exists l1, l2, []. by rewrite !app_nil_r. }
  destruct l1 as [|l1]; [exists 0, l2, []; by rewrite !app_nil_r|].
  destruct l2 as [|l2]; [exists (S l1), 0, []; by rewrite !app_nil_r|].
  change (0 <? S _) with true. cbn [andb].
  rewrite !Nat.sub_succ, !Nat.sub_0_r.
  destruct (lookup_lt_is_Some_2 u l1 ltac:(lia)) as [x Hx].
  destruct (lookup_lt_is_Some_2 v l2 ltac:(lia)) as [y Hy].
  assert (nth l1 (map length u) 0 = length x) as ->.
  { apply nth_lookup_Some. by rewrite list_lookup_fmap, Hx. }
  assert (nth l2 (map length v) 0 = length y) as ->.
  { apply nth_lookup_Some. by rewrite list_lookup_fmap, Hy. }
  rewrite (nth_lookup_Some _ _ _ _ Hx), (nth_lookup_Some _ _ _ _ Hy).
  destruct (Nat.eqb_spec (length x) (length y)) as [El|El]; cbn [andb].
  - rewrite memcmp_eq_same by done. case_bool_decide as Exy.
    + subst y.
      destruct (IH l1 l2 ltac:(lia) ltac:(lia)) as (l1' & l2' & suf & -> & L1 & L2 & E1 & E2).
      exists l1', l2', (suf ++ [x]). split; [done|]. split; [lia|]. split; [lia|].
      rewrite (take_S_r _ _ _ Hx), (take_S_r _ _ _ Hy), E1, E2.
      by rewrite !app_assoc.
    + exists (S l1), (S l2), []. by rewrite !app_nil_r.
  - exists (S l1), (S l2), []. by rewrite !app_nil_r.
Qed.

(** The routine computes the recurrence. *)
Lemma lev_edit_seq_distance_wlev (strings1 strings2 : list (list A))
    (jrow : nat -> Q) (heap : nat -> nat -> option (nat -> nat)) :
  Forall (fun s => s <> []) strings1 \/ Forall (fun s => s <> []) strings2 ->
  (forall i p, heap i p <> None) ->
  (lev_edit_seq_distance (length strings1) (map length strings1) strings1
     (length strings2) (map length strings2) strings2 (Some jrow) heap
   == wlev seq_cost strings1 strings2)%Q.
Proof.
  intros Hne Hheap. unfold lev_edit_seq_distance.
  destruct (seq_strip_prefix_spec (length strings1) strings1 strings2)
    as (pre & u & v & -> & -> & ->).
  rewrite (wlev_app_same_l _ seq_cost_nonneg seq_cost_refl seq_cost_sym).
  assert (Forall (fun s => s <> []) u \/ Forall (fun s => s <> []) v) as Hne'.
  { destruct Hne as [H1|H2]; [left|right]; by eapply Forall_app. }
  clear Hne.
  destruct (seq_strip_suffix_spec u v (length u) (length u) (length v))
    as (n1 & n2 & suf & -> & L1 & L2 & E1 & E2); [lia..|].
  rewrite !firstn_all in E1, E2.
  assert (wlev seq_cost u v == SM u v n1 n2)%Q as ->.
  { unfold SM. rewrite E1 at 1. rewrite E2 at 1.
    apply (wlev_app_same_r _ seq_cost_nonneg seq_cost_refl seq_cost_sym). }
  destruct (Nat.eqb_spec n1 0) as [->|Hn1].
  { unfold SM. rewrite take_0. cbn [wlev]. rewrite length_take.
    by replace (n2 `min` length v) with n2 by lia. }
  destruct (Nat.eqb_spec n2 0) as [->|Hn2].
  { unfold SM. rewrite take_0, wlev_nil_r, length_take.
    by replace (n1 `min` length u) with n1 by lia. }
  destruct (Nat.ltb_spec n2 n1).
  - pose proof (seq_core v u n2 n1 heap L2 L1 ltac:(tauto) Hheap jrow ltac:(lia)) as Hc.
    destruct (seq_rows _ _ _ _ _ _ _ _ _) as [row|]; [|done].
    rewrite Hc. unfold SM.
    apply (wlev_sym _ seq_cost_sym).
  - pose proof (seq_core u v n1 n2 heap L1 L2 Hne' Hheap jrow ltac:(lia)) as Hc.
    destruct (seq_rows _ _ _ _ _ _ _ _ _) as [row|]; [|done].
    by rewrite Hc.
Qed.

(** X22.  When no string of one of the two sequences is empty,
    [lev_edit_seq_distance] returns the least cost of an alignment of the two
    sequences, in which the insertion and the deletion of a string cost 1 and
    the replacement of a string [x] by a string [y] costs twice their distance
    with [xcost != 0] over the sum of their lengths: the result is the cost of
    an alignment, and no alignment costs less.  The allocations succeed and
    the arithmetic is exact. *)
Theorem lev_edit_seq_distance_optimal (strings1 strings2 : list (list A))
    (jrow : nat -> Q) (heap : nat -> nat -> option (nat -> nat)) :
  Forall (fun s => s <> []) strings1 \/ Forall (fun s => s <> []) strings2 ->
  (forall i p, heap i p <> None) ->
  let d := lev_edit_seq_distance (length strings1) (map length strings1) strings1
             (length strings2) (map length strings2) strings2 (Some jrow) heap in
  walign seq_cost strings1 strings2 d /\
  forall k, walign seq_cost strings1 strings2 k -> (d <= k)%Q.
Proof.
  intros Hne Hheap d.
  pose proof (lev_edit_seq_distance_wlev strings1 strings2 jrow heap Hne Hheap) as Hd.
  fold d in Hd. split.
  - eapply walign_weaken; [apply walign_wlev|]. rewrite Hd. apply Qle_refl.
  - intros k Hk. rewrite Hd. by apply wlev_le_align.
Qed.

Lemma seq_strip_prefix_same fuel : forall (u : list (list A)),
  length u <= fuel ->
  seq_strip_prefix fuel (length u) (map length u) u (length u) (map length u) u
  = (0, [], [], 0, [], []).
Proof.
  induction fuel as [|fuel IH]; intros u Hu.
  { destruct u; [done|cbn in Hu; lia]. }
  destruct u as [|x u]; [done|].
  cbn [seq_strip_prefix length map nth tail]. change (0 <? S _) with true.
  rewrite Nat.eqb_refl, memcmp_eq_same, bool_decide_eq_true_2 by done. cbn [andb].
  rewrite !Nat.sub_succ, !Nat.sub_0_r. apply IH. cbn in Hu. lia.
Qed.

(** X23.  [lev_edit_seq_distance] returns 0 for two identical sequences, and
    the number of strings of the other sequence when one sequence is empty,
    whether the allocations succeed or not. *)
Theorem lev_edit_seq_distance_trivial (strings : list (list A))
    (heap_row : option (nat -> Q)) (heap : nat -> nat -> option (nat -> nat)) :
  (lev_edit_seq_distance (length strings) (map length strings) strings
     (length strings) (map length strings) strings heap_row heap == 0)%Q /\
  lev_edit_seq_distance 0 [] [] (length strings) (map length strings) strings
    heap_row heap = Qnat (length strings) /\
  lev_edit_seq_distance (length strings) (map length strings) strings 0 [] []
    heap_row heap = Qnat (length strings).
Proof.
  split; [|split].
  - unfold lev_edit_seq_distance. rewrite seq_strip_prefix_same by lia. reflexivity.
  - reflexivity.
  - unfold lev_edit_seq_distance. destruct strings as [|x u]; [done|].
    cbn [seq_strip_prefix length]. cbn [Nat.ltb Nat.leb andb].
    cbn [seq_strip_suffix]. cbn [Nat.ltb Nat.leb andb]. done.
Qed.

(** X24.  When no string of one of the two sequences is empty, the distance of
    [lev_edit_seq_distance] is symmetric, lies between the difference and the
    sum of the numbers of strings, and is 0 only for identical sequences.  The
    allocations succeed and the arithmetic is exact. *)
Theorem lev_edit_seq_distance_metric (strings1 strings2 : list (list A))
    (jrow jrow' : nat -> Q) (heap heap' : nat -> nat -> option (nat -> nat)) :
  Forall (fun s => s <> []) strings1 \/ Forall (fun s => s <> []) strings2 ->
  (forall i p, heap i p <> None) -> (forall i p, heap' i p <> None) ->
  let d := lev_edit_seq_distance (length strings1) (map length strings1) strings1
             (length strings2) (map length strings2) strings2 (Some jrow) heap in
  let d' := lev_edit_seq_distance (length strings2) (map length strings2) strings2
              (length strings1) (map length strings1) strings1 (Some jrow') heap' in
  (d == d')%Q /\
  (Qnat (length strings1) - Qnat (length strings2) <= d)%Q /\
  (Qnat (length strings2) - Qnat (length strings1) <= d)%Q /\
  (d <= Qnat (length strings1) + Qnat (length strings2))%Q /\
  ((d == 0)%Q -> strings1 = strings2).
Proof.
  intros Hne Hheap Hheap' d d'.
  pose proof (lev_edit_seq_distance_wlev strings1 strings2 jrow heap Hne Hheap) as Hd.
  pose proof (lev_edit_seq_distance_wlev strings2 strings1 jrow' heap'
                ltac:(tauto) Hheap') as Hd'.
  fold d in Hd. fold d' in Hd'.
  pose proof (wlev_ge_length_diff _ seq_cost_nonneg strings1 strings2) as [G1 G2].
  pose proof (wlev_le_length_sum seq_cost strings1 strings2) as G3.
  split; [rewrite Hd, Hd'; apply (wlev_sym _ seq_cost_sym)|].
  split; [by rewrite Hd|]. split; [by rewrite Hd|]. split; [by rewrite Hd|].
  intros Hz. rewrite Hd in Hz.
  by apply (wlev_eq_0 _ seq_cost_nonneg strings1 strings2 seq_cost_eq_0).
Qed.

End SeqAssembly.

Lemma lev_edit_seq_distance_optimal_witness :
  let strings1 := [[1; 2]; [3]] in
  let strings2 := [[1; 2]; [4]; [3; 3]] in
  let d := lev_edit_seq_distance (length strings1) (map length strings1) strings1
             (length strings2) (map length strings2) strings2 (Some (fun _ => 0%Q))
             (fun _ _ => Some (fun _ => 0)) in
  walign seq_cost strings1 strings2 d /\
  forall k, walign seq_cost strings1 strings2 k -> (d <= k)%Q.
Proof.
  intros strings1 strings2.
  apply (lev_edit_seq_distance_optimal strings1 strings2 (fun _ => 0%Q)
           (fun _ _ => Some (fun _ => 0))).
  - left. repeat constructor; discriminate.
  - intros i p. discriminate.
Defined.

Lemma lev_edit_seq_distance_metric_witness :
  let strings1 := [[1; 2]; [3]] in
  let strings2 := [[1; 2]; [4]; [3; 3]] in
  let d := lev_edit_seq_distance (length strings1) (map length strings1) strings1
             (length strings2) (map length strings2) strings2 (Some (fun _ => 0%Q))
             (fun _ _ => Some (fun _ => 0)) in
  let d' := lev_edit_seq_distance (length strings2) (map length strings2) strings2
              (length strings1) (map length strings1) strings1 (Some (fun _ => 1%Q))
              (fun _ _ => Some (fun _ => 1)) in
  (d == d')%Q /\
  (Qnat (length strings1) - Qnat (length strings2) <= d)%Q /\
  (Qnat (length strings2) - Qnat (length strings1) <= d)%Q /\
  (d <= Qnat (length strings1) + Qnat (length strings2))%Q /\
  ((d == 0)%Q -> strings1 = strings2).
Proof.
  intros strings1 strings2.
  apply (lev_edit_seq_distance_metric strings1 strings2 (fun _ => 0%Q) (fun _ => 1%Q)
           (fun _ _ => Some (fun _ => 0)) (fun _ _ => Some (fun _ => 1))).
  - left. repeat constructor; discriminate.
  - intros i p. discriminate.
  - intros i p. discriminate.
Defined.

(** * The distance of sets of strings *)

Section SetLoops.
Context {A : Type} `{EqDecision A}.
Variables s1 s2 : list (list A).
Hypothesis Hne : Forall (fun s => s <> []) s1 \/ Forall (fun s => s <> []) s2.

Lemma pair_length_pos i j :
  i < length s2 -> j < length s1 ->
  length (nth i s2 []) + length (nth j s1 []) <> 0.
Proof.
  intros Hi Hj.
  destruct (lookup_lt_is_Some_2 s2 i Hi) as [y Hy].
  destruct (lookup_lt_is_Some_2 s1 j Hj) as [x Hx].
  rewrite (nth_lookup_Some _ _ _ _ Hy), (nth_lookup_Some _ _ _ _ Hx).
  destruct Hne as [H1|H2].
  - pose proof (proj1 (Forall_lookup _ _) H1 _ _ Hx). destruct x; [done|]. cbn. lia.
  - pose proof (proj1 (Forall_lookup _ _) H2 _ _ Hy). destruct y; [done|]. cbn. lia.
Qed.

Lemma set_row_spec (heap : nat -> option (nat -> nat)) i k : forall j r dists,
  (forall j, heap j <> None) ->
  i < length s2 -> j + k = length s1 -> r + k <= length dists ->
  exists dists',
    set_row k (nth i (map length s2) 0) (nth i s2 []) (map length s1) s1 heap j j r dists
    = Some (Some (r + k, dists')) /\
    length dists' = length dists /\
    (forall p, p < r -> dists' !! p = dists !! p) /\
    forall j', j <= j' < length s1 -> dists' !! (r + (j' - j)) = Some (set_entry s1 s2 i j').
Proof.
  induction k as [|k IH]; intros j r dists Hheap Hi Hk Hr.
  { exists dists. rewrite Nat.add_0_r. split; [done|]. split; [done|]. split; [done|].
    intros j' Hj'. lia. }
  cbn [set_row].
  assert (nth i (map length s2) 0 = length (nth i s2 [])) as Hny.
  { destruct (lookup_lt_is_Some_2 s2 i Hi) as [y Hy].
    rewrite (nth_lookup_Some _ _ _ _ Hy). apply nth_lookup_Some.
    by rewrite list_lookup_fmap, Hy. }
  assert (nth j (map length s1) 0 = length (nth j s1 [])) as Hnx.
  { destruct (lookup_lt_is_Some_2 s1 j ltac:(lia)) as [x Hx].
    rewrite (nth_lookup_Some _ _ _ _ Hx). apply nth_lookup_Some.
    by rewrite list_lookup_fmap, Hx. }
  cbv zeta. rewrite !Hny, !Hnx.
  pose proof (pair_length_pos i j Hi ltac:(lia)) as Hl.
  destruct (Nat.eqb_spec (length (nth i s2 []) + length (nth j s1 [])) 0); [lia|].
  destruct (heap j) as [junk|] eqn:Eh; [|by apply Hheap in Eh].
  rewrite lev_edit_distance_lev. cbn [xsc].
  fold (set_entry s1 s2 i j).
  destruct (IH (j + 1) (r + 1) (<[r := set_entry s1 s2 i j]> dists) Hheap Hi ltac:(lia)
              ltac:(rewrite length_insert; lia))
    as (dists' & E & Hlen & Hold & Hnew).
  exists dists'. replace (r + S k) with (r + 1 + k) by lia.
  split; [by rewrite Hny in E|]. split; [by rewrite Hlen, length_insert|]. split.
  - intros p Hp. rewrite Hold by lia. apply list_lookup_insert_ne. lia.
  - intros j' Hj'. destruct (decide (j' = j)) as [->|Hne'].
    + rewrite Nat.sub_diag, Nat.add_0_r, Hold by lia.
      apply list_lookup_insert_eq. lia.
    + replace (r + (j' - j)) with (r + 1 + (j' - (j + 1))) by lia. apply Hnew. lia.
Qed.

Lemma set_rows_spec (heap : nat -> nat -> option (nat -> nat)) k : forall i dists,
  (forall i j, heap i j <> None) ->
  i + k = length s2 -> length dists = length s2 * length s1 ->
  exists dists',
    set_rows k i (length s1) (map length s1) s1 (map length s2) s2 heap
      (i * length s1) dists = Some (Some dists') /\
    length dists' = length dists /\
    (forall p, p < i * length s1 -> dists' !! p = dists !! p) /\
    forall i' j', i <= i' < length s2 -> j' < length s1 ->
      dists' !! (i' * length s1 + j') = Some (set_entry s1 s2 i' j').
Proof.
  induction k as [|k IH]; intros i dists Hheap Hk Hlen.
  { exists dists. split; [done|]. split; [done|]. split; [done|]. intros. lia. }
  cbn [set_rows].
  destruct (set_row_spec (heap i) i (length s1) 0 (i * length s1) dists
              (Hheap i) ltac:(lia) ltac:(lia) ltac:(nia))
    as (d1 & -> & Hl1 & Hold1 & Hnew1).
  destruct (IH (i + 1) d1 Hheap ltac:(lia) ltac:(lia)) as (d2 & E & Hl2 & Hold2 & Hnew2).
  replace (i * length s1 + length s1) with ((i + 1) * length s1) by lia.
  exists d2. split; [done|]. split; [lia|]. split.
  - intros p Hp. rewrite Hold2 by lia. by apply Hold1.
  - intros i' j' Hi' Hj'. destruct (decide (i' = i)) as [->|Hne'].
    + rewrite Hold2 by lia.
      specialize (Hnew1 j' ltac:(lia)). by rewrite Nat.sub_0_r in Hnew1.
    + apply Hnew2; lia.
Qed.

End SetLoops.

Lemma Qnat_mul a b : (Qnat (a * b) == Qnat a * Qnat b)%Q.
Proof. unfold Qnat. by rewrite Nat2Z.inj_mul, inject_Z_mult. Qed.

Lemma Qnat_neq_0 a : a <> 0 -> ~ (Qnat a == 0)%Q.
Proof. intros Ha Hq. unfold Qnat, Qeq in Hq. cbn in Hq. lia. Qed.

Lemma sum_twice (f g : nat -> Q) l :
  (forall j, In j l -> (f j == 2 * g j)%Q) ->
  (fold_right Qplus 0 (map f l) == 2 * fold_right Qplus 0 (map g l))%Q.
Proof.
  induction l as [|j l IH]; intros H; cbn [map fold_right].
  { ring. }
  rewrite (H j), IH; [ring| |by left]. intros j' Hj'. apply H. by right.
Qed.

Lemma munkers_blackman_min (n1 n2 : nat) (dists : list Q) (unit : Q)
    (cost : nat -> nat -> Z) (lo hi : Z) (fuel : nat) :
  n1 <= n2 ->
  length dists = n2 * n1 ->
  (LEV_EPSILON <= unit)%Q ->
  (forall i j, i < n2 -> j < n1 ->
     (cell n1 dists i j == unit * inject_Z (cost i j))%Q /\ (lo <= cost i j <= hi)%Z) ->
  (unit * inject_Z (hi - lo) < LEV_INFINITY)%Q ->
  n1 + 2 * n2 + 3 <= fuel ->
  exists sigma,
    munkers_blackman n1 n2 fuel dists (mkMunkresHeap true true true true true)
    = Some (Some sigma) /\
    length sigma = n1 /\ Forall (fun i => i < n2) sigma /\ NoDup sigma /\
    forall tau, length tau = n1 -> Forall (fun i => i < n2) tau -> NoDup tau ->
      (assignment_cost n1 dists sigma <= assignment_cost n1 dists tau)%Q.
Proof.
  intros Hn Hlen Hunit Hcells Hspread Hfuel.
  destruct (munkers_blackman_spec n1 n2 dists unit cost lo hi fuel Hn Hlen
              (unit_pos unit Hunit) Hcells Hspread Hfuel)
    as (sigma & H1 & H2 & H3 & H4 & H5).
  exists sigma. split; [done|]. split; [done|]. split; [done|]. split; [done|].
  by apply H5.
Qed.

Section SetAssembly.
Context {A : Type} `{EqDecision A}.
Variables s1 s2 : list (list A).

Lemma set_entry_scaled (L : nat) i j :
  Forall (fun s => s <> []) s1 \/ Forall (fun s => s <> []) s2 ->
  0 < L ->
  Forall (fun x => Forall (fun y => L mod (length x + length y) = 0) s2) s1 ->
  i < length s2 -> j < length s1 ->
  let m := L / (length (nth i s2 []) + length (nth j s1 [])) in
  let c := Z.of_nat (lev 2 (nth i s2 []) (nth j s1 []) * m) in
  (set_entry s1 s2 i j == (1 / Qnat L) * inject_Z c)%Q /\ (0 <= c <= Z.of_nat L)%Z.
Proof.
  intros Hne HL Hdiv Hi Hj m c.
  pose proof (pair_length_pos s1 s2 Hne i j Hi Hj) as Hl.
  destruct (lookup_lt_is_Some_2 s2 i Hi) as [y Hy].
  destruct (lookup_lt_is_Some_2 s1 j Hj) as [x Hx].
  assert (L mod (length (nth i s2 []) + length (nth j s1 [])) = 0) as Hm.
  { rewrite (nth_lookup_Some _ _ _ _ Hy), (nth_lookup_Some _ _ _ _ Hx), Nat.add_comm.
    pose proof (proj1 (Forall_lookup _ _) Hdiv _ _ Hx) as H1.
    exact (proj1 (Forall_lookup _ _) H1 _ _ Hy). }
  apply Nat.Div0.div_exact in Hm. fold m in Hm.
  pose proof (lev_le_length_sum 2 (nth i s2 []) (nth j s1 [])) as Hd.
  assert (m <> 0) as Hm0 by (intros E; rewrite E in Hm; lia).
  split; [|subst c; nia].
  unfold set_entry. subst c. fold (Qnat (lev 2 (nth i s2 []) (nth j s1 []) * m)).
  rewrite Hm at 1. rewrite !Qnat_mul.
  field. split; by apply Qnat_neq_0.
Qed.

Lemma set_sum_spec (heap_sum : nat -> option (nat -> nat)) (sigma : list nat) k :
  forall j sum,
  (forall j, heap_sum j <> None) ->
  j + k = length s1 -> length sigma = length s1 ->
  Forall (fun i => i < length s2) sigma ->
  exists q,
    set_sum k j (map length s1) s1 (map length s2) s2 sigma heap_sum sum = Some q /\
    (q == sum + fold_right Qplus 0
                  (map (fun j => seq_cost (nth j s1 []) (nth (nth j sigma 0%nat) s2 []))
                     (seq j k)))%Q.
Proof.
  induction k as [|k IH]; intros j sum Hheap Hk Hlen Hsig.
  { exists sum. split; [done|]. cbn. ring. }
  cbn [set_sum seq map fold_right].
  destruct (lookup_lt_is_Some_2 sigma j ltac:(lia)) as [i Hi].
  pose proof (proj1 (Forall_lookup _ _) Hsig _ _ Hi) as Hi2.
  rewrite (nth_lookup_Some _ _ _ _ Hi).
  destruct (lookup_lt_is_Some_2 s2 i Hi2) as [y Hy].
  destruct (lookup_lt_is_Some_2 s1 j ltac:(lia)) as [x Hx].
  assert (nth i (map length s2) 0 = length y) as Hny.
  { apply nth_lookup_Some. by rewrite list_lookup_fmap, Hy. }
  assert (nth j (map length s1) 0 = length x) as Hnx.
  { apply nth_lookup_Some. by rewrite list_lookup_fmap, Hx. }
  cbv zeta. rewrite !Hny, !Hnx, (nth_lookup_Some _ _ _ _ Hy), (nth_lookup_Some _ _ _ _ Hx).
  replace (S j) with (j + 1) by lia.
  destruct (Nat.ltb_spec 0 (length x + length y)) as [Hl|Hl].
  - destruct (heap_sum j) as [junk|] eqn:Eh; [|by apply Hheap in Eh].
    rewrite lev_edit_distance_lev. cbn [xsc].
    destruct (IH (j + 1) (sum + 2 * Qnat (lev 2 x y) / Qnat (length x + length y))%Q
                Hheap ltac:(lia) Hlen Hsig) as (q & -> & Hq).
    exists q. split; [done|]. rewrite Hq. unfold seq_cost, Qdiv. ring.
  - destruct (IH (j + 1) sum Hheap ltac:(lia) Hlen Hsig) as (q & -> & Hq).
    exists q. split; [done|]. rewrite Hq.
    destruct x; [|cbn in Hl; lia]. destruct y; [|cbn in Hl; lia].
    unfold seq_cost. cbn [lev length]. change (Qnat 0) with 0%Q. ring.
Qed.

Lemma set_cost_assignment (dists : list Q) (t : list nat) :
  (forall i j, i < length s2 -> j < length s1 ->
     (cell (length s1) dists i j == set_entry s1 s2 i j)%Q) ->
  length t = length s1 -> Forall (fun i => i < length s2) t ->
  (set_cost s1 s2 t
   == Qnat (length s2 - length s1) + 2 * assignment_cost (length s1) dists t)%Q.
Proof.
  intros Hcell Hlen Ht. unfold set_cost, assignment_cost. rewrite Hlen.
  apply Qplus_inj_l. apply sum_twice. intros j Hj. apply in_seq in Hj.
  destruct (lookup_lt_is_Some_2 t j ltac:(lia)) as [i Hi].
  pose proof (proj1 (Forall_lookup _ _) Ht _ _ Hi) as Hi2.
  rewrite (nth_lookup_Some _ _ _ _ Hi).
  rewrite (Hcell i j Hi2 ltac:(lia)). unfold seq_cost, set_entry.
  rewrite (lev_sym 2 (nth j s1 [])), (Nat.add_comm (length (nth j s1 []))).
  unfold Qdiv. ring.
Qed.

End SetAssembly.

Section SetCore.
Context {A : Type} `{EqDecision A}.

Lemma min_association_nil (s2 : list (list A)) :
  min_association [] s2 (Qnat (length s2)).
Proof.
  exists []. split; [|split].
  - split; [done|]. split; [constructor|constructor].
  - unfold set_cost. cbn [length seq map fold_right]. rewrite Nat.sub_0_r. ring.
  - intros tau _. apply Qle_refl.
Qed.

Lemma divisible_swap (s1 s2 : list (list A)) (L : nat) :
  Forall (fun x => Forall (fun y => L mod (length x + length y) = 0) s2) s1 ->
  Forall (fun y => Forall (fun x => L mod (length y + length x) = 0) s1) s2.
Proof.
  intros H. apply Forall_lookup. intros i y Hy. apply Forall_lookup. intros j x Hx.
  rewrite Nat.add_comm.
  exact (proj1 (Forall_lookup _ _) (proj1 (Forall_lookup _ _) H _ _ Hx) _ _ Hy).
Qed.

Lemma set_core (s1 s2 : list (list A)) (L : nat) (junk : nat -> Q)
    (heap : nat -> nat -> option (nat -> nat)) (fuel : nat)
    (heap_sum : nat -> option (nat -> nat)) :
  Forall (fun s => s <> []) s1 \/ Forall (fun s => s <> []) s2 ->
  0 < L -> (Z.of_nat L <= 10 ^ 14)%Z ->
  Forall (fun x => Forall (fun y => L mod (length x + length y) = 0) s2) s1 ->
  (forall i j, heap i j <> None) -> (forall j, heap_sum j <> None) ->
  length s1 <= length s2 ->
  length s1 + 2 * length s2 + 3 <= fuel ->
  exists q,
    match set_rows (length s2) 0 (length s1) (map length s1) s1 (map length s2) s2
            heap 0 (map junk (seq 0 (length s1 * length s2))) with
    | None => None
    | Some None => Some (-1)%Q
    | Some (Some dists) =>
        match munkers_blackman (length s1) (length s2) fuel dists
                (mkMunkresHeap true true true true true) with
        | None => None
        | Some None => Some (-1)%Q
        | Some (Some map) =>
            match set_sum (length s1) 0 (List.map length s1) s1 (List.map length s2) s2
                    map heap_sum (Qnat (length s2 - length s1)) with
            | None => Some (-1)%Q
            | Some sum => Some sum
            end
        end
    end = Some q /\
    min_association s1 s2 q.
Proof.
  intros Hne HL HLmax Hdiv Hheap Hsum Hn Hfuel.
  destruct (set_rows_spec s1 s2 Hne heap (length s2) 0
              (map junk (seq 0 (length s1 * length s2))) Hheap ltac:(lia)
              ltac:(rewrite length_map, length_seq; lia))
    as (dists & E & Hlen & _ & Hcells).
  change (0 * length s1) with 0 in E. rewrite E. clear E.
  rewrite length_map, length_seq in Hlen.
  assert (forall i j, i < length s2 -> j < length s1 ->
            cell (length s1) dists i j = set_entry s1 s2 i j) as Hcell.
  { intros i j Hi Hj. unfold cell, rdq. apply nth_lookup_Some. apply Hcells; lia. }
  assert (~ (Qnat L == 0)%Q) as HL0 by (apply Qnat_neq_0; lia).
  destruct (munkers_blackman_min (length s1) (length s2) dists (1 / Qnat L)%Q
              (fun i j => Z.of_nat (lev 2 (nth i s2 []) (nth j s1 [])
                                    * (L / (length (nth i s2 []) + length (nth j s1 [])))))
              0%Z (Z.of_nat L) fuel Hn ltac:(lia))
    as (sigma & -> & Hl & Hlt & Hnd & Hopt).
  - apply Qle_shift_div_l.
    + change 0%Q with (inject_Z 0). unfold Qnat. rewrite <- Zlt_Qlt. lia.
    + change (10 ^ 14)%Z with 100000000000000%Z in HLmax.
      unfold LEV_EPSILON, Qnat, Qle, Qmult. cbn. lia.
  - intros i j Hi Hj. rewrite (Hcell i j Hi Hj).
    exact (set_entry_scaled s1 s2 L i j Hne HL Hdiv Hi Hj).
  - rewrite Z.sub_0_r. fold (Qnat L).
    assert (1 / Qnat L * Qnat L == 1)%Q as -> by (field; exact HL0).
    by vm_compute.
  - exact Hfuel.
  - destruct (set_sum_spec s1 s2 heap_sum sigma (length s1) 0
                (Qnat (length s2 - length s1)) Hsum ltac:(lia) Hl Hlt) as (q & -> & Hq).
    exists q. split; [done|].
    exists sigma. split; [done|]. split; [exact Hq|].
    intros tau (Hlt' & Htau & Hndt).
    assert (forall i j, i < length s2 -> j < length s1 ->
              (cell (length s1) dists i j == set_entry s1 s2 i j)%Q) as Hcq.
    { intros i j Hi Hj. by rewrite Hcell. }
    rewrite (set_cost_assignment s1 s2 dists sigma Hcq Hl Hlt).
    rewrite (set_cost_assignment s1 s2 dists tau Hcq Hlt' Htau).
    apply Qplus_le_r. apply Qmult_le_l; [reflexivity|]. by apply Hopt.
Qed.

Lemma lev_set_distance_min (strings1 strings2 : list (list A)) (L : nat)
    (junk : nat -> Q) (heap : nat -> nat -> option (nat -> nat)) (fuel : nat)
    (heap_sum : nat -> option (nat -> nat)) :
  Forall (fun s => s <> []) strings1 \/ Forall (fun s => s <> []) strings2 ->
  0 < L -> (Z.of_nat L <= 10 ^ 14)%Z ->
  Forall (fun x => Forall (fun y => L mod (length x + length y) = 0) strings2)
    strings1 ->
  (forall i j, heap i j <> None) -> (forall j, heap_sum j <> None) ->
  length strings1 `min` length strings2
    + 2 * (length strings1 `max` length strings2) + 3 <= fuel ->
  exists q,
    lev_set_distance (length strings1) (map length strings1) strings1
      (length strings2) (map length strings2) strings2 (Some junk) heap fuel
      (mkMunkresHeap true true true true true) heap_sum = Some q /\
    if length strings2 <? length strings1
    then min_association strings2 strings1 q
    else min_association strings1 strings2 q.
Proof.
  intros Hne HL HLmax Hdiv Hheap Hsum Hfuel. unfold lev_set_distance.
  destruct (Nat.eqb_spec (length strings1) 0) as [E1|E1].
  { exists (Qnat (length strings2)). split; [done|].
    destruct strings1; [|done].
    destruct (Nat.ltb_spec (length strings2) (length (@nil (list A)))) as [Hlt|_];
      [cbn in Hlt; lia|].
    apply min_association_nil. }
  destruct (Nat.eqb_spec (length strings2) 0) as [E2|E2].
  { exists (Qnat (length strings1)). split; [done|].
    destruct strings2; [|done].
    destruct (Nat.ltb_spec (length (@nil (list A))) (length strings1)) as [_|Hle];
      [|cbn in Hle; lia].
    apply min_association_nil. }
  destruct (Nat.ltb_spec (length strings2) (length strings1)) as [Hlt|Hle].
  - exact (set_core strings2 strings1 L junk heap fuel heap_sum ltac:(tauto) HL HLmax
             (divisible_swap _ _ _ Hdiv) Hheap Hsum ltac:(lia) ltac:(lia)).
  - exact (set_core strings1 strings2 L junk heap fuel heap_sum Hne HL HLmax
             Hdiv Hheap Hsum Hle ltac:(lia)).
Qed.

(** X25.  [lev_set_distance] returns the cost of a cheapest association of the
    strings of the smaller set with distinct strings of the larger one, in
    which a pair [x], [y] costs twice their distance with [xcost != 0] over
    the sum of their lengths and every string without a partner costs 1: the
    result is the cost of an association, and no association costs less.
    This holds when no string of one of the two sets is empty and when the
    sums of the lengths of the pairs all divide a number [L] of at most 1e14,
    so that the entries of the matrix are whole multiples of [1/L], which is
    at least [LEV_EPSILON].  The allocations succeed, the arithmetic is exact,
    and the loops of [munkers_blackman] end within the fuel given. *)
Theorem lev_set_distance_optimal (strings1 strings2 : list (list A)) (L : nat)
    (junk : nat -> Q) (heap : nat -> nat -> option (nat -> nat)) (fuel : nat)
    (heap_sum : nat -> option (nat -> nat)) :
  Forall (fun s => s <> []) strings1 \/ Forall (fun s => s <> []) strings2 ->
  0 < L -> (Z.of_nat L <= 10 ^ 14)%Z ->
  Forall (fun x => Forall (fun y => L mod (length x + length y) = 0) strings2)
    strings1 ->
  (forall i j, heap i j <> None) -> (forall j, heap_sum j <> None) ->
  length strings1 `min` length strings2
    + 2 * (length strings1 `max` length strings2) + 3 <= fuel ->
  exists q,
    lev_set_distance (length strings1) (map length strings1) strings1
      (length strings2) (map length strings2) strings2 (Some junk) heap fuel
      (mkMunkresHeap true true true true true) heap_sum = Some q /\
    (length strings1 <= length strings2 -> min_association strings1 strings2 q) /\
    (length strings2 < length strings1 -> min_association strings2 strings1 q).
Proof.
  intros Hne HL HLmax Hdiv Hheap Hsum Hfuel.
  destruct (lev_set_distance_min strings1 strings2 L junk heap fuel heap_sum
              Hne HL HLmax Hdiv Hheap Hsum Hfuel) as (q & E & Hq).
  exists q. split; [exact E|].
  destruct (Nat.ltb_spec (length strings2) (length strings1)) as [Hlt|Hle].
  - split; [lia|]. intros _. exact Hq.
  - split; [|lia]. intros _. exact Hq.
Qed.

Lemma seq_cost_le_2 (x y : list A) : (seq_cost x y <= 2)%Q.
Proof.
  unfold seq_cost. pose proof (lev_le_length_sum 2 x y) as Hd.
  destruct (decide (length x + length y = 0)) as [E|E].
  { rewrite E. assert (lev 2 x y = 0) as -> by lia. by vm_compute. }
  assert (0 < Qnat (length x + length y))%Q as Hpos.
  { change 0%Q with (inject_Z 0). unfold Qnat. rewrite <- Zlt_Qlt. lia. }
  assert (2 / Qnat (length x + length y) * Qnat (lev 2 x y)
          == 2 * (Qnat (lev 2 x y) / Qnat (length x + length y)))%Q as ->.
  { unfold Qdiv. ring. }
  assert (Qnat (lev 2 x y) / Qnat (length x + length y) <= 1)%Q; [|lra].
  apply Qle_shift_div_r; [done|]. rewrite Qmult_1_l. by apply Qnat_le.
Qed.

Lemma sum_bounds (f : nat -> Q) l :
  (forall j, (0 <= f j <= 2)%Q) ->
  (0 <= fold_right Qplus 0 (map f l) <= 2 * Qnat (length l))%Q.
Proof.
  intros Hf. induction l as [|j l IH]; cbn [map fold_right length].
  { change (Qnat 0) with 0%Q. lra. }
  rewrite Qnat_S. pose proof (Hf j). lra.
Qed.

Lemma sum_bounds_nonneg (f : nat -> Q) l :
  (forall j, (0 <= f j)%Q) -> (0 <= fold_right Qplus 0 (map f l))%Q.
Proof.
  intros Hf. induction l as [|j l IH]; cbn [map fold_right]; [lra|].
  pose proof (Hf j). lra.
Qed.

Lemma set_cost_bounds (s1 s2 : list (list A)) sigma :
  length s1 <= length s2 ->
  (Qnat (length s2 - length s1) <= set_cost s1 s2 sigma
   <= Qnat (length s1 + length s2))%Q.
Proof.
  intros Hn. unfold set_cost.
  pose proof (sum_bounds
    (fun j => seq_cost (nth j s1 []) (nth (nth j sigma 0) s2 [])) (seq 0 (length s1))
    (fun j => conj (seq_cost_nonneg _ _) (seq_cost_le_2 _ _))) as Hs.
  rewrite length_seq in Hs.
  assert (Qnat (length s1 + length s2)
          == Qnat (length s2 - length s1) + 2 * Qnat (length s1))%Q as ->.
  { unfold Qnat. rewrite <- (inject_Z_mult 2), <- inject_Z_plus.
    apply inject_Z_injective. lia. }
  lra.
Qed.

Lemma nth_map_seq (f : nat -> nat) n j : j < n -> nth j (map f (seq 0 n)) 0 = f j.
Proof.
  intros Hj. apply nth_lookup_Some.
  rewrite list_lookup_fmap, lookup_seq_lt by done. done.
Qed.

Lemma sum_zero (f : nat -> Q) l :
  (forall j, In j l -> (f j == 0)%Q) -> (fold_right Qplus 0 (map f l) == 0)%Q.
Proof.
  induction l as [|j l IH]; intros H; cbn [map fold_right]; [reflexivity|].
  rewrite (H j), IH; [ring| |by left]. intros j' Hj'. apply H. by right.
Qed.

Lemma sum_zero_inv (f : nat -> Q) l :
  (forall j, (0 <= f j)%Q) -> (fold_right Qplus 0 (map f l) == 0)%Q ->
  forall j, In j l -> (f j == 0)%Q.
Proof.
  intros Hf. induction l as [|j l IH]; intros H j' Hj'; [done|].
  cbn [map fold_right] in H.
  pose proof (sum_bounds_nonneg f l Hf) as Hs. pose proof (Hf j) as Hj.
  destruct Hj' as [<-|Hj'].
  - apply Qle_antisym; [|done]. lra.
  - apply IH; [|done]. apply Qle_antisym; [|done]. lra.
Qed.

Lemma set_cost_perm (s1 s2 : list (list A)) :
  s1 ≡ₚ s2 ->
  exists sigma, injection (length s1) (length s2) sigma /\ (set_cost s1 s2 sigma == 0)%Q.
Proof.
  intros Hp. apply Permutation_inj in Hp as (Hlen & f & Hinj & Hf).
  assert (forall j, j < length s1 ->
            f j < length s2 /\ nth j s1 [] = nth (f j) s2 []) as Hnth.
  { intros j Hj. destruct (lookup_lt_is_Some_2 s1 j Hj) as [x Hx].
    pose proof Hx as Hy. rewrite Hf in Hy.
    split; [by apply lookup_lt_Some in Hy|].
    by rewrite (nth_lookup_Some _ _ _ _ Hx), (nth_lookup_Some _ _ _ _ Hy). }
  exists (map f (seq 0 (length s1))). split.
  - split; [by rewrite length_map, length_seq|]. split.
    + apply Forall_forall. intros i Hi. apply list_elem_of_fmap in Hi as (j & -> & Hj).
      apply elem_of_seq in Hj. apply Hnth. lia.
    + apply (NoDup_fmap_2 f); apply NoDup_seq.
  - unfold set_cost. rewrite Hlen, Nat.sub_diag. change (Qnat 0) with 0%Q.
    rewrite Qplus_0_l. apply sum_zero. intros j Hj%in_seq.
    rewrite nth_map_seq by lia. rewrite (proj2 (Hnth j ltac:(lia))). apply seq_cost_refl.
Qed.

Lemma set_cost_zero_perm (s1 s2 : list (list A)) sigma :
  length s1 <= length s2 -> injection (length s1) (length s2) sigma ->
  (set_cost s1 s2 sigma == 0)%Q -> s1 ≡ₚ s2.
Proof.
  intros Hn (Hl & Hlt & Hnd) Hz. unfold set_cost in Hz.
  pose proof (sum_bounds_nonneg
    (fun j => seq_cost (nth j s1 []) (nth (nth j sigma 0) s2 [])) (seq 0 (length s1))
    (fun j => seq_cost_nonneg _ _)) as Hs.
  pose proof (Qnat_nonneg (length s2 - length s1)) as Hd.
  assert (Qnat (length s2 - length s1) == 0)%Q as Hd0 by (apply Qle_antisym; lra).
  assert (length s2 = length s1) as Hlen.
  { unfold Qnat, Qeq in Hd0. cbn in Hd0. lia. }
  rewrite Hd0, Qplus_0_l in Hz.
  pose proof (sum_zero_inv _ _ (fun j => seq_cost_nonneg _ _) Hz) as Hall.
  assert (forall j, j < length s1 -> nth j sigma 0 < length s1) as Hrange.
  { intros j Hj. rewrite Forall_forall in Hlt.
    assert (nth j sigma 0 < length s2); [|lia].
    apply Hlt. apply list_elem_of_In, nth_In. lia. }
  apply Permutation_inj. split; [done|].
  exists (fun j => if decide (j < length s1) then nth j sigma 0 else j). split.
  - intros x y Hxy. destruct (decide (x < _)) as [Hx|Hx], (decide (y < _)) as [Hy|Hy].
    + destruct (lookup_lt_is_Some_2 sigma x ltac:(lia)) as [vx Ex].
      destruct (lookup_lt_is_Some_2 sigma y ltac:(lia)) as [vy Ey].
      rewrite (nth_lookup_Some _ _ _ _ Ex), (nth_lookup_Some _ _ _ _ Ey) in Hxy. subst vy.
      exact (NoDup_lookup _ _ _ _ Hnd Ex Ey).
    + pose proof (Hrange x Hx). lia.
    + pose proof (Hrange y Hy). lia.
    + done.
  - intros j. destruct (decide (j < length s1)) as [Hj|Hj].
    + destruct (lookup_lt_is_Some_2 s1 j Hj) as [x Hx].
      destruct (lookup_lt_is_Some_2 s2 (nth j sigma 0) ltac:(rewrite Hlen; by apply Hrange))
        as [y Hy].
      rewrite Hx, Hy. f_equal.
      rewrite <- (nth_lookup_Some _ _ [] _ Hx), <- (nth_lookup_Some _ _ [] _ Hy).
      apply seq_cost_eq_0. apply Hall. apply in_seq. lia.
    + rewrite !lookup_ge_None_2 by lia. done.
Qed.

(** X26.  Under the conditions of X25 the result of [lev_set_distance] lies
    between the difference and the sum of the numbers of strings of the two
    sets, and it is 0 exactly when the two sets hold the same strings with
    the same multiplicities, in any order. *)
Theorem lev_set_distance_bounds (strings1 strings2 : list (list A)) (L : nat)
    (junk : nat -> Q) (heap : nat -> nat -> option (nat -> nat)) (fuel : nat)
    (heap_sum : nat -> option (nat -> nat)) :
  Forall (fun s => s <> []) strings1 \/ Forall (fun s => s <> []) strings2 ->
  0 < L -> (Z.of_nat L <= 10 ^ 14)%Z ->
  Forall (fun x => Forall (fun y => L mod (length x + length y) = 0) strings2)
    strings1 ->
  (forall i j, heap i j <> None) -> (forall j, heap_sum j <> None) ->
  length strings1 `min` length strings2
    + 2 * (length strings1 `max` length strings2) + 3 <= fuel ->
  exists q,
    lev_set_distance (length strings1) (map length strings1) strings1
      (length strings2) (map length strings2) strings2 (Some junk) heap fuel
      (mkMunkresHeap true true true true true) heap_sum = Some q /\
    (Qnat (length strings1 `max` length strings2
           - length strings1 `min` length strings2) <= q
     <= Qnat (length strings1 + length strings2))%Q /\
    (strings1 ≡ₚ strings2 <-> (q == 0)%Q).
Proof.
  intros Hne HL HLmax Hdiv Hheap Hsum Hfuel.
  destruct (lev_set_distance_min strings1 strings2 L junk heap fuel heap_sum
              Hne HL HLmax Hdiv Hheap Hsum Hfuel) as (q & E & Hq).
  exists q. split; [exact E|].
  destruct (Nat.ltb_spec (length strings2) (length strings1)) as [Hlt|Hle].
  - split.
    + destruct Hq as (sigma & _ & -> & _).
      replace (length strings1 `max` length strings2
               - length strings1 `min` length strings2)
        with (length strings1 - length strings2) by lia.
      rewrite (Nat.add_comm (length strings1)). apply set_cost_bounds. lia.
    + split.
      * intros Hp. apply Permutation_length in Hp. lia.
      * intros Hz. destruct Hq as (sigma & Hinj & Hqs & _). rewrite Hqs in Hz.
        symmetry. by apply (set_cost_zero_perm strings2 strings1 sigma); [lia|..].
  - split.
    + destruct Hq as (sigma & _ & -> & _).
      replace (length strings1 `max` length strings2
               - length strings1 `min` length strings2)
        with (length strings2 - length strings1) by lia.
      by apply set_cost_bounds.
    + split.
      * intros Hp. destruct Hq as (sigma & _ & -> & Hmin).
        pose proof (set_cost_bounds strings1 strings2 sigma Hle) as [Hlo _].
        pose proof (Qnat_nonneg (length strings2 - length strings1)) as Hd.
        destruct (set_cost_perm strings1 strings2 Hp) as (tau & Hinj & Hz).
        specialize (Hmin tau Hinj). rewrite Hz in Hmin.
        apply Qle_antisym; [done|]. lra.
      * intros Hz. destruct Hq as (sigma & Hinj & Hqs & _). rewrite Hqs in Hz.
        by apply (set_cost_zero_perm strings1 strings2 sigma).
Qed.

End SetCore.

Lemma lev_set_distance_optimal_witness :
  exists q,
    lev_set_distance 2 [1; 2] [[1]; [2; 3]] 3 [2; 1; 2] [[1; 2]; [3]; [2; 3]]
      (Some (fun _ => 0%Q)) (fun _ _ => Some (fun _ => 0)) 11
      (mkMunkresHeap true true true true true) (fun _ => Some (fun _ => 0))
    = Some q /\
    (2 <= 3 -> min_association [[1]; [2; 3]] [[1; 2]; [3]; [2; 3]] q) /\
    (3 < 2 -> min_association [[1; 2]; [3]; [2; 3]] [[1]; [2; 3]] q).
Proof.
  apply (lev_set_distance_optimal [[1]; [2; 3]] [[1; 2]; [3]; [2; 3]] 12
           (fun _ => 0%Q) (fun _ _ => Some (fun _ => 0)) 11
           (fun _ => Some (fun _ => 0))).
  - left. repeat constructor; done.
  - lia.
  - vm_compute. discriminate.
  - repeat constructor.
  - done.
  - done.
  - simpl. lia.
Defined.

Lemma lev_set_distance_bounds_witness :
  exists q,
    lev_set_distance 2 [1; 2] [[1]; [2; 3]] 3 [2; 1; 2] [[1; 2]; [3]; [2; 3]]
      (Some (fun _ => 0%Q)) (fun _ _ => Some (fun _ => 0)) 11
      (mkMunkresHeap true true true true true) (fun _ => Some (fun _ => 0))
    = Some q /\
    (Qnat (2 `max` 3 - 2 `min` 3) <= q <= Qnat (2 + 3))%Q /\
    ([[1]; [2; 3]] ≡ₚ [[1; 2]; [3]; [2; 3]] <-> (q == 0)%Q).
Proof.
  apply (lev_set_distance_bounds [[1]; [2; 3]] [[1; 2]; [3]; [2; 3]] 12
           (fun _ => 0%Q) (fun _ _ => Some (fun _ => 0)) 11
           (fun _ => Some (fun _ => 0))).
  - left. repeat constructor; done.
  - lia.
  - vm_compute. discriminate.
  - repeat constructor.
  - done.
  - done.
  - simpl. lia.
Defined.
